(** * The reactor-based network runtime of pikiwidb (src/net)

    A shallow embedding of [LibeventReactor], [EventLoop], [PipeObject]
    and [TcpObject], followed by the properties the specification states
    about them.

    Conventions of the embedding.
    - A C++ [int] is a [Z] kept in the 32-bit signed range; every
      arithmetic step that can leave the range is wrapped with
      [MachInt.wrap].
    - [std::unordered_map] is a [gmap]; [std::vector] is a [list].
    - A method whose [assert] fails, or which dereferences a null
      pointer, returns [None]: the process has aborted. A loop of the
      source that has no bound is run for a stated number of turns, and
      gives [None] when it is still running then.
    - [std::function] members are [option]s: [None] is the empty function.
    - Closures are defunctionalised: one constructor per lambda of the
      source ([TimerCb], [Closure]).
    - Callbacks supplied by the user act on a user-owned state [U] and are
      recorded in a trace; they do not call back into the runtime. *)

From Stdlib Require Import ZArith List Bool Lia.
From stdpp Require Import base option gmap list fin_sets.

Open Scope Z_scope.

(** ** Machine integers *)

Module MachInt.

(** Two's complement reduction of [z] to a signed integer of [bits] bits. *)
Definition wrap (bits : Z) (z : Z) : Z :=
  (z + 2 ^ (bits - 1)) mod 2 ^ bits - 2 ^ (bits - 1).

Definition max_signed (bits : Z) : Z := 2 ^ (bits - 1) - 1.
Definition min_signed (bits : Z) : Z := - 2 ^ (bits - 1).

(** [int] of the source. *)
Definition int_bits : Z := 32.
Definition INT_MAX : Z := max_signed int_bits.
Definition INT_MIN : Z := min_signed int_bits.
Definition to_int (z : Z) : Z := wrap int_bits z.

(** [std::atomic<T>::fetch_add(1)]: the old value is returned, the stored
    value is incremented with wrap-around. *)
Definition fetch_add (bits : Z) (counter : Z) : Z * Z :=
  (counter, wrap bits (counter + 1)).

End MachInt.

(** ** Event masks and identifiers *)

(** Modelled from the spec: [kEventRead] and [kEventWrite] are declared in
    a header that is not part of the sources at hand; section 4.B describes
    the event mask as a bitmask over {read, write}, so they are two
    distinct bits. *)
Definition kEventRead : Z := 1.
Definition kEventWrite : Z := 2.

(** libevent flags used by the reactor. *)
Definition EV_READ : Z := 2.
Definition EV_WRITE : Z := 4.
Definition EV_PERSIST : Z := 16.

(** Address of an object on the heap (the value of a pointer). *)
Definition addr := N.

(** What the reactor reads through an [EventObject*]: the pointer itself,
    [GetUniqueId()] and [Fd()]. *)
Record EventObject := mkEventObject {
  eo_addr : addr;
  eo_unique_id : Z;
  eo_fd : Z
}.

(** The closures stored in timers. *)
Inductive TimerCb (U : Type) : Type :=
| CbUser (f : U -> U)
    (* a closure of the caller of ScheduleLater / ScheduleRepeatedly *)
| CbIdleCheck (w_obj : addr).
    (* the lambda of TcpObject::SetIdleTimeout, capturing a weak pointer *)
Arguments CbUser {U} f.
Arguments CbIdleCheck {U} w_obj.

(** ** LibeventReactor *)

Module LibeventReactor.

(** Which static callback an I/O event was created with. *)
Inductive IoCallback := OnReadable | OnWritable.

(** [struct event] for an fd: the arguments of [event_new]. *)
Record event := mkEvent {
  ev_fd : Z;
  ev_flags : Z;
  ev_cb : IoCallback;
  ev_arg : addr
}.

(** [struct Object]: the two owning pointers are [None] when null. *)
Record Object := mkObject {
  read_event : option event;
  write_event : option event;
  ev_obj : addr
}.

Section WithUser.
Context {U : Type}.

(** [struct Timer], together with the [timeval] its event was added with. *)
Record Timer := mkTimer {
  id : Z;
  repeat : bool;
  callback : TimerCb U;
  flag : Z;
  tv_sec : Z;
  tv_usec : Z
}.

Record t := mkReactor {
  objects_ : gmap Z Object;
  timers_ : gmap Z Timer
}.

(** A freshly constructed reactor (the wake-up event carries no state). *)
Definition new : t := {| objects_ := ∅; timers_ := ∅ |}.

(** The fd watches currently installed in the event base: exactly the
    events owned by the [unique_ptr]s of the registration records. *)
Definition watches_of (o : Object) : list event :=
  match read_event o with Some e => [e] | None => [] end ++
  match write_event o with Some e => [e] | None => [] end.

Definition os_watches (r : t) : list event :=
  concat (map (fun kv => watches_of (snd kv)) (map_to_list (objects_ r))).

(** [bool LibeventReactor::Register(EventObject* evobj, int events)] *)
Definition Register (evobj : option EventObject) (events : Z) (r : t)
  : option (bool * t) :=
  match evobj with
  | None => Some (false, r)
  | Some eo =>
    if events =? 0 then Some (true, r)
    else
      let id := eo_unique_id eo in
      if id <? 0 then None (* assert(id >= 0) *)
      else
        match objects_ r !! id with
        | Some _ => Some (false, r)
        | None =>
          let rd :=
            if Z.land events kEventRead =? 0 then None
            else Some (mkEvent (eo_fd eo) (Z.lor EV_READ EV_PERSIST)
                               OnReadable (eo_addr eo)) in
          let wr :=
            if Z.land events kEventWrite =? 0 then None
            else Some (mkEvent (eo_fd eo) (Z.lor EV_WRITE EV_PERSIST)
                               OnWritable (eo_addr eo)) in
          Some (true,
                {| objects_ := <[id := mkObject rd wr (eo_addr eo)]> (objects_ r);
                   timers_ := timers_ r |})
        end
  end.

(** [void LibeventReactor::Unregister(EventObject* evobj)] *)
Definition Unregister (evobj : option EventObject) (r : t) : t :=
  match evobj with
  | None => r
  | Some eo =>
    let id := eo_unique_id eo in
    match objects_ r !! id with
    | None => r
    | Some _ => {| objects_ := delete id (objects_ r); timers_ := timers_ r |}
    end
  end.

(** [bool LibeventReactor::Modify(EventObject* evobj, int events)] *)
Definition Modify (evobj : option EventObject) (events : Z) (r : t)
  : option (bool * t) :=
  match evobj with
  | None => Some (false, r)
  | Some eo =>
    let id := eo_unique_id eo in
    match objects_ r !! id with
    | None => Some (false, r)
    | Some obj =>
      if negb (N.eqb (ev_obj obj) (eo_addr eo)) then None
      else
        let rd :=
          if Z.land events kEventRead =? 0 then None
          else match read_event obj with
               | Some e => Some e
               | None => Some (mkEvent (eo_fd eo) (Z.lor EV_READ EV_PERSIST)
                                       OnReadable (eo_addr eo))
               end in
        let wr :=
          if Z.land events kEventWrite =? 0 then None
          else match write_event obj with
               | Some e => Some e
               | None => Some (mkEvent (eo_fd eo) (Z.lor EV_WRITE EV_PERSIST)
                                       OnWritable (eo_addr eo))
               end in
        Some (true,
              {| objects_ := <[id := mkObject rd wr (ev_obj obj)]> (objects_ r);
                 timers_ := timers_ r |})
    end
  end.

(** [void LibeventReactor::Schedule(TimerId, int period_ms, f, bool repeat)]:
    [/] and [%] of C++ truncate towards zero. *)
Definition Schedule (tid : Z) (period_ms : Z) (f : TimerCb U) (rep : bool)
  (r : t) : t :=
  let timer :=
    {| id := tid; repeat := rep; callback := f;
       flag := if rep then EV_PERSIST else 0;
       tv_sec := Z.quot period_ms 1000;
       tv_usec := MachInt.to_int (1000 * Z.rem period_ms 1000) |} in
  {| objects_ := objects_ r; timers_ := <[tid := timer]> (timers_ r) |}.

Definition ScheduleRepeatedly (tid period_ms : Z) (f : TimerCb U) (r : t) : t :=
  Schedule tid period_ms f true r.

Definition ScheduleLater (tid delay_ms : Z) (f : TimerCb U) (r : t) : t :=
  Schedule tid delay_ms f false r.

(** [bool LibeventReactor::Cancel(TimerId id)] *)
Definition Cancel (tid : Z) (r : t) : bool * t :=
  match timers_ r !! tid with
  | None => (false, r)
  | Some _ => (true, {| objects_ := objects_ r; timers_ := delete tid (timers_ r) |})
  end.

(** The time after which a timer event fires, in microseconds. *)
Definition timeout_us (tm : Timer) : Z := tv_sec tm * 1000000 + tv_usec tm.

End WithUser.

Arguments t : clear implicits.
Arguments Timer : clear implicits.

End LibeventReactor.

(** ** PipeObject: the self-pipe notifier *)

Module PipeObject.

(** The kernel pipe is the number of bytes written and not yet read,
    bounded by its capacity. *)
Record t := mkPipe {
  unique_id_ : Z;
  read_fd_ : Z;
  write_fd_ : Z;
  pending : nat;
  capacity : nat
}.

Definition set_unique_id (i : Z) (p : t) : t :=
  {| unique_id_ := i; read_fd_ := read_fd_ p; write_fd_ := write_fd_ p;
     pending := pending p; capacity := capacity p |}.

Definition Fd (p : t) : Z := read_fd_ p.

(** [bool PipeObject::Notify()]: a non-blocking write of one byte. *)
Definition Notify (p : t) : bool * t :=
  if (pending p <? capacity p)%nat
  then (true, {| unique_id_ := unique_id_ p; read_fd_ := read_fd_ p;
                 write_fd_ := write_fd_ p; pending := S (pending p);
                 capacity := capacity p |})
  else (false, p).

(** [bool PipeObject::HandleReadEvent()]: a non-blocking read of one byte. *)
Definition HandleReadEvent (p : t) : bool * t :=
  match pending p with
  | O => (false, p)
  | S n => (true, {| unique_id_ := unique_id_ p; read_fd_ := read_fd_ p;
                     write_fd_ := write_fd_ p; pending := n;
                     capacity := capacity p |})
  end.

End PipeObject.

(** ** TcpObject: the data *)

Module TcpObject.

Inductive State := kNone | kConnecting | kConnected | kDisconnected | kFailed.

Definition State_eqb (a b : State) : bool :=
  match a, b with
  | kNone, kNone | kConnecting, kConnecting | kConnected, kConnected
  | kDisconnected, kDisconnected | kFailed, kFailed => true
  | _, _ => false
  end.

(** [struct bufferevent]: the socket, its two evbuffers, whether reading
    is enabled and whether [OnRecvData] is installed as read callback. *)
Record bufferevent := mkBev {
  bev_fd : Z;
  input : list Byte.byte;
  output : list Byte.byte;
  read_enabled : bool;
  readcb_set : bool
}.

Section WithUser.
Context {U : Type}.

Record t := mkTcp {
  unique_id_ : Z;
  state_ : State;
  bev_ : option bufferevent;
  peer_ip_ : list Byte.byte;
  peer_port_ : Z;
  on_message_ : option (U -> list Byte.byte -> Z * U);
  on_disconnect_ : option (U -> U);
  on_fail_ : option (U -> U);
  on_new_conn_ : option (U -> U);
  idle_timer_ : Z;
  idle_timeout_ms_ : Z;
  last_active_ : Z
}.

(** [TcpObject::TcpObject(EventLoop* loop)], constructed at time [now]. *)
Definition new (now : Z) : t :=
  {| unique_id_ := -1; state_ := kNone; bev_ := None;
     peer_ip_ := []; peer_port_ := -1;
     on_message_ := None; on_disconnect_ := None; on_fail_ := None;
     on_new_conn_ := None;
     idle_timer_ := -1; idle_timeout_ms_ := 0; last_active_ := now |}.

Definition set_unique_id (i : Z) (c : t) : t :=
  mkTcp i (state_ c) (bev_ c) (peer_ip_ c) (peer_port_ c) (on_message_ c)
        (on_disconnect_ c) (on_fail_ c) (on_new_conn_ c) (idle_timer_ c)
        (idle_timeout_ms_ c) (last_active_ c).

Definition set_state (s : State) (c : t) : t :=
  mkTcp (unique_id_ c) s (bev_ c) (peer_ip_ c) (peer_port_ c) (on_message_ c)
        (on_disconnect_ c) (on_fail_ c) (on_new_conn_ c) (idle_timer_ c)
        (idle_timeout_ms_ c) (last_active_ c).

Definition set_bev (b : option bufferevent) (c : t) : t :=
  mkTcp (unique_id_ c) (state_ c) b (peer_ip_ c) (peer_port_ c) (on_message_ c)
        (on_disconnect_ c) (on_fail_ c) (on_new_conn_ c) (idle_timer_ c)
        (idle_timeout_ms_ c) (last_active_ c).

Definition set_peer (ip : list Byte.byte) (port : Z) (c : t) : t :=
  mkTcp (unique_id_ c) (state_ c) (bev_ c) ip port (on_message_ c)
        (on_disconnect_ c) (on_fail_ c) (on_new_conn_ c) (idle_timer_ c)
        (idle_timeout_ms_ c) (last_active_ c).

Definition set_idle (timer timeout_ms : Z) (c : t) : t :=
  mkTcp (unique_id_ c) (state_ c) (bev_ c) (peer_ip_ c) (peer_port_ c)
        (on_message_ c) (on_disconnect_ c) (on_fail_ c) (on_new_conn_ c)
        timer timeout_ms (last_active_ c).

Definition set_last_active (now : Z) (c : t) : t :=
  mkTcp (unique_id_ c) (state_ c) (bev_ c) (peer_ip_ c) (peer_port_ c)
        (on_message_ c) (on_disconnect_ c) (on_fail_ c) (on_new_conn_ c)
        (idle_timer_ c) (idle_timeout_ms_ c) now.

(** [SetNewConnCallback], [SetOnDisconnect], [SetMessageCallback],
    [SetFailCallback]. *)
Definition SetNewConnCallback (cb : option (U -> U)) (c : t) : t :=
  mkTcp (unique_id_ c) (state_ c) (bev_ c) (peer_ip_ c) (peer_port_ c)
        (on_message_ c) (on_disconnect_ c) (on_fail_ c) cb (idle_timer_ c)
        (idle_timeout_ms_ c) (last_active_ c).

Definition SetOnDisconnect (cb : option (U -> U)) (c : t) : t :=
  mkTcp (unique_id_ c) (state_ c) (bev_ c) (peer_ip_ c) (peer_port_ c)
        (on_message_ c) cb (on_fail_ c) (on_new_conn_ c) (idle_timer_ c)
        (idle_timeout_ms_ c) (last_active_ c).

Definition SetMessageCallback (cb : option (U -> list Byte.byte -> Z * U))
  (c : t) : t :=
  mkTcp (unique_id_ c) (state_ c) (bev_ c) (peer_ip_ c) (peer_port_ c)
        cb (on_disconnect_ c) (on_fail_ c) (on_new_conn_ c) (idle_timer_ c)
        (idle_timeout_ms_ c) (last_active_ c).

Definition SetFailCallback (cb : option (U -> U)) (c : t) : t :=
  mkTcp (unique_id_ c) (state_ c) (bev_ c) (peer_ip_ c) (peer_port_ c)
        (on_message_ c) (on_disconnect_ c) cb (on_new_conn_ c) (idle_timer_ c)
        (idle_timeout_ms_ c) (last_active_ c).

(** [int TcpObject::Fd() const] *)
Definition Fd (c : t) : Z :=
  match bev_ c with Some b => bev_fd b | None => -1 end.

(** [bool TcpObject::Connected() const] *)
Definition Connected (c : t) : bool := State_eqb (state_ c) kConnected.

(** [evbuffer_add(output, data, size)] on the connection's bufferevent. *)
Definition add_output (data : list Byte.byte) (b : bufferevent) : bufferevent :=
  mkBev (bev_fd b) (input b) (output b ++ data) (read_enabled b) (readcb_set b).

(** [evbuffer_drain(input, n)]: removes the first [n] bytes, all of them
    when [n] is at least the length. *)
Definition drain_input (n : Z) (b : bufferevent) : bufferevent :=
  mkBev (bev_fd b) (drop (Z.to_nat n) (input b)) (output b)
        (read_enabled b) (readcb_set b).

(** [bool TcpObject::CheckIdleTimeout() const]. Time points are counted
    in nanoseconds, [duration_cast<milliseconds>] truncates. *)
Definition elapsed_ms (now : Z) (c : t) : Z :=
  MachInt.to_int (Z.quot (now - last_active_ c) 1000000).

Definition CheckIdleTimeout (now : Z) (c : t) : bool :=
  idle_timeout_ms_ c <? elapsed_ms now c.

End WithUser.

Arguments t : clear implicits.

End TcpObject.

(** ** EventLoop: the data, and the world a loop runs in *)

(** The value carried by a [std::future]. *)
Inductive Value (V : Type) : Type :=
| VUnit
| VBool (b : bool)
| VUser (v : V).
Arguments VUnit {V}.
Arguments VBool {V} b.
Arguments VUser {V} v.

(** The closures handed to [EventLoop::Execute]. *)
Inductive Closure (U V : Type) : Type :=
| ClUser (f : U -> V * U)
    (* a closure of the caller *)
| ClCancel (id : Z)
    (* the lambda of EventLoop::Cancel *)
| ClSchedule (id ms : Z) (cb : TimerCb U) (repeat : bool)
    (* the lambdas of EventLoop::ScheduleLater / ScheduleRepeatedly *)
| ClDestroy (me : addr).
    (* [=]() { destroy(); } of TcpObject::ActiveClose *)
Arguments ClUser {U V} f.
Arguments ClCancel {U V} id.
Arguments ClSchedule {U V} id ms cb repeat.
Arguments ClDestroy {U V} me.

(** An element of [tasks_]: the lambda that invokes a packaged task,
    whose shared state is the slot [task_future] of [futures]. *)
Record Task (U V : Type) := mkTask {
  task_body : Closure U V;
  task_future : nat
}.
Arguments mkTask {U V} _ _.
Arguments task_body {U V} _.
Arguments task_future {U V} _.

Module EventLoop.

Record t (U V : Type) := mkLoop {
  reactor_ : option (LibeventReactor.t U);
  objects_ : gmap Z addr;
  notifier_ : addr;
  tasks_ : list (Task U V);
  running_ : bool
}.
Arguments mkLoop {U V} _ _ _ _ _.
Arguments reactor_ {U V} _.
Arguments objects_ {U V} _.
Arguments notifier_ {U V} _.
Arguments tasks_ {U V} _.
Arguments running_ {U V} _.

End EventLoop.

(** An object behind a [shared_ptr<EventObject>]. *)
Inductive HeapObj (U : Type) : Type :=
| HPipe (p : PipeObject.t)
| HTcp (c : TcpObject.t U).
Arguments HPipe {U} p.
Arguments HTcp {U} c.

(** What an observer of the runtime sees, in order. *)
Inductive Obs : Type :=
| ObsNewConn (a : addr)
| ObsDisconnect (a : addr)
| ObsConnectFail (a : addr)
| ObsMessage (a : addr) (offset len consumed : Z)
| ObsTimerFired (id : Z)
| ObsTaskRun (fut : nat)
| ObsPoll
| ObsError.

(** One event loop, the objects on the heap, the two static id generators
    of [EventLoop], the shared states of the futures handed out, the state
    owned by user code, the steady clock (in nanoseconds) and the trace. *)
Record World (U V : Type) := mkWorld {
  loop : EventLoop.t U V;
  obj_id_generator_ : Z;
  timerid_generator_ : Z;
  heap : gmap addr (HeapObj U);
  futures : list (option (Value V));
  user : U;
  clock : Z;
  trace : list Obs
}.
Arguments mkWorld {U V} _ _ _ _ _ _ _ _.
Arguments loop {U V} _.
Arguments obj_id_generator_ {U V} _.
Arguments timerid_generator_ {U V} _.
Arguments heap {U V} _.
Arguments futures {U V} _.
Arguments user {U V} _.
Arguments clock {U V} _.
Arguments trace {U V} _.

(** What the reactor's poll reports ready in one iteration. *)
Inductive PollEvent : Type :=
| PeTimer (id : Z)
| PeReadable (id : Z).

Section Runtime.
Context {U V : Type}.

(** The width of [TimerId]: the type is declared in [reactor.h], which is
    not among the sources at hand, so the model is parametric in it. *)
Variable timer_bits : Z.

Local Abbreviation World := (World U V).
Local Abbreviation Loop := (EventLoop.t U V).

(** *** Updating one component *)

Definition with_loop (l : Loop) (w : World) : World :=
  mkWorld l (obj_id_generator_ w) (timerid_generator_ w) (heap w)
          (futures w) (user w) (clock w) (trace w).

Definition with_obj_gen (g : Z) (w : World) : World :=
  mkWorld (loop w) g (timerid_generator_ w) (heap w)
          (futures w) (user w) (clock w) (trace w).

Definition with_timer_gen (g : Z) (w : World) : World :=
  mkWorld (loop w) (obj_id_generator_ w) g (heap w)
          (futures w) (user w) (clock w) (trace w).

Definition with_heap (h : gmap addr (HeapObj U)) (w : World) : World :=
  mkWorld (loop w) (obj_id_generator_ w) (timerid_generator_ w) h
          (futures w) (user w) (clock w) (trace w).

Definition with_futures (f : list (option (Value V))) (w : World) : World :=
  mkWorld (loop w) (obj_id_generator_ w) (timerid_generator_ w) (heap w)
          f (user w) (clock w) (trace w).

Definition with_user (u : U) (w : World) : World :=
  mkWorld (loop w) (obj_id_generator_ w) (timerid_generator_ w) (heap w)
          (futures w) u (clock w) (trace w).

Definition observe (o : Obs) (w : World) : World :=
  mkWorld (loop w) (obj_id_generator_ w) (timerid_generator_ w) (heap w)
          (futures w) (user w) (clock w) (trace w ++ [o]).

Definition with_reactor (r : option (LibeventReactor.t U)) (w : World) : World :=
  with_loop (EventLoop.mkLoop r (EventLoop.objects_ (loop w))
               (EventLoop.notifier_ (loop w)) (EventLoop.tasks_ (loop w))
               (EventLoop.running_ (loop w))) w.

Definition with_objects (o : gmap Z addr) (w : World) : World :=
  with_loop (EventLoop.mkLoop (EventLoop.reactor_ (loop w)) o
               (EventLoop.notifier_ (loop w)) (EventLoop.tasks_ (loop w))
               (EventLoop.running_ (loop w))) w.

Definition with_tasks (ts : list (Task U V)) (w : World) : World :=
  with_loop (EventLoop.mkLoop (EventLoop.reactor_ (loop w))
               (EventLoop.objects_ (loop w)) (EventLoop.notifier_ (loop w))
               ts (EventLoop.running_ (loop w))) w.

Definition with_running (b : bool) (w : World) : World :=
  with_loop (EventLoop.mkLoop (EventLoop.reactor_ (loop w))
               (EventLoop.objects_ (loop w)) (EventLoop.notifier_ (loop w))
               (EventLoop.tasks_ (loop w)) b) w.

(** A user callback runs: it may change the user's state and it is seen. *)
Definition deliver (f : U -> U) (o : Obs) (w : World) : World :=
  observe o (with_user (f (user w)) w).

(** *** Event objects on the heap *)

Definition GetUniqueId (o : HeapObj U) : Z :=
  match o with
  | HPipe p => PipeObject.unique_id_ p
  | HTcp c => TcpObject.unique_id_ c
  end.

Definition SetUniqueId (i : Z) (o : HeapObj U) : HeapObj U :=
  match o with
  | HPipe p => HPipe (PipeObject.set_unique_id i p)
  | HTcp c => HTcp (TcpObject.set_unique_id i c)
  end.

Definition Fd (o : HeapObj U) : Z :=
  match o with
  | HPipe p => PipeObject.Fd p
  | HTcp c => TcpObject.Fd c
  end.

(** [obj.get()] as the reactor sees it. *)
Definition event_object (a : addr) (o : HeapObj U) : EventObject :=
  mkEventObject a (GetUniqueId o) (Fd o).

Definition get_tcp (a : addr) (w : World) : option (TcpObject.t U) :=
  match heap w !! a with
  | Some (HTcp c) => Some c
  | _ => None
  end.

Definition put_tcp (a : addr) (c : TcpObject.t U) (w : World) : World :=
  with_heap (<[a := HTcp c]> (heap w)) w.

Definition get_pipe (a : addr) (w : World) : option PipeObject.t :=
  match heap w !! a with
  | Some (HPipe p) => Some p
  | _ => None
  end.

(** *** EventLoop: the object registry *)

(** The [do ... while] of [EventLoop::Register] that allocates a unique id.
    [gen] is [obj_id_generator_]; the result is the id and the generator
    afterwards. The loop of the source has no bound; [fuel] bounds the
    number of iterations, and [None] is a loop that is still running. *)
Fixpoint alloc_unique_id (fuel : nat) (gen : Z) (objs : gmap Z addr)
  : option (Z * Z) :=
  match fuel with
  | O => None
  | S fuel' =>
    let '(old, gen1) := MachInt.fetch_add MachInt.int_bits gen in
    let id := MachInt.to_int (old + 1) in
    let gen2 := if id <? 0 then 0 else gen1 in
    if (id <? 0) || bool_decide (is_Some (objs !! id))
    then alloc_unique_id fuel' gen2 objs
    else Some (id, gen2)
  end.

(** Iterations that suffice whenever some id of [1 .. INT_MAX] is free:
    every id in use is tried at most twice, and the generator wraps at
    most once. *)
Definition alloc_fuel (objs : gmap Z addr) : nat := 2 * size objs + 2.

(** [objects_.insert({id, obj})]: an existing key is kept. *)
Definition insert_new (i : Z) (a : addr) (objs : gmap Z addr) : gmap Z addr :=
  match objs !! i with
  | Some _ => objs
  | None => <[i := a]> objs
  end.

(** [bool EventLoop::Register(std::shared_ptr<EventObject> obj, int events)];
    [in_loop] is the value of [InThisLoop()] for the calling thread. *)
Definition EventLoop_Register (in_loop : bool) (obj : option addr)
  (events : Z) (w : World) : option (bool * World) :=
  match obj with
  | None => Some (false, w)
  | Some a =>
    o ← heap w !! a;
    if negb in_loop then None
    else if negb (GetUniqueId o =? -1) then None
    else
      match EventLoop.reactor_ (loop w) with
      | None => Some (false, w)
      | Some r =>
        '(uid, gen) ← alloc_unique_id (alloc_fuel (EventLoop.objects_ (loop w)))
                        (obj_id_generator_ w) (EventLoop.objects_ (loop w));
        let o' := SetUniqueId uid o in
        let w1 := with_heap (<[a := o']> (heap w)) (with_obj_gen gen w) in
        '(ok, r') ← LibeventReactor.Register (Some (event_object a o')) events r;
        if (ok : bool)
        then Some (true,
                   with_objects (insert_new (GetUniqueId o') a
                                   (EventLoop.objects_ (loop w1)))
                     (with_reactor (Some r') w1))
        else Some (false, with_reactor (Some r') w1)
      end
  end.

(** [bool EventLoop::Modify(std::shared_ptr<EventObject> obj, int events)] *)
Definition EventLoop_Modify (in_loop : bool) (obj : option addr)
  (events : Z) (w : World) : option (bool * World) :=
  match obj with
  | None => Some (false, w)
  | Some a =>
    o ← heap w !! a;
    if negb in_loop then None
    else if GetUniqueId o <? 0 then None
    else if negb (bool_decide (is_Some (EventLoop.objects_ (loop w) !! GetUniqueId o)))
    then None
    else
      match EventLoop.reactor_ (loop w) with
      | None => Some (false, w)
      | Some r =>
        '(ok, r') ← LibeventReactor.Modify (Some (event_object a o)) events r;
        Some (ok, with_reactor (Some r') w)
      end
  end.

(** [void EventLoop::Unregister(std::shared_ptr<EventObject> obj)] *)
Definition EventLoop_Unregister (in_loop : bool) (obj : option addr)
  (w : World) : option World :=
  match obj with
  | None => Some w
  | Some a =>
    o ← heap w !! a;
    let id := GetUniqueId o in
    if negb in_loop then None
    else if id <? 0 then None
    else if negb (bool_decide (is_Some (EventLoop.objects_ (loop w) !! id)))
    then None
    else
      match EventLoop.reactor_ (loop w) with
      | None => Some w
      | Some r =>
        Some (with_objects (delete id (EventLoop.objects_ (loop w)))
                (with_reactor
                   (Some (LibeventReactor.Unregister (Some (event_object a o)) r))
                   w))
      end
  end.

(** *** TcpObject: the connection state machine *)

Definition BEV_EVENT_EOF : Z := 16.
Definition BEV_EVENT_CONNECTED : Z := 128.

(** [void TcpObject::HandleConnect()] *)
Definition TcpObject_HandleConnect (in_loop : bool) (a : addr) (w : World)
  : option World :=
  c ← get_tcp a w;
  if negb in_loop then None
  else if negb (TcpObject.State_eqb (TcpObject.state_ c) TcpObject.kNone
                || TcpObject.State_eqb (TcpObject.state_ c) TcpObject.kConnecting)
  then None
  else
    b ← TcpObject.bev_ c;
    let b' := TcpObject.mkBev (TcpObject.bev_fd b) (TcpObject.input b)
                (TcpObject.output b) true true in
    let w1 := put_tcp a (TcpObject.set_bev (Some b')
                           (TcpObject.set_state TcpObject.kConnected c)) w in
    Some (match TcpObject.on_new_conn_ c with
          | Some f => deliver f (ObsNewConn a) w1
          | None => w1
          end).

(** [void TcpObject::HandleConnectFailed()] *)
Definition TcpObject_HandleConnectFailed (in_loop : bool) (a : addr) (w : World)
  : option World :=
  c ← get_tcp a w;
  if negb in_loop then None
  else if negb (TcpObject.State_eqb (TcpObject.state_ c) TcpObject.kConnecting)
  then None
  else
    let w1 := put_tcp a (TcpObject.set_state TcpObject.kFailed c)
                (observe ObsError w) in
    let w2 := match TcpObject.on_fail_ c with
              | Some f => deliver f (ObsConnectFail a) w1
              | None => w1
              end in
    EventLoop_Unregister in_loop (Some a) w2.

(** [void TcpObject::HandleDisconnect()] *)
Definition TcpObject_HandleDisconnect (in_loop : bool) (a : addr) (w : World)
  : option World :=
  c ← get_tcp a w;
  if negb in_loop then None
  else if negb (TcpObject.State_eqb (TcpObject.state_ c) TcpObject.kConnected)
  then None
  else
    let w1 := put_tcp a (TcpObject.set_state TcpObject.kDisconnected c) w in
    let w2 := match TcpObject.on_disconnect_ c with
              | Some f => deliver f (ObsDisconnect a) w1
              | None => w1
              end in
    EventLoop_Unregister in_loop (Some a) w2.

(** [void TcpObject::OnAccept(int fd, const std::string& peer_ip, int peer_port)];
    [bev_ok] tells whether [bufferevent_socket_new] returned a bufferevent. *)
Definition TcpObject_OnAccept (in_loop : bool) (a : addr) (fd : Z)
  (peer_ip : list Byte.byte) (peer_port : Z) (bev_ok : bool) (w : World)
  : option World :=
  c ← get_tcp a w;
  if negb in_loop then None
  else if negb bev_ok then None
  else
    let c' := TcpObject.set_bev (Some (TcpObject.mkBev fd [] [] false false))
                (TcpObject.set_peer peer_ip peer_port c) in
    TcpObject_HandleConnect in_loop a (put_tcp a c' w).

(** What the operating system answers while [TcpObject::Connect] runs:
    whether [bufferevent_socket_new] succeeds, the result of
    [bufferevent_socket_connect] and the socket it created. *)
Record ConnectEnv := mkConnectEnv {
  bev_new_ok : bool;
  connect_err : Z;
  sock_fd : Z
}.

(** [bool TcpObject::Connect(const char* ip, int port)] *)
Definition TcpObject_Connect (in_loop : bool) (a : addr)
  (ip : list Byte.byte) (port : Z) (env : ConnectEnv) (w : World)
  : option (bool * World) :=
  c ← get_tcp a w;
  if negb in_loop then None
  else if negb (TcpObject.State_eqb (TcpObject.state_ c) TcpObject.kNone)
  then Some (false, observe ObsError w)
  else
    base ← EventLoop.reactor_ (loop w);
    if negb (bev_new_ok env) then Some (false, observe ObsError w)
    else if negb (connect_err env =? 0) then Some (false, observe ObsError w)
    else
      '(ok, w1) ← EventLoop_Register in_loop (Some a) 0 w;
      if (ok : bool) then
        c1 ← get_tcp a w1;
        Some (true,
              put_tcp a
                (TcpObject.set_state TcpObject.kConnecting
                   (TcpObject.set_peer ip port
                      (TcpObject.set_bev
                         (Some (TcpObject.mkBev (sock_fd env) [] [] false false))
                         c1)))
                w1)
      else Some (false, observe ObsError w1).

(** [bool TcpObject::SendPacket(const void* data, size_t size)]: [data] is
    [None] for a null pointer, otherwise the [size] bytes it points to. *)
Definition TcpObject_SendPacket (in_loop : bool) (a : addr)
  (data : option (list Byte.byte)) (w : World) : option (bool * World) :=
  c ← get_tcp a w;
  if negb (TcpObject.State_eqb (TcpObject.state_ c) TcpObject.kConnected)
  then Some (false, observe ObsError w)
  else
    match data with
    | None => Some (true, w)
    | Some d =>
      if (length d =? 0)%nat then Some (true, w)
      else if negb in_loop then None
      else
        b ← TcpObject.bev_ c;
        Some (true, put_tcp a (TcpObject.set_bev
                                 (Some (TcpObject.add_output d b)) c) w)
    end.

(** [bool TcpObject::SendPacket(const std::string& data)] *)
Definition TcpObject_SendPacket_string (in_loop : bool) (a : addr)
  (data : list Byte.byte) (w : World) : option (bool * World) :=
  TcpObject_SendPacket in_loop a (Some data) w.

(** [bool TcpObject::SendPacket(const evbuffer_iovec* iovecs, int nvecs)];
    [evbuffer_add_iovec] appends the first [nvecs] vectors in order. *)
Definition TcpObject_SendPacket_iovec (in_loop : bool) (a : addr)
  (iovecs : option (list (list Byte.byte))) (nvecs : Z) (w : World)
  : option (bool * World) :=
  c ← get_tcp a w;
  if negb (TcpObject.State_eqb (TcpObject.state_ c) TcpObject.kConnected)
  then Some (false, observe ObsError w)
  else
    match iovecs with
    | None => Some (true, w)
    | Some vs =>
      if nvecs <=? 0 then Some (true, w)
      else if negb in_loop then None
      else
        b ← TcpObject.bev_ c;
        Some (true,
              put_tcp a (TcpObject.set_bev
                           (Some (TcpObject.add_output
                                    (concat (take (Z.to_nat nvecs) vs)) b)) c) w)
    end.

(** One turn of the [while] loop of [TcpObject::OnRecvData]: the test
    [total_consumed < len] ([error] is false whenever the test is
    reached), then the body. [view] is the contiguous input, [len] its
    length as an [int], [total] is [total_consumed]. [inl]: the loop goes
    on, with the new [total_consumed]; [inr]: the loop is left, with
    [total_consumed] and [error]. The sum [total_consumed += consumed] and
    the length [len - total_consumed] are [int]s, with wrap-around. The
    callback is handed the bytes of the range it is given that lie in the
    buffer; memory outside the buffer, which the range reaches once
    [total_consumed] has wrapped below zero, is not modelled. *)
Definition consume_turn (a : addr)
  (on_message : U -> list Byte.byte -> Z * U) (view : list Byte.byte)
  (len total : Z) (w : World) : (Z * World) + (Z * bool * World) :=
  if len <=? total then inr (total, false, w)
  else
    let n := MachInt.to_int (len - total) in
    let data := take (Z.to_nat (Z.min total 0 + n)) (drop (Z.to_nat total) view) in
    let '(r, u') := on_message (user w) data in
    let consumed := MachInt.to_int r in
    let w1 := observe (ObsMessage a total n consumed) (with_user u' w) in
    if 0 <? consumed
    then inl (MachInt.to_int (total + consumed), w1)
    else inr (total, consumed <? 0, w1).

(** [2 ^ k] turns of the loop, or fewer when the loop is left earlier. *)
Fixpoint consume_turns (k : nat) (a : addr)
  (on_message : U -> list Byte.byte -> Z * U) (view : list Byte.byte)
  (len total : Z) (w : World) : (Z * World) + (Z * bool * World) :=
  match k with
  | O => consume_turn a on_message view len total w
  | S k' =>
    match consume_turns k' a on_message view len total w with
    | inl (total1, w1) => consume_turns k' a on_message view len total1 w1
    | inr res => inr res
    end
  end.

(** The [while] loop of [TcpObject::OnRecvData], from [total_consumed = 0].
    The result is [total_consumed], [error] and the world after the calls.
    A callback that keeps [total_consumed] below [len] for ever, by
    wrapping it around, keeps the loop of the source running for ever; a
    loop still running after [2 ^ 64] turns is taken for one that does not
    return: [None]. *)
Definition consume_loop (a : addr)
  (on_message : U -> list Byte.byte -> Z * U) (view : list Byte.byte)
  (len : Z) (w : World) : option (Z * bool * World) :=
  match consume_turns 64 a on_message view len 0 w with
  | inr res => Some res
  | inl _ => None
  end.

(** The same loop turn by turn, given up after [fuel] turns: what
    [consume_loop] computes is read off it (see [consume_loop_steps]). *)
Fixpoint consume_steps (fuel : nat) (a : addr)
  (on_message : U -> list Byte.byte -> Z * U) (view : list Byte.byte)
  (len total : Z) (w : World) : option (Z * bool * World) :=
  match fuel with
  | O => None
  | S fuel' =>
    match consume_turn a on_message view len total w with
    | inl (total1, w1) => consume_steps fuel' a on_message view len total1 w1
    | inr res => Some res
    end
  end.

(** [void TcpObject::OnRecvData(struct bufferevent* bev, void* obj)] *)
Definition TcpObject_OnRecvData (in_loop : bool) (a : addr) (w : World)
  : option World :=
  c ← get_tcp a w;
  if negb in_loop then None
  else
    b ← TcpObject.bev_ c;
    let c1 := if negb (TcpObject.idle_timer_ c =? -1)
              then TcpObject.set_last_active (clock w) c else c in
    let w1 := put_tcp a c1 w in
    match TcpObject.input b with
    | [] => Some w1
    | _ :: _ =>
      let len := MachInt.to_int (Z.of_nat (length (TcpObject.input b))) in
      '(total_consumed, error, w2) ←
         (if len <=? 0 then Some (0, false, w1)
          else
            f ← TcpObject.on_message_ c1;
            consume_loop a f (TcpObject.input b) len w1);
      let w3 := if 0 <? total_consumed
                then put_tcp a (TcpObject.set_bev
                                  (Some (TcpObject.drain_input total_consumed b))
                                  c1) w2
                else w2 in
      if (error : bool) then TcpObject_HandleDisconnect in_loop a w3
      else Some w3
    end.

(** [void TcpObject::OnEvent(struct bufferevent* bev, short events, void* obj)] *)
Definition TcpObject_OnEvent (in_loop : bool) (a : addr) (events : Z)
  (w : World) : option World :=
  c ← get_tcp a w;
  if negb in_loop then None
  else
    match TcpObject.state_ c with
    | TcpObject.kConnecting =>
      if negb (Z.land events BEV_EVENT_CONNECTED =? 0)
      then TcpObject_HandleConnect in_loop a w
      else TcpObject_HandleConnectFailed in_loop a w
    | TcpObject.kConnected =>
      if negb (Z.land events BEV_EVENT_EOF =? 0)
      then TcpObject_HandleDisconnect in_loop a w
      else Some w
    | _ => Some (observe ObsError w)
    end.

(** The lambda [destroy] of [TcpObject::ActiveClose]; it runs on the
    loop's thread. *)
Definition ActiveClose_destroy (me : addr) (w : World) : option World :=
  match get_tcp me w with
  | Some conn =>
    if TcpObject.State_eqb (TcpObject.state_ conn) TcpObject.kConnected
    then TcpObject_HandleDisconnect true me w
    else Some w
  | None => Some w
  end.

(** *** EventLoop: tasks, futures and timers *)

(** The body of a closure, run on the loop's thread. *)
Definition run_closure (cl : Closure U V) (w : World)
  : option (Value V * World) :=
  match cl with
  | ClUser f =>
    let '(v, u) := f (user w) in Some (VUser v, with_user u w)
  | ClCancel tid =>
    match EventLoop.reactor_ (loop w) with
    | None => Some (VBool false, w)
    | Some r =>
      let '(ok, r') := LibeventReactor.Cancel tid r in
      Some (VBool ok, with_reactor (Some r') w)
    end
  | ClSchedule tid ms cb rep =>
    r ← EventLoop.reactor_ (loop w);
    Some (VUnit,
          with_reactor
            (Some (if rep then LibeventReactor.ScheduleRepeatedly tid ms cb r
                   else LibeventReactor.ScheduleLater tid ms cb r)) w)
  | ClDestroy me =>
    w' ← ActiveClose_destroy me w;
    Some (VUnit, w')
  end.

(** The packaged task stores its result in the shared state. *)
Definition fulfil (fut : nat) (v : Value V) (w : World) : World :=
  with_futures (<[fut := Some v]> (futures w)) w.

(** Invoking an element of [tasks_], or a packaged task directly. *)
Definition run_task (t : Task U V) (w : World) : option World :=
  '(v, w1) ← run_closure (task_body t) (observe (ObsTaskRun (task_future t)) w);
  Some (fulfil (task_future t) v w1).

(** [notifier_->Notify()] *)
Definition notify (w : World) : option World :=
  p ← get_pipe (EventLoop.notifier_ (loop w)) w;
  Some (with_heap (<[EventLoop.notifier_ (loop w) :=
                       HPipe (snd (PipeObject.Notify p))]> (heap w)) w).

(** [auto EventLoop::Execute(F&& f, Args&&... args) -> std::future<...>];
    the future returned is the index of its shared state. *)
Definition EventLoop_Execute (in_loop : bool) (cl : Closure U V) (w : World)
  : option (nat * World) :=
  let fut := length (futures w) in
  let task := mkTask cl fut in
  let w1 := with_futures (futures w ++ [None]) w in
  if in_loop then
    w2 ← run_task task w1;
    Some (fut, w2)
  else
    w2 ← notify (with_tasks (EventLoop.tasks_ (loop w1) ++ [task]) w1);
    Some (fut, w2).

(** [std::future<bool> EventLoop::Cancel(TimerId id)] *)
Definition EventLoop_Cancel (in_loop : bool) (tid : Z) (w : World)
  : option (nat * World) :=
  if in_loop then
    let '(ok, w1) :=
      match EventLoop.reactor_ (loop w) with
      | Some r =>
        let '(ok, r') := LibeventReactor.Cancel tid r in
        (ok, with_reactor (Some r') w)
      | None => (false, w)
      end in
    Some (length (futures w1),
          with_futures (futures w1 ++ [Some (VBool ok)]) w1)
  else EventLoop_Execute false (ClCancel tid) w.

(** [timerid_generator_.fetch_add(1) + 1] *)
Definition next_timer_id (w : World) : Z * World :=
  let '(old, gen) := MachInt.fetch_add timer_bits (timerid_generator_ w) in
  (MachInt.wrap timer_bits (old + 1), with_timer_gen gen w).

(** [TimerId EventLoop::ScheduleRepeatedly(int period_ms, F&& f, Args&&... args)] *)
Definition EventLoop_ScheduleRepeatedly_ms (in_loop : bool) (period_ms : Z)
  (cb : TimerCb U) (w : World) : option (Z * World) :=
  let '(tid, w1) := next_timer_id w in
  if in_loop then
    r ← EventLoop.reactor_ (loop w1);
    Some (tid, with_reactor
                 (Some (LibeventReactor.ScheduleRepeatedly tid period_ms cb r)) w1)
  else
    '(fut, w2) ← EventLoop_Execute false (ClSchedule tid period_ms cb true) w1;
    Some (tid, w2).

(** [TimerId EventLoop::ScheduleLater(int delay_ms, F&& f, Args&&... args)] *)
Definition EventLoop_ScheduleLater_ms (in_loop : bool) (delay_ms : Z)
  (cb : TimerCb U) (w : World) : option (Z * World) :=
  let '(tid, w1) := next_timer_id w in
  if in_loop then
    r ← EventLoop.reactor_ (loop w1);
    Some (tid, with_reactor
                 (Some (LibeventReactor.ScheduleLater tid delay_ms cb r)) w1)
  else
    '(fut, w2) ← EventLoop_Execute false (ClSchedule tid delay_ms cb false) w1;
    Some (tid, w2).

(** A [std::chrono::duration<Rep, std::ratio<num, den>>] with an integral
    [Rep]: [count] ticks of [num / den] seconds. *)
Record Duration := mkDuration {
  count : Z;
  period_num : Z;
  period_den : Z
}.

(** [std::ratio_divide<Period, std::milli>]: the factor from ticks to
    milliseconds, in lowest terms. *)
Definition cast_factor (d : Duration) : Z * Z :=
  let g := Z.gcd (period_num d * 1000) (period_den d) in
  (period_num d * 1000 / g, period_den d / g).

(** [duration_cast<milliseconds>(d).count()]: the 64-bit count is multiplied
    by the numerator of the factor, in 64-bit arithmetic (the product wraps
    around), then divided by its denominator with truncation towards
    zero. *)
Definition to_milliseconds (d : Duration) : Z :=
  let '(cf_num, cf_den) := cast_factor d in
  Z.quot (MachInt.wrap 64 (count d * cf_num)) cf_den.

(** [TimerId EventLoop::ScheduleRepeatedly(const Duration& period, F&& f, ...)] *)
Definition EventLoop_ScheduleRepeatedly (in_loop : bool) (period : Duration)
  (cb : TimerCb U) (w : World) : option (Z * World) :=
  let period_ms := Z.max 1 (to_milliseconds period) in
  let ms := MachInt.to_int period_ms in
  EventLoop_ScheduleRepeatedly_ms in_loop ms cb w.

(** [TimerId EventLoop::ScheduleLater(const Duration& delay, F&& f, ...)] *)
Definition EventLoop_ScheduleLater (in_loop : bool) (delay : Duration)
  (cb : TimerCb U) (w : World) : option (Z * World) :=
  let delay_ms := Z.max 1 (to_milliseconds delay) in
  let ms := MachInt.to_int delay_ms in
  EventLoop_ScheduleLater_ms in_loop ms cb w.

(** [void TcpObject::ActiveClose(bool sync)]. Off the loop's thread the
    closure is posted; the wait of [sync] on the future is not part of the
    sequential model. *)
Definition TcpObject_ActiveClose (in_loop : bool) (a : addr) (sync : bool)
  (w : World) : option World :=
  c ← get_tcp a w;
  if in_loop then ActiveClose_destroy a w
  else
    '(fut, w1) ← EventLoop_Execute false (ClDestroy a) w;
    Some w1.

(** [void TcpObject::SetIdleTimeout(int timeout_ms)] *)
Definition TcpObject_SetIdleTimeout (in_loop : bool) (a : addr)
  (timeout_ms : Z) (w : World) : option World :=
  c ← get_tcp a w;
  if timeout_ms <=? 0 then Some w
  else
    let w1 := put_tcp a (TcpObject.set_idle (TcpObject.idle_timer_ c) timeout_ms c) w in
    w2 ← (if negb (TcpObject.idle_timer_ c =? -1)
          then '(fut, w') ← EventLoop_Cancel in_loop (TcpObject.idle_timer_ c) w1;
               Some w'
          else Some w1);
    '(tid, w3) ← EventLoop_ScheduleRepeatedly_ms in_loop 100 (CbIdleCheck a) w2;
    c3 ← get_tcp a w3;
    Some (put_tcp a (TcpObject.set_idle tid (TcpObject.idle_timeout_ms_ c3) c3) w3).

(** The call [timer->callback()]. For the idle check, [w_obj.lock()]
    succeeds exactly when the connection is still on the heap. *)
Definition run_timer_cb (cb : TimerCb U) (w : World) : option World :=
  match cb with
  | CbUser f => Some (with_user (f (user w)) w)
  | CbIdleCheck w_obj =>
    match get_tcp w_obj w with
    | None => Some w
    | Some tcp_conn =>
      if TcpObject.CheckIdleTimeout (clock w) tcp_conn
      then TcpObject_ActiveClose true w_obj false w
      else Some w
    end
  end.

(** [void LibeventReactor::TimerCallback(evutil_socket_t, int16_t, void* ctx)] *)
Definition LibeventReactor_TimerCallback (timer : LibeventReactor.Timer U)
  (w : World) : option World :=
  w1 ← run_timer_cb (LibeventReactor.callback timer)
         (observe (ObsTimerFired (LibeventReactor.id timer)) w);
  if LibeventReactor.repeat timer then Some w1
  else
    r ← EventLoop.reactor_ (loop w1);
    Some (with_reactor
            (Some (snd (LibeventReactor.Cancel (LibeventReactor.id timer) r))) w1).

(** One ready event of [event_base_loop]: an expired timer whose record
    still exists, or a readable fd with a read watch ([OnReadable]). Only
    the notifier is ever registered with a non-zero mask. *)
Definition dispatch (e : PollEvent) (w : World) : option World :=
  r ← EventLoop.reactor_ (loop w);
  match e with
  | PeTimer tid =>
    match LibeventReactor.timers_ r !! tid with
    | Some timer => LibeventReactor_TimerCallback timer w
    | None => Some w
    end
  | PeReadable oid =>
    match LibeventReactor.objects_ r !! oid with
    | Some obj =>
      match LibeventReactor.read_event obj with
      | Some ev =>
        match heap w !! LibeventReactor.ev_arg ev with
        | Some (HPipe p) =>
          let '(ok, p') := PipeObject.HandleReadEvent p in
          if (ok : bool)
          then Some (with_heap (<[LibeventReactor.ev_arg ev := HPipe p']> (heap w)) w)
          else None (* HandleErrorEvent: assert(false) *)
        | Some (HTcp _) => Some w
        | None => None
        end
      | None => Some w
      end
    | None => Some w
    end
  end.

Fixpoint dispatch_all (ready : list PollEvent) (w : World) : option World :=
  match ready with
  | [] => Some w
  | e :: rest => w1 ← dispatch e w; dispatch_all rest w1
  end.

(** [bool LibeventReactor::Poll()]: [ready] is what the demultiplexer
    reports, [ok] whether [event_base_loop] returned something else than -1. *)
Definition LibeventReactor_Poll (ready : list PollEvent) (ok : bool)
  (w : World) : option (bool * World) :=
  w1 ← dispatch_all ready (observe ObsPoll w);
  Some (ok, w1).

(** [for (const auto& f : funcs) f();] *)
Fixpoint run_tasks (funcs : list (Task U V)) (w : World) : option World :=
  match funcs with
  | [] => Some w
  | f :: rest => w1 ← run_task f w; run_tasks rest w1
  end.

(** The entry of [EventLoop::Run]: [Register(notifier_, kEventRead)]. *)
Definition EventLoop_Run_enter (w : World) : option World :=
  '(ok, w1) ← EventLoop_Register true (Some (EventLoop.notifier_ (loop w)))
                kEventRead w;
  Some w1.

(** One turn of [while (running_)] in [EventLoop::Run]; [try_lock] is the
    outcome of [task_mutex_.try_lock()]. *)
Definition EventLoop_Run_iteration (try_lock : bool) (ready : list PollEvent)
  (poll_ok : bool) (w : World) : option World :=
  w1 ← (if try_lock
        then run_tasks (EventLoop.tasks_ (loop w)) (with_tasks [] w)
        else Some w);
  r ← EventLoop.reactor_ (loop w1);
  '(ok, w2) ← LibeventReactor_Poll ready poll_ok w1;
  Some (if (ok : bool) then w2 else observe ObsError w2).

(** [void EventLoop::Stop()] *)
Definition EventLoop_Stop (w : World) : option World :=
  notify (with_running false w).

(** [std::shared_ptr<TcpObject> EventLoop::Connect(ip, port, ccb, fcb)]:
    the connection is constructed at the fresh address [a]; the result is
    the handle ([None] after [c.reset()]). When the handle is reset the
    object is destroyed, as nothing else owns it. *)
Definition EventLoop_Connect (in_loop : bool) (a : addr)
  (ip : list Byte.byte) (port : Z) (ccb : option (U -> U))
  (fcb : option (U -> U)) (env : ConnectEnv) (w : World)
  : option (option addr * World) :=
  match heap w !! a with
  | Some _ => None (* [a] is not a fresh address *)
  | None =>
    let c := TcpObject.SetFailCallback fcb
               (TcpObject.SetNewConnCallback ccb (TcpObject.new (clock w))) in
    '(ok, w1) ← TcpObject_Connect in_loop a ip port env (put_tcp a c w);
    if (ok : bool) then Some (Some a, w1)
    else Some (None, with_heap (delete a (heap w1)) w1)
  end.

(** The socket of a connection becomes readable: with reading enabled
    libevent moves the bytes into the input evbuffer and invokes the read
    callback, which is [OnRecvData] once [HandleConnect] has installed it. *)
Definition bufferevent_readcb (in_loop : bool) (a : addr)
  (bytes : list Byte.byte) (w : World) : option World :=
  c ← get_tcp a w;
  b ← TcpObject.bev_ c;
  if TcpObject.read_enabled b then
    let b' := TcpObject.mkBev (TcpObject.bev_fd b) (TcpObject.input b ++ bytes)
                (TcpObject.output b) (TcpObject.read_enabled b)
                (TcpObject.readcb_set b) in
    let w1 := put_tcp a (TcpObject.set_bev (Some b') c) w in
    if TcpObject.readcb_set b then TcpObject_OnRecvData in_loop a w1
    else Some w1
  else Some w.

(** The evbuffers and the state of the connection at [a], for statements. *)
Definition output_of (a : addr) (w : World) : option (list Byte.byte) :=
  c ← get_tcp a w; b ← TcpObject.bev_ c; Some (TcpObject.output b).

Definition input_of (a : addr) (w : World) : option (list Byte.byte) :=
  c ← get_tcp a w; b ← TcpObject.bev_ c; Some (TcpObject.input b).

Definition state_of (a : addr) (w : World) : option TcpObject.State :=
  TcpObject.state_ <$> get_tcp a w.

(** [res] is a successful scheduling call that returned [tid] and left a
    timer [tid] in the reactor, repeating or not as [rep] says, with
    callback [cb] and firing after [ms] milliseconds. *)
Definition timer_armed (rep : bool) (cb : TimerCb U) (tid ms : Z)
  (res : option (Z * World)) : Prop :=
  exists w' r' tm,
    res = Some (tid, w') /\
    EventLoop.reactor_ (loop w') = Some r' /\
    LibeventReactor.timers_ r' !! tid = Some tm /\
    LibeventReactor.repeat tm = rep /\
    LibeventReactor.callback tm = cb /\
    LibeventReactor.timeout_us tm = 1000 * ms.

(** [res] is a successful scheduling call from another thread that
    returned [tid] and appended to the inbox of [w] the closure that arms
    timer [tid] with [ms] milliseconds. *)
Definition arming_posted (rep : bool) (cb : TimerCb U) (tid ms : Z)
  (w : World) (res : option (Z * World)) : Prop :=
  exists w' fut,
    res = Some (tid, w') /\
    EventLoop.tasks_ (loop w')
    = EventLoop.tasks_ (loop w) ++ [mkTask (ClSchedule tid ms cb rep) fut].

(** Time passes: the steady clock advances by [ns] nanoseconds. *)
Definition advance_clock (ns : Z) (w : World) : World :=
  mkWorld (loop w) (obj_id_generator_ w) (timerid_generator_ w) (heap w)
          (futures w) (user w) (clock w + ns) (trace w).

(** The world that [HandleDisconnect] leaves for a connection [c] at [a]. *)
Definition after_disconnect (a : addr) (c : TcpObject.t U) (w : World) : World :=
  let c' := TcpObject.set_state TcpObject.kDisconnected c in
  let w1 := put_tcp a c' w in
  let w2 := match TcpObject.on_disconnect_ c with
            | Some f => deliver f (ObsDisconnect a) w1
            | None => w1
            end in
  match EventLoop.reactor_ (loop w) with
  | Some r =>
    with_objects (delete (TcpObject.unique_id_ c) (EventLoop.objects_ (loop w)))
      (with_reactor
         (Some (LibeventReactor.Unregister (Some (event_object a (HTcp c'))) r)) w2)
  | None => w2
  end.

(** The timers of the reactor of the loop, none when it has been reset. *)
Definition timers_of (w : World) : gmap Z (LibeventReactor.Timer U) :=
  match EventLoop.reactor_ (loop w) with
  | Some r => LibeventReactor.timers_ r
  | None => ∅
  end.

(** The futures of the tasks that ran, in the order of the trace. *)
Definition task_order (tr : list Obs) : list nat :=
  omap (fun o => match o with ObsTaskRun fut => Some fut | _ => None end) tr.

(** What the handlers of connections leave in the trace. *)
Definition handler_obs (o : Obs) : Prop :=
  match o with
  | ObsTaskRun _ | ObsPoll | ObsTimerFired _ => False
  | _ => True
  end.

(** The connection [c] at [a] is registered with the loop of [w]. *)
Definition registered (a : addr) (c : TcpObject.t U) (w : World) : Prop :=
  get_tcp a w = Some c /\ 0 <= TcpObject.unique_id_ c /\
  is_Some (EventLoop.objects_ (loop w) !! TcpObject.unique_id_ c).

(** Later turns of the loop in which the inbox is empty: each polls once. *)
Fixpoint poll_rounds (rounds : list (list PollEvent)) (w : World)
  : option World :=
  match rounds with
  | [] => Some w
  | ready :: rest =>
    w1 ← dispatch_all ready (observe ObsPoll w);
    poll_rounds rest w1
  end.

(** [w'] extends the trace of [w] by observations that satisfy [P]. *)
Definition trace_ext (P : Obs -> Prop) (w w' : World) : Prop :=
  exists tr, trace w' = trace w ++ tr /\ Forall P tr.

(** An observation of a fire of a timer that [w] has. *)
Definition fire_of (w : World) (o : Obs) : Prop :=
  handler_obs o \/
  exists k tm, timers_of w !! k = Some tm /\ o = ObsTimerFired (LibeventReactor.id tm).

(** Every timer of [w'] is a timer of [w]. *)
Definition timers_shrink (w w' : World) : Prop :=
  timers_of w' ⊆ timers_of w.

(** Every timer is stored under its own id, as [Schedule] does it. *)
Definition timers_wf (w : World) : Prop :=
  forall k tm, timers_of w !! k = Some tm -> LibeventReactor.id tm = k.

(** What holds of every step taken by a handler of a connection. *)
Definition handler_step (w w' : World) : Prop :=
  futures w' = futures w /\
  EventLoop.tasks_ (loop w') = EventLoop.tasks_ (loop w) /\
  timers_of w' = timers_of w /\
  (is_Some (EventLoop.reactor_ (loop w')) <-> is_Some (EventLoop.reactor_ (loop w))) /\
  trace_ext handler_obs w w'.

(** *** The receive path, in the words of section 4.E

    The connection invokes [on_message] on what is left of the input,
    starting at offset [off]: a positive result advances by that many
    bytes and the loop goes on while bytes are left, zero stops this round,
    a negative result stops with a fatal framing error. The relation gives
    the results of the calls in order, whether the round ended in an error,
    and the world after the calls. *)
Inductive consume_spec (a : addr) (f : U -> list Byte.byte -> Z * U)
  (view : list Byte.byte) : Z -> World -> list Z -> bool -> World -> Prop :=
| consume_exhausted off w :
    Z.of_nat (length view) <= off ->
    consume_spec a f view off w [] false w
| consume_stop off w r u' :
    0 <= off < Z.of_nat (length view) ->
    f (user w) (drop (Z.to_nat off) view) = (r, u') ->
    r <= 0 ->
    consume_spec a f view off w [r] (r <? 0)
      (observe (ObsMessage a off (Z.of_nat (length view) - off) r) (with_user u' w))
| consume_advance off w r u' rs err w' :
    0 <= off < Z.of_nat (length view) ->
    f (user w) (drop (Z.to_nat off) view) = (r, u') ->
    0 < r ->
    consume_spec a f view (off + r)
      (observe (ObsMessage a off (Z.of_nat (length view) - off) r) (with_user u' w))
      rs err w' ->
    consume_spec a f view off w (r :: rs) err w'.

(** The sum of the positive values of a list of results. *)
Definition sum_positive (rs : list Z) : Z :=
  fold_right (fun r acc => Z.max r 0 + acc) 0 rs.

(** The contract of a message callback: the result is an [int], and it
    never reports more bytes consumed than it was offered. *)
Definition message_contract (f : U -> list Byte.byte -> Z * U) : Prop :=
  forall u data,
    MachInt.INT_MIN <= fst (f u data) <= MachInt.INT_MAX /\
    fst (f u data) <= Z.of_nat (length data).

(** The ids in use that are greater than [gen]: what the allocation loop
    can still run into before the generator wraps. *)
Definition ids_above (gen : Z) (objs : gmap Z addr) : gset Z :=
  filter (fun k => gen < k) (dom objs).

(** Every entry of the registry of the loop is an object on the heap that
    carries the id it is registered under, and that id is not negative. *)
Definition registry_wf (w : World) : Prop :=
  forall k a, EventLoop.objects_ (loop w) !! k = Some a ->
    0 <= k /\ exists o, heap w !! a = Some o /\ GetUniqueId o = k.

(** The object at [a] is in the registry of the loop. *)
Definition is_registered (a : addr) (w : World) : Prop :=
  exists k, EventLoop.objects_ (loop w) !! k = Some a.

(** The ids of [n] successive calls of [ScheduleLater] / [ScheduleRepeatedly]. *)
Fixpoint timer_ids (n : nat) (w : World) : list Z :=
  match n with
  | O => []
  | S n' => let '(tid, w') := next_timer_id w in tid :: timer_ids n' w'
  end.

(** *** The life of one connection, as an observer sees it *)

Definition terminal (s : TcpObject.State) : bool :=
  match s with
  | TcpObject.kDisconnected | TcpObject.kFailed => true
  | _ => false
  end.

(** The callbacks that tell the user about the life of the connection at
    [a]: new connection, disconnect, connect failure. *)
Definition is_lifecycle (a : addr) (o : Obs) : bool :=
  match o with
  | ObsNewConn a' | ObsDisconnect a' | ObsConnectFail a' => N.eqb a a'
  | _ => false
  end.

(** Those of them that end it. *)
Definition is_end (a : addr) (o : Obs) : bool :=
  match o with
  | ObsDisconnect a' | ObsConnectFail a' => N.eqb a a'
  | _ => false
  end.

Definition lifecycle (a : addr) (tr : list Obs) : list Obs :=
  List.filter (is_lifecycle a) tr.

Definition ends (a : addr) (tr : list Obs) : list Obs :=
  List.filter (is_end a) tr.

(** The moves of the state machine of section 4.E, each with the
    callback it may deliver, closed under composition. *)
Inductive conn_trans (a : addr)
  : TcpObject.State * list Obs -> TcpObject.State * list Obs -> Prop :=
| ct_refl v : conn_trans a v v
| ct_connecting l :
    conn_trans a (TcpObject.kNone, l) (TcpObject.kConnecting, l)
| ct_connected s l l' :
    s = TcpObject.kNone \/ s = TcpObject.kConnecting ->
    l' = l \/ l' = l ++ [ObsNewConn a] ->
    conn_trans a (s, l) (TcpObject.kConnected, l')
| ct_failed l l' :
    l' = l \/ l' = l ++ [ObsConnectFail a] ->
    conn_trans a (TcpObject.kConnecting, l) (TcpObject.kFailed, l')
| ct_disconnected l l' :
    l' = l \/ l' = l ++ [ObsDisconnect a] ->
    conn_trans a (TcpObject.kConnected, l) (TcpObject.kDisconnected, l')
| ct_trans v1 v2 v3 :
    conn_trans a v1 v2 -> conn_trans a v2 v3 -> conn_trans a v1 v3.

(** From [w] to [w'] the connection at [a], if there is one, made moves
    of the state machine only. *)
Definition conn_step (a : addr) (w w' : World) : Prop :=
  forall s, state_of a w = Some s ->
    exists s', state_of a w' = Some s' /\
      conn_trans a (s, lifecycle a (trace w)) (s', lifecycle a (trace w')).

(** What the environment and the users of the runtime can do. *)
Inductive Action : Type :=
| ActConnect (a : addr) (ip : list Byte.byte) (port : Z) (env : ConnectEnv)
| ActOnAccept (a : addr) (fd : Z) (ip : list Byte.byte) (port : Z) (bev_ok : bool)
| ActRegister (a : addr) (events : Z)
| ActOnEvent (a : addr) (events : Z)
| ActReadable (a : addr) (bytes : list Byte.byte)
| ActSendPacket (in_loop : bool) (a : addr) (data : option (list Byte.byte))
| ActSendPacketV (in_loop : bool) (a : addr)
    (iovecs : option (list (list Byte.byte))) (nvecs : Z)
| ActActiveClose (in_loop : bool) (a : addr) (sync : bool)
| ActSetIdleTimeout (in_loop : bool) (a : addr) (timeout_ms : Z)
| ActExecute (in_loop : bool) (cl : Closure U V)
| ActCancel (in_loop : bool) (tid : Z)
| ActScheduleLater (in_loop : bool) (delay_ms : Z) (cb : TimerCb U)
| ActScheduleRepeatedly (in_loop : bool) (period_ms : Z) (cb : TimerCb U)
| ActIteration (try_lock : bool) (ready : list PollEvent) (poll_ok : bool)
| ActTick (ns : Z).

Definition step (act : Action) (w : World) : option World :=
  match act with
  | ActConnect a ip port env => snd <$> TcpObject_Connect true a ip port env w
  | ActOnAccept a fd ip port bev_ok => TcpObject_OnAccept true a fd ip port bev_ok w
  | ActRegister a events => snd <$> EventLoop_Register true (Some a) events w
  | ActOnEvent a events => TcpObject_OnEvent true a events w
  | ActReadable a bytes => bufferevent_readcb true a bytes w
  | ActSendPacket in_loop a data => snd <$> TcpObject_SendPacket in_loop a data w
  | ActSendPacketV in_loop a iovecs nvecs =>
    snd <$> TcpObject_SendPacket_iovec in_loop a iovecs nvecs w
  | ActActiveClose in_loop a sync => TcpObject_ActiveClose in_loop a sync w
  | ActSetIdleTimeout in_loop a ms => TcpObject_SetIdleTimeout in_loop a ms w
  | ActExecute in_loop cl => snd <$> EventLoop_Execute in_loop cl w
  | ActCancel in_loop tid => snd <$> EventLoop_Cancel in_loop tid w
  | ActScheduleLater in_loop ms cb =>
    snd <$> EventLoop_ScheduleLater_ms in_loop ms cb w
  | ActScheduleRepeatedly in_loop ms cb =>
    snd <$> EventLoop_ScheduleRepeatedly_ms in_loop ms cb w
  | ActIteration try_lock ready poll_ok =>
    EventLoop_Run_iteration try_lock ready poll_ok w
  | ActTick ns => Some (advance_clock ns w)
  end.

Fixpoint run (acts : list Action) (w : World) : option World :=
  match acts with
  | [] => Some w
  | act :: rest => w1 ← step act w; run rest w1
  end.

(** *** The registration of one connection *)

Definition uid_of (a : addr) (w : World) : option Z :=
  GetUniqueId <$> heap w !! a.

Definition is_terminal (a : addr) (w : World) : Prop :=
  exists s, state_of a w = Some s /\ terminal s = true.

(** What the loop maintains about the connection at [a]: the registry is
    well formed, the loop has its reactor, and a connection in a terminal
    state carries the id it was registered under and is no longer in the
    registry. *)
Definition conn_inv (a : addr) (w : World) : Prop :=
  registry_wf w /\
  is_Some (EventLoop.reactor_ (loop w)) /\
  (is_terminal a w ->
   (exists k, uid_of a w = Some k /\ 0 <= k) /\ ~ is_registered a w).

(** A step that leaves the registry and the ids alone and in which no
    connection enters a terminal state. *)
Definition calm (w w' : World) : Prop :=
  EventLoop.objects_ (loop w') = EventLoop.objects_ (loop w) /\
  (is_Some (EventLoop.reactor_ (loop w)) ->
   is_Some (EventLoop.reactor_ (loop w'))) /\
  forall a, uid_of a w' = uid_of a w /\ (is_terminal a w' -> is_terminal a w).

Definition keeps_inv (w w' : World) : Prop :=
  forall a, conn_inv a w -> conn_inv a w'.

(** *** The two registries *)

(** Every registration record of the reactor belongs to an id of the
    registry of the loop. *)
Definition reactor_within (w : World) : Prop :=
  forall r k, EventLoop.reactor_ (loop w) = Some r ->
    is_Some (LibeventReactor.objects_ r !! k) ->
    is_Some (EventLoop.objects_ (loop w) !! k).

(** [for (auto& pair : objects_) reactor_->Unregister(pair.second.get());]
    at the end of [EventLoop::Run], over the entries in the order in which
    the iteration visits them. *)
Fixpoint unregister_all (entries : list (Z * addr)) (w : World) : option World :=
  match entries with
  | [] => Some w
  | (_, a) :: rest =>
    r ← EventLoop.reactor_ (loop w);
    o ← heap w !! a;
    unregister_all rest
      (with_reactor
         (Some (LibeventReactor.Unregister (Some (event_object a o)) r)) w)
  end.

(** The exit of [EventLoop::Run], after [while (running_)]: the objects
    are unregistered from the reactor, [objects_.clear()],
    [reactor_.reset()]. [entries] is the registry in iteration order. *)
Definition EventLoop_Run_exit (entries : list (Z * addr)) (w : World)
  : option World :=
  w1 ← unregister_all entries w;
  Some (with_reactor None (with_objects ∅ w1)).

(** *** What a trace tells about one connection *)

(** [total_consumed] after calls of [on_message] with the results [rs],
    from the value [total]: the positive results are added as [int]s. *)
Definition total_consumed (rs : list Z) (total : Z) : Z :=
  fold_left (fun t r => if 0 <? r then MachInt.to_int (t + r) else t) rs total.

(** The results of the calls of [on_message] that a trace records for the
    connection at [a], in order. *)
Definition consumed_in (a : addr) (tr : list Obs) : list Z :=
  omap (fun o => match o with
                 | ObsMessage a' _ _ r => if N.eqb a a' then Some r else None
                 | _ => None
                 end) tr.

(** The time of the last recorded activity of the connection at [a]. *)
Definition last_active_of (a : addr) (w : World) : option Z :=
  TcpObject.last_active_ <$> get_tcp a w.

(** *** Actions that cannot end a connection *)

(** The actions that do not run a close path of the connection at [a]:
    all but an end-of-file event for it, a receive round for it, its
    [ActiveClose] or its posted close run on the loop's thread, and a turn
    of the loop (which runs posted closes and idle checks). *)
Definition harmless (a : addr) (act : Action) : bool :=
  match act with
  | ActOnEvent a' events =>
    negb (N.eqb a a') || (Z.land events BEV_EVENT_EOF =? 0)
  | ActReadable a' _ => negb (N.eqb a a')
  | ActActiveClose in_loop a' _ => negb in_loop || negb (N.eqb a a')
  | ActExecute in_loop cl =>
    negb in_loop ||
    match cl with
    | ClDestroy me => negb (N.eqb a me)
    | _ => true
    end
  | ActIteration _ _ _ => false
  | _ => true
  end.

(** *** TcpListenerObj: accepting a connection *)

(** [TcpObject::~TcpObject()] followed by the release of the storage, on
    the thread that drops the last reference: [in_loop] tells whether it
    is the loop's thread. *)
Definition TcpObject_destroy (in_loop : bool) (a : addr) (w : World)
  : option World :=
  c ← get_tcp a w;
  w1 ← (if negb (TcpObject.idle_timer_ c =? -1)
        then snd <$> EventLoop_Cancel in_loop (TcpObject.idle_timer_ c) w
        else Some w);
  Some (with_heap (delete a (heap w1)) w1).

(** The closure [create_conn] of [TcpListenerObj::OnNewConnection], run on
    the loop's thread. [a] is the address [std::make_shared<TcpObject>]
    returns, [bev_ok] whether [bufferevent_socket_new] succeeds. When
    [Register] refuses the connection, [conn] was its only owner and the
    object is destroyed as the closure returns. *)
Definition create_conn (a : addr) (on_create : option (U -> U)) (fd : Z)
  (ipstr : list Byte.byte) (port : Z) (bev_ok : bool) (w : World)
  : option World :=
  let conn := TcpObject.SetNewConnCallback on_create (TcpObject.new (clock w)) in
  w1 ← TcpObject_OnAccept true a fd ipstr port bev_ok (put_tcp a conn w);
  '(ok, w2) ← EventLoop_Register true (Some a) 0 w1;
  if (ok : bool) then Some w2
  else TcpObject_destroy true a (observe ObsError w2).

(** [void TcpListenerObj::OnNewConnection(struct evconnlistener*,
    evutil_socket_t fd, struct sockaddr* peer, int, void* obj)] for an
    acceptor without a loop selector, so that [SelectEventloop] is the
    loop the listener runs on and [Execute] runs [create_conn] at once.
    [on_new_conn] is [acceptor->on_new_conn_]; [ipstr] and [port] are what
    [GetSockaddrIp] and [GetSockaddrPort] make of [peer]. *)
Definition TcpListenerObj_OnNewConnection (on_new_conn : option (U -> U))
  (a : addr) (fd : Z) (ipstr : list Byte.byte) (port : Z) (bev_ok : bool)
  (w : World) : option World :=
  match on_new_conn with
  | Some _ =>
    if (length ipstr =? 0)%nat || (port =? -1) then Some (observe ObsError w)
    else
      let fut := length (futures w) in
      w1 ← create_conn a on_new_conn fd ipstr port bev_ok
             (observe (ObsTaskRun fut) (with_futures (futures w ++ [None]) w));
      Some (fulfil fut VUnit w1)
  | None => Some w
  end.

(** *** The two tables along a run *)

(** A step that touches neither the registry of the loop, nor the
    registration records of the reactor, nor the generator of object ids. *)
Definition same_tables (w w' : World) : Prop :=
  obj_id_generator_ w' = obj_id_generator_ w /\
  EventLoop.objects_ (loop w') = EventLoop.objects_ (loop w) /\
  (LibeventReactor.objects_ <$> EventLoop.reactor_ (loop w'))
  = (LibeventReactor.objects_ <$> EventLoop.reactor_ (loop w)).

(** What [EventLoop::Register] relies on: the reactor knows no id that the
    registry does not know, and the generator of object ids stands at a
    value that is not negative. *)
Definition tables_inv (w : World) : Prop :=
  reactor_within w /\ 0 <= obj_id_generator_ w <= MachInt.INT_MAX.

Definition keeps_tables (w w' : World) : Prop :=
  tables_inv w -> tables_inv w'.

(** *** EventLoop: the whole of Run *)

(** [while (running_) { ... }] of [EventLoop::Run]. Each element of
    [rounds] is one turn: the outcome of [try_lock], what the
    demultiplexer reports and whether the poll succeeded. [None] is a
    failed assertion, or a loop that is still running when [rounds] is
    used up. *)
Fixpoint EventLoop_Run_loop (rounds : list (bool * list PollEvent * bool))
  (w : World) : option World :=
  if EventLoop.running_ (loop w) then
    match rounds with
    | [] => None
    | (try_lock, ready, poll_ok) :: rest =>
      w1 ← EventLoop_Run_iteration try_lock ready poll_ok w;
      EventLoop_Run_loop rest w1
    end
  else Some w.

(** [void EventLoop::Run()]; [entries] is the registry in the order in
    which the final loop visits it. *)
Definition EventLoop_Run (rounds : list (bool * list PollEvent * bool))
  (entries : list (Z * addr)) (w : World) : option World :=
  w1 ← EventLoop_Run_enter w;
  w2 ← EventLoop_Run_loop rounds w1;
  EventLoop_Run_exit entries w2.

(** A step that leaves [running_] as it is. *)
Definition same_running (w w' : World) : Prop :=
  EventLoop.running_ (loop w') = EventLoop.running_ (loop w).

(** *** Several closures posted before a turn *)

(** Closures of the user are posted from other threads, one after the
    other, each by [Execute]. *)
Fixpoint post_all (fs : list (U -> V * U)) (w : World) : option World :=
  match fs with
  | [] => Some w
  | f :: rest =>
    '(fut, w1) ← EventLoop_Execute false (ClUser f) w;
    post_all rest w1
  end.

(** The tasks that these calls append to the inbox; the first one
    fulfils the future [base]. *)
Fixpoint user_tasks (base : nat) (fs : list (U -> V * U)) : list (Task U V) :=
  match fs with
  | [] => []
  | f :: rest => mkTask (ClUser f) base :: user_tasks (S base) rest
  end.

(** What the closures return when they are run in order from the state
    [u], and the state they leave. *)
Fixpoint run_users (fs : list (U -> V * U)) (u : U) : list V * U :=
  match fs with
  | [] => ([], u)
  | f :: rest =>
    let '(v, u1) := f u in
    let '(vs, u2) := run_users rest u1 in
    (v :: vs, u2)
  end.

(** *** The order of the states *)

(** How far a connection has come. *)
Definition state_rank (s : TcpObject.State) : nat :=
  match s with
  | TcpObject.kNone => 0
  | TcpObject.kConnecting => 1
  | TcpObject.kConnected => 2
  | TcpObject.kDisconnected | TcpObject.kFailed => 3
  end.

Definition is_new_conn (a : addr) (o : Obs) : bool :=
  match o with
  | ObsNewConn a' => N.eqb a a'
  | _ => false
  end.

(** The calls of [on_new_conn] that a trace records for the connection
    at [a]. *)
Definition new_conns (a : addr) (tr : list Obs) : list Obs :=
  List.filter (is_new_conn a) tr.

End Runtime.

(** ** A concrete world

    One loop with a fresh reactor and its notifier at address 0; user code
    owns a counter. *)

Definition notifier0 : PipeObject.t := PipeObject.mkPipe (-1) 3 4 0 4096.

Definition world0 : World nat nat :=
  mkWorld
    (EventLoop.mkLoop (Some LibeventReactor.new) ∅ 0%N [] true)
    0 0 {[ 0%N := HPipe notifier0 ]} [] 0%nat 0 [].

(** A reactor in which the object with unique id 3 watches fd 11 for read. *)
Definition obj3 : EventObject := mkEventObject 7%N 3 11.

Definition reactor3 : LibeventReactor.t nat :=
  LibeventReactor.mkReactor
    {[ 3 := LibeventReactor.mkObject
              (Some (LibeventReactor.mkEvent 11 18 LibeventReactor.OnReadable 7%N))
              None 7%N ]} ∅.

(** A framing callback: messages are three bytes long, a message that
    starts with the byte 0x21 is a fatal framing error; the user counts messages. *)
Definition frame3 (u : nat) (data : list Byte.byte) : Z * nat :=
  match data with
  | [] => (0, u)
  | x :: _ =>
    if Byte.eqb x Byte.x21 then (-1, u)
    else if (3 <=? length data)%nat then (3, S u)
    else (0, u)
  end.

Definition conn1 : addr := 1%N.

Definition env_ok : ConnectEnv := mkConnectEnv true 0 20.

Definition or_else {A : Type} (d : A) (o : option A) : A :=
  match o with Some x => x | None => d end.

(** [world0] after [EventLoop::Connect] on the loop's thread. *)
Definition world_connecting : World nat nat :=
  or_else world0
    (snd <$> EventLoop_Connect true conn1 [] 6379 (Some S) (Some S) env_ok world0).

(** ... after the bufferevent reported [BEV_EVENT_CONNECTED]. *)
Definition world_connected : World nat nat :=
  or_else world0 (TcpObject_OnEvent true conn1 BEV_EVENT_CONNECTED world_connecting).

(** ... after the user installed [frame3] and a disconnect callback. *)
Definition world_ready : World nat nat :=
  match get_tcp conn1 world_connected with
  | Some c =>
    put_tcp conn1
      (TcpObject.SetOnDisconnect (Some (fun u => u + 100)%nat)
         (TcpObject.SetMessageCallback (Some frame3) c))
      world_connected
  | None => world_connected
  end.

(** [world_ready] after [SetIdleTimeout(200)] on the loop's thread. *)
Definition world_idle : World nat nat :=
  or_else world0 (TcpObject_SetIdleTimeout 64 true conn1 200 world_ready).

(** The idle timer armed by that call. *)
Definition idle_timer1 : LibeventReactor.Timer nat :=
  LibeventReactor.mkTimer 1 true (CbIdleCheck conn1) EV_PERSIST 0 100000.

(** A closure of the user: it counts a call and returns 42. *)
Definition answer : Closure nat nat := ClUser (fun u => (42%nat, S u)).

(** [world0] after [answer] was posted from another thread. *)
Definition world_posted : World nat nat :=
  or_else world0 (snd <$> EventLoop_Execute false answer world0).

(** Ten bytes, the fourth of which starts a malformed message. *)
Definition payload : list Byte.byte :=
  [Byte.x61; Byte.x62; Byte.x63; Byte.x21; Byte.x64;
   Byte.x65; Byte.x66; Byte.x67; Byte.x68; Byte.x69].

(** [world_ready] with [payload] in the input buffer of the connection. *)
Definition world_inbound : World nat nat :=
  match get_tcp conn1 world_ready with
  | Some c =>
    put_tcp conn1
      (TcpObject.set_bev (Some (TcpObject.mkBev 20 payload [] true true)) c)
      world_ready
  | None => world_ready
  end.

(** [world0] with the timer id generator at the largest 64-bit value. *)
Definition world_timer_max : World nat nat :=
  with_timer_gen (MachInt.max_signed 64) world0.

(** [world0] after a timer with id 1 was armed through the reactor, whose
    callers choose the ids themselves. *)
Definition world_timer1 : World nat nat :=
  with_reactor (Some (LibeventReactor.ScheduleLater 1 50 (CbUser S)
                        LibeventReactor.new)) world0.

(** [world_ready] after [ActiveClose] on the loop's thread; the user keeps
    the handle that [EventLoop::Connect] returned. *)
Definition world_closed : World nat nat :=
  or_else world0 (TcpObject_ActiveClose true conn1 false world_ready).

(** Three more bytes arrive, the bufferevent reports an end of file, and
    the loop takes one more turn. *)
Definition late_events : list (Action (U := nat) (V := nat)) :=
  [ActReadable conn1 [Byte.x61; Byte.x62; Byte.x63];
   ActOnEvent conn1 BEV_EVENT_EOF;
   ActIteration true [] true].

Definition world_after : World nat nat :=
  or_else world0 (run 64 late_events world_closed).

(** [world0] with a connection that was constructed and nothing more. *)
Definition world_fresh_conn : World nat nat :=
  put_tcp conn1 (TcpObject.new 0) world0.

(** ... after [Register(conn, 0)]. *)
Definition world_registered : World nat nat :=
  or_else world0 (snd <$> EventLoop_Register true (Some conn1) 0 world_fresh_conn).

(** [world0] after the entry of [Run]. *)
Definition world_running : World nat nat :=
  or_else world0 (EventLoop_Run_enter world0).

(** A callback that breaks its contract: it reports 1000 bytes consumed,
    whatever it is offered. *)
Definition greedy (u : nat) (data : list Byte.byte) : Z * nat := (1000, S u).

(** [world_inbound] with [greedy] as message callback. *)
Definition world_greedy : World nat nat :=
  match get_tcp conn1 world_inbound with
  | Some c =>
    put_tcp conn1 (TcpObject.SetMessageCallback (Some greedy) c) world_inbound
  | None => world_inbound
  end.

(** A callback that breaks its contract further: it reports 3 bytes, then
    [INT_MAX] bytes, then none. *)
Definition overrun (u : nat) (data : list Byte.byte) : Z * nat :=
  match u with
  | O => (3, 1%nat)
  | S O => (MachInt.INT_MAX, 2%nat)
  | _ => (0, S u)
  end.

(** [world_inbound] with [overrun] as message callback, before its first
    call. *)
Definition world_overrun : World nat nat :=
  match get_tcp conn1 world_inbound with
  | Some c =>
    with_user 0%nat
      (put_tcp conn1 (TcpObject.SetMessageCallback (Some overrun) c) world_inbound)
  | None => world_inbound
  end.

(** The operations are unfolded on request only. *)
Arguments LibeventReactor.Register : simpl never.
Arguments LibeventReactor.Unregister : simpl never.
Arguments LibeventReactor.Modify : simpl never.
Arguments LibeventReactor.Schedule : simpl never.
Arguments LibeventReactor.Cancel : simpl never.
Arguments alloc_unique_id : simpl never.
Arguments EventLoop_Register : simpl never.
Arguments EventLoop_Unregister : simpl never.
Arguments EventLoop_Modify : simpl never.
Arguments TcpObject_HandleConnect : simpl never.
Arguments TcpObject_HandleConnectFailed : simpl never.
Arguments TcpObject_HandleDisconnect : simpl never.
Arguments TcpObject_Connect : simpl never.
Arguments TcpObject_OnRecvData : simpl never.
Arguments TcpObject_OnEvent : simpl never.
Arguments bufferevent_readcb : simpl never.
Arguments ActiveClose_destroy : simpl never.
Arguments consume_loop : simpl never.
Arguments consume_turns : simpl never.
Arguments consume_steps : simpl never.
Arguments run_closure : simpl never.
Arguments run_task : simpl never.
Arguments notify : simpl never.
Arguments EventLoop_Execute : simpl never.
Arguments EventLoop_Cancel : simpl never.
Arguments EventLoop_ScheduleRepeatedly_ms : simpl never.
Arguments EventLoop_ScheduleLater_ms : simpl never.
Arguments TcpObject_ActiveClose : simpl never.
Arguments run_timer_cb : simpl never.
Arguments LibeventReactor_TimerCallback : simpl never.
Arguments dispatch : simpl never.
Arguments LibeventReactor_Poll : simpl never.
Arguments MachInt.to_int : simpl never.
Arguments MachInt.wrap : simpl never.

(** * Properties *)

(** ** Machine integers *)

Lemma wrap_small bits z :
  0 < bits -> - 2 ^ (bits - 1) <= z < 2 ^ (bits - 1) -> MachInt.wrap bits z = z.
Proof.
  intros Hb Hz. unfold MachInt.wrap.
  assert (Hp : 2 ^ bits = 2 * 2 ^ (bits - 1)).
  { replace bits with (Z.succ (bits - 1)) at 1 by lia.
    rewrite Z.pow_succ_r by lia. reflexivity. }
  rewrite Z.mod_small; lia.
Qed.

Lemma to_int_small z :
  MachInt.INT_MIN <= z <= MachInt.INT_MAX -> MachInt.to_int z = z.
Proof.
  intros Hz. apply wrap_small; [reflexivity|].
  unfold MachInt.INT_MIN, MachInt.INT_MAX, MachInt.min_signed,
    MachInt.max_signed, MachInt.int_bits in *. lia.
Qed.

Lemma INT_MAX_eq : MachInt.INT_MAX = 2147483647.
Proof. reflexivity. Qed.

Lemma INT_MIN_eq : MachInt.INT_MIN = -2147483648.
Proof. reflexivity. Qed.

Lemma to_int_overflow : MachInt.to_int (MachInt.INT_MAX + 1) = MachInt.INT_MIN.
Proof. reflexivity. Qed.

(** An [int] that overflowed by adding two non-negative [int]s is negative. *)
Lemma to_int_range z : MachInt.INT_MIN <= MachInt.to_int z <= MachInt.INT_MAX.
Proof.
  unfold MachInt.to_int, MachInt.wrap, MachInt.INT_MIN, MachInt.INT_MAX,
    MachInt.min_signed, MachInt.max_signed, MachInt.int_bits.
  change (2 ^ (32 - 1)) with 2147483648. change (2 ^ 32) with 4294967296.
  pose proof (Z.mod_pos_bound (z + 2147483648) 4294967296). lia.
Qed.

Section Properties.
Context {U V : Type}.
Variable timer_bits : Z.

Local Abbreviation World := (World U V).

(** ** The object registry of the loop *)

Lemma GetUniqueId_SetUniqueId i (o : HeapObj U) :
  GetUniqueId (SetUniqueId i o) = i.
Proof. destruct o; reflexivity. Qed.

(** The id found by the allocation loop is non-negative and not in use. *)
Lemma alloc_unique_id_sound fuel gen (objs : gmap Z addr) uid gen' :
  alloc_unique_id fuel gen objs = Some (uid, gen') ->
  0 <= uid /\ objs !! uid = None.
Proof.
  revert gen. induction fuel as [|fuel IH]; intros gen;
    unfold alloc_unique_id; fold alloc_unique_id; simpl; [discriminate|].
  destruct (MachInt.to_int (gen + 1) <? 0) eqn:Hneg; simpl.
  - apply IH.
  - case_bool_decide as Hin.
    + apply IH.
    + intros [= <- <-]. split; [lia|].
      destruct (objs !! MachInt.to_int (gen + 1)) eqn:E; [|reflexivity].
      exfalso. apply Hin. eauto.
Qed.

Lemma insert_new_fresh (i : Z) (a : addr) (objs : gmap Z addr) :
  objs !! i = None -> insert_new i a objs = <[i := a]> objs.
Proof. intros H. unfold insert_new. rewrite H. reflexivity. Qed.

(** What a successful [EventLoop::Register] has done. *)
Lemma EventLoop_Register_true in_loop a events (w w' : World) :
  EventLoop_Register in_loop (Some a) events w = Some (true, w') ->
  exists o uid gen r r',
    heap w !! a = Some o /\ GetUniqueId o = -1 /\ in_loop = true /\
    0 <= uid /\ EventLoop.objects_ (loop w) !! uid = None /\
    EventLoop.reactor_ (loop w) = Some r /\
    LibeventReactor.Register (Some (event_object a (SetUniqueId uid o))) events r
      = Some (true, r') /\
    w' = with_objects (<[uid := a]> (EventLoop.objects_ (loop w)))
           (with_reactor (Some r')
              (with_heap (<[a := SetUniqueId uid o]> (heap w))
                 (with_obj_gen gen w))).
Proof.
  unfold EventLoop_Register. intros H.
  destruct (heap w !! a) as [o|] eqn:Ho; simpl in H; [|discriminate].
  destruct in_loop; simpl in H; [|discriminate].
  destruct (GetUniqueId o =? -1) eqn:Hid; simpl in H; [|discriminate].
  destruct (EventLoop.reactor_ (loop w)) as [r|] eqn:Hr; [|discriminate].
  destruct (alloc_unique_id _ _ _) as [[uid gen]|] eqn:Ha; simpl in H; [|discriminate].
  destruct (LibeventReactor.Register _ events r) as [[ok r']|] eqn:HR;
    simpl in H; [|discriminate].
  destruct ok; [|discriminate].
  apply alloc_unique_id_sound in Ha as [Hge Hfree].
  injection H as <-.
  exists o, uid, gen, r, r'. repeat split; try assumption; try lia.
  rewrite GetUniqueId_SetUniqueId. simpl.
  rewrite insert_new_fresh by assumption. reflexivity.
Qed.

(** A failed [EventLoop::Register] leaves the registry as it was. *)
Lemma EventLoop_Register_false in_loop obj events (w w' : World) :
  EventLoop_Register in_loop obj events w = Some (false, w') ->
  EventLoop.objects_ (loop w') = EventLoop.objects_ (loop w) /\
  trace w' = trace w.
Proof.
  unfold EventLoop_Register. intros H.
  destruct obj as [a|]; [|injection H as <-; auto].
  destruct (heap w !! a) as [o|] eqn:Ho; simpl in H; [|discriminate].
  destruct in_loop; simpl in H; [|discriminate].
  destruct (GetUniqueId o =? -1) eqn:Hid; simpl in H; [|discriminate].
  destruct (EventLoop.reactor_ (loop w)) as [r|] eqn:Hr;
    [|injection H as <-; auto].
  destruct (alloc_unique_id _ _ _) as [[uid gen]|] eqn:Ha; simpl in H; [|discriminate].
  destruct (LibeventReactor.Register _ events r) as [[ok r']|] eqn:HR;
    simpl in H; [|discriminate].
  destruct ok; [discriminate|].
  injection H as <-. auto.
Qed.

(** ** C6: registering with the reactor *)

(** C6 (as amended). [LibeventReactor::Register] with an event mask of zero
    succeeds and leaves the reactor exactly as it was: no watch is
    installed and no registration record is added. The object is tracked
    by the registry of the event loop, where [EventLoop::Register] inserts
    it under its new id while the reactor stays untouched. With a non-zero
    mask, [LibeventReactor::Register] returns false and changes nothing
    whenever the id of the object is already registered in the reactor. *)
Theorem C6_register_zero_mask_and_repeat :
  (forall (r : LibeventReactor.t U) (eo : EventObject),
     LibeventReactor.Register (Some eo) 0 r = Some (true, r)) /\
  (forall (w w' : World) (a : addr),
     EventLoop_Register true (Some a) 0 w = Some (true, w') ->
     exists o',
       heap w' !! a = Some o' /\ 0 <= GetUniqueId o' /\
       EventLoop.objects_ (loop w') !! GetUniqueId o' = Some a /\
       EventLoop.reactor_ (loop w') = EventLoop.reactor_ (loop w)) /\
  (forall (r : LibeventReactor.t U) (eo : EventObject) (events : Z),
     events <> 0 -> 0 <= eo_unique_id eo ->
     is_Some (LibeventReactor.objects_ r !! eo_unique_id eo) ->
     LibeventReactor.Register (Some eo) events r = Some (false, r)).
Proof.
  split; [|split].
  - intros r eo. reflexivity.
  - intros w w' a H.
    apply EventLoop_Register_true in H
      as (o & uid & gen & r & r' & Ho & Hm1 & _ & Hge & Hfree & Hr & HR & ->).
    exists (SetUniqueId uid o). simpl.
    rewrite GetUniqueId_SetUniqueId, !lookup_insert_eq.
    unfold LibeventReactor.Register in HR. simpl in HR.
    injection HR as <-. rewrite Hr. auto.
  - intros r eo events Hev Hid [o Ho]. unfold LibeventReactor.Register.
    destruct (events =? 0) eqn:E; [lia|].
    destruct (eo_unique_id eo <? 0) eqn:E2; [lia|].
    rewrite Ho. reflexivity.
Qed.

(** ** C5: sending *)

Lemma put_tcp_same a (c : TcpObject.t U) (w : World) :
  get_tcp a w = Some c -> put_tcp a c w = w.
Proof.
  unfold get_tcp, put_tcp, with_heap. intros H.
  destruct (heap w !! a) as [[p|c']|] eqn:E; try discriminate.
  injection H as ->. rewrite insert_id by assumption. destruct w; reflexivity.
Qed.

Lemma add_output_nil (b : TcpObject.bufferevent) : TcpObject.add_output [] b = b.
Proof. destruct b. unfold TcpObject.add_output. simpl. rewrite app_nil_r. reflexivity. Qed.

Lemma set_bev_same (c : TcpObject.t U) b :
  TcpObject.bev_ c = Some b -> TcpObject.set_bev (Some b) c = c.
Proof. destruct c. simpl. intros ->. reflexivity. Qed.

Lemma State_eqb_eq s1 s2 : TcpObject.State_eqb s1 s2 = true <-> s1 = s2.
Proof. destruct s1, s2; simpl; split; intros; congruence. Qed.

Lemma State_eqb_neq s1 s2 : TcpObject.State_eqb s1 s2 = false <-> s1 <> s2.
Proof. destruct s1, s2; simpl; split; intros; congruence. Qed.

(** C5. On a connection in state [kConnected], [SendPacket] returns true
    and the output buffer is the old one followed by the bytes (the caller
    is on the loop's thread, as the assertion in front of the append
    demands, unless there is nothing to append); in every other state it
    returns false and the only change is the logged error, so the buffer is
    untouched. The vectored [SendPacket] does the same with the
    concatenation of its vectors. *)
Theorem C5_SendPacket_contract (in_loop : bool) (a : addr)
  (c : TcpObject.t U) (w : World) :
  get_tcp a w = Some c ->
  (TcpObject.state_ c = TcpObject.kConnected ->
   forall b, TcpObject.bev_ c = Some b ->
     (forall data, in_loop = true \/ data = [] ->
        TcpObject_SendPacket in_loop a (Some data) w
        = Some (true, put_tcp a (TcpObject.set_bev
                                   (Some (TcpObject.add_output data b)) c) w)) /\
     (forall vs, in_loop = true \/ vs = [] ->
        TcpObject_SendPacket_iovec in_loop a (Some vs) (Z.of_nat (length vs)) w
        = Some (true, put_tcp a (TcpObject.set_bev
                                   (Some (TcpObject.add_output (concat vs) b)) c) w))) /\
  (TcpObject.state_ c <> TcpObject.kConnected ->
     (forall data, TcpObject_SendPacket in_loop a data w
                   = Some (false, observe ObsError w)) /\
     (forall vs nvecs, TcpObject_SendPacket_iovec in_loop a vs nvecs w
                       = Some (false, observe ObsError w)) /\
     heap (observe ObsError w) = heap w).
Proof.
  intros Hc. split.
  - intros Hst b Hb.
    assert (Hsame : put_tcp a (TcpObject.set_bev
                      (Some (TcpObject.add_output [] b)) c) w = w).
    { rewrite add_output_nil, set_bev_same by assumption.
      apply put_tcp_same. assumption. }
    split.
    + intros data Hor. unfold TcpObject_SendPacket.
      rewrite Hc. simpl. rewrite Hst. simpl.
      destruct data as [|x data]; simpl.
      * rewrite Hsame. reflexivity.
      * destruct Hor as [-> | ?]; [|discriminate]. simpl.
        rewrite Hb. reflexivity.
    + intros vs Hor. unfold TcpObject_SendPacket_iovec.
      rewrite Hc. simpl. rewrite Hst. simpl.
      destruct vs as [|v vs].
      * simpl. rewrite Hsame. reflexivity.
      * destruct Hor as [-> | ?]; [|discriminate].
        destruct (Z.of_nat (length (v :: vs)) <=? 0) eqn:E.
        { apply Z.leb_le in E. simpl length in E. lia. }
        simpl negb. cbv iota. rewrite Hb. simpl.
        rewrite Nat2Z.id.
        change (S (length vs)) with (length (v :: vs)).
        rewrite firstn_all. reflexivity.
  - intros Hst. apply State_eqb_neq in Hst.
    split; [|split]; [intros data | intros vs nvecs | reflexivity].
    + unfold TcpObject_SendPacket. rewrite Hc. simpl. rewrite Hst. reflexivity.
    + unfold TcpObject_SendPacket_iovec. rewrite Hc. simpl. rewrite Hst. reflexivity.
Qed.

(** ** C7: the delay a timer is armed with *)

(** [Schedule] turns [period_ms] into a [timeval] of that many milliseconds. *)
Lemma Schedule_timeout tid ms (cb : TimerCb U) rep (r : LibeventReactor.t U) :
  exists tm,
    LibeventReactor.timers_ (LibeventReactor.Schedule tid ms cb rep r) !! tid = Some tm /\
    LibeventReactor.repeat tm = rep /\ LibeventReactor.callback tm = cb /\
    LibeventReactor.id tm = tid /\
    LibeventReactor.timeout_us tm = 1000 * ms.
Proof.
  unfold LibeventReactor.Schedule. simpl. rewrite lookup_insert_eq.
  eexists. split; [reflexivity|]. repeat split.
  unfold LibeventReactor.timeout_us. simpl.
  pose proof (Z.quot_rem' ms 1000) as Hqr.
  assert (Hrem : -1000 < Z.rem ms 1000 < 1000).
  { pose proof (Z.rem_bound_abs ms 1000). lia. }
  rewrite to_int_small by (rewrite INT_MIN_eq, INT_MAX_eq; lia). lia.
Qed.

Lemma ScheduleLater_ms_on_loop ms (cb : TimerCb U) (w : World) r :
  EventLoop.reactor_ (loop w) = Some r ->
  timer_armed false cb (fst (next_timer_id timer_bits w)) ms
    (EventLoop_ScheduleLater_ms timer_bits true ms cb w).
Proof.
  intros Hr. unfold timer_armed, EventLoop_ScheduleLater_ms, next_timer_id.
  simpl. rewrite Hr. simpl.
  destruct (Schedule_timeout
              (MachInt.wrap timer_bits (timerid_generator_ w + 1)) ms cb false r)
    as (tm & H1 & H2 & H3 & _ & H4).
  eexists _, _, tm. split; [reflexivity|]. simpl. auto.
Qed.

Lemma ScheduleRepeatedly_ms_on_loop ms (cb : TimerCb U) (w : World) r :
  EventLoop.reactor_ (loop w) = Some r ->
  timer_armed true cb (fst (next_timer_id timer_bits w)) ms
    (EventLoop_ScheduleRepeatedly_ms timer_bits true ms cb w).
Proof.
  intros Hr. unfold timer_armed, EventLoop_ScheduleRepeatedly_ms, next_timer_id.
  simpl. rewrite Hr. simpl.
  destruct (Schedule_timeout
              (MachInt.wrap timer_bits (timerid_generator_ w + 1)) ms cb true r)
    as (tm & H1 & H2 & H3 & _ & H4).
  eexists _, _, tm. split; [reflexivity|]. simpl. auto.
Qed.

Lemma Execute_off_loop cl (w : World) p :
  get_pipe (EventLoop.notifier_ (loop w)) w = Some p ->
  EventLoop_Execute false cl w
  = Some (length (futures w),
          with_heap (<[EventLoop.notifier_ (loop w) :=
                         HPipe (snd (PipeObject.Notify p))]> (heap w))
            (with_tasks (EventLoop.tasks_ (loop w)
                           ++ [mkTask cl (length (futures w))])
               (with_futures (futures w ++ [None]) w))).
Proof.
  intros Hp. unfold EventLoop_Execute, notify. simpl.
  unfold get_pipe in *. simpl. destruct (heap w !! _) as [[q|?]|]; try discriminate.
  injection Hp as ->. reflexivity.
Qed.

Lemma Schedule_ms_off_loop ms (cb : TimerCb U) (w : World) p :
  get_pipe (EventLoop.notifier_ (loop w)) w = Some p ->
  arming_posted false cb (fst (next_timer_id timer_bits w)) ms w
    (EventLoop_ScheduleLater_ms timer_bits false ms cb w) /\
  arming_posted true cb (fst (next_timer_id timer_bits w)) ms w
    (EventLoop_ScheduleRepeatedly_ms timer_bits false ms cb w).
Proof.
  intros Hp.
  unfold arming_posted, EventLoop_ScheduleLater_ms,
    EventLoop_ScheduleRepeatedly_ms, next_timer_id. simpl.
  split.
  - erewrite Execute_off_loop by (simpl; exact Hp). simpl.
    eexists _, _. split; reflexivity.
  - erewrite Execute_off_loop by (simpl; exact Hp). simpl.
    eexists _, _. split; reflexivity.
Qed.

(** The posted closure arms the timer with the milliseconds it carries. *)
Lemma run_ClSchedule tid ms (cb : TimerCb U) rep (w : World) r :
  EventLoop.reactor_ (loop w) = Some r ->
  exists w' r' tm,
    run_closure (ClSchedule tid ms cb rep) w = Some (VUnit, w') /\
    EventLoop.reactor_ (loop w') = Some r' /\
    LibeventReactor.timers_ r' !! tid = Some tm /\
    LibeventReactor.repeat tm = rep /\ LibeventReactor.callback tm = cb /\
    LibeventReactor.timeout_us tm = 1000 * ms.
Proof.
  intros Hr. unfold run_closure. rewrite Hr. simpl.
  destruct (Schedule_timeout tid ms cb rep r) as (tm & H1 & H2 & H3 & _ & H4).
  eexists _, _, tm. split; [reflexivity|]. simpl.
  split; [reflexivity|].
  destruct rep; auto.
Qed.

(** Where the product of the cast stays within 64 bits,
    [to_milliseconds] is the duration in milliseconds, truncated towards
    zero. *)
Lemma to_milliseconds_exact (d : Duration) :
  0 < period_num d -> 0 < period_den d ->
  MachInt.min_signed 64 <= count d * fst (cast_factor d) <= MachInt.max_signed 64 ->
  to_milliseconds d = Z.quot (count d * period_num d * 1000) (period_den d).
Proof.
  intros Hn Hd Hfit. unfold to_milliseconds, cast_factor in *. simpl in Hfit.
  set (n := period_num d * 1000) in *.
  set (g := Z.gcd n (period_den d)) in *.
  assert (Hg : 0 < g).
  { pose proof (Z.gcd_nonneg n (period_den d)).
    assert (g <> 0); [|lia].
    intros E. apply Z.gcd_eq_0_r in E. lia. }
  destruct (Z.gcd_divide_l n (period_den d)) as [a Ha].
  destruct (Z.gcd_divide_r n (period_den d)) as [b Hb].
  fold g in Ha, Hb.
  assert (En : n / g = a) by (rewrite Ha; apply Z.div_mul; lia).
  assert (Ed : period_den d / g = b) by (rewrite Hb at 1; apply Z.div_mul; lia).
  rewrite En, Ed in *.
  rewrite wrap_small;
    [|reflexivity
     |unfold MachInt.min_signed, MachInt.max_signed in Hfit; lia].
  replace (count d * period_num d * 1000) with (count d * a * g)
    by (unfold n in Ha; lia).
  rewrite Hb.
  symmetry. apply Z.quot_mul_cancel_r; nia.
Qed.

(** C7 (as amended). The overloads that take a [Duration] arm the timer
    with [max(1, ms)] milliseconds, hence with at least 1 ms, for every
    duration whose conversion to milliseconds stays within the 64-bit count
    and whose millisecond count [ms] fits in an [int]; [ms] is then the
    duration in milliseconds, truncated towards zero. This holds on the
    loop's thread, where the timer is armed at once, and from another
    thread, where the arming closure is posted with that value. The
    overloads that take [int] milliseconds arm the timer with exactly the
    value passed: they do not clamp. *)
Theorem C7_timer_delay (cb : TimerCb U) (w : World)
  (r : LibeventReactor.t U) (p : PipeObject.t) :
  EventLoop.reactor_ (loop w) = Some r ->
  get_pipe (EventLoop.notifier_ (loop w)) w = Some p ->
  let tid := fst (next_timer_id timer_bits w) in
  (forall d : Duration,
     0 < period_num d -> 0 < period_den d ->
     MachInt.min_signed 64 <= count d * fst (cast_factor d)
       <= MachInt.max_signed 64 ->
     Z.quot (count d * period_num d * 1000) (period_den d) <= MachInt.INT_MAX ->
     let ms := Z.max 1 (Z.quot (count d * period_num d * 1000) (period_den d)) in
     1 <= ms /\
     timer_armed false cb tid ms (EventLoop_ScheduleLater timer_bits true d cb w) /\
     timer_armed true cb tid ms (EventLoop_ScheduleRepeatedly timer_bits true d cb w) /\
     arming_posted false cb tid ms w (EventLoop_ScheduleLater timer_bits false d cb w) /\
     arming_posted true cb tid ms w
       (EventLoop_ScheduleRepeatedly timer_bits false d cb w)) /\
  (forall ms : Z,
     timer_armed false cb tid ms (EventLoop_ScheduleLater_ms timer_bits true ms cb w) /\
     timer_armed true cb tid ms
       (EventLoop_ScheduleRepeatedly_ms timer_bits true ms cb w) /\
     arming_posted false cb tid ms w
       (EventLoop_ScheduleLater_ms timer_bits false ms cb w) /\
     arming_posted true cb tid ms w
       (EventLoop_ScheduleRepeatedly_ms timer_bits false ms cb w)).
Proof.
  intros Hr Hp tid. split.
  - intros d Hn Hden Hfit Hd ms.
    assert (Hms : MachInt.to_int ms = ms).
    { apply to_int_small. rewrite INT_MIN_eq. pose proof INT_MAX_eq. unfold ms. lia. }
    unfold EventLoop_ScheduleLater, EventLoop_ScheduleRepeatedly.
    rewrite (to_milliseconds_exact d Hn Hden Hfit).
    fold ms. rewrite Hms.
    destruct (Schedule_ms_off_loop ms cb w p Hp) as [H1 H2].
    repeat split; try (unfold ms; lia); try assumption.
    + apply (ScheduleLater_ms_on_loop ms cb w r Hr).
    + apply (ScheduleRepeatedly_ms_on_loop ms cb w r Hr).
  - intros ms.
    destruct (Schedule_ms_off_loop ms cb w p Hp) as [H1 H2].
    repeat split; try assumption.
    + apply (ScheduleLater_ms_on_loop ms cb w r Hr).
    + apply (ScheduleRepeatedly_ms_on_loop ms cb w r Hr).
Qed.

(** ** C10: a connection attempt that fails at once *)

Lemma get_tcp_put_tcp a (c : TcpObject.t U) (w : World) :
  get_tcp a (put_tcp a c w) = Some c.
Proof. unfold get_tcp, put_tcp. simpl. rewrite lookup_insert_eq. reflexivity. Qed.

Lemma get_tcp_put_tcp_ne a a' (c : TcpObject.t U) (w : World) :
  a <> a' -> get_tcp a' (put_tcp a c w) = get_tcp a' w.
Proof.
  intros Hne. unfold get_tcp, put_tcp. simpl.
  rewrite lookup_insert_ne by assumption. reflexivity.
Qed.

(** C10. Whenever [EventLoop::Connect] returns, the handle is null exactly
    when the bufferevent could not be created or the connect call of the
    operating system reported an error (registration with mask 0 cannot
    fail once the reactor has been reached); with a null handle the
    registry of the loop is what it was before the call and the
    connection object is gone, so no connection object remains registered;
    with a non-null handle the connection is registered and connecting. *)
Theorem C10_Connect_null_on_failure (in_loop : bool) (a : addr)
  (ip : list Byte.byte) (port : Z) (ccb fcb : option (U -> U))
  (env : ConnectEnv) (w w' : World) (h : option addr) :
  EventLoop_Connect in_loop a ip port ccb fcb env w = Some (h, w') ->
  (h = None <-> bev_new_ok env = false \/ connect_err env <> 0) /\
  (h = None ->
     EventLoop.objects_ (loop w') = EventLoop.objects_ (loop w) /\
     heap w' !! a = None) /\
  (forall a', h = Some a' ->
     a' = a /\ state_of a w' = Some TcpObject.kConnecting /\
     exists uid, EventLoop.objects_ (loop w') !! uid = Some a).
Proof.
  unfold EventLoop_Connect. intros H.
  destruct (heap w !! a) as [?|] eqn:Hfresh; [discriminate|].
  set (c0 := TcpObject.SetFailCallback fcb _) in H.
  unfold TcpObject_Connect in H. rewrite get_tcp_put_tcp in H. simpl in H.
  destruct in_loop; simpl in H; [|discriminate].
  destruct (EventLoop.reactor_ (loop w)) as [r|] eqn:Hr; simpl in H; [|discriminate].
  destruct (bev_new_ok env) eqn:Hbev; simpl in H.
  2:{ injection H as <- <-. simpl. rewrite lookup_delete_eq.
      split; [tauto|]. split; [auto|discriminate]. }
  destruct (connect_err env =? 0) eqn:Herr; simpl in H.
  2:{ injection H as <- <-. simpl. rewrite lookup_delete_eq.
      apply Z.eqb_neq in Herr.
      split; [tauto|]. split; [auto|discriminate]. }
  apply Z.eqb_eq in Herr.
  destruct (EventLoop_Register true (Some a) 0 (put_tcp a c0 w))
    as [[ok w1]|] eqn:HR; simpl in H; [|discriminate].
  destruct ok.
  - apply EventLoop_Register_true in HR
      as (o & uid & gen & r0 & r' & Ho & Hm1 & _ & Hge & Hfree & Hr0 & HR & ->).
    unfold get_tcp in H. simpl in H. rewrite lookup_insert_eq in H.
    simpl in Ho. rewrite lookup_insert_eq in Ho. injection Ho as <-.
    simpl in H. injection H as <- <-.
    split; [split; [discriminate|intros [?|?]; congruence]|].
    split; [discriminate|].
    intros a' [= <-]. split; [reflexivity|]. split.
    + unfold state_of. rewrite get_tcp_put_tcp. reflexivity.
    + exists uid. simpl. apply lookup_insert_eq.
  - unfold EventLoop_Register in HR. simpl in HR.
    rewrite lookup_insert_eq in HR. simpl in HR. rewrite Hr in HR.
    destruct (alloc_unique_id _ _ _) as [[uid gen]|]; simpl in HR; [|discriminate].
    unfold LibeventReactor.Register in HR. simpl in HR. discriminate.
Qed.

(** ** Leaving the connected state *)

Lemma HandleDisconnect_spec a (c : TcpObject.t U) (w : World) :
  registered a c w ->
  TcpObject.state_ c = TcpObject.kConnected ->
  TcpObject_HandleDisconnect true a w = Some (after_disconnect a c w).
Proof.
  intros (Hc & Hge & Hin) Hst. unfold TcpObject_HandleDisconnect.
  rewrite Hc. simpl. rewrite Hst. simpl.
  unfold EventLoop_Unregister, after_disconnect.
  destruct (TcpObject.on_disconnect_ c) as [f|]; simpl;
    rewrite lookup_insert_eq; simpl;
    (destruct (TcpObject.unique_id_ c <? 0) eqn:E; [apply Z.ltb_lt in E; lia|]);
    (case_bool_decide; [|contradiction]); simpl;
    destruct (EventLoop.reactor_ (loop w)); reflexivity.
Qed.

(** Conversely, [HandleDisconnect] returns only under those conditions. *)
Lemma HandleDisconnect_inv in_loop a (w w' : World) :
  TcpObject_HandleDisconnect in_loop a w = Some w' ->
  exists c, registered a c w /\ TcpObject.state_ c = TcpObject.kConnected /\
            in_loop = true /\ w' = after_disconnect a c w.
Proof.
  intros H0. pose proof H0 as H. unfold TcpObject_HandleDisconnect in H.
  destruct (get_tcp a w) as [c|] eqn:Hc; simpl in H; [|discriminate].
  destruct in_loop; simpl in H; [|discriminate].
  destruct (TcpObject.State_eqb _ _) eqn:Hst; simpl in H; [|discriminate].
  apply State_eqb_eq in Hst.
  assert (Hreg : registered a c w).
  { split; [assumption|].
    unfold EventLoop_Unregister in H.
    destruct (TcpObject.on_disconnect_ c); simpl in H;
      rewrite lookup_insert_eq in H; simpl in H;
      (destruct (TcpObject.unique_id_ c <? 0) eqn:E; [discriminate|]);
      apply Z.ltb_ge in E; simpl in H;
      (case_bool_decide; [|discriminate]); auto. }
  exists c. repeat split; try apply Hreg; try assumption.
  rewrite (HandleDisconnect_spec a c w) in H0 by assumption. congruence.
Qed.

Lemma after_disconnect_heap a (c : TcpObject.t U) (w : World) :
  heap (after_disconnect a c w)
  = <[a := HTcp (TcpObject.set_state TcpObject.kDisconnected c)]> (heap w).
Proof.
  unfold after_disconnect.
  destruct (TcpObject.on_disconnect_ c), (EventLoop.reactor_ (loop w)); reflexivity.
Qed.

Lemma after_disconnect_state a (c : TcpObject.t U) (w : World) :
  get_tcp a (after_disconnect a c w)
  = Some (TcpObject.set_state TcpObject.kDisconnected c).
Proof.
  unfold get_tcp. rewrite after_disconnect_heap, lookup_insert_eq. reflexivity.
Qed.

Lemma after_disconnect_trace a (c : TcpObject.t U) (w : World) :
  trace (after_disconnect a c w)
  = trace w ++ match TcpObject.on_disconnect_ c with
               | Some _ => [ObsDisconnect a]
               | None => []
               end.
Proof.
  unfold after_disconnect.
  destruct (TcpObject.on_disconnect_ c), (EventLoop.reactor_ (loop w)); simpl;
    rewrite ?app_nil_r; reflexivity.
Qed.

Lemma after_disconnect_objects a (c : TcpObject.t U) (w : World) :
  is_Some (EventLoop.reactor_ (loop w)) ->
  EventLoop.objects_ (loop (after_disconnect a c w))
  = delete (TcpObject.unique_id_ c) (EventLoop.objects_ (loop w)).
Proof.
  intros [r Hr]. unfold after_disconnect. rewrite Hr.
  destruct (TcpObject.on_disconnect_ c); reflexivity.
Qed.

Lemma Unregister_timers eo (r : LibeventReactor.t U) :
  LibeventReactor.timers_ (LibeventReactor.Unregister eo r) = LibeventReactor.timers_ r.
Proof.
  unfold LibeventReactor.Unregister. destruct eo as [eo|]; [|reflexivity].
  destruct (LibeventReactor.objects_ r !! _); reflexivity.
Qed.

(** Leaving the connected state touches neither futures, inbox nor timers. *)
Lemma after_disconnect_frame a (c : TcpObject.t U) (w : World) :
  futures (after_disconnect a c w) = futures w /\
  EventLoop.tasks_ (loop (after_disconnect a c w)) = EventLoop.tasks_ (loop w) /\
  timers_of (after_disconnect a c w) = timers_of w /\
  (is_Some (EventLoop.reactor_ (loop (after_disconnect a c w)))
   <-> is_Some (EventLoop.reactor_ (loop w))) /\
  clock (after_disconnect a c w) = clock w /\
  timerid_generator_ (after_disconnect a c w) = timerid_generator_ w /\
  EventLoop.notifier_ (loop (after_disconnect a c w)) = EventLoop.notifier_ (loop w).
Proof.
  unfold after_disconnect, timers_of.
  destruct (TcpObject.on_disconnect_ c), (EventLoop.reactor_ (loop w)) eqn:Hr;
    simpl; rewrite ?Hr, ?Unregister_timers; repeat split; eauto;
    intros [? ?]; discriminate.
Qed.

(** ** C9: the idle timeout *)

Lemma Cancel_timers tid (r : LibeventReactor.t U) :
  LibeventReactor.timers_ (snd (LibeventReactor.Cancel tid r))
  = delete tid (LibeventReactor.timers_ r) /\
  LibeventReactor.objects_ (snd (LibeventReactor.Cancel tid r))
  = LibeventReactor.objects_ r /\
  fst (LibeventReactor.Cancel tid r)
  = bool_decide (is_Some (LibeventReactor.timers_ r !! tid)).
Proof.
  unfold LibeventReactor.Cancel.
  destruct (LibeventReactor.timers_ r !! tid) eqn:E; simpl.
  - repeat split.
  - rewrite delete_id by assumption. repeat split.
Qed.

(** C9 (as amended). [SetIdleTimeout(ms)] with [ms > 0], called on the
    loop's thread, stores the threshold, cancels the prior idle timer if
    there is one and arms a repeating timer of 100 ms that runs the idle
    check of the connection. As long as the elapsed time
    [now - last_active], in whole milliseconds, fits in an [int] (the code
    narrows it to [int] before the comparison), a fire of that timer
    invokes [ActiveClose(false)] exactly when that elapsed time is strictly
    greater than the threshold; the close then takes a connected,
    registered connection to [kDisconnected]. At an elapsed time equal to
    the threshold the fire does nothing. *)
Theorem C9_idle_timeout (a : addr) (c : TcpObject.t U) (w : World)
  (r : LibeventReactor.t U) :
  get_tcp a w = Some c ->
  EventLoop.reactor_ (loop w) = Some r ->
  (forall ms, 0 < ms ->
     let tid := fst (next_timer_id timer_bits w) in
     let old := TcpObject.idle_timer_ c in
     exists w' r' tm,
       TcpObject_SetIdleTimeout timer_bits true a ms w = Some w' /\
       get_tcp a w' = Some (TcpObject.set_idle tid ms c) /\
       EventLoop.reactor_ (loop w') = Some r' /\
       LibeventReactor.repeat tm = true /\
       LibeventReactor.callback tm = CbIdleCheck a /\
       LibeventReactor.timeout_us tm = 1000 * 100 /\
       LibeventReactor.timers_ r'
       = <[tid := tm]> (if old =? -1 then LibeventReactor.timers_ r
                        else delete old (LibeventReactor.timers_ r))) /\
  (forall tm,
     LibeventReactor.callback tm = CbIdleCheck a ->
     LibeventReactor.repeat tm = true ->
     let fired := observe (ObsTimerFired (LibeventReactor.id tm)) w in
     let elapsed := Z.quot (clock w - TcpObject.last_active_ c) 1000000 in
     MachInt.INT_MIN <= elapsed <= MachInt.INT_MAX ->
     (elapsed <= TcpObject.idle_timeout_ms_ c ->
        LibeventReactor_TimerCallback tm w = Some fired) /\
     (TcpObject.idle_timeout_ms_ c < elapsed ->
        LibeventReactor_TimerCallback tm w
        = TcpObject_ActiveClose true a false fired /\
        (registered a c w -> TcpObject.state_ c = TcpObject.kConnected ->
         LibeventReactor_TimerCallback tm w = Some (after_disconnect a c fired) /\
         state_of a (after_disconnect a c fired) = Some TcpObject.kDisconnected))).
Proof.
  intros Hc Hr. split.
  - intros ms Hms tid old.
    unfold TcpObject_SetIdleTimeout. rewrite Hc. simpl.
    destruct (ms <=? 0) eqn:E; [apply Z.leb_le in E; lia|].
    fold old.
    destruct (Schedule_timeout tid 100 (CbIdleCheck a) true
                (if old =? -1 then r else snd (LibeventReactor.Cancel old r)))
      as (tm & H1 & H2 & H3 & _ & H4).
    destruct (old =? -1) eqn:Eold; simpl.
    + unfold EventLoop_ScheduleRepeatedly_ms, next_timer_id. simpl.
      rewrite Hr. simpl. unfold get_tcp at 1. simpl.
      rewrite lookup_insert_eq. simpl.
      eexists _, _, tm. split; [reflexivity|].
      rewrite get_tcp_put_tcp. simpl.
      split; [destruct c; reflexivity|].
      split; [reflexivity|]. repeat split; try assumption.
      unfold LibeventReactor.ScheduleRepeatedly, LibeventReactor.Schedule in *.
      simpl in *. rewrite lookup_insert_eq in H1. injection H1 as <-. reflexivity.
    + unfold EventLoop_Cancel. simpl. rewrite Hr.
      destruct (LibeventReactor.Cancel old r) as [ok rc] eqn:EC. simpl.
      unfold EventLoop_ScheduleRepeatedly_ms, next_timer_id. simpl.
      unfold get_tcp at 1. simpl. rewrite lookup_insert_eq. simpl.
      eexists _, _, tm. split; [reflexivity|].
      rewrite get_tcp_put_tcp. simpl.
      split; [destruct c; reflexivity|].
      split; [reflexivity|]. repeat split; try assumption.
      pose proof (Cancel_timers old r) as (Hct & _ & _). rewrite EC in Hct.
      simpl in Hct. rewrite <- Hct.
      unfold LibeventReactor.ScheduleRepeatedly, LibeventReactor.Schedule in *.
      simpl in *. rewrite lookup_insert_eq in H1. injection H1 as <-. reflexivity.
  - intros tm Hcb Hrep fired elapsed Hint.
    assert (Hcf : get_tcp a fired = Some c) by exact Hc.
    unfold LibeventReactor_TimerCallback, run_timer_cb. rewrite Hcb, Hrep.
    fold fired. rewrite Hcf.
    unfold TcpObject.CheckIdleTimeout, TcpObject.elapsed_ms.
    change (clock fired) with (clock w). fold elapsed.
    rewrite (to_int_small elapsed Hint).
    split.
    + intros Hle.
      destruct (_ <? _) eqn:E; [apply Z.ltb_lt in E; lia|]. reflexivity.
    + intros Hlt.
      destruct (_ <? _) eqn:E; [|apply Z.ltb_ge in E; lia].
      assert (Hsame : forall o : option World, (o ≫= λ w1, Some w1) = o)
        by (intros [?|]; reflexivity).
      rewrite Hsame. split; [reflexivity|].
      intros (_ & Hge & Hin) Hst.
      split.
      * unfold TcpObject_ActiveClose, ActiveClose_destroy. rewrite Hcf. simpl.
        rewrite Hst. simpl.
        apply HandleDisconnect_spec; [|assumption].
        repeat split; assumption.
      * unfold state_of. rewrite after_disconnect_state. reflexivity.
Qed.

(** ** How closures, tasks and polls change the world *)

Lemma trace_ext_refl P (w : World) : trace_ext P w w.
Proof. exists []. rewrite app_nil_r. auto. Qed.

Lemma trace_ext_trans P (w1 w2 w3 : World) :
  trace_ext P w1 w2 -> trace_ext P w2 w3 -> trace_ext P w1 w3.
Proof.
  intros (t1 & E1 & F1) (t2 & E2 & F2). exists (t1 ++ t2).
  rewrite E2, E1, app_assoc. split; [reflexivity|]. apply Forall_app; auto.
Qed.

Lemma trace_ext_weaken (P Q : Obs -> Prop) (w w' : World) :
  (forall o, P o -> Q o) -> trace_ext P w w' -> trace_ext Q w w'.
Proof.
  intros HPQ (t & E & F). exists t. split; [assumption|].
  eapply Forall_impl; eauto.
Qed.

Lemma trace_ext_same_trace P (w w' : World) :
  trace w' = trace w -> trace_ext P w w'.
Proof. intros E. exists []. rewrite app_nil_r. auto. Qed.

Lemma trace_ext_observe (P : Obs -> Prop) o (w : World) :
  P o -> trace_ext P w (observe o w).
Proof. intros Ho. exists [o]. split; [reflexivity|]. constructor; auto. Qed.

Lemma after_disconnect_trace_ext a (c : TcpObject.t U) (w : World) :
  trace_ext handler_obs w (after_disconnect a c w).
Proof.
  eexists. split; [apply after_disconnect_trace|].
  destruct (TcpObject.on_disconnect_ c); repeat constructor.
Qed.

Lemma ActiveClose_destroy_inv me (w w' : World) :
  ActiveClose_destroy me w = Some w' ->
  w' = w \/
  exists c, registered me c w /\ TcpObject.state_ c = TcpObject.kConnected /\
            w' = after_disconnect me c w.
Proof.
  unfold ActiveClose_destroy. intros H.
  destruct (get_tcp me w) as [c|] eqn:Hc; [|left; congruence].
  destruct (TcpObject.State_eqb _ _) eqn:Hst; [|left; congruence].
  apply HandleDisconnect_inv in H as (c' & Hreg & Hs & _ & ->).
  right. exists c'. auto.
Qed.

Lemma handler_step_refl (w : World) : handler_step w w.
Proof.
  split; [|split; [|split; [|split]]]; auto using trace_ext_refl.
Qed.

Lemma after_disconnect_step a (c : TcpObject.t U) (w : World) :
  handler_step w (after_disconnect a c w).
Proof.
  destruct (after_disconnect_frame a c w) as (H1 & H2 & H3 & H4 & _).
  split; [|split; [|split; [|split]]]; auto using after_disconnect_trace_ext.
Qed.

Lemma ActiveClose_destroy_step me (w w' : World) :
  ActiveClose_destroy me w = Some w' -> handler_step w w'.
Proof.
  intros H. apply ActiveClose_destroy_inv in H as [-> | (c & _ & _ & ->)].
  - apply handler_step_refl.
  - apply after_disconnect_step.
Qed.

(** A closure leaves futures and inbox alone and keeps the reactor. *)
Lemma run_closure_frame cl (w w' : World) v :
  run_closure cl w = Some (v, w') ->
  futures w' = futures w /\
  EventLoop.tasks_ (loop w') = EventLoop.tasks_ (loop w) /\
  (is_Some (EventLoop.reactor_ (loop w)) -> is_Some (EventLoop.reactor_ (loop w'))) /\
  trace_ext handler_obs w w'.
Proof.
  unfold run_closure. intros H. destruct cl as [f|tid|tid ms cb rep|me].
  - destruct (f (user w)) as [x u]. injection H as <- <-.
    split; [|split; [|split]]; auto. apply trace_ext_same_trace. reflexivity.
  - destruct (EventLoop.reactor_ (loop w)) as [r|] eqn:Hr.
    + destruct (LibeventReactor.Cancel tid r) as [ok r']. injection H as <- <-.
      split; [|split; [|split]]; simpl; eauto.
      apply trace_ext_same_trace. reflexivity.
    + injection H as <- <-.
      split; [|split; [|split]]; auto using trace_ext_refl.
      intros [? ?]; discriminate.
  - destruct (EventLoop.reactor_ (loop w)) as [r|] eqn:Hr; [|discriminate].
    simpl in H. injection H as <- <-.
    split; [|split; [|split]]; simpl; eauto.
    apply trace_ext_same_trace. reflexivity.
  - destruct (ActiveClose_destroy me w) as [w1|] eqn:Hd; [|discriminate].
    simpl in H. injection H as <- <-.
    apply ActiveClose_destroy_step in Hd as (H1 & H2 & H3 & H4 & H5).
    split; [|split; [|split]]; auto. apply H4.
Qed.

Lemma run_task_inv (t : Task U V) (w w' : World) :
  run_task t w = Some w' ->
  exists v w1,
    run_closure (task_body t) (observe (ObsTaskRun (task_future t)) w) = Some (v, w1) /\
    w' = fulfil (task_future t) v w1.
Proof.
  unfold run_task. intros H.
  destruct (run_closure _ _) as [[v w1]|]; [|discriminate].
  simpl in H. injection H as <-. eauto.
Qed.

(** A task adds its own mark to the trace, then what its closure did. *)
Lemma run_task_frame (t : Task U V) (w w' : World) :
  run_task t w = Some w' ->
  length (futures w') = length (futures w) /\
  EventLoop.tasks_ (loop w') = EventLoop.tasks_ (loop w) /\
  (is_Some (EventLoop.reactor_ (loop w)) -> is_Some (EventLoop.reactor_ (loop w'))) /\
  exists tr, trace w' = trace w ++ ObsTaskRun (task_future t) :: tr /\
             Forall handler_obs tr.
Proof.
  intros H. apply run_task_inv in H as (v & w1 & Hrun & ->).
  apply run_closure_frame in Hrun as (H1 & H2 & H3 & (tr & H4 & H5)).
  simpl in *. rewrite length_insert, H1.
  repeat split; auto.
  exists tr. rewrite H4, <- app_assoc. auto.
Qed.

Lemma handler_obs_task_order tr : Forall handler_obs tr -> task_order tr = [].
Proof.
  induction 1 as [|o tr Ho _ IH]; [reflexivity|].
  destruct o; simpl in Ho; try tauto; exact IH.
Qed.

Lemma task_order_app t1 t2 : task_order (t1 ++ t2) = task_order t1 ++ task_order t2.
Proof. unfold task_order. apply omap_app. Qed.

(** Draining the inbox runs the tasks in the order of the list; nothing is
    polled and no timer fires meanwhile. *)
Lemma run_tasks_frame (ts : list (Task U V)) (w w' : World) :
  run_tasks ts w = Some w' ->
  length (futures w') = length (futures w) /\
  EventLoop.tasks_ (loop w') = EventLoop.tasks_ (loop w) /\
  (is_Some (EventLoop.reactor_ (loop w)) -> is_Some (EventLoop.reactor_ (loop w'))) /\
  exists tr, trace w' = trace w ++ tr /\
             task_order tr = map task_future ts /\
             Forall (fun o => o <> ObsPoll /\ forall k, o <> ObsTimerFired k) tr.
Proof.
  revert w. induction ts as [|t ts IH]; intros w H; simpl in H.
  - injection H as <-. repeat split; auto.
    exists []. rewrite app_nil_r. auto.
  - destruct (run_task t w) as [w1|] eqn:Ht; [|discriminate]. simpl in H.
    apply run_task_frame in Ht as (A1 & A2 & A3 & (tr1 & A4 & A5)).
    apply IH in H as (B1 & B2 & B3 & (tr2 & B4 & B5 & B6)).
    repeat split; try congruence; auto.
    exists ((ObsTaskRun (task_future t) :: tr1) ++ tr2).
    rewrite B4, A4, <- app_assoc. split; [reflexivity|]. split.
    + rewrite task_order_app. simpl.
      change (task_order (ObsTaskRun (task_future t) :: tr1))
        with (task_future t :: task_order tr1).
      rewrite (handler_obs_task_order tr1 A5). simpl. congruence.
    + apply Forall_app. split; [|assumption].
      constructor; [split; [discriminate|intros; discriminate]|].
      eapply Forall_impl; [exact A5|].
      intros o Ho. destruct o; simpl in Ho; try tauto;
        (split; [discriminate|intros; discriminate]).
Qed.

Lemma run_tasks_app (ts1 ts2 : list (Task U V)) (w : World) :
  run_tasks (ts1 ++ ts2) w = run_tasks ts1 w ≫= run_tasks ts2.
Proof.
  revert w. induction ts1 as [|t ts1 IH]; intros w; simpl; [reflexivity|].
  destruct (run_task t w) as [w1|]; simpl; [apply IH|reflexivity].
Qed.

Lemma timers_shrink_refl (w : World) : timers_shrink w w.
Proof. unfold timers_shrink. reflexivity. Qed.

Lemma timers_shrink_trans (w1 w2 w3 : World) :
  timers_shrink w1 w2 -> timers_shrink w2 w3 -> timers_shrink w1 w3.
Proof. unfold timers_shrink. intros H1 H2. etransitivity; eassumption. Qed.

Lemma timers_shrink_eq (w w' : World) :
  timers_of w' = timers_of w -> timers_shrink w w'.
Proof. unfold timers_shrink. intros ->. reflexivity. Qed.

Lemma timers_shrink_wf (w w' : World) :
  timers_shrink w w' -> timers_wf w -> timers_wf w'.
Proof.
  unfold timers_shrink, timers_wf. intros Hs Hwf k tm Hk.
  apply Hwf. eapply lookup_weaken; eassumption.
Qed.

Lemma timers_shrink_absent (w w' : World) k :
  timers_shrink w w' -> timers_of w !! k = None -> timers_of w' !! k = None.
Proof.
  unfold timers_shrink. intros Hs Hk.
  destruct (timers_of w' !! k) as [tm|] eqn:E; [|reflexivity].
  eapply lookup_weaken in E; [|eassumption]. congruence.
Qed.

Lemma fire_of_shrink (w w' : World) o :
  timers_shrink w w' -> fire_of w' o -> fire_of w o.
Proof.
  intros Hs [Ho | (k & tm & Hk & ->)]; [left; assumption|].
  right. exists k, tm. split; [|reflexivity].
  eapply lookup_weaken; eassumption.
Qed.

Lemma handler_step_trans (w1 w2 w3 : World) :
  handler_step w1 w2 -> handler_step w2 w3 -> handler_step w1 w3.
Proof.
  intros (A1 & A2 & A3 & A4 & A5) (B1 & B2 & B3 & B4 & B5).
  split; [congruence|]. split; [congruence|]. split; [congruence|].
  split; [tauto|]. eapply trace_ext_trans; eassumption.
Qed.

Lemma ActiveClose_on_loop_step a sync (w w' : World) :
  TcpObject_ActiveClose true a sync w = Some w' -> handler_step w w'.
Proof.
  unfold TcpObject_ActiveClose. intros H.
  destruct (get_tcp a w); simpl in H; [|discriminate].
  eapply ActiveClose_destroy_step; eassumption.
Qed.

Lemma run_timer_cb_step cb (w w' : World) :
  run_timer_cb cb w = Some w' -> handler_step w w'.
Proof.
  unfold run_timer_cb. intros H. destruct cb as [f|a].
  - injection H as <-.
    split; [|split; [|split; [|split]]]; auto.
    apply trace_ext_same_trace. reflexivity.
  - destruct (get_tcp a w) as [c|]; [|injection H as <-; apply handler_step_refl].
    destruct (TcpObject.CheckIdleTimeout _ _);
      [|injection H as <-; apply handler_step_refl].
    eapply ActiveClose_on_loop_step; eassumption.
Qed.

(** A timer callback: the fire is seen first, then what the closure did;
    a one-shot timer removes itself afterwards. *)
Lemma TimerCallback_frame tm (w w' : World) :
  LibeventReactor_TimerCallback tm w = Some w' ->
  futures w' = futures w /\
  EventLoop.tasks_ (loop w') = EventLoop.tasks_ (loop w) /\
  timers_shrink w w' /\
  (is_Some (EventLoop.reactor_ (loop w)) -> is_Some (EventLoop.reactor_ (loop w'))) /\
  exists tr, trace w' = trace w ++ ObsTimerFired (LibeventReactor.id tm) :: tr /\
             Forall handler_obs tr.
Proof.
  unfold LibeventReactor_TimerCallback. intros H.
  destruct (run_timer_cb _ _) as [w1|] eqn:Hcb; simpl in H; [|discriminate].
  apply run_timer_cb_step in Hcb as (A1' & A2' & A3' & A4' & (tr & A5 & A6)).
  assert (A1 : futures w1 = futures w) by exact A1'.
  assert (A2 : EventLoop.tasks_ (loop w1) = EventLoop.tasks_ (loop w)) by exact A2'.
  assert (A3 : timers_of w1 = timers_of w) by exact A3'.
  assert (A4 : is_Some (EventLoop.reactor_ (loop w1))
               <-> is_Some (EventLoop.reactor_ (loop w))) by exact A4'.
  clear A1' A2' A3' A4'.
  assert (Htr : trace w1 = trace w ++ ObsTimerFired (LibeventReactor.id tm) :: tr)
    by (rewrite A5; simpl; rewrite <- app_assoc; reflexivity).
  destruct (LibeventReactor.repeat tm).
  - injection H as <-.
    split; [assumption|]. split; [assumption|].
    split; [apply timers_shrink_eq; assumption|].
    split; [apply A4|]. eauto.
  - destruct (EventLoop.reactor_ (loop w1)) as [r|] eqn:Hr; simpl in H; [|discriminate].
    injection H as <-. simpl.
    split; [assumption|]. split; [assumption|].
    split.
    + unfold timers_shrink. rewrite <- A3. unfold timers_of. simpl. rewrite Hr.
      destruct (Cancel_timers (LibeventReactor.id tm) r) as (-> & _).
      apply delete_subseteq.
    + split; [eauto|]. eauto.
Qed.

Lemma dispatch_frame e (w w' : World) :
  dispatch e w = Some w' ->
  futures w' = futures w /\
  EventLoop.tasks_ (loop w') = EventLoop.tasks_ (loop w) /\
  timers_shrink w w' /\
  (is_Some (EventLoop.reactor_ (loop w)) -> is_Some (EventLoop.reactor_ (loop w'))) /\
  trace_ext (fire_of w) w w'.
Proof.
  intros H. unfold dispatch in H.
  assert (Hsame : forall w0 : World,
            Some w0 = Some w' -> futures w0 = futures w ->
            EventLoop.tasks_ (loop w0) = EventLoop.tasks_ (loop w) ->
            timers_of w0 = timers_of w -> trace w0 = trace w ->
            is_Some (EventLoop.reactor_ (loop w0)) ->
            futures w' = futures w /\
            EventLoop.tasks_ (loop w') = EventLoop.tasks_ (loop w) /\
            timers_shrink w w' /\
            (is_Some (EventLoop.reactor_ (loop w)) ->
             is_Some (EventLoop.reactor_ (loop w'))) /\
            trace_ext (fire_of w) w w').
  { intros w0 [= <-] ? ? ? ? ?.
    split; [assumption|]. split; [assumption|].
    split; [apply timers_shrink_eq; assumption|]. split; [auto|].
    apply trace_ext_same_trace. assumption. }
  destruct (EventLoop.reactor_ (loop w)) as [r|] eqn:Hr; simpl in H; [|discriminate].
  assert (Hr' : EventLoop.reactor_ (loop w) = Some r) by assumption.
  destruct e as [tid|oid].
  - destruct (LibeventReactor.timers_ r !! tid) as [tm|] eqn:Htm.
    + apply TimerCallback_frame in H as (A1 & A2 & A3 & A4 & (tr & A5 & A6)).
      split; [assumption|]. split; [assumption|]. split; [assumption|].
      split; [intros _; apply A4; rewrite Hr'; eauto|].
      eexists. split; [exact A5|]. constructor.
      * right. exists tid, tm. split; [|reflexivity].
        unfold timers_of. rewrite Hr'. assumption.
      * eapply Forall_impl; [exact A6|]. intros o Ho. left. assumption.
    + apply (Hsame w); auto; rewrite Hr'; eauto.
  - destruct (LibeventReactor.objects_ r !! oid) as [obj|];
      [|apply (Hsame w); auto; rewrite Hr'; eauto].
    destruct (LibeventReactor.read_event obj) as [ev|];
      [|apply (Hsame w); auto; rewrite Hr'; eauto].
    destruct (heap w !! LibeventReactor.ev_arg ev) as [[p|c]|]; [| |discriminate].
    + destruct (PipeObject.HandleReadEvent p) as [ok p'].
      destruct ok; [|discriminate].
      eapply Hsame; [exact H|..]; try reflexivity; simpl; rewrite Hr'; eauto.
    + apply (Hsame w); auto; rewrite Hr'; eauto.
Qed.

Lemma dispatch_all_frame ready (w w' : World) :
  dispatch_all ready w = Some w' ->
  futures w' = futures w /\
  EventLoop.tasks_ (loop w') = EventLoop.tasks_ (loop w) /\
  timers_shrink w w' /\
  (is_Some (EventLoop.reactor_ (loop w)) -> is_Some (EventLoop.reactor_ (loop w'))) /\
  trace_ext (fire_of w) w w'.
Proof.
  revert w. induction ready as [|e ready IH]; intros w H; simpl in H.
  - injection H as <-.
    split; [reflexivity|]. split; [reflexivity|].
    split; [apply timers_shrink_refl|]. split; [auto|]. apply trace_ext_refl.
  - destruct (dispatch e w) as [w1|] eqn:He; simpl in H; [|discriminate].
    apply dispatch_frame in He as (A1 & A2 & A3 & A4 & A5).
    apply IH in H as (B1 & B2 & B3 & B4 & B5).
    split; [congruence|]. split; [congruence|].
    split; [eapply timers_shrink_trans; eassumption|]. split; [auto|].
    eapply trace_ext_trans; [exact A5|].
    eapply trace_ext_weaken; [|exact B5].
    intros o. apply fire_of_shrink. assumption.
Qed.

(** ** C3: Execute *)

Lemma Run_iteration_inv ready ok (w w3 : World) :
  EventLoop_Run_iteration true ready ok w = Some w3 ->
  exists w1 w2,
    run_tasks (EventLoop.tasks_ (loop w)) (with_tasks [] w) = Some w1 /\
    is_Some (EventLoop.reactor_ (loop w1)) /\
    dispatch_all ready (observe ObsPoll w1) = Some w2 /\
    w3 = (if ok then w2 else observe ObsError w2).
Proof.
  unfold EventLoop_Run_iteration, LibeventReactor_Poll. intros H.
  destruct (run_tasks _ _) as [w1|] eqn:H1; simpl in H; [|discriminate].
  destruct (EventLoop.reactor_ (loop w1)) as [r|] eqn:Hr; simpl in H; [|discriminate].
  destruct (dispatch_all ready _) as [w2|] eqn:H2; simpl in H; [|discriminate].
  injection H as <-. exists w1, w2.
  split; [reflexivity|]. split; [eauto|]. split; [assumption|reflexivity].
Qed.

Lemma fire_of_task_order (w : World) tr :
  Forall (fire_of w) tr -> task_order tr = [].
Proof.
  induction 1 as [|o tr Ho _ IH]; [reflexivity|].
  destruct Ho as [Ho | (k & tm & _ & ->)]; [|exact IH].
  destruct o; simpl in Ho; try tauto; exact IH.
Qed.

(** C3. [Execute(f)] on the loop's own thread runs [f] before it returns:
    the future returned is already fulfilled with the result of [f] and
    the effect of [f] is in place. From any other thread the closure is
    appended to the end of the inbox, one byte is written to the notifier
    (its pipe holds one pending byte more, unless it is full, and is
    readable either way; nothing else of the pipe changes), and the future
    returned is pending; when the loop next takes the inbox it runs
    the tasks in the order of the inbox, this one last, all before the
    poll of that iteration, and afterwards the future holds the value [f]
    returned. *)
Theorem C3_Execute (cl : Closure U V) (w : World) :
  let fut := length (futures w) in
  (forall v w2,
     run_closure cl (observe (ObsTaskRun fut)
                       (with_futures (futures w ++ [None]) w)) = Some (v, w2) ->
     EventLoop_Execute true cl w = Some (fut, fulfil fut v w2) /\
     futures (fulfil fut v w2) !! fut = Some (Some v) /\
     EventLoop.tasks_ (loop (fulfil fut v w2)) = EventLoop.tasks_ (loop w)) /\
  (forall f, cl = ClUser f ->
     exists w',
       EventLoop_Execute true cl w = Some (fut, w') /\
       futures w' !! fut = Some (Some (VUser (fst (f (user w))))) /\
       user w' = snd (f (user w))) /\
  (forall p, get_pipe (EventLoop.notifier_ (loop w)) w = Some p ->
     exists w1,
       EventLoop_Execute false cl w = Some (fut, w1) /\
       EventLoop.tasks_ (loop w1) = EventLoop.tasks_ (loop w) ++ [mkTask cl fut] /\
       futures w1 !! fut = Some None /\
       get_pipe (EventLoop.notifier_ (loop w1)) w1 = Some (snd (PipeObject.Notify p)) /\
       (exists p1,
          get_pipe (EventLoop.notifier_ (loop w1)) w1 = Some p1 /\
          PipeObject.pending p1
          = (if (PipeObject.pending p <? PipeObject.capacity p)%nat
             then S (PipeObject.pending p) else PipeObject.pending p) /\
          (0 < PipeObject.capacity p -> 0 < PipeObject.pending p1)%nat /\
          PipeObject.read_fd_ p1 = PipeObject.read_fd_ p /\
          PipeObject.write_fd_ p1 = PipeObject.write_fd_ p /\
          PipeObject.unique_id_ p1 = PipeObject.unique_id_ p /\
          PipeObject.capacity p1 = PipeObject.capacity p) /\
       user w1 = user w /\ trace w1 = trace w /\
       forall ready ok w3,
         EventLoop_Run_iteration true ready ok w1 = Some w3 ->
         exists wpre v w2 tr tr',
           run_tasks (EventLoop.tasks_ (loop w)) (with_tasks [] w1) = Some wpre /\
           run_closure cl (observe (ObsTaskRun fut) wpre) = Some (v, w2) /\
           (forall f, cl = ClUser f -> v = VUser (fst (f (user wpre)))) /\
           futures w3 !! fut = Some (Some v) /\
           trace w3 = trace w ++ tr ++ ObsPoll :: tr' /\
           task_order tr = map task_future (EventLoop.tasks_ (loop w)) ++ [fut] /\
           Forall (fun o => o <> ObsPoll) tr /\
           task_order tr' = []).
Proof.
  intros fut.
  assert (Hlen : length (futures w ++ [None]) = S fut)
    by (rewrite length_app; simpl; unfold fut; lia).
  split; [|split].
  - intros v w2 Hrun. unfold EventLoop_Execute, run_task. simpl.
    fold fut. rewrite Hrun. simpl. split; [reflexivity|].
    apply run_closure_frame in Hrun as (F1 & F2 & _ & _). simpl in *.
    split; [|assumption].
    rewrite F1. apply list_lookup_insert_eq. lia.
  - intros f ->. destruct (f (user w)) as [x u] eqn:Hf.
    eexists. unfold EventLoop_Execute, run_task, run_closure. simpl.
    fold fut. rewrite Hf. simpl.
    split; [reflexivity|]. simpl. split; [|reflexivity].
    apply list_lookup_insert_eq. lia.
  - intros p Hp. eexists. split; [apply Execute_off_loop; exact Hp|]. simpl.
    split; [reflexivity|].
    split; [fold fut; rewrite lookup_app_r by lia;
            replace (fut - length (futures w))%nat with 0%nat by (unfold fut; lia);
            reflexivity|].
    split; [unfold get_pipe; simpl; rewrite lookup_insert_eq; reflexivity|].
    split.
    { exists (snd (PipeObject.Notify p)).
      split; [unfold get_pipe; simpl; rewrite lookup_insert_eq; reflexivity|].
      unfold PipeObject.Notify.
      destruct (PipeObject.pending p <? PipeObject.capacity p)%nat eqn:E; simpl.
      - repeat split. lia.
      - apply Nat.ltb_ge in E. repeat split. lia. }
    split; [reflexivity|]. split; [reflexivity|].
    intros ready ok w3 Hit.
    apply Run_iteration_inv in Hit as (wd & w2 & Hdrain & Hreact & Hpoll & ->).
    simpl in Hdrain. fold fut in Hdrain.
    rewrite run_tasks_app in Hdrain.
    destruct (run_tasks (EventLoop.tasks_ (loop w)) _) as [wpre|] eqn:Hpre;
      simpl in Hdrain; [|discriminate].
    destruct (run_task (mkTask cl fut) wpre) as [wt|] eqn:Ht;
      simpl in Hdrain; [|discriminate].
    injection Hdrain as <-.
    apply run_task_inv in Ht as (v & wc & Hcl & ->). simpl in Hcl.
    exists wpre, v, wc.
    apply run_tasks_frame in Hpre as (P1 & _ & _ & (trp & P4 & P5 & P6)).
    pose proof Hcl as Hcl'.
    apply run_closure_frame in Hcl' as (C1 & _ & _ & (trc & C4 & C5)).
    apply dispatch_all_frame in Hpoll as (D1 & _ & _ & _ & (trd & D5 & D6)).
    simpl in *.
    exists (trp ++ ObsTaskRun fut :: trc), (trd ++ if ok then [] else [ObsError]).
    split; [reflexivity|]. split; [exact Hcl|].
    split.
    { intros f ->. unfold run_closure in Hcl. simpl in Hcl.
      destruct (f (user wpre)) as [x u]. simpl. congruence. }
    split.
    { assert (E : futures (if ok then w2 else observe ObsError w2) = futures w2)
        by (destruct ok; reflexivity).
      rewrite E, D1. apply list_lookup_insert_eq.
      rewrite C1, P1, Hlen. lia. }
    split.
    { assert (E : trace (if ok then w2 else observe ObsError w2)
                  = trace w2 ++ if ok then [] else [ObsError])
        by (destruct ok; simpl; rewrite ?app_nil_r; reflexivity).
      rewrite E, D5, C4, P4. repeat rewrite <- app_assoc. simpl.
      reflexivity. }
    split.
    { rewrite task_order_app, P5.
      change (task_order (ObsTaskRun fut :: trc)) with (fut :: task_order trc).
      rewrite (handler_obs_task_order trc C5). reflexivity. }
    split.
    { apply Forall_app. split.
      - eapply Forall_impl; [exact P6|]. intros o [Ho _]. exact Ho.
      - constructor; [discriminate|].
        eapply Forall_impl; [exact C5|]. intros o Ho ->. exact Ho. }
    rewrite task_order_app, (fire_of_task_order _ _ D6).
    destruct ok; reflexivity.
Qed.

(** ** C4: cancelling a timer before its arming task has run *)

Lemma Execute_off_loop_inv cl (w w' : World) fut :
  EventLoop_Execute false cl w = Some (fut, w') ->
  exists p,
    get_pipe (EventLoop.notifier_ (loop w)) w = Some p /\
    fut = length (futures w) /\
    w' = with_heap (<[EventLoop.notifier_ (loop w) :=
                        HPipe (snd (PipeObject.Notify p))]> (heap w))
           (with_tasks (EventLoop.tasks_ (loop w) ++ [mkTask cl (length (futures w))])
              (with_futures (futures w ++ [None]) w)).
Proof.
  intros H.
  destruct (get_pipe (EventLoop.notifier_ (loop w)) w) as [p|] eqn:Hp.
  - rewrite (Execute_off_loop cl w p Hp) in H. injection H as <- <-. eauto.
  - unfold EventLoop_Execute, notify in H. simpl in H.
    unfold get_pipe in *. simpl in H.
    destruct (heap w !! EventLoop.notifier_ (loop w)) as [[q|c]|];
      simpl in H; discriminate.
Qed.

Lemma Schedule_wf tid ms (cb : TimerCb U) rep (w : World) r :
  EventLoop.reactor_ (loop w) = Some r ->
  timers_wf w ->
  timers_wf (with_reactor (Some (LibeventReactor.Schedule tid ms cb rep r)) w).
Proof.
  intros Hr Hwf k tm. unfold timers_of. simpl.
  destruct (decide (tid = k)) as [->|Hne].
  - rewrite lookup_insert_eq. intros [= <-]. reflexivity.
  - rewrite lookup_insert_ne by assumption. intros Hk. apply Hwf.
    unfold timers_of. rewrite Hr. assumption.
Qed.

Lemma run_closure_wf cl (w w' : World) v :
  timers_wf w -> run_closure cl w = Some (v, w') -> timers_wf w'.
Proof.
  intros Hwf H. unfold run_closure in H. destruct cl as [f|tid|tid ms cb rep|me].
  - destruct (f (user w)) as [x u]. injection H as <- <-. exact Hwf.
  - destruct (EventLoop.reactor_ (loop w)) as [r|] eqn:Hr.
    + destruct (LibeventReactor.Cancel tid r) as [ok r'] eqn:HC.
      injection H as <- <-.
      eapply (timers_shrink_wf w); [|exact Hwf].
      unfold timers_shrink, timers_of. simpl. rewrite Hr.
      destruct (Cancel_timers tid r) as (Ht & _). rewrite HC in Ht. simpl in Ht.
      rewrite Ht. apply delete_subseteq.
    + injection H as <- <-. exact Hwf.
  - destruct (EventLoop.reactor_ (loop w)) as [r|] eqn:Hr; [|discriminate].
    simpl in H. injection H as <- <-.
    destruct rep; apply Schedule_wf; assumption.
  - destruct (ActiveClose_destroy me w) as [w1|] eqn:Hd; [|discriminate].
    simpl in H. injection H as <- <-.
    apply ActiveClose_destroy_step in Hd as (_ & _ & H3 & _).
    eapply timers_shrink_wf; [apply timers_shrink_eq; exact H3|exact Hwf].
Qed.

Lemma run_tasks_wf (ts : list (Task U V)) (w w' : World) :
  timers_wf w -> run_tasks ts w = Some w' -> timers_wf w'.
Proof.
  revert w. induction ts as [|t ts IH]; intros w Hwf H; simpl in H.
  - injection H as <-. exact Hwf.
  - destruct (run_task t w) as [w1|] eqn:Ht; [|discriminate]. simpl in H.
    apply run_task_inv in Ht as (v & wc & Hcl & ->).
    apply run_closure_wf in Hcl; [|exact Hwf].
    eapply IH; [|exact H]. exact Hcl.
Qed.

(** A poll cannot fire a timer that the reactor does not have. *)
Lemma dispatch_all_absent tid ready (w w' : World) :
  timers_wf w -> timers_of w !! tid = None ->
  dispatch_all ready w = Some w' ->
  timers_wf w' /\ timers_of w' !! tid = None /\
  trace_ext (fun o => o <> ObsTimerFired tid) w w'.
Proof.
  intros Hwf Habs H.
  apply dispatch_all_frame in H as (_ & _ & Hs & _ & Ht).
  split; [eapply timers_shrink_wf; eassumption|].
  split; [eapply timers_shrink_absent; eassumption|].
  eapply trace_ext_weaken; [|exact Ht].
  intros o [Ho | (k & tm & Hk & ->)].
  - intros ->. exact Ho.
  - intros [= E]. apply Hwf in Hk as Hid. congruence.
Qed.

Lemma poll_rounds_absent tid rounds (w w' : World) :
  timers_wf w -> timers_of w !! tid = None ->
  poll_rounds rounds w = Some w' ->
  timers_of w' !! tid = None /\
  trace_ext (fun o => o <> ObsTimerFired tid) w w'.
Proof.
  revert w. induction rounds as [|ready rounds IH]; intros w Hwf Habs H; simpl in H.
  - injection H as <-. split; [assumption|apply trace_ext_refl].
  - destruct (dispatch_all ready _) as [w1|] eqn:Hd; simpl in H; [|discriminate].
    apply dispatch_all_absent with (tid := tid) in Hd as (W1 & A1 & T1);
      [|exact Hwf|exact Habs].
    apply IH in H as (A2 & T2); [|assumption|assumption].
    split; [assumption|].
    eapply trace_ext_trans; [|exact T2].
    eapply trace_ext_trans; [|exact T1].
    apply trace_ext_observe. discriminate.
Qed.

(** C4. [ScheduleLater] is called from another thread and [Cancel(id)]
    after it, both before the loop takes its inbox: whatever the inbox
    held before, the iteration that drains it runs the arming task and
    then the cancelling task, so the future of the cancel holds true, no
    timer [id] is left, and the timer does not fire in that iteration nor
    in any later poll. *)
Theorem C4_cancel_before_drain (delay_ms : Z) (cb : TimerCb U)
  (w w1 w2 : World) (tid : Z) (fut : nat) :
  timers_wf w ->
  EventLoop_ScheduleLater_ms timer_bits false delay_ms cb w = Some (tid, w1) ->
  EventLoop_Cancel false tid w1 = Some (fut, w2) ->
  forall ready ok w3,
    EventLoop_Run_iteration true ready ok w2 = Some w3 ->
    futures w3 !! fut = Some (Some (VBool true)) /\
    timers_of w3 !! tid = None /\
    trace_ext (fun o => o <> ObsTimerFired tid) w w3 /\
    forall rounds w4,
      poll_rounds rounds w3 = Some w4 ->
      timers_of w4 !! tid = None /\
      trace_ext (fun o => o <> ObsTimerFired tid) w w4.
Proof.
  intros Hwf Hsched Hcancel ready ok w3 Hit.
  unfold EventLoop_ScheduleLater_ms, next_timer_id in Hsched. simpl in Hsched.
  destruct (EventLoop_Execute false _ _) as [[f1 w1']|] eqn:E1;
    simpl in Hsched; [|discriminate].
  injection Hsched as <- <-.
  apply Execute_off_loop_inv in E1 as (p1 & Hp1 & -> & ->).
  unfold EventLoop_Cancel in Hcancel.
  apply Execute_off_loop_inv in Hcancel as (p2 & Hp2 & -> & ->).
  simpl in *.
  set (tid := MachInt.wrap timer_bits (timerid_generator_ w + 1)) in *.
  set (f1 := length (futures w)) in *.
  apply Run_iteration_inv in Hit as (wd & wp & Hdrain & Hreact & Hpoll & ->).
  simpl in Hdrain. rewrite <- app_assoc in Hdrain. simpl in Hdrain.
  rewrite run_tasks_app in Hdrain.
  destruct (run_tasks (EventLoop.tasks_ (loop w)) _) as [wpre|] eqn:Hpre;
    simpl in Hdrain; [|discriminate].
  destruct (run_task _ wpre) as [wa|] eqn:Harm; simpl in Hdrain; [|discriminate].
  destruct (run_task _ wa) as [wc|] eqn:Hcan; simpl in Hdrain; [|discriminate].
  injection Hdrain as <-.
  (* before the two tasks *)
  pose proof Hpre as Hprewf. apply run_tasks_wf in Hprewf; [|exact Hwf].
  apply run_tasks_frame in Hpre as (P1 & _ & _ & (trp & P4 & _ & P6)).
  simpl in P1, P4.
  (* the arming task *)
  apply run_task_inv in Harm as (va & wa' & Ha & ->).
  unfold run_closure in Ha. simpl in Ha.
  destruct (EventLoop.reactor_ (loop wpre)) as [r|] eqn:Hr; simpl in Ha; [|discriminate].
  injection Ha as <- <-.
  (* the cancelling task *)
  apply run_task_inv in Hcan as (vc & wc' & Hc & ->).
  unfold run_closure in Hc. simpl in Hc.
  unfold LibeventReactor.ScheduleLater, LibeventReactor.Schedule,
    LibeventReactor.Cancel in Hc. simpl in Hc.
  rewrite lookup_insert_eq in Hc. injection Hc as <- <-.
  assert (Hlenp : length (futures wpre) = S (S f1)).
  { rewrite P1, !length_app. simpl. unfold f1. lia. }
  set (wdrain := fulfil _ (VBool true) _) in *.
  assert (Hwfd : timers_wf wdrain).
  { intros k tm. unfold wdrain, timers_of. simpl. rewrite delete_insert_eq.
    intros Hk. apply lookup_delete_Some in Hk as [_ Hk].
    apply Hprewf. unfold timers_of. rewrite Hr. exact Hk. }
  assert (Habs : timers_of wdrain !! tid = None).
  { unfold wdrain, timers_of. simpl. apply lookup_delete_eq. }
  assert (Hfd : futures wdrain !! length (futures w ++ [None]) = Some (Some (VBool true))).
  { unfold wdrain. simpl. apply list_lookup_insert_eq.
    rewrite length_insert, Hlenp, length_app. simpl. unfold f1. lia. }
  assert (Htrd : trace_ext (fun o => o <> ObsTimerFired tid) w wdrain).
  { exists (trp ++ [ObsTaskRun f1; ObsTaskRun (length (futures w ++ [None]))]).
    split.
    - unfold wdrain. simpl. rewrite P4. repeat rewrite <- app_assoc. reflexivity.
    - apply Forall_app. split.
      + eapply Forall_impl; [exact P6|]. intros o [_ Ho]. apply Ho.
      + repeat constructor; discriminate. }
  assert (Hpoll' : dispatch_all ready (observe ObsPoll wdrain) = Some wp) by exact Hpoll.
  apply dispatch_all_absent with (tid := tid) in Hpoll' as (W1 & A1 & T1);
    [|exact Hwfd|exact Habs].
  apply dispatch_all_frame in Hpoll as (D1 & _).
  assert (Htr3 : trace_ext (fun o => o <> ObsTimerFired tid) w
                   (if ok then wp else observe ObsError wp)).
  { eapply trace_ext_trans; [exact Htrd|].
    eapply trace_ext_trans; [apply (trace_ext_observe _ ObsPoll); discriminate|].
    eapply trace_ext_trans; [exact T1|].
    destruct ok; [apply trace_ext_refl|].
    apply trace_ext_observe. discriminate. }
  assert (Hwf3 : timers_wf (if ok then wp else observe ObsError wp))
    by (destruct ok; exact W1).
  assert (Habs3 : timers_of (if ok then wp else observe ObsError wp) !! tid = None)
    by (destruct ok; exact A1).
  split.
  { assert (E : futures (if ok then wp else observe ObsError wp) = futures wp)
      by (destruct ok; reflexivity).
    rewrite E, D1. exact Hfd. }
  split; [exact Habs3|]. split; [exact Htr3|].
  intros rounds w4 Hrounds.
  apply poll_rounds_absent with (tid := tid) in Hrounds as (A4 & T4);
    [|exact Hwf3|exact Habs3].
  split; [exact A4|]. eapply trace_ext_trans; eassumption.
Qed.

(** ** C1: the receive path *)

Lemma sum_positive_nonneg rs : 0 <= sum_positive rs.
Proof. induction rs as [|r rs IH]; simpl; lia. Qed.

(** The calls change the user's state and the trace, nothing else. *)
Lemma consume_spec_frame a f view off (w : World) rs err w' :
  consume_spec a f view off w rs err w' ->
  heap w' = heap w /\ loop w' = loop w /\
  exists tr, trace w' = trace w ++ tr /\
             Forall (fun o => exists o1 l1 r1, o = ObsMessage a o1 l1 r1) tr.
Proof.
  induction 1 as [off w Hoff | off w r u' Hoff Hf Hr
                 | off w r u' rs err w' Hoff Hf Hr Hrest IH].
  - split; [reflexivity|]. split; [reflexivity|].
    exists []. rewrite app_nil_r. auto.
  - split; [reflexivity|]. split; [reflexivity|].
    eexists [_]. split; [reflexivity|]. repeat constructor. eauto.
  - destruct IH as (H1 & H2 & tr & H3 & H4).
    split; [exact H1|]. split; [exact H2|].
    eexists (_ :: tr). split.
    + rewrite H3. simpl. rewrite <- app_assoc. reflexivity.
    + constructor; eauto.
Qed.

(** All results but the last are positive, and the round ends in an
    error exactly when the last result is negative. *)
Lemma consume_spec_shape a f view off (w : World) rs err w' :
  consume_spec a f view off w rs err w' ->
  Forall (fun r => 0 < r) (removelast rs) /\
  (err = true <-> exists r, last rs = Some r /\ r < 0).
Proof.
  induction 1 as [off w Hoff | off w r u' Hoff Hf Hr
                 | off w r u' rs err w' Hoff Hf Hr Hrest IH].
  - split; [constructor|]. split; [discriminate|]. intros (r & Hl & _). discriminate.
  - split; [constructor|]. simpl. split.
    + intros Hlt. apply Z.ltb_lt in Hlt. eauto.
    + intros (r' & [= <-] & Hlt). apply Z.ltb_lt. assumption.
  - destruct IH as [IH1 IH2]. destruct rs as [|r' rs].
    + inversion Hrest; subst. split; [constructor|].
      split; [discriminate|]. simpl. intros (r' & [= <-] & Hlt). lia.
    + split.
      * simpl. constructor; assumption.
      * rewrite IH2. rewrite last_cons_cons. reflexivity.
Qed.

Lemma take_drop_all (view : list Byte.byte) (total : Z) :
  0 <= total ->
  take (Z.to_nat (Z.of_nat (length view) - total)) (drop (Z.to_nat total) view)
  = drop (Z.to_nat total) view.
Proof.
  intros Ht. apply firstn_all2. rewrite length_drop. lia.
Qed.

Lemma consume_steps_O a f (view : list Byte.byte) len total (w : World) :
  consume_steps 0 a f view len total w = None.
Proof. reflexivity. Qed.

Lemma consume_steps_S fuel a f (view : list Byte.byte) len total (w : World) :
  consume_steps (S fuel) a f view len total w
  = match consume_turn a f view len total w with
    | inl (total1, w1) => consume_steps fuel a f view len total1 w1
    | inr res => Some res
    end.
Proof. reflexivity. Qed.

Lemma consume_steps_eq fuel a f (view : list Byte.byte) len total (w : World) :
  consume_steps (S fuel) a f view len total w
  = if len <=? total then Some (total, false, w)
    else
      let n := MachInt.to_int (len - total) in
      let data := take (Z.to_nat (Z.min total 0 + n)) (drop (Z.to_nat total) view) in
      let '(r, u') := f (user w) data in
      let consumed := MachInt.to_int r in
      let w1 := observe (ObsMessage a total n consumed) (with_user u' w) in
      if 0 <? consumed
      then consume_steps fuel a f view len (MachInt.to_int (total + consumed)) w1
      else Some (total, consumed <? 0, w1).
Proof.
  rewrite consume_steps_S. unfold consume_turn.
  destruct (len <=? total); [reflexivity|]. cbv zeta.
  destruct (f (user w) _) as [r u'].
  destruct (0 <? MachInt.to_int r); reflexivity.
Qed.

(** More fuel does not change a result. *)
Lemma consume_steps_mono a f (view : list Byte.byte) len :
  forall n m total (w : World) res,
    consume_steps n a f view len total w = Some res -> (n <= m)%nat ->
    consume_steps m a f view len total w = Some res.
Proof.
  induction n as [|n IH]; intros m total w res H Hle;
    [rewrite consume_steps_O in H; discriminate|].
  destruct m as [|m]; [lia|].
  rewrite consume_steps_S in *.
  destruct (consume_turn a f view len total w) as [[t1 w1]|r]; [|exact H].
  apply IH; [exact H|lia].
Qed.

Lemma consume_turns_O a f (view : list Byte.byte) len total (w : World) :
  consume_turns 0 a f view len total w = consume_turn a f view len total w.
Proof. reflexivity. Qed.

Lemma consume_turns_S k a f (view : list Byte.byte) len total (w : World) :
  consume_turns (S k) a f view len total w
  = match consume_turns k a f view len total w with
    | inl (total1, w1) => consume_turns k a f view len total1 w1
    | inr res => inr res
    end.
Proof. reflexivity. Qed.

(** [consume_turns k] is [2 ^ k] turns of [consume_steps]. *)
Lemma consume_turns_steps a f (view : list Byte.byte) len :
  forall k total (w : World),
    match consume_turns k a f view len total w with
    | inr res =>
      exists n, (n <= 2 ^ k)%nat /\ consume_steps n a f view len total w = Some res
    | inl (total1, w1) =>
      forall n, consume_steps (2 ^ k + n) a f view len total w
                = consume_steps n a f view len total1 w1
    end.
Proof.
  induction k as [|k IH]; intros total w.
  - rewrite consume_turns_O.
    destruct (consume_turn a f view len total w) as [[t1 w1]|res] eqn:E.
    + intros n. change (2 ^ 0 + n)%nat with (S n).
      rewrite consume_steps_S, E. reflexivity.
    + exists 1%nat. split; [reflexivity|].
      rewrite consume_steps_S, E. reflexivity.
  - rewrite consume_turns_S. rewrite Nat.pow_succ_r'.
    pose proof (IH total w) as IH1.
    destruct (consume_turns k a f view len total w) as [[t1 w1]|res].
    + pose proof (IH t1 w1) as IH2.
      destruct (consume_turns k a f view len t1 w1) as [[t2 w2]|res].
      * intros n. rewrite <- IH2, <- IH1. f_equal. lia.
      * destruct IH2 as (n & Hn & H). exists (2 ^ k + n)%nat.
        split; [lia|]. rewrite IH1. exact H.
    + destruct IH1 as (n & Hn & H). exists n. split; [lia|exact H].
Qed.

(** The loop returns what its turns give, when they are at most [2 ^ 64]. *)
Lemma consume_loop_steps a f (view : list Byte.byte) len (w : World) res :
  consume_loop a f view len w = Some res <->
  exists n, (n <= 2 ^ 64)%nat /\ consume_steps n a f view len 0 w = Some res.
Proof.
  unfold consume_loop. generalize 64%nat. intros k.
  pose proof (consume_turns_steps a f view len k 0 w) as H.
  destruct (consume_turns k a f view len 0 w) as [[t1 w1]|res'].
  - split; [discriminate|]. intros (n & Hn & Hs). exfalso.
    apply (consume_steps_mono _ _ _ _ _ (2 ^ k + 0)%nat) in Hs; [|lia].
    rewrite H, consume_steps_O in Hs. discriminate.
  - destruct H as (n' & Hn' & Hs'). split.
    + intros [= <-]. exists n'. split; assumption.
    + intros (n & Hn & Hs).
      apply (consume_steps_mono _ _ _ _ _ (n + n')%nat) in Hs; [|lia].
      apply (consume_steps_mono _ _ _ _ _ (n + n')%nat) in Hs'; [|lia].
      congruence.
Qed.

(** From here on the loop is used through [consume_loop_steps]. *)
Opaque consume_loop.

Lemma int_turns_fit (len : Z) :
  len <= MachInt.INT_MAX -> (S (Z.to_nat len) <= 2 ^ 64)%nat.
Proof.
  intros Hlen. rewrite INT_MAX_eq in Hlen.
  apply Nat2Z.inj_le. rewrite Nat2Z.inj_pow, Nat2Z.inj_succ.
  change (Z.of_nat 2 ^ Z.of_nat 64) with 18446744073709551616. lia.
Qed.

(** The loop of the source does what section 4.E says, and returns. *)
Lemma consume_steps_spec a f (view : list Byte.byte) :
  message_contract f ->
  Z.of_nat (length view) <= MachInt.INT_MAX ->
  forall fuel total (w : World),
    0 <= total <= Z.of_nat (length view) ->
    (Z.to_nat (Z.of_nat (length view) - total) < fuel)%nat ->
    exists rs err w',
      consume_steps fuel a f view (Z.of_nat (length view)) total w
      = Some (total + sum_positive rs, err, w') /\
      consume_spec a f view total w rs err w' /\
      total + sum_positive rs <= Z.of_nat (length view).
Proof.
  intros Hcontract Hmax.
  pose proof INT_MAX_eq as HMAX. pose proof INT_MIN_eq as HMIN.
  induction fuel as [|fuel IH]; intros total w Htot Hfuel; [lia|].
  rewrite consume_steps_eq.
  destruct (Z.of_nat (length view) <=? total) eqn:E.
  - apply Z.leb_le in E. exists [], false, w. simpl. rewrite Z.add_0_r.
    split; [reflexivity|]. split; [constructor; lia|lia].
  - apply Z.leb_gt in E.
    cbv zeta.
    rewrite (to_int_small (Z.of_nat (length view) - total)) by lia.
    rewrite Z.min_r, Z.add_0_l by lia.
    rewrite take_drop_all by lia.
    destruct (f (user w) (drop (Z.to_nat total) view)) as [r u'] eqn:Hf.
    destruct (Hcontract (user w) (drop (Z.to_nat total) view)) as [Hint Hle].
    rewrite Hf in Hint, Hle. simpl in Hint, Hle.
    rewrite length_drop in Hle.
    rewrite (to_int_small r) by assumption.
    destruct (0 <? r) eqn:Er.
    + apply Z.ltb_lt in Er.
      rewrite (to_int_small (total + r)) by lia.
      destruct (IH (total + r)
                  (observe (ObsMessage a total (Z.of_nat (length view) - total) r)
                     (with_user u' w))) as (rs & err & w' & H1 & H2 & H3);
        [lia|lia|].
      exists (r :: rs), err, w'. simpl.
      replace (total + (Z.max r 0 + sum_positive rs))
        with (total + r + sum_positive rs) by lia.
      split; [exact H1|]. split; [|lia].
      eapply consume_advance; eauto. lia.
    + apply Z.ltb_ge in Er.
      exists [r], (r <? 0), (observe (ObsMessage a total (Z.of_nat (length view) - total) r)
                               (with_user u' w)).
      simpl. replace (total + (Z.max r 0 + 0)) with total by lia.
      split; [reflexivity|]. split; [|lia].
      apply consume_stop; auto. lia.
Qed.

Lemma consume_loop_spec a f (view : list Byte.byte) (w : World) :
  message_contract f ->
  Z.of_nat (length view) <= MachInt.INT_MAX ->
  exists rs err w',
    consume_loop a f view (Z.of_nat (length view)) w
    = Some (sum_positive rs, err, w') /\
    consume_spec a f view 0 w rs err w' /\
    sum_positive rs <= Z.of_nat (length view).
Proof.
  intros Hcontract Hmax.
  destruct (consume_steps_spec a f view Hcontract Hmax
              (S (Z.to_nat (Z.of_nat (length view)))) 0 w)
    as (rs & err & w' & H1 & H2 & H3); [lia|lia|].
  exists rs, err, w'. simpl in *.
  split; [|split; assumption].
  apply consume_loop_steps.
  eexists. split; [apply int_turns_fit; exact Hmax|exact H1].
Qed.

(** C1. A receive batch is delivered to a connected, registered
    connection whose message callback keeps its contract. [OnRecvData]
    calls [on_message] as section 4.E says ([consume_spec]: it advances by
    every positive result, stops at zero, stops with an error at a
    negative result) and returns; afterwards exactly the sum of the
    positive results has been removed from the front of the input buffer,
    and the connection is in [kDisconnected], with the disconnect callback
    delivered and the registration removed, exactly when the round ended
    in an error, otherwise still connected. *)
Theorem C1_consume_accounting (a : addr) (c : TcpObject.t U)
  (b : TcpObject.bufferevent) (f : U -> list Byte.byte -> Z * U) (w : World) :
  registered a c w ->
  TcpObject.state_ c = TcpObject.kConnected ->
  TcpObject.bev_ c = Some b ->
  TcpObject.on_message_ c = Some f ->
  message_contract f ->
  Z.of_nat (length (TcpObject.input b)) <= MachInt.INT_MAX ->
  let c1 := if negb (TcpObject.idle_timer_ c =? -1)
            then TcpObject.set_last_active (clock w) c else c in
  exists rs err w2 w',
    consume_spec a f (TcpObject.input b) 0 (put_tcp a c1 w) rs err w2 /\
    TcpObject_OnRecvData true a w = Some w' /\
    0 <= sum_positive rs <= Z.of_nat (length (TcpObject.input b)) /\
    input_of a w' = Some (drop (Z.to_nat (sum_positive rs)) (TcpObject.input b)) /\
    output_of a w' = Some (TcpObject.output b) /\
    state_of a w' = Some (if err then TcpObject.kDisconnected
                          else TcpObject.kConnected) /\
    trace w' = trace w2 ++ (if err
                            then match TcpObject.on_disconnect_ c with
                                 | Some _ => [ObsDisconnect a]
                                 | None => []
                                 end
                            else []) /\
    (err = true -> is_Some (EventLoop.reactor_ (loop w)) ->
     EventLoop.objects_ (loop w')
     = delete (TcpObject.unique_id_ c) (EventLoop.objects_ (loop w))) /\
    (err = false -> loop w' = loop w).
Proof.
  intros (Hc & Hge & Hin) Hst Hb Hf Hcontract Hmax c1.
  assert (Hc1 : TcpObject.state_ c1 = TcpObject.kConnected /\
                TcpObject.bev_ c1 = Some b /\
                TcpObject.on_message_ c1 = Some f /\
                TcpObject.unique_id_ c1 = TcpObject.unique_id_ c /\
                TcpObject.on_disconnect_ c1 = TcpObject.on_disconnect_ c).
  { unfold c1. destruct (negb _); simpl; auto. }
  destruct Hc1 as (Hst1 & Hb1 & Hf1 & Hid1 & Hd1).
  set (w1 := put_tcp a c1 w).
  set (len := Z.of_nat (length (TcpObject.input b))) in *.
  destruct (consume_loop_spec a f (TcpObject.input b) w1 Hcontract Hmax)
    as (rs & err & w2 & Hloop & Hspec & Hsum).
  fold len in Hloop, Hsum.
  pose proof (sum_positive_nonneg rs) as Hnn.
  pose proof (consume_spec_frame _ _ _ _ _ _ _ _ Hspec) as (Hheap & Hloopw & _).
  (* the connection after the drain *)
  set (total := sum_positive rs) in *.
  set (cd := TcpObject.set_bev (Some (TcpObject.drain_input total b)) c1).
  set (w3 := if 0 <? total then put_tcp a cd w2 else w2).
  assert (Hget3 : exists c3 b3,
            get_tcp a w3 = Some c3 /\ TcpObject.bev_ c3 = Some b3 /\
            TcpObject.input b3 = drop (Z.to_nat total) (TcpObject.input b) /\
            TcpObject.output b3 = TcpObject.output b /\
            TcpObject.state_ c3 = TcpObject.kConnected /\
            TcpObject.unique_id_ c3 = TcpObject.unique_id_ c /\
            TcpObject.on_disconnect_ c3 = TcpObject.on_disconnect_ c).
  { unfold w3. destruct (0 <? total) eqn:E.
    - exists cd, (TcpObject.drain_input total b).
      rewrite get_tcp_put_tcp. unfold cd. simpl. auto 10.
    - apply Z.ltb_ge in E. assert (total = 0) as -> by lia.
      exists c1, b. unfold get_tcp. rewrite Hheap. unfold w1. simpl.
      rewrite lookup_insert_eq. auto 10. }
  destruct Hget3 as (c3 & b3 & G1 & G2 & G3 & G4 & G5 & G6 & G7).
  assert (Hloop3 : loop w3 = loop w).
  { unfold w3. destruct (0 <? total); simpl; rewrite Hloopw; reflexivity. }
  assert (Htr3 : trace w3 = trace w2).
  { unfold w3. destruct (0 <? total); reflexivity. }
  (* what the source computes *)
  assert (Hrun : TcpObject_OnRecvData true a w
                 = if err then TcpObject_HandleDisconnect true a w3 else Some w3).
  { unfold TcpObject_OnRecvData. rewrite Hc. simpl. rewrite Hb. simpl.
    fold c1. fold w1.
    destruct (TcpObject.input b) as [|x rest] eqn:Hinp.
    - (* nothing to read *)
      assert (Ht0 : total = 0) by (unfold len in Hsum; simpl in Hsum; lia).
      apply consume_loop_steps in Hloop as (n & _ & Hloop).
      destruct n; [rewrite consume_steps_O in Hloop; discriminate|].
      rewrite consume_steps_eq in Hloop.
      unfold len in Hloop. simpl in Hloop. injection Hloop as _ <- <-.
      unfold w3. rewrite Ht0. reflexivity.
    - assert (Hpos : 0 < len) by (unfold len; simpl length; lia).
      cbv iota. fold len.
      rewrite (to_int_small len) by (pose proof INT_MIN_eq; lia).
      destruct (len <=? 0) eqn:E; [apply Z.leb_le in E; lia|].
      rewrite Hf1. simpl. rewrite Hloop. simpl. reflexivity. }
  exists rs, err, w2.
  destruct err.
  - assert (Hreg3 : registered a c3 w3).
    { split; [exact G1|]. rewrite G6, Hloop3. auto. }
    rewrite (HandleDisconnect_spec a c3 w3 Hreg3 G5) in Hrun.
    eexists. split; [exact Hspec|]. split; [exact Hrun|].
    split; [lia|].
    unfold input_of, output_of, state_of. rewrite after_disconnect_state. simpl.
    rewrite G2. simpl. rewrite G3, G4.
    split; [reflexivity|]. split; [reflexivity|]. split; [reflexivity|].
    split; [rewrite after_disconnect_trace, Htr3, G7; reflexivity|].
    split; [|discriminate].
    intros _ Hr. rewrite after_disconnect_objects by (rewrite Hloop3; exact Hr).
    rewrite G6, Hloop3. reflexivity.
  - exists w3. split; [exact Hspec|]. split; [exact Hrun|].
    split; [lia|].
    unfold input_of, output_of, state_of. rewrite G1. simpl.
    rewrite G2. simpl. rewrite G3, G4, G5.
    split; [reflexivity|]. split; [reflexivity|]. split; [reflexivity|].
    split; [rewrite Htr3, app_nil_r; reflexivity|].
    split; [discriminate|]. intros _. exact Hloop3.
Qed.

(** ** C8: identifiers *)

Lemma alloc_unique_id_eq fuel gen (objs : gmap Z addr) :
  alloc_unique_id (S fuel) gen objs
  = if (MachInt.to_int (gen + 1) <? 0)
       || bool_decide (is_Some (objs !! MachInt.to_int (gen + 1)))
    then alloc_unique_id fuel
           (if MachInt.to_int (gen + 1) <? 0 then 0 else MachInt.to_int (gen + 1)) objs
    else Some (MachInt.to_int (gen + 1),
               if MachInt.to_int (gen + 1) <? 0 then 0 else MachInt.to_int (gen + 1)).
Proof. reflexivity. Qed.

(** When the generator stands at [INT_MAX] the next value is negative:
    the generator is reset to zero and the loop goes round again. *)
Lemma alloc_unique_id_wrap fuel (objs : gmap Z addr) :
  alloc_unique_id (S fuel) MachInt.INT_MAX objs = alloc_unique_id fuel 0 objs.
Proof. rewrite alloc_unique_id_eq, to_int_overflow. reflexivity. Qed.

Lemma ids_above_size gen (objs : gmap Z addr) :
  (size (ids_above gen objs) <= size objs)%nat.
Proof.
  rewrite <- (size_dom (D := gset Z) objs). apply subseteq_size.
  unfold ids_above. intros k Hk. apply elem_of_filter in Hk. tauto.
Qed.

Lemma ids_above_step gen (objs : gmap Z addr) :
  is_Some (objs !! (gen + 1)) ->
  (size (ids_above (gen + 1) objs) < size (ids_above gen objs))%nat.
Proof.
  intros Hin. apply subset_size. unfold ids_above. split.
  - intros k Hk. apply elem_of_filter in Hk as [Hk1 Hk2].
    apply elem_of_filter. split; [lia|assumption].
  - intros Hsub.
    assert (Hmem : gen + 1 ∈ filter (fun k => gen < k) (dom objs)).
    { apply elem_of_filter. split; [lia|]. apply elem_of_dom. assumption. }
    apply Hsub in Hmem. apply elem_of_filter in Hmem as [Hlt _]. lia.
Qed.

(** Scanning upwards from [gen]: with more fuel than ids in use above
    [gen], the loop returns a free id or reaches the wrap with all ids
    above [gen] in use. *)
Lemma alloc_unique_id_scan (objs : gmap Z addr) fuel :
  forall gen,
    0 <= gen <= MachInt.INT_MAX ->
    (size (ids_above gen objs) < fuel)%nat ->
    (exists uid, gen < uid <= MachInt.INT_MAX /\ objs !! uid = None /\
                 alloc_unique_id fuel gen objs = Some (uid, uid)) \/
    (exists fuel',
       alloc_unique_id fuel gen objs = alloc_unique_id fuel' 0 objs /\
       (fuel <= fuel' + size (ids_above gen objs) + 1)%nat /\
       forall k, gen < k <= MachInt.INT_MAX -> is_Some (objs !! k)).
Proof.
  pose proof INT_MAX_eq as HMAX. pose proof INT_MIN_eq as HMIN.
  induction fuel as [|fuel IH]; intros gen Hgen Hfuel; [lia|].
  destruct (Z.eq_dec gen MachInt.INT_MAX) as [->|Hne].
  - right. exists fuel. rewrite alloc_unique_id_wrap.
    split; [reflexivity|]. split; [lia|]. intros k Hk. lia.
  - rewrite alloc_unique_id_eq.
    rewrite (to_int_small (gen + 1)) by lia.
    destruct (gen + 1 <? 0) eqn:E; [apply Z.ltb_lt in E; lia|]. simpl.
    case_bool_decide as Hin.
    + pose proof (ids_above_step gen objs Hin) as Hstep.
      destruct (IH (gen + 1)) as [(uid & H1 & H2 & H3) | (fuel' & H1 & H2 & H3)];
        [lia|lia| |].
      * left. exists uid. split; [lia|]. auto.
      * right. exists fuel'. split; [exact H1|]. split; [lia|].
        intros k Hk. destruct (Z.eq_dec k (gen + 1)) as [->|Hk']; [exact Hin|].
        apply H3. lia.
    + left. exists (gen + 1). split; [lia|]. split; [|reflexivity].
      destruct (objs !! (gen + 1)) eqn:El; [|reflexivity].
      exfalso. apply Hin. eauto.
Qed.

(** The allocation loop returns whenever some id of [1 .. INT_MAX] is
    free; the id returned is such an id and the generator stands at it. *)
Lemma alloc_unique_id_terminates (objs : gmap Z addr) gen :
  0 <= gen <= MachInt.INT_MAX ->
  (exists k, 0 < k <= MachInt.INT_MAX /\ objs !! k = None) ->
  exists uid,
    0 < uid <= MachInt.INT_MAX /\ objs !! uid = None /\
    alloc_unique_id (alloc_fuel objs) gen objs = Some (uid, uid).
Proof.
  intros Hgen (k & Hk & Hfree).
  pose proof (ids_above_size gen objs) as Hs1.
  pose proof (ids_above_size 0 objs) as Hs0.
  pose proof INT_MAX_eq as HMAX.
  destruct (alloc_unique_id_scan objs (alloc_fuel objs) gen Hgen)
    as [(uid & H1 & H2 & H3) | (fuel' & H1 & H2 & H3)];
    [unfold alloc_fuel; lia| |].
  - exists uid. split; [lia|]. auto.
  - rewrite H1.
    destruct (alloc_unique_id_scan objs fuel' 0)
      as [(uid & G1 & G2 & G3) | (fuel'' & G1 & G2 & G3)];
      [lia|unfold alloc_fuel in H2; lia| |].
    + exists uid. split; [lia|]. auto.
    + exfalso. destruct (G3 k) as [x Hx]; [lia|]. congruence.
Qed.

(** What a failed [EventLoop::Register] may have changed: nothing in the
    registry, and on the heap at most the id of the object itself. *)
Lemma EventLoop_Register_false_heap in_loop obj events (w w' : World) :
  EventLoop_Register in_loop obj events w = Some (false, w') ->
  heap w' = heap w \/
  exists a o uid, obj = Some a /\ heap w !! a = Some o /\ GetUniqueId o = -1 /\
                  heap w' = <[a := SetUniqueId uid o]> (heap w).
Proof.
  unfold EventLoop_Register. intros H.
  destruct obj as [a|]; [|injection H as <-; auto].
  destruct (heap w !! a) as [o|] eqn:Ho; simpl in H; [|discriminate].
  destruct in_loop; simpl in H; [|discriminate].
  destruct (GetUniqueId o =? -1) eqn:Hid; simpl in H; [|discriminate].
  apply Z.eqb_eq in Hid.
  destruct (EventLoop.reactor_ (loop w)) as [r|] eqn:Hr;
    [|injection H as <-; auto].
  destruct (alloc_unique_id _ _ _) as [[uid gen]|] eqn:Ha; simpl in H; [|discriminate].
  destruct (LibeventReactor.Register _ events r) as [[ok r']|] eqn:HR;
    simpl in H; [|discriminate].
  destruct ok; [discriminate|].
  injection H as <-. right. exists a, o, uid. auto.
Qed.

(** Giving an id to an unregistered object keeps the registry in order. *)
Lemma registry_wf_set_id a o uid (w w' : World) :
  registry_wf w ->
  heap w !! a = Some o -> GetUniqueId o = -1 ->
  heap w' = <[a := SetUniqueId uid o]> (heap w) ->
  EventLoop.objects_ (loop w') = EventLoop.objects_ (loop w) ->
  registry_wf w'.
Proof.
  intros Hwf Ho Hm1 Hheap Hobjs k a' Hk. rewrite Hobjs in Hk.
  destruct (Hwf k a' Hk) as (Hge & o' & Ho' & Hid).
  split; [assumption|]. exists o'. split; [|assumption].
  rewrite Hheap, lookup_insert_ne; [assumption|].
  intros <-. rewrite Ho in Ho'. injection Ho' as <-. lia.
Qed.

Lemma Register_registry_wf in_loop obj events (w w' : World) b :
  registry_wf w ->
  EventLoop_Register in_loop obj events w = Some (b, w') ->
  registry_wf w' /\ timerid_generator_ w' = timerid_generator_ w.
Proof.
  intros Hwf H. destruct b.
  - destruct obj as [a|]; [|unfold EventLoop_Register in H; discriminate].
    apply EventLoop_Register_true in H
      as (o & uid & gen & r & r' & Ho & Hm1 & _ & Hge & Hfree & Hr & HR & ->).
    split; [|reflexivity].
    intros k a'. simpl. destruct (decide (uid = k)) as [->|Hne].
    + rewrite lookup_insert_eq. intros [= <-]. split; [assumption|].
      exists (SetUniqueId k o). rewrite lookup_insert_eq.
      split; [reflexivity|apply GetUniqueId_SetUniqueId].
    + rewrite lookup_insert_ne by assumption. intros Hk.
      destruct (Hwf k a' Hk) as (Hk0 & o' & Ho' & Hid).
      split; [assumption|]. exists o'. split; [|assumption].
      rewrite lookup_insert_ne; [assumption|].
      intros <-. rewrite Ho in Ho'. injection Ho' as <-. lia.
  - pose proof (EventLoop_Register_false _ _ _ _ _ H) as [Hobjs _].
    assert (Hgen : timerid_generator_ w' = timerid_generator_ w).
    { unfold EventLoop_Register in H.
      destruct obj as [a|]; [|injection H as <-; reflexivity].
      destruct (heap w !! a) as [o|]; simpl in H; [|discriminate].
      destruct in_loop; simpl in H; [|discriminate].
      destruct (GetUniqueId o =? -1); simpl in H; [|discriminate].
      destruct (EventLoop.reactor_ (loop w)) as [r|];
        [|injection H as <-; reflexivity].
      destruct (alloc_unique_id _ _ _) as [[uid gen]|]; simpl in H; [|discriminate].
      destruct (LibeventReactor.Register _ events r) as [[ok r']|];
        simpl in H; [|discriminate].
      destruct ok; [discriminate|]. injection H as <-. reflexivity. }
    split; [|exact Hgen].
    apply EventLoop_Register_false_heap in H
      as [Hheap | (a & o & uid & _ & Ho & Hm1 & Hheap)].
    + intros k a' Hk. rewrite Hobjs in Hk. rewrite Hheap. apply Hwf. assumption.
    + eapply registry_wf_set_id; eassumption.
Qed.

Lemma Unregister_registry_wf in_loop obj (w w' : World) :
  registry_wf w ->
  EventLoop_Unregister in_loop obj w = Some w' ->
  registry_wf w'.
Proof.
  intros Hwf H. unfold EventLoop_Unregister in H.
  destruct obj as [a|]; [|injection H as <-; assumption].
  destruct (heap w !! a) as [o|]; simpl in H; [|discriminate].
  destruct in_loop; simpl in H; [|discriminate].
  destruct (GetUniqueId o <? 0); simpl in H; [discriminate|].
  destruct (bool_decide _); simpl in H; [|discriminate].
  destruct (EventLoop.reactor_ (loop w)) as [r|];
    injection H as <-; [|assumption].
  intros k a'. simpl. intros Hk. apply lookup_delete_Some in Hk as [_ Hk].
  apply Hwf. assumption.
Qed.

(** In a well-formed registry two registered objects with the same id are
    the same object. *)
Lemma registry_wf_unique (w : World) a1 a2 o1 o2 :
  registry_wf w ->
  is_registered a1 w -> is_registered a2 w ->
  heap w !! a1 = Some o1 -> heap w !! a2 = Some o2 ->
  0 <= GetUniqueId o1 /\ (GetUniqueId o1 = GetUniqueId o2 -> a1 = a2).
Proof.
  intros Hwf [k1 Hk1] [k2 Hk2] Ho1 Ho2.
  destruct (Hwf k1 a1 Hk1) as (Hge1 & o1' & Ho1' & Hid1).
  destruct (Hwf k2 a2 Hk2) as (Hge2 & o2' & Ho2' & Hid2).
  rewrite Ho1 in Ho1'. injection Ho1' as <-.
  rewrite Ho2 in Ho2'. injection Ho2' as <-.
  split; [lia|]. intros E. congruence.
Qed.

(** Timer ids are the successive values of the generator, as long as it
    does not reach the largest value of [TimerId]. *)
Lemma timer_ids_seq n :
  0 < timer_bits ->
  forall w : World,
    MachInt.min_signed timer_bits <= timerid_generator_ w ->
    timerid_generator_ w + Z.of_nat n <= MachInt.max_signed timer_bits ->
    timer_ids timer_bits n w = seqZ (timerid_generator_ w + 1) (Z.of_nat n).
Proof.
  intros Hbits. unfold MachInt.min_signed, MachInt.max_signed.
  induction n as [|n IH]; intros w Hlo Hhi; [reflexivity|].
  simpl timer_ids. unfold next_timer_id, MachInt.fetch_add.
  rewrite wrap_small by lia.
  rewrite seqZ_cons by lia. f_equal.
  rewrite IH; simpl; [|lia|lia].
  f_equal; lia.
Qed.

(** C8 (as amended). Object ids and timer ids come from two separate
    counters. Object ids: the allocation loop of [EventLoop::Register]
    returns whenever some id of [1 .. INT_MAX] is free, with an id that is
    not negative and not in use in the registry of the loop; when the
    generator wraps to a negative value it is reset to zero and the search
    goes on. [Register] and [Unregister] keep the registry well formed
    (every entry is an object that carries the non-negative id it is
    registered under), so two different registered objects of one loop
    never share a unique id. Timer ids: every allocation returns the
    generator plus one and touches nothing else; the ids handed out are
    the successive integers, pairwise distinct, as long as the generator
    does not reach the largest value of [TimerId]. *)
Theorem C8_identifiers :
  (forall (objs : gmap Z addr) gen,
     0 <= gen <= MachInt.INT_MAX ->
     (exists k, 0 < k <= MachInt.INT_MAX /\ objs !! k = None) ->
     exists uid,
       0 <= uid /\ objs !! uid = None /\
       alloc_unique_id (alloc_fuel objs) gen objs = Some (uid, uid)) /\
  (forall fuel (objs : gmap Z addr),
     alloc_unique_id (S fuel) MachInt.INT_MAX objs = alloc_unique_id fuel 0 objs) /\
  (forall (w w' : World) in_loop obj events b,
     registry_wf w ->
     EventLoop_Register in_loop obj events w = Some (b, w') ->
     registry_wf w' /\ timerid_generator_ w' = timerid_generator_ w) /\
  (forall (w w' : World) in_loop obj,
     registry_wf w ->
     EventLoop_Unregister in_loop obj w = Some w' ->
     registry_wf w') /\
  (forall (w : World) a1 a2 o1 o2,
     registry_wf w ->
     is_registered a1 w -> is_registered a2 w ->
     heap w !! a1 = Some o1 -> heap w !! a2 = Some o2 ->
     0 <= GetUniqueId o1 /\ (a1 <> a2 -> GetUniqueId o1 <> GetUniqueId o2)) /\
  (forall (w : World) n,
     0 < timer_bits ->
     MachInt.min_signed timer_bits <= timerid_generator_ w ->
     timerid_generator_ w + Z.of_nat n <= MachInt.max_signed timer_bits ->
     timer_ids timer_bits n w = seqZ (timerid_generator_ w + 1) (Z.of_nat n) /\
     NoDup (timer_ids timer_bits n w) /\
     obj_id_generator_ (snd (next_timer_id timer_bits w)) = obj_id_generator_ w).
Proof.
  split; [|split; [|split; [|split; [|split]]]].
  - intros objs gen Hgen Hfree.
    destruct (alloc_unique_id_terminates objs gen Hgen Hfree) as (uid & H1 & H2 & H3).
    exists uid. split; [lia|]. auto.
  - apply alloc_unique_id_wrap.
  - intros w w' in_loop obj events b. apply Register_registry_wf.
  - intros w w' in_loop obj. apply Unregister_registry_wf.
  - intros w a1 a2 o1 o2 Hwf H1 H2 Ho1 Ho2.
    destruct (registry_wf_unique w a1 a2 o1 o2 Hwf H1 H2 Ho1 Ho2) as [Hge Heq].
    split; [assumption|]. intros Hne E. apply Hne, Heq, E.
  - intros w n Hbits Hlo Hhi.
    rewrite (timer_ids_seq n Hbits w Hlo Hhi).
    split; [reflexivity|]. split; [apply NoDup_seqZ|reflexivity].
Qed.

(** ** C2: the state machine of a connection *)

Lemma lifecycle_app a t1 t2 : lifecycle a (t1 ++ t2) = lifecycle a t1 ++ lifecycle a t2.
Proof. apply List.filter_app. Qed.

Lemma conn_step_refl a (w : World) : conn_step a w w.
Proof. intros s Hs. exists s. split; [assumption|constructor]. Qed.

Lemma conn_step_trans a (w1 w2 w3 : World) :
  conn_step a w1 w2 -> conn_step a w2 w3 -> conn_step a w1 w3.
Proof.
  intros H12 H23 s Hs.
  destruct (H12 s Hs) as (s2 & Hs2 & T12).
  destruct (H23 s2 Hs2) as (s3 & Hs3 & T23).
  exists s3. split; [assumption|]. eapply ct_trans; eassumption.
Qed.

Lemma conn_step_quiet a (w w' : World) :
  state_of a w' = state_of a w ->
  lifecycle a (trace w') = lifecycle a (trace w) ->
  conn_step a w w'.
Proof.
  intros Hs Hl s Hst. exists s. rewrite Hs, Hl. split; [assumption|constructor].
Qed.

Lemma state_of_heap a (w w' : World) :
  heap w' = heap w -> state_of a w' = state_of a w.
Proof. unfold state_of, get_tcp. intros ->. reflexivity. Qed.

Lemma conn_step_frame a (w w' : World) :
  heap w' = heap w -> trace w' = trace w -> conn_step a w w'.
Proof.
  intros Hh Ht. apply conn_step_quiet; [apply state_of_heap; assumption|].
  rewrite Ht. reflexivity.
Qed.

(** Replacing an object by one of the same kind and state is not seen. *)
Lemma state_of_insert a a' (o o' : HeapObj U) (w w' : World) :
  heap w !! a' = Some o ->
  heap w' = <[a' := o']> (heap w) ->
  match o, o' with
  | HTcp c, HTcp c' => TcpObject.state_ c' = TcpObject.state_ c
  | HPipe _, HPipe _ => True
  | _, _ => False
  end ->
  state_of a w' = state_of a w.
Proof.
  intros Ho Hh Hk. unfold state_of, get_tcp. rewrite Hh.
  destruct (decide (a' = a)) as [->|Hne].
  - rewrite lookup_insert_eq, Ho.
    destruct o, o'; simpl; try tauto. congruence.
  - rewrite lookup_insert_ne by assumption. reflexivity.
Qed.

Lemma state_of_put_tcp a a' (c c' : TcpObject.t U) (w : World) :
  get_tcp a' w = Some c ->
  TcpObject.state_ c' = TcpObject.state_ c ->
  state_of a (put_tcp a' c' w) = state_of a w.
Proof.
  intros Hc Hs. unfold get_tcp in Hc.
  destruct (heap w !! a') as [[p|c0]|] eqn:E; try discriminate.
  injection Hc as ->.
  eapply state_of_insert; [exact E|reflexivity|assumption].
Qed.

Lemma conn_step_put_tcp a a' (c c' : TcpObject.t U) (w : World) :
  get_tcp a' w = Some c ->
  TcpObject.state_ c' = TcpObject.state_ c ->
  conn_step a w (put_tcp a' c' w).
Proof.
  intros Hc Hs. apply conn_step_quiet; [|reflexivity].
  eapply state_of_put_tcp; eassumption.
Qed.

Lemma lifecycle_trace_ext a (P : Obs -> Prop) (w w' : World) :
  (forall o, P o -> is_lifecycle a o = false) ->
  trace_ext P w w' ->
  lifecycle a (trace w') = lifecycle a (trace w).
Proof.
  intros HP (tr & -> & Hall). rewrite lifecycle_app.
  assert (E : lifecycle a tr = []).
  { induction Hall as [|o tr Ho _ IH]; [reflexivity|].
    unfold lifecycle in *. simpl. rewrite (HP o Ho). exact IH. }
  rewrite E, app_nil_r. reflexivity.
Qed.

Lemma conn_step_observe a o (w : World) :
  is_lifecycle a o = false -> conn_step a w (observe o w).
Proof.
  intros Ho. apply conn_step_quiet; [reflexivity|].
  simpl. rewrite lifecycle_app. unfold lifecycle at 2. simpl. rewrite Ho.
  apply app_nil_r.
Qed.

(** *** The registry *)

Lemma Register_conn_step a in_loop obj events (w w' : World) b :
  EventLoop_Register in_loop obj events w = Some (b, w') -> conn_step a w w'.
Proof.
  intros H. destruct b.
  - destruct obj as [a'|]; [|unfold EventLoop_Register in H; discriminate].
    apply EventLoop_Register_true in H
      as (o & uid & gen & r & r' & Ho & Hm1 & _ & Hge & Hfree & Hr & HR & ->).
    apply conn_step_quiet; [|reflexivity].
    eapply state_of_insert; [exact Ho|reflexivity|].
    destruct o; simpl; auto.
  - pose proof (EventLoop_Register_false _ _ _ _ _ H) as [_ Htr].
    apply EventLoop_Register_false_heap in H
      as [Hheap | (a' & o & uid & _ & Ho & Hm1 & Hheap)].
    + apply conn_step_frame; assumption.
    + apply conn_step_quiet; [|rewrite Htr; reflexivity].
      eapply state_of_insert; [exact Ho|exact Hheap|].
      destruct o; simpl; auto.
Qed.

Lemma Unregister_frame in_loop obj (w w' : World) :
  EventLoop_Unregister in_loop obj w = Some w' ->
  heap w' = heap w /\ trace w' = trace w.
Proof.
  unfold EventLoop_Unregister. intros H.
  destruct obj as [a|]; [|injection H as <-; auto].
  destruct (heap w !! a) as [o|]; simpl in H; [|discriminate].
  destruct in_loop; simpl in H; [|discriminate].
  destruct (GetUniqueId o <? 0); simpl in H; [discriminate|].
  destruct (bool_decide _); simpl in H; [|discriminate].
  destruct (EventLoop.reactor_ (loop w)); injection H as <-; auto.
Qed.

(** *** The three handlers *)

Lemma lifecycle_snoc a a' (tr : list Obs) (mk : addr -> Obs) :
  (forall x, is_lifecycle a (mk x) = N.eqb a x) ->
  lifecycle a (tr ++ [mk a'])
  = lifecycle a tr ++ (if N.eqb a a' then [mk a'] else []).
Proof.
  intros Hmk. rewrite lifecycle_app. unfold lifecycle at 2. simpl.
  rewrite Hmk. reflexivity.
Qed.

Lemma HandleDisconnect_conn_step a in_loop a' (w w' : World) :
  TcpObject_HandleDisconnect in_loop a' w = Some w' -> conn_step a w w'.
Proof.
  intros H. apply HandleDisconnect_inv in H as (c & (Hc & _) & Hst & _ & ->).
  intros s Hs. unfold state_of. unfold get_tcp at 1.
  rewrite after_disconnect_heap, after_disconnect_trace.
  destruct (decide (a' = a)) as [->|Hne].
  - rewrite lookup_insert_eq. simpl. eexists. split; [reflexivity|].
    unfold state_of in Hs. rewrite Hc in Hs. simpl in Hs.
    injection Hs as <-. rewrite Hst.
    apply ct_disconnected.
    destruct (TcpObject.on_disconnect_ c).
    + right. rewrite (lifecycle_snoc a a _ ObsDisconnect) by reflexivity.
      rewrite N.eqb_refl. reflexivity.
    + left. rewrite app_nil_r. reflexivity.
  - rewrite lookup_insert_ne by assumption.
    exists s. split; [exact Hs|].
    assert (E : lifecycle a (trace w ++ match TcpObject.on_disconnect_ c with
                                        | Some _ => [ObsDisconnect a']
                                        | None => []
                                        end) = lifecycle a (trace w)).
    { destruct (TcpObject.on_disconnect_ c); [|rewrite app_nil_r; reflexivity].
      rewrite (lifecycle_snoc a a' _ ObsDisconnect) by reflexivity.
      destruct (N.eqb_spec a a') as [->|_]; [congruence|].
      rewrite app_nil_r. reflexivity. }
    rewrite E. constructor.
Qed.

(** A step that replaces the connection at [a'] and extends the trace is
    a move for [a'] and is not seen by the other connections. *)
Lemma conn_step_local a a' (c c' : TcpObject.t U) (w w' : World) tr :
  get_tcp a' w = Some c ->
  heap w' = <[a' := HTcp c']> (heap w) ->
  trace w' = trace w ++ tr ->
  (a <> a' -> lifecycle a tr = []) ->
  (forall l, conn_trans a' (TcpObject.state_ c, l)
               (TcpObject.state_ c', l ++ lifecycle a' tr)) ->
  conn_step a w w'.
Proof.
  intros Hc Hh Ht Hother Htrans s Hs.
  unfold state_of, get_tcp. rewrite Hh, Ht, lifecycle_app.
  destruct (decide (a' = a)) as [->|Hne].
  - rewrite lookup_insert_eq. simpl. eexists. split; [reflexivity|].
    unfold state_of in Hs. rewrite Hc in Hs. simpl in Hs. injection Hs as <-.
    apply Htrans.
  - rewrite lookup_insert_ne by assumption.
    exists s. split; [exact Hs|].
    rewrite Hother by congruence. rewrite app_nil_r. constructor.
Qed.

Lemma lifecycle_single a o :
  lifecycle a [o] = if is_lifecycle a o then [o] else [].
Proof. reflexivity. Qed.

Lemma is_lifecycle_other a a' o :
  a <> a' ->
  o = ObsNewConn a' \/ o = ObsDisconnect a' \/ o = ObsConnectFail a' ->
  is_lifecycle a o = false.
Proof.
  intros Hne [->| [->| ->]]; simpl; apply N.eqb_neq; assumption.
Qed.

Lemma HandleConnect_conn_step a in_loop a' (w w' : World) :
  TcpObject_HandleConnect in_loop a' w = Some w' -> conn_step a w w'.
Proof.
  unfold TcpObject_HandleConnect. intros H.
  destruct (get_tcp a' w) as [c|] eqn:Hc; simpl in H; [|discriminate].
  destruct in_loop; simpl in H; [|discriminate].
  destruct (TcpObject.State_eqb _ _ || TcpObject.State_eqb _ _) eqn:Hst;
    simpl in H; [|discriminate].
  apply orb_true_iff in Hst. rewrite !State_eqb_eq in Hst.
  destruct (TcpObject.bev_ c) as [b|]; simpl in H; [|discriminate].
  injection H as <-.
  destruct (TcpObject.on_new_conn_ c) as [f|].
  - eapply (conn_step_local a a' c _ w _ [ObsNewConn a']);
      [exact Hc|reflexivity|reflexivity| |].
    + intros Hne. rewrite lifecycle_single, (is_lifecycle_other a a'); auto.
    + intros l. simpl. rewrite N.eqb_refl. apply ct_connected; auto.
  - eapply (conn_step_local a a' c _ w _ []);
      [exact Hc|reflexivity|simpl; rewrite app_nil_r; reflexivity| |].
    + reflexivity.
    + intros l. simpl. rewrite app_nil_r. apply ct_connected; auto.
Qed.

Lemma HandleConnectFailed_conn_step a in_loop a' (w w' : World) :
  TcpObject_HandleConnectFailed in_loop a' w = Some w' -> conn_step a w w'.
Proof.
  unfold TcpObject_HandleConnectFailed. intros H.
  destruct (get_tcp a' w) as [c|] eqn:Hc; simpl in H; [|discriminate].
  destruct in_loop; simpl in H; [|discriminate].
  destruct (TcpObject.State_eqb _ _) eqn:Hst; simpl in H; [|discriminate].
  apply State_eqb_eq in Hst.
  apply Unregister_frame in H as [Hh Ht].
  destruct (TcpObject.on_fail_ c) as [f|].
  - eapply (conn_step_local a a' c _ w _ [ObsError; ObsConnectFail a']);
      [exact Hc|rewrite Hh; reflexivity
      |rewrite Ht; simpl; rewrite <- app_assoc; reflexivity| |].
    + intros Hne. unfold lifecycle. simpl.
      apply N.eqb_neq in Hne. rewrite Hne. reflexivity.
    + intros l. unfold lifecycle. simpl. rewrite N.eqb_refl, Hst.
      apply ct_failed. auto.
  - eapply (conn_step_local a a' c _ w _ [ObsError]);
      [exact Hc|rewrite Hh; reflexivity|rewrite Ht; reflexivity| |].
    + reflexivity.
    + intros l. unfold lifecycle. simpl. rewrite app_nil_r, Hst.
      apply ct_failed. auto.
Qed.

(** *** Connecting, accepting, events *)

Lemma Connect_conn_step a in_loop a' ip port env (w w' : World) b :
  TcpObject_Connect in_loop a' ip port env w = Some (b, w') -> conn_step a w w'.
Proof.
  unfold TcpObject_Connect. intros H.
  destruct (get_tcp a' w) as [c|] eqn:Hc; simpl in H; [|discriminate].
  destruct in_loop; simpl in H; [|discriminate].
  destruct (TcpObject.State_eqb _ _) eqn:Hst; simpl in H;
    [|injection H as <- <-; apply conn_step_observe; reflexivity].
  apply State_eqb_eq in Hst.
  destruct (EventLoop.reactor_ (loop w)) as [r|]; simpl in H; [|discriminate].
  destruct (bev_new_ok env); simpl in H;
    [|injection H as <- <-; apply conn_step_observe; reflexivity].
  destruct (connect_err env =? 0); simpl in H;
    [|injection H as <- <-; apply conn_step_observe; reflexivity].
  destruct (EventLoop_Register true (Some a') 0 w) as [[ok w1]|] eqn:HR;
    simpl in H; [|discriminate].
  pose proof (Register_conn_step a _ _ _ _ _ _ HR) as Hstep1.
  destruct ok.
  - destruct (get_tcp a' w1) as [c1|] eqn:Hc1; simpl in H; [|discriminate].
    injection H as <- <-.
    eapply conn_step_trans; [exact Hstep1|].
    (* the registration gave the object an id, nothing else *)
    assert (Hs1 : TcpObject.state_ c1 = TcpObject.kNone).
    { pose proof (Register_conn_step a' _ _ _ _ _ _ HR TcpObject.kNone) as Hx.
      unfold state_of in Hx. rewrite Hc, Hc1 in Hx. simpl in Hx.
      apply EventLoop_Register_true in HR
        as (o & uid & gen & r0 & r' & Ho & _ & _ & _ & _ & _ & _ & ->).
      unfold get_tcp in Hc, Hc1. simpl in Hc1. rewrite lookup_insert_eq in Hc1.
      rewrite Ho in Hc. destruct o as [p|c0]; [discriminate|].
      injection Hc as ->. simpl in Hc1. injection Hc1 as <-. exact Hst. }
    eapply (conn_step_local a a' c1 _ w1 _ []);
      [exact Hc1|reflexivity|simpl; rewrite app_nil_r; reflexivity| |].
    + reflexivity.
    + intros l. simpl. rewrite app_nil_r, Hs1. apply ct_connecting.
  - injection H as <- <-.
    eapply conn_step_trans; [exact Hstep1|].
    apply conn_step_observe. reflexivity.
Qed.

Lemma OnAccept_conn_step a in_loop a' fd ip port ok (w w' : World) :
  TcpObject_OnAccept in_loop a' fd ip port ok w = Some w' -> conn_step a w w'.
Proof.
  unfold TcpObject_OnAccept. intros H.
  destruct (get_tcp a' w) as [c|] eqn:Hc; simpl in H; [|discriminate].
  destruct in_loop; simpl in H; [|discriminate].
  destruct ok; simpl in H; [|discriminate].
  eapply conn_step_trans; [|eapply HandleConnect_conn_step; exact H].
  eapply conn_step_put_tcp; [exact Hc|]. reflexivity.
Qed.

Lemma OnEvent_conn_step a in_loop a' events (w w' : World) :
  TcpObject_OnEvent in_loop a' events w = Some w' -> conn_step a w w'.
Proof.
  unfold TcpObject_OnEvent. intros H.
  destruct (get_tcp a' w) as [c|] eqn:Hc; simpl in H; [|discriminate].
  destruct in_loop; simpl in H; [|discriminate].
  destruct (TcpObject.state_ c).
  - injection H as <-. apply conn_step_observe. reflexivity.
  - destruct (negb _).
    + eapply HandleConnect_conn_step; exact H.
    + eapply HandleConnectFailed_conn_step; exact H.
  - destruct (negb _).
    + eapply HandleDisconnect_conn_step; exact H.
    + injection H as <-. apply conn_step_refl.
  - injection H as <-. apply conn_step_observe. reflexivity.
  - injection H as <-. apply conn_step_observe. reflexivity.
Qed.

(** *** Receiving and sending *)

Lemma consume_steps_frame fuel a' f (view : list Byte.byte) len :
  forall total (w w' : World) t e,
    consume_steps fuel a' f view len total w = Some (t, e, w') ->
    heap w' = heap w /\
    trace_ext (fun o => exists o1 l1 r1, o = ObsMessage a' o1 l1 r1) w w'.
Proof.
  induction fuel as [|fuel IH]; intros total w w' t e H;
    [rewrite consume_steps_O in H; discriminate|].
  rewrite consume_steps_eq in H.
  destruct (len <=? total);
    [injection H as <- <- <-; split; [reflexivity|apply trace_ext_refl]|].
  cbv zeta in H.
  destruct (f (user w) _) as [r u'].
  destruct (0 <? MachInt.to_int r).
  - apply IH in H as [Hh Ht]. split; [exact Hh|].
    eapply trace_ext_trans; [|exact Ht].
    apply (trace_ext_observe _ _ (with_user u' w)). eauto.
  - injection H as <- <- <-. split; [reflexivity|].
    apply (trace_ext_observe _ _ (with_user u' w)). eauto.
Qed.

Lemma consume_loop_frame a' f (view : list Byte.byte) len (w w' : World) t e :
  consume_loop a' f view len w = Some (t, e, w') ->
  heap w' = heap w /\
  trace_ext (fun o => exists o1 l1 r1, o = ObsMessage a' o1 l1 r1) w w'.
Proof.
  intros H. apply consume_loop_steps in H as (n & _ & H).
  eapply consume_steps_frame; exact H.
Qed.

Lemma OnRecvData_conn_step a in_loop a' (w w' : World) :
  TcpObject_OnRecvData in_loop a' w = Some w' -> conn_step a w w'.
Proof.
  unfold TcpObject_OnRecvData. intros H.
  destruct (get_tcp a' w) as [c|] eqn:Hc; simpl in H; [|discriminate].
  destruct in_loop; simpl in H; [|discriminate].
  destruct (TcpObject.bev_ c) as [b|] eqn:Hb; simpl in H; [|discriminate].
  set (c1 := if negb (TcpObject.idle_timer_ c =? -1)
             then TcpObject.set_last_active (clock w) c else c) in *.
  assert (Hs1 : TcpObject.state_ c1 = TcpObject.state_ c)
    by (unfold c1; destruct (negb _); reflexivity).
  assert (Hstep1 : conn_step a w (put_tcp a' c1 w))
    by (eapply conn_step_put_tcp; eassumption).
  destruct (TcpObject.input b) as [|x rest];
    [injection H as <-; exact Hstep1|].
  set (len := MachInt.to_int _) in H.
  destruct (if len <=? 0 then _ else _) as [[[t e] w2]|] eqn:Hloop;
    simpl in H; [|discriminate].
  assert (Hw2 : heap w2 = heap (put_tcp a' c1 w) /\
                trace_ext (fun o => exists o1 l1 r1, o = ObsMessage a' o1 l1 r1)
                  (put_tcp a' c1 w) w2).
  { destruct (len <=? 0).
    - injection Hloop as <- <- <-. split; [reflexivity|apply trace_ext_refl].
    - destruct (TcpObject.on_message_ c1) as [f|]; simpl in Hloop; [|discriminate].
      eapply consume_loop_frame; exact Hloop. }
  destruct Hw2 as [Hh2 Ht2].
  assert (Hstep2 : conn_step a (put_tcp a' c1 w) w2).
  { apply conn_step_quiet; [apply state_of_heap; exact Hh2|].
    eapply lifecycle_trace_ext; [|exact Ht2].
    intros o (o1 & l1 & r1 & ->). reflexivity. }
  assert (Hc2 : get_tcp a' w2 = Some c1).
  { unfold get_tcp. rewrite Hh2. simpl. rewrite lookup_insert_eq. reflexivity. }
  set (w3 := if 0 <? t then _ else w2) in H.
  assert (Hstep3 : conn_step a w2 w3).
  { unfold w3. destruct (0 <? t); [|apply conn_step_refl].
    eapply conn_step_put_tcp; [exact Hc2|]. reflexivity. }
  eapply conn_step_trans; [exact Hstep1|].
  eapply conn_step_trans; [exact Hstep2|].
  eapply conn_step_trans; [exact Hstep3|].
  destruct e; [|injection H as <-; apply conn_step_refl].
  eapply HandleDisconnect_conn_step; exact H.
Qed.

Lemma readcb_conn_step a in_loop a' bytes (w w' : World) :
  bufferevent_readcb in_loop a' bytes w = Some w' -> conn_step a w w'.
Proof.
  unfold bufferevent_readcb. intros H.
  destruct (get_tcp a' w) as [c|] eqn:Hc; simpl in H; [|discriminate].
  destruct (TcpObject.bev_ c) as [b|] eqn:Hb; simpl in H; [|discriminate].
  destruct (TcpObject.read_enabled b);
    [|injection H as <-; apply conn_step_refl].
  set (w1 := put_tcp a' _ w) in H.
  assert (Hstep1 : conn_step a w w1)
    by (eapply conn_step_put_tcp; [exact Hc|reflexivity]).
  destruct (TcpObject.readcb_set b); [|injection H as <-; exact Hstep1].
  eapply conn_step_trans; [exact Hstep1|].
  eapply OnRecvData_conn_step; exact H.
Qed.

Lemma SendPacket_conn_step a in_loop a' data (w w' : World) b :
  TcpObject_SendPacket in_loop a' data w = Some (b, w') -> conn_step a w w'.
Proof.
  unfold TcpObject_SendPacket. intros H.
  destruct (get_tcp a' w) as [c|] eqn:Hc; simpl in H; [|discriminate].
  destruct (negb _);
    [injection H as <- <-; apply conn_step_observe; reflexivity|].
  destruct data as [d|]; [|injection H as <- <-; apply conn_step_refl].
  destruct (length d =? 0)%nat; [injection H as <- <-; apply conn_step_refl|].
  destruct in_loop; simpl in H; [|discriminate].
  destruct (TcpObject.bev_ c) as [bv|]; simpl in H; [|discriminate].
  injection H as <- <-. eapply conn_step_put_tcp; [exact Hc|reflexivity].
Qed.

Lemma SendPacket_iovec_conn_step a in_loop a' vs n (w w' : World) b :
  TcpObject_SendPacket_iovec in_loop a' vs n w = Some (b, w') -> conn_step a w w'.
Proof.
  unfold TcpObject_SendPacket_iovec. intros H.
  destruct (get_tcp a' w) as [c|] eqn:Hc; simpl in H; [|discriminate].
  destruct (negb _);
    [injection H as <- <-; apply conn_step_observe; reflexivity|].
  destruct vs as [d|]; [|injection H as <- <-; apply conn_step_refl].
  destruct (n <=? 0); [injection H as <- <-; apply conn_step_refl|].
  destruct in_loop; simpl in H; [|discriminate].
  destruct (TcpObject.bev_ c) as [bv|]; simpl in H; [|discriminate].
  injection H as <- <-. eapply conn_step_put_tcp; [exact Hc|reflexivity].
Qed.

(** *** Closures, tasks, timers *)

Lemma destroy_conn_step a me (w w' : World) :
  ActiveClose_destroy me w = Some w' -> conn_step a w w'.
Proof.
  unfold ActiveClose_destroy. intros H.
  destruct (get_tcp me w); [|injection H as <-; apply conn_step_refl].
  destruct (TcpObject.State_eqb _ _); [|injection H as <-; apply conn_step_refl].
  eapply HandleDisconnect_conn_step; exact H.
Qed.

Lemma run_closure_conn_step a cl (w w' : World) v :
  run_closure cl w = Some (v, w') -> conn_step a w w'.
Proof.
  unfold run_closure. intros H. destruct cl as [f|tid|tid ms cb rep|me].
  - destruct (f (user w)). injection H as <- <-.
    apply conn_step_frame; reflexivity.
  - destruct (EventLoop.reactor_ (loop w)) as [r|].
    + destruct (LibeventReactor.Cancel tid r). injection H as <- <-.
      apply conn_step_frame; reflexivity.
    + injection H as <- <-. apply conn_step_refl.
  - destruct (EventLoop.reactor_ (loop w)) as [r|]; simpl in H; [|discriminate].
    injection H as <- <-. apply conn_step_frame; reflexivity.
  - destruct (ActiveClose_destroy me w) as [w1|] eqn:Hd; simpl in H; [|discriminate].
    injection H as <- <-. eapply destroy_conn_step; exact Hd.
Qed.

Lemma run_task_conn_step a (t : Task U V) (w w' : World) :
  run_task t w = Some w' -> conn_step a w w'.
Proof.
  intros H. apply run_task_inv in H as (v & w1 & Hcl & ->).
  eapply conn_step_trans; [apply (conn_step_observe a (ObsTaskRun (task_future t))); reflexivity|].
  eapply conn_step_trans; [eapply run_closure_conn_step; exact Hcl|].
  apply conn_step_frame; reflexivity.
Qed.

Lemma run_tasks_conn_step a (ts : list (Task U V)) (w w' : World) :
  run_tasks ts w = Some w' -> conn_step a w w'.
Proof.
  revert w. induction ts as [|t ts IH]; intros w H; simpl in H.
  - injection H as <-. apply conn_step_refl.
  - destruct (run_task t w) as [w1|] eqn:Ht; simpl in H; [|discriminate].
    eapply conn_step_trans; [eapply run_task_conn_step; exact Ht|].
    apply IH. exact H.
Qed.

Lemma notify_frame (w w' : World) :
  notify w = Some w' -> trace w' = trace w /\ forall a, state_of a w' = state_of a w.
Proof.
  unfold notify. intros H.
  destruct (get_pipe _ w) as [p|] eqn:Hp; simpl in H; [|discriminate].
  injection H as <-. split; [reflexivity|]. intros a.
  unfold get_pipe in Hp.
  destruct (heap w !! EventLoop.notifier_ (loop w)) as [[q|c]|] eqn:E;
    try discriminate.
  eapply state_of_insert; [exact E|reflexivity|exact I].
Qed.

Lemma Execute_conn_step a in_loop cl (w w' : World) fut :
  EventLoop_Execute in_loop cl w = Some (fut, w') -> conn_step a w w'.
Proof.
  unfold EventLoop_Execute. intros H. destruct in_loop.
  - destruct (run_task _ _) as [w2|] eqn:Ht; simpl in H; [|discriminate].
    injection H as <- <-.
    eapply conn_step_trans; [|eapply run_task_conn_step; exact Ht].
    apply conn_step_frame; reflexivity.
  - destruct (notify _) as [w2|] eqn:Hn; simpl in H; [|discriminate].
    injection H as <- <-.
    apply notify_frame in Hn as [Ht Hs].
    apply conn_step_quiet; [rewrite Hs; reflexivity|rewrite Ht; reflexivity].
Qed.

Lemma Cancel_conn_step a in_loop tid (w w' : World) fut :
  EventLoop_Cancel in_loop tid w = Some (fut, w') -> conn_step a w w'.
Proof.
  unfold EventLoop_Cancel. intros H. destruct in_loop.
  - destruct (EventLoop.reactor_ (loop w)) as [r|].
    + destruct (LibeventReactor.Cancel tid r). injection H as <- <-.
      apply conn_step_frame; reflexivity.
    + injection H as <- <-. apply conn_step_frame; reflexivity.
  - eapply Execute_conn_step; exact H.
Qed.

Lemma ScheduleRepeatedly_conn_step a in_loop ms cb (w w' : World) tid :
  EventLoop_ScheduleRepeatedly_ms timer_bits in_loop ms cb w = Some (tid, w') ->
  conn_step a w w'.
Proof.
  unfold EventLoop_ScheduleRepeatedly_ms, next_timer_id. simpl. intros H.
  destruct in_loop.
  - destruct (EventLoop.reactor_ (loop w)) as [r|]; simpl in H; [|discriminate].
    injection H as <- <-. apply conn_step_frame; reflexivity.
  - destruct (EventLoop_Execute false _ _) as [[f w2]|] eqn:E; simpl in H; [|discriminate].
    injection H as <- <-.
    eapply conn_step_trans; [|eapply Execute_conn_step; exact E].
    apply conn_step_frame; reflexivity.
Qed.

Lemma ScheduleLater_conn_step a in_loop ms cb (w w' : World) tid :
  EventLoop_ScheduleLater_ms timer_bits in_loop ms cb w = Some (tid, w') ->
  conn_step a w w'.
Proof.
  unfold EventLoop_ScheduleLater_ms, next_timer_id. simpl. intros H.
  destruct in_loop.
  - destruct (EventLoop.reactor_ (loop w)) as [r|]; simpl in H; [|discriminate].
    injection H as <- <-. apply conn_step_frame; reflexivity.
  - destruct (EventLoop_Execute false _ _) as [[f w2]|] eqn:E; simpl in H; [|discriminate].
    injection H as <- <-.
    eapply conn_step_trans; [|eapply Execute_conn_step; exact E].
    apply conn_step_frame; reflexivity.
Qed.

Lemma ActiveClose_conn_step a in_loop a' sync (w w' : World) :
  TcpObject_ActiveClose in_loop a' sync w = Some w' -> conn_step a w w'.
Proof.
  unfold TcpObject_ActiveClose. intros H.
  destruct (get_tcp a' w); simpl in H; [|discriminate].
  destruct in_loop.
  - eapply destroy_conn_step; exact H.
  - destruct (EventLoop_Execute false _ w) as [[f w1]|] eqn:E; simpl in H; [|discriminate].
    injection H as <-. eapply Execute_conn_step; exact E.
Qed.

Lemma SetIdleTimeout_conn_step a in_loop a' ms (w w' : World) :
  TcpObject_SetIdleTimeout timer_bits in_loop a' ms w = Some w' -> conn_step a w w'.
Proof.
  unfold TcpObject_SetIdleTimeout. intros H.
  destruct (get_tcp a' w) as [c|] eqn:Hc; simpl in H; [|discriminate].
  destruct (ms <=? 0); [injection H as <-; apply conn_step_refl|].
  set (w1 := put_tcp a' _ w) in H.
  assert (Hstep1 : conn_step a w w1)
    by (eapply conn_step_put_tcp; [exact Hc|reflexivity]).
  destruct (if negb _ then _ else Some w1) as [w2|] eqn:E2; simpl in H; [|discriminate].
  assert (Hstep2 : conn_step a w1 w2).
  { destruct (negb _); [|injection E2 as <-; apply conn_step_refl].
    destruct (EventLoop_Cancel in_loop _ w1) as [[f wc]|] eqn:EC;
      simpl in E2; [|discriminate].
    injection E2 as <-. eapply Cancel_conn_step; exact EC. }
  destruct (EventLoop_ScheduleRepeatedly_ms _ _ _ _ w2) as [[tid w3]|] eqn:E3;
    simpl in H; [|discriminate].
  destruct (get_tcp a' w3) as [c3|] eqn:Hc3; simpl in H; [|discriminate].
  injection H as <-.
  eapply conn_step_trans; [exact Hstep1|].
  eapply conn_step_trans; [exact Hstep2|].
  eapply conn_step_trans; [eapply ScheduleRepeatedly_conn_step; exact E3|].
  eapply conn_step_put_tcp; [exact Hc3|reflexivity].
Qed.

Lemma TimerCallback_conn_step a tm (w w' : World) :
  LibeventReactor_TimerCallback tm w = Some w' -> conn_step a w w'.
Proof.
  unfold LibeventReactor_TimerCallback. intros H.
  destruct (run_timer_cb _ _) as [w1|] eqn:Hcb; simpl in H; [|discriminate].
  assert (Hstep1 : conn_step a w w1).
  { eapply conn_step_trans;
      [apply (conn_step_observe a (ObsTimerFired (LibeventReactor.id tm))); reflexivity|].
    unfold run_timer_cb in Hcb. destruct (LibeventReactor.callback tm) as [f|a'].
    - injection Hcb as <-. apply conn_step_frame; reflexivity.
    - destruct (get_tcp a' _); [|injection Hcb as <-; apply conn_step_refl].
      destruct (TcpObject.CheckIdleTimeout _ _);
        [|injection Hcb as <-; apply conn_step_refl].
      eapply ActiveClose_conn_step; exact Hcb. }
  destruct (LibeventReactor.repeat tm); [injection H as <-; exact Hstep1|].
  destruct (EventLoop.reactor_ (loop w1)); simpl in H; [|discriminate].
  injection H as <-.
  eapply conn_step_trans; [exact Hstep1|]. apply conn_step_frame; reflexivity.
Qed.

Lemma dispatch_conn_step a e (w w' : World) :
  dispatch e w = Some w' -> conn_step a w w'.
Proof.
  unfold dispatch. intros H.
  destruct (EventLoop.reactor_ (loop w)) as [r|]; simpl in H; [|discriminate].
  destruct e as [tid|oid].
  - destruct (LibeventReactor.timers_ r !! tid) as [tm|];
      [|injection H as <-; apply conn_step_refl].
    eapply TimerCallback_conn_step; exact H.
  - destruct (LibeventReactor.objects_ r !! oid) as [obj|];
      [|injection H as <-; apply conn_step_refl].
    destruct (LibeventReactor.read_event obj) as [ev|];
      [|injection H as <-; apply conn_step_refl].
    destruct (heap w !! LibeventReactor.ev_arg ev) as [[p|c]|] eqn:E;
      [| injection H as <-; apply conn_step_refl | discriminate].
    destruct (PipeObject.HandleReadEvent p) as [ok p'].
    destruct ok; [|discriminate]. injection H as <-.
    apply conn_step_quiet; [|reflexivity].
    eapply state_of_insert; [exact E|reflexivity|exact I].
Qed.

Lemma dispatch_all_conn_step a ready (w w' : World) :
  dispatch_all ready w = Some w' -> conn_step a w w'.
Proof.
  revert w. induction ready as [|e ready IH]; intros w H; simpl in H.
  - injection H as <-. apply conn_step_refl.
  - destruct (dispatch e w) as [w1|] eqn:He; simpl in H; [|discriminate].
    eapply conn_step_trans; [eapply dispatch_conn_step; exact He|].
    apply IH. exact H.
Qed.

Lemma Run_iteration_conn_step a try_lock ready ok (w w' : World) :
  EventLoop_Run_iteration try_lock ready ok w = Some w' -> conn_step a w w'.
Proof.
  unfold EventLoop_Run_iteration, LibeventReactor_Poll. intros H.
  destruct (if try_lock then _ else Some w) as [w1|] eqn:E1; simpl in H; [|discriminate].
  assert (Hstep1 : conn_step a w w1).
  { destruct try_lock; [|injection E1 as <-; apply conn_step_refl].
    eapply conn_step_trans; [|eapply run_tasks_conn_step; exact E1].
    apply conn_step_frame; reflexivity. }
  destruct (EventLoop.reactor_ (loop w1)); simpl in H; [|discriminate].
  destruct (dispatch_all ready _) as [w2|] eqn:E2; simpl in H; [|discriminate].
  injection H as <-.
  eapply conn_step_trans; [exact Hstep1|].
  eapply conn_step_trans; [apply (conn_step_observe a ObsPoll); reflexivity|].
  eapply conn_step_trans; [eapply dispatch_all_conn_step; exact E2|].
  destruct ok; [apply conn_step_refl|apply conn_step_observe; reflexivity].
Qed.

(** *** Every action of the environment is made of moves of the state machine *)

Lemma step_conn_step a act (w w' : World) :
  step timer_bits act w = Some w' -> conn_step a w w'.
Proof.
  destruct act; simpl; intros H.
  - destruct (TcpObject_Connect _ _ _ _ _ _) as [[b w1]|] eqn:E; [|discriminate].
    injection H as <-. eapply Connect_conn_step; exact E.
  - eapply OnAccept_conn_step; exact H.
  - destruct (EventLoop_Register _ _ _ _) as [[b w1]|] eqn:E; [|discriminate].
    injection H as <-. eapply Register_conn_step; exact E.
  - eapply OnEvent_conn_step; exact H.
  - eapply readcb_conn_step; exact H.
  - destruct (TcpObject_SendPacket _ _ _ _) as [[b w1]|] eqn:E; [|discriminate].
    injection H as <-. eapply SendPacket_conn_step; exact E.
  - destruct (TcpObject_SendPacket_iovec _ _ _ _ _) as [[b w1]|] eqn:E; [|discriminate].
    injection H as <-. eapply SendPacket_iovec_conn_step; exact E.
  - eapply ActiveClose_conn_step; exact H.
  - eapply SetIdleTimeout_conn_step; exact H.
  - destruct (EventLoop_Execute _ _ _) as [[b w1]|] eqn:E; [|discriminate].
    injection H as <-. eapply Execute_conn_step; exact E.
  - destruct (EventLoop_Cancel _ _ _) as [[b w1]|] eqn:E; [|discriminate].
    injection H as <-. eapply Cancel_conn_step; exact E.
  - destruct (EventLoop_ScheduleLater_ms _ _ _ _ _) as [[b w1]|] eqn:E; [|discriminate].
    injection H as <-. eapply ScheduleLater_conn_step; exact E.
  - destruct (EventLoop_ScheduleRepeatedly_ms _ _ _ _ _) as [[b w1]|] eqn:E; [|discriminate].
    injection H as <-. eapply ScheduleRepeatedly_conn_step; exact E.
  - eapply Run_iteration_conn_step; exact H.
  - injection H as <-. apply conn_step_frame; reflexivity.
Qed.

Lemma run_conn_step a acts : forall (w w' : World),
  run timer_bits acts w = Some w' -> conn_step a w w'.
Proof.
  induction acts as [|act acts IH]; intros w w' H; simpl in H.
  - injection H as <-. apply conn_step_refl.
  - destruct (step timer_bits act w) as [w1|] eqn:E; simpl in H; [|discriminate].
    eapply conn_step_trans; [eapply step_conn_step; exact E|].
    apply IH. exact H.
Qed.

Lemma run_app acts1 acts2 : forall (w : World),
  run timer_bits (acts1 ++ acts2) w
  = w1 ← run timer_bits acts1 w; run timer_bits acts2 w1.
Proof.
  induction acts1 as [|act acts1 IH]; intros w; simpl; [reflexivity|].
  destruct (step timer_bits act w) as [w1|]; simpl; [apply IH|reflexivity].
Qed.

(** *** What the state machine allows *)

Lemma ends_app a l1 l2 : ends a (l1 ++ l2) = ends a l1 ++ ends a l2.
Proof. apply List.filter_app. Qed.

Lemma ends_lifecycle a tr : ends a (lifecycle a tr) = ends a tr.
Proof.
  induction tr as [|o tr IH]; [reflexivity|].
  unfold ends, lifecycle in *. simpl.
  destruct o; simpl; try exact IH;
    destruct (N.eqb a _) eqn:E; simpl; rewrite ?E, IH; reflexivity.
Qed.

(** A terminal state is never left and nothing more is told about the
    life of the connection; before that, at most one of the two callbacks
    that end it has been made, and only on entry to a terminal state. *)
Lemma conn_trans_inv a v1 v2 :
  conn_trans a v1 v2 ->
  (terminal (fst v1) = true -> v2 = v1) /\
  (terminal (fst v1) = false -> ends a (snd v1) = [] ->
   (terminal (fst v2) = false /\ ends a (snd v2) = []) \/
   (terminal (fst v2) = true /\ (length (ends a (snd v2)) <= 1)%nat)).
Proof.
  assert (Hself : N.eqb a a = true) by apply N.eqb_refl.
  induction 1 as [v|l|s l l' Hs Hl|l l' Hl|l l' Hl|v1 v2 v3 H12 IH12 H23 IH23];
    simpl.
  - split; [reflexivity|]. intros Ht He. left. split; assumption.
  - split; [discriminate|]. intros _ He. left. split; [reflexivity|exact He].
  - split; [destruct Hs as [-> | ->]; discriminate|].
    intros _ He. left. split; [reflexivity|].
    destruct Hl as [-> | ->]; [exact He|].
    rewrite ends_app, He. reflexivity.
  - split; [discriminate|]. intros _ He. right. split; [reflexivity|].
    destruct Hl as [-> | ->]; [rewrite He; simpl; lia|].
    rewrite ends_app, He. unfold ends. simpl. rewrite Hself. simpl. lia.
  - split; [discriminate|]. intros _ He. right. split; [reflexivity|].
    destruct Hl as [-> | ->]; [rewrite He; simpl; lia|].
    rewrite ends_app, He. unfold ends. simpl. rewrite Hself. simpl. lia.
  - destruct IH12 as [IHa IHb], IH23 as [IHc IHd]. split.
    + intros Ht. specialize (IHa Ht). subst v2. apply IHc. exact Ht.
    + intros Ht He. destruct (IHb Ht He) as [[Ht2 He2]|[Ht2 He2]].
      * apply IHd; assumption.
      * specialize (IHc Ht2). subst v3. right. split; assumption.
Qed.

(** *** Terminal connections stay out of the registry *)

Lemma registry_wf_uid (w : World) :
  registry_wf w <->
  forall k a, EventLoop.objects_ (loop w) !! k = Some a ->
    0 <= k /\ uid_of a w = Some k.
Proof.
  unfold registry_wf, uid_of. split; intros H k a Hk;
    destruct (H k a Hk) as [Hge Hu]; (split; [exact Hge|]).
  - destruct Hu as (o & -> & <-). reflexivity.
  - apply fmap_Some in Hu as (o & Ho & ->). eauto.
Qed.

Lemma keeps_inv_refl (w : World) : keeps_inv w w.
Proof. intros a H. exact H. Qed.

Lemma keeps_inv_trans (w1 w2 w3 : World) :
  keeps_inv w1 w2 -> keeps_inv w2 w3 -> keeps_inv w1 w3.
Proof. intros H12 H23 a H. apply H23, H12, H. Qed.

Lemma calm_refl (w : World) : calm w w.
Proof. split; [reflexivity|]. split; [tauto|]. intros a. split; [reflexivity|tauto]. Qed.

Lemma calm_trans (w1 w2 w3 : World) : calm w1 w2 -> calm w2 w3 -> calm w1 w3.
Proof.
  intros (Ho1 & Hr1 & H1) (Ho2 & Hr2 & H2).
  split; [congruence|]. split; [tauto|].
  intros a. destruct (H1 a) as [Hu1 Ht1], (H2 a) as [Hu2 Ht2].
  split; [congruence|tauto].
Qed.

Lemma calm_keeps (w w' : World) : calm w w' -> keeps_inv w w'.
Proof.
  intros (Ho & Hr & Hc) a (Hwf & Hreact & Hterm).
  split; [|split; [tauto|]].
  - apply (proj2 (registry_wf_uid _)). intros k a0 Hk. rewrite Ho in Hk.
    pose proof (proj1 (registry_wf_uid _) Hwf) as Hwfu; clear Hwf; rename Hwfu into Hwf. destruct (Hwf k a0 Hk) as [Hge Hu].
    split; [exact Hge|]. destruct (Hc a0) as [-> _]. exact Hu.
  - intros Ht. destruct (Hc a) as [Hu Ht']. specialize (Hterm (Ht' Ht)).
    destruct Hterm as [Hk Hn]. split; [rewrite Hu; exact Hk|].
    unfold is_registered. rewrite Ho. exact Hn.
Qed.

Lemma is_terminal_heap a (w w' : World) :
  heap w' = heap w -> is_terminal a w' <-> is_terminal a w.
Proof.
  intros Hh. unfold is_terminal. rewrite (state_of_heap a w w' Hh). reflexivity.
Qed.

Lemma calm_frame (w w' : World) :
  heap w' = heap w ->
  EventLoop.objects_ (loop w') = EventLoop.objects_ (loop w) ->
  (is_Some (EventLoop.reactor_ (loop w)) ->
   is_Some (EventLoop.reactor_ (loop w'))) ->
  calm w w'.
Proof.
  intros Hh Ho Hr. split; [exact Ho|]. split; [exact Hr|].
  intros a. split; [unfold uid_of; rewrite Hh; reflexivity|].
  apply (proj1 (is_terminal_heap a w w' Hh)).
Qed.

(** Replacing an object by one with the same id that is not newly terminal. *)
Lemma calm_insert a' (o o' : HeapObj U) (w w' : World) :
  heap w !! a' = Some o ->
  heap w' = <[a' := o']> (heap w) ->
  GetUniqueId o' = GetUniqueId o ->
  match o, o' with
  | HTcp c, HTcp c' =>
    terminal (TcpObject.state_ c') = true -> terminal (TcpObject.state_ c) = true
  | HPipe _, HPipe _ => True
  | _, _ => False
  end ->
  EventLoop.objects_ (loop w') = EventLoop.objects_ (loop w) ->
  (is_Some (EventLoop.reactor_ (loop w)) ->
   is_Some (EventLoop.reactor_ (loop w'))) ->
  calm w w'.
Proof.
  intros Ho Hh Hid Hkind Hobjs Hr. split; [exact Hobjs|]. split; [exact Hr|].
  intros a. unfold uid_of, is_terminal, state_of, get_tcp. rewrite Hh.
  destruct (decide (a' = a)) as [->|Hne].
  - rewrite lookup_insert_eq, Ho. simpl. split; [congruence|].
    intros (s & Hs & Ht). destruct o as [p|c], o' as [p'|c'];
      try contradiction; try discriminate.
    simpl in Hs. injection Hs as <-. eexists. split; [reflexivity|auto].
  - rewrite lookup_insert_ne by assumption. tauto.
Qed.

Lemma calm_put_tcp a' (c c' : TcpObject.t U) (w : World) :
  get_tcp a' w = Some c ->
  TcpObject.unique_id_ c' = TcpObject.unique_id_ c ->
  (terminal (TcpObject.state_ c') = true -> terminal (TcpObject.state_ c) = true) ->
  calm w (put_tcp a' c' w).
Proof.
  intros Hc Hid Ht. unfold get_tcp in Hc.
  destruct (heap w !! a') as [[p|c0]|] eqn:E; try discriminate.
  injection Hc as ->.
  eapply (calm_insert a' (HTcp c) (HTcp c')); [exact E|reflexivity|exact Hid|exact Ht|reflexivity|tauto].
Qed.

Lemma calm_observe o (w : World) : calm w (observe o w).
Proof. apply calm_frame; [reflexivity|reflexivity|tauto]. Qed.

(** Entering a terminal state: the new state is stored, the callback is
    made, and the connection is taken out of the registry. *)
Lemma enter_terminal_keeps in_loop a' (c c' : TcpObject.t U) (w w2 w' : World) :
  get_tcp a' w = Some c ->
  heap w2 = <[a' := HTcp c']> (heap w) ->
  TcpObject.unique_id_ c' = TcpObject.unique_id_ c ->
  loop w2 = loop w ->
  EventLoop_Unregister in_loop (Some a') w2 = Some w' ->
  keeps_inv w w'.
Proof.
  intros Hc Hh2 Hid Hl2 HU a (Hwf & Hreact & Hterm).
  assert (Hc0 : heap w !! a' = Some (HTcp c)).
  { unfold get_tcp in Hc. destruct (heap w !! a') as [[p|c0]|]; congruence. }
  assert (Huid : forall x, uid_of x w2 = uid_of x w).
  { intros x. unfold uid_of. rewrite Hh2.
    destruct (decide (a' = x)) as [->|Hne].
    - rewrite lookup_insert_eq, Hc0. simpl. congruence.
    - rewrite lookup_insert_ne by assumption. reflexivity. }
  assert (Hwf2 : registry_wf w2).
  { apply (proj2 (registry_wf_uid _)). intros k x Hk. rewrite Hl2 in Hk.
    pose proof (proj1 (registry_wf_uid _) Hwf) as Hwfu; clear Hwf; rename Hwfu into Hwf. rewrite Huid. apply Hwf. exact Hk. }
  pose proof (Unregister_registry_wf _ _ _ _ Hwf2 HU) as Hwf'.
  pose proof (Unregister_frame _ _ _ _ HU) as [Hh' _].
  unfold EventLoop_Unregister in HU.
  rewrite Hh2, lookup_insert_eq in HU. simpl in HU.
  destruct in_loop; simpl in HU; [|discriminate].
  destruct (TcpObject.unique_id_ c' <? 0) eqn:Hneg; simpl in HU; [discriminate|].
  apply Z.ltb_ge in Hneg.
  destruct (bool_decide _); simpl in HU; [|discriminate].
  rewrite Hl2 in HU. destruct Hreact as [r Hr]. rewrite Hr in HU.
  injection HU as <-.
  split; [exact Hwf'|]. split; [simpl; eauto|].
  intros (s & Hs & Ht).
  destruct (decide (a' = a)) as [->|Hne].
  - split.
    + exists (TcpObject.unique_id_ c'). split; [|exact Hneg].
      unfold uid_of. simpl. rewrite Hh2, lookup_insert_eq. reflexivity.
    + intros [k Hk]. simpl in Hk. apply lookup_delete_Some in Hk as [Hne Hk].
      pose proof (proj1 (registry_wf_uid _) Hwf) as Hwfu; clear Hwf; rename Hwfu into Hwf. destruct (Hwf k a Hk) as [_ Hu].
      unfold uid_of in Hu. rewrite Hc0 in Hu. simpl in Hu.
      injection Hu as Hu. congruence.
  - assert (Hs0 : state_of a w = Some s).
    { unfold state_of, get_tcp in Hs |- *. simpl in Hs.
      rewrite Hh2, lookup_insert_ne in Hs by assumption. exact Hs. }
    destruct (Hterm (ex_intro _ s (conj Hs0 Ht))) as [Hk Hn]. split.
    + unfold uid_of in Hk |- *. simpl.
      rewrite Hh2, lookup_insert_ne by assumption. exact Hk.
    + intros [k Hk']. simpl in Hk'. apply lookup_delete_Some in Hk' as [_ Hk'].
      apply Hn. exists k. exact Hk'.
Qed.

Lemma HandleDisconnect_keeps in_loop a' (w w' : World) :
  TcpObject_HandleDisconnect in_loop a' w = Some w' -> keeps_inv w w'.
Proof.
  unfold TcpObject_HandleDisconnect. intros H.
  destruct (get_tcp a' w) as [c|] eqn:Hc; simpl in H; [|discriminate].
  destruct in_loop; simpl in H; [|discriminate].
  destruct (TcpObject.State_eqb _ _); simpl in H; [|discriminate].
  eapply (enter_terminal_keeps _ a' c (TcpObject.set_state TcpObject.kDisconnected c));
    [exact Hc| | | |exact H];
    destruct (TcpObject.on_disconnect_ c); reflexivity.
Qed.

Lemma HandleConnectFailed_keeps in_loop a' (w w' : World) :
  TcpObject_HandleConnectFailed in_loop a' w = Some w' -> keeps_inv w w'.
Proof.
  unfold TcpObject_HandleConnectFailed. intros H.
  destruct (get_tcp a' w) as [c|] eqn:Hc; simpl in H; [|discriminate].
  destruct in_loop; simpl in H; [|discriminate].
  destruct (TcpObject.State_eqb _ _); simpl in H; [|discriminate].
  eapply (enter_terminal_keeps _ a' c (TcpObject.set_state TcpObject.kFailed c));
    [exact Hc| | | |exact H];
    destruct (TcpObject.on_fail_ c); reflexivity.
Qed.

Lemma HandleConnect_calm in_loop a' (w w' : World) :
  TcpObject_HandleConnect in_loop a' w = Some w' -> calm w w'.
Proof.
  unfold TcpObject_HandleConnect. intros H.
  destruct (get_tcp a' w) as [c|] eqn:Hc; simpl in H; [|discriminate].
  destruct in_loop; simpl in H; [|discriminate].
  destruct (negb _); simpl in H; [discriminate|].
  destruct (TcpObject.bev_ c) as [b|]; simpl in H; [|discriminate].
  injection H as <-.
  eapply calm_trans;
    [eapply (calm_put_tcp a' c
               (TcpObject.set_bev _ (TcpObject.set_state TcpObject.kConnected c)));
     [exact Hc|reflexivity|simpl; intros Hf; discriminate Hf]|].
  destruct (TcpObject.on_new_conn_ c);
    [apply calm_frame; [reflexivity|reflexivity|tauto]|apply calm_refl].
Qed.

Ltac calm_framed :=
  apply calm_frame;
  [reflexivity | reflexivity
  | simpl; first [tauto | intros _; eexists; reflexivity]].

(** What [Register] changes: at most the id of the object, which had
    none, and one new entry of the registry for it. *)
Lemma Register_shape in_loop obj events (w w' : World) b :
  EventLoop_Register in_loop obj events w = Some (b, w') ->
  (is_Some (EventLoop.reactor_ (loop w)) ->
   is_Some (EventLoop.reactor_ (loop w'))) /\
  ((heap w' = heap w /\
    EventLoop.objects_ (loop w') = EventLoop.objects_ (loop w)) \/
   exists a' o uid,
     heap w !! a' = Some o /\ GetUniqueId o = -1 /\
     heap w' = <[a' := SetUniqueId uid o]> (heap w) /\
     (EventLoop.objects_ (loop w') = EventLoop.objects_ (loop w) \/
      EventLoop.objects_ (loop w') = <[uid := a']> (EventLoop.objects_ (loop w)))).
Proof.
  unfold EventLoop_Register. intros H.
  destruct obj as [a'|]; [|injection H as <- <-; split; [intros Hx; exact Hx|left; auto]].
  destruct (heap w !! a') as [o|] eqn:Ho; simpl in H; [|discriminate].
  destruct in_loop; simpl in H; [|discriminate].
  destruct (GetUniqueId o =? -1) eqn:Hid; simpl in H; [|discriminate].
  apply Z.eqb_eq in Hid.
  destruct (EventLoop.reactor_ (loop w)) as [r|] eqn:Hr;
    [|injection H as <- <-; split; [rewrite Hr; intros Hx; exact Hx|left; auto]].
  destruct (alloc_unique_id _ _ _) as [[uid gen]|] eqn:Ha; simpl in H; [|discriminate].
  destruct (LibeventReactor.Register _ events r) as [[ok r']|] eqn:HR;
    simpl in H; [|discriminate].
  destruct ok; injection H as <- <-; (split; [simpl; eauto|]);
    right; exists a', o, uid; (split; [exact Ho|]); (split; [exact Hid|]);
    (split; [reflexivity|]); simpl.
  - rewrite GetUniqueId_SetUniqueId. unfold insert_new.
    destruct (EventLoop.objects_ (loop w) !! uid); auto.
  - auto.
Qed.

Lemma Register_keeps in_loop obj events (w w' : World) b :
  EventLoop_Register in_loop obj events w = Some (b, w') -> keeps_inv w w'.
Proof.
  intros H a (Hwf & Hreact & Hterm).
  pose proof (Register_registry_wf _ _ _ _ _ _ Hwf H) as [Hwf' _].
  apply Register_shape in H as [Hr Hshape].
  split; [exact Hwf'|]. split; [auto|].
  destruct Hshape as [[Hh Ho] | (a' & o & uid & Ho & Hm1 & Hh & Hobjs)].
  - intros Ht. apply (is_terminal_heap a w w' Hh) in Ht.
    destruct (Hterm Ht) as [Hk Hn]. split.
    + unfold uid_of. rewrite Hh. exact Hk.
    + unfold is_registered. rewrite Ho. exact Hn.
  - intros (s & Hs & Ht).
    assert (Hs0 : state_of a w = Some s).
    { rewrite <- Hs. symmetry.
      eapply state_of_insert; [exact Ho|exact Hh|].
      destruct o; simpl; auto. }
    destruct (Hterm (ex_intro _ s (conj Hs0 Ht))) as [(k & Hk & Hk0) Hn].
    destruct (decide (a' = a)) as [->|Hne].
    + unfold uid_of in Hk. rewrite Ho in Hk. simpl in Hk.
      injection Hk as Hk. lia.
    + split.
      * exists k. split; [|exact Hk0]. unfold uid_of.
        rewrite Hh, lookup_insert_ne by assumption. exact Hk.
      * intros [k' Hk']. destruct Hobjs as [E | E]; rewrite E in Hk'.
        -- apply Hn. exists k'. exact Hk'.
        -- destruct (decide (uid = k')) as [->|Hne2].
           ++ rewrite lookup_insert_eq in Hk'. congruence.
           ++ rewrite lookup_insert_ne in Hk' by assumption.
              apply Hn. exists k'. exact Hk'.
Qed.

Lemma Connect_keeps in_loop a' ip port env (w w' : World) b :
  TcpObject_Connect in_loop a' ip port env w = Some (b, w') -> keeps_inv w w'.
Proof.
  unfold TcpObject_Connect. intros H.
  destruct (get_tcp a' w) as [c|] eqn:Hc; simpl in H; [|discriminate].
  destruct in_loop; simpl in H; [|discriminate].
  destruct (negb _);
    [injection H as <- <-; apply calm_keeps, calm_observe|].
  destruct (EventLoop.reactor_ (loop w)) as [r|]; simpl in H; [|discriminate].
  destruct (negb (bev_new_ok env));
    [injection H as <- <-; apply calm_keeps, calm_observe|].
  destruct (negb _);
    [injection H as <- <-; apply calm_keeps, calm_observe|].
  destruct (EventLoop_Register true (Some a') 0 w) as [[ok w1]|] eqn:HR;
    simpl in H; [|discriminate].
  eapply keeps_inv_trans; [eapply Register_keeps; exact HR|].
  destruct ok.
  - destruct (get_tcp a' w1) as [c1|] eqn:Hc1; simpl in H; [|discriminate].
    injection H as <- <-. apply calm_keeps.
    eapply (calm_put_tcp a' c1); [exact Hc1|reflexivity|].
    simpl. intros Hf. discriminate Hf.
  - injection H as <- <-. apply calm_keeps, calm_observe.
Qed.

Lemma OnAccept_keeps in_loop a' fd ip port bev_ok (w w' : World) :
  TcpObject_OnAccept in_loop a' fd ip port bev_ok w = Some w' -> keeps_inv w w'.
Proof.
  unfold TcpObject_OnAccept. intros H.
  destruct (get_tcp a' w) as [c|] eqn:Hc; simpl in H; [|discriminate].
  destruct in_loop; simpl in H; [|discriminate].
  destruct bev_ok; simpl in H; [|discriminate].
  apply calm_keeps.
  eapply calm_trans; [|eapply HandleConnect_calm; exact H].
  eapply (calm_put_tcp a' c); [exact Hc|reflexivity|]. simpl. tauto.
Qed.

Lemma OnEvent_keeps in_loop a' events (w w' : World) :
  TcpObject_OnEvent in_loop a' events w = Some w' -> keeps_inv w w'.
Proof.
  unfold TcpObject_OnEvent. intros H.
  destruct (get_tcp a' w) as [c|] eqn:Hc; simpl in H; [|discriminate].
  destruct in_loop; simpl in H; [|discriminate].
  destruct (TcpObject.state_ c).
  - injection H as <-. apply calm_keeps, calm_observe.
  - destruct (negb _).
    + apply calm_keeps. eapply HandleConnect_calm; exact H.
    + eapply HandleConnectFailed_keeps; exact H.
  - destruct (negb _).
    + eapply HandleDisconnect_keeps; exact H.
    + injection H as <-. apply keeps_inv_refl.
  - injection H as <-. apply calm_keeps, calm_observe.
  - injection H as <-. apply calm_keeps, calm_observe.
Qed.

Lemma consume_steps_calm fuel a' f (view : list Byte.byte) len :
  forall total (w w' : World) t e,
    consume_steps fuel a' f view len total w = Some (t, e, w') -> calm w w'.
Proof.
  induction fuel as [|fuel IH]; intros total w w' t e H;
    [rewrite consume_steps_O in H; discriminate|].
  rewrite consume_steps_eq in H.
  destruct (len <=? total); [injection H as <- <- <-; apply calm_refl|].
  cbv zeta in H.
  destruct (f (user w) _) as [r u'].
  destruct (0 <? MachInt.to_int r).
  - apply IH in H. eapply calm_trans; [|exact H]. calm_framed.
  - injection H as <- <- <-. calm_framed.
Qed.

Lemma consume_loop_calm a' f (view : list Byte.byte) len (w w' : World) t e :
  consume_loop a' f view len w = Some (t, e, w') -> calm w w'.
Proof.
  intros H. apply consume_loop_steps in H as (n & _ & H).
  eapply consume_steps_calm; exact H.
Qed.

Lemma OnRecvData_keeps in_loop a' (w w' : World) :
  TcpObject_OnRecvData in_loop a' w = Some w' -> keeps_inv w w'.
Proof.
  unfold TcpObject_OnRecvData. intros H.
  destruct (get_tcp a' w) as [c|] eqn:Hc; simpl in H; [|discriminate].
  destruct in_loop; simpl in H; [|discriminate].
  destruct (TcpObject.bev_ c) as [b|] eqn:Hb; simpl in H; [|discriminate].
  set (c1 := if negb (TcpObject.idle_timer_ c =? -1)
             then TcpObject.set_last_active (clock w) c else c) in *.
  assert (Hcalm1 : calm w (put_tcp a' c1 w)).
  { eapply (calm_put_tcp a' c); [exact Hc| |];
      unfold c1; destruct (negb _); simpl; auto. }
  destruct (TcpObject.input b) as [|x rest];
    [injection H as <-; apply calm_keeps; exact Hcalm1|].
  set (len := MachInt.to_int _) in H.
  destruct (if len <=? 0 then _ else _) as [[[t e] w2]|] eqn:Hloop;
    simpl in H; [|discriminate].
  assert (Hcalm2 : calm (put_tcp a' c1 w) w2).
  { destruct (len <=? 0); [injection Hloop as <- <- <-; apply calm_refl|].
    destruct (TcpObject.on_message_ c1) as [f|]; simpl in Hloop; [|discriminate].
    eapply consume_loop_calm; exact Hloop. }
  assert (Hc2 : get_tcp a' w2 = Some c1).
  { destruct (len <=? 0).
    - injection Hloop as <- <- <-. unfold get_tcp. simpl.
      rewrite lookup_insert_eq. reflexivity.
    - destruct (TcpObject.on_message_ c1) as [f|]; simpl in Hloop; [|discriminate].
      apply consume_loop_frame in Hloop as [Hh _].
      unfold get_tcp. rewrite Hh. simpl. rewrite lookup_insert_eq. reflexivity. }
  set (w3 := if 0 <? t then _ else w2) in H.
  assert (Hcalm3 : calm w2 w3).
  { unfold w3. destruct (0 <? t); [|apply calm_refl].
    eapply (calm_put_tcp a' c1); [exact Hc2|reflexivity|simpl; auto]. }
  eapply keeps_inv_trans;
    [apply calm_keeps; eapply calm_trans;
       [exact Hcalm1|eapply calm_trans; [exact Hcalm2|exact Hcalm3]]|].
  destruct e; [|injection H as <-; apply keeps_inv_refl].
  eapply HandleDisconnect_keeps; exact H.
Qed.

Lemma readcb_keeps in_loop a' bytes (w w' : World) :
  bufferevent_readcb in_loop a' bytes w = Some w' -> keeps_inv w w'.
Proof.
  unfold bufferevent_readcb. intros H.
  destruct (get_tcp a' w) as [c|] eqn:Hc; simpl in H; [|discriminate].
  destruct (TcpObject.bev_ c) as [b|] eqn:Hb; simpl in H; [|discriminate].
  destruct (TcpObject.read_enabled b);
    [|injection H as <-; apply keeps_inv_refl].
  set (w1 := put_tcp a' _ w) in H.
  assert (Hcalm1 : calm w w1)
    by (eapply (calm_put_tcp a' c); [exact Hc|reflexivity|simpl; auto]).
  destruct (TcpObject.readcb_set b);
    [|injection H as <-; apply calm_keeps; exact Hcalm1].
  eapply keeps_inv_trans; [apply calm_keeps; exact Hcalm1|].
  eapply OnRecvData_keeps; exact H.
Qed.

Lemma SendPacket_calm in_loop a' data (w w' : World) b :
  TcpObject_SendPacket in_loop a' data w = Some (b, w') -> calm w w'.
Proof.
  unfold TcpObject_SendPacket. intros H.
  destruct (get_tcp a' w) as [c|] eqn:Hc; simpl in H; [|discriminate].
  destruct (negb _); [injection H as <- <-; apply calm_observe|].
  destruct data as [d|]; [|injection H as <- <-; apply calm_refl].
  destruct (length d =? 0)%nat; [injection H as <- <-; apply calm_refl|].
  destruct in_loop; simpl in H; [|discriminate].
  destruct (TcpObject.bev_ c) as [bv|]; simpl in H; [|discriminate].
  injection H as <- <-.
  eapply (calm_put_tcp a' c); [exact Hc|reflexivity|simpl; auto].
Qed.

Lemma SendPacket_iovec_calm in_loop a' vs n (w w' : World) b :
  TcpObject_SendPacket_iovec in_loop a' vs n w = Some (b, w') -> calm w w'.
Proof.
  unfold TcpObject_SendPacket_iovec. intros H.
  destruct (get_tcp a' w) as [c|] eqn:Hc; simpl in H; [|discriminate].
  destruct (negb _); [injection H as <- <-; apply calm_observe|].
  destruct vs as [d|]; [|injection H as <- <-; apply calm_refl].
  destruct (n <=? 0); [injection H as <- <-; apply calm_refl|].
  destruct in_loop; simpl in H; [|discriminate].
  destruct (TcpObject.bev_ c) as [bv|]; simpl in H; [|discriminate].
  injection H as <- <-.
  eapply (calm_put_tcp a' c); [exact Hc|reflexivity|simpl; auto].
Qed.

Lemma destroy_keeps me (w w' : World) :
  ActiveClose_destroy me w = Some w' -> keeps_inv w w'.
Proof.
  unfold ActiveClose_destroy. intros H.
  destruct (get_tcp me w); [|injection H as <-; apply keeps_inv_refl].
  destruct (TcpObject.State_eqb _ _); [|injection H as <-; apply keeps_inv_refl].
  eapply HandleDisconnect_keeps; exact H.
Qed.

Lemma run_closure_keeps cl (w w' : World) v :
  run_closure cl w = Some (v, w') -> keeps_inv w w'.
Proof.
  unfold run_closure. intros H. destruct cl as [f|tid|tid ms cb rep|me].
  - destruct (f (user w)). injection H as <- <-. apply calm_keeps. calm_framed.
  - destruct (EventLoop.reactor_ (loop w)) as [r|] eqn:Hr.
    + destruct (LibeventReactor.Cancel tid r). injection H as <- <-.
      apply calm_keeps. calm_framed.
    + injection H as <- <-. apply keeps_inv_refl.
  - destruct (EventLoop.reactor_ (loop w)) as [r|]; simpl in H; [|discriminate].
    injection H as <- <-. apply calm_keeps. calm_framed.
  - destruct (ActiveClose_destroy me w) as [w1|] eqn:Hd; simpl in H; [|discriminate].
    injection H as <- <-. eapply destroy_keeps; exact Hd.
Qed.

Lemma run_task_keeps (t : Task U V) (w w' : World) :
  run_task t w = Some w' -> keeps_inv w w'.
Proof.
  intros H. apply run_task_inv in H as (v & w1 & Hcl & ->).
  eapply keeps_inv_trans; [apply calm_keeps, calm_observe|].
  eapply keeps_inv_trans; [eapply run_closure_keeps; exact Hcl|].
  apply calm_keeps. calm_framed.
Qed.

Lemma run_tasks_keeps (ts : list (Task U V)) : forall (w w' : World),
  run_tasks ts w = Some w' -> keeps_inv w w'.
Proof.
  induction ts as [|t ts IH]; intros w w' H; simpl in H.
  - injection H as <-. apply keeps_inv_refl.
  - destruct (run_task t w) as [w1|] eqn:Ht; simpl in H; [|discriminate].
    eapply keeps_inv_trans; [eapply run_task_keeps; exact Ht|].
    apply IH. exact H.
Qed.

Lemma notify_calm (w w' : World) : notify w = Some w' -> calm w w'.
Proof.
  unfold notify. intros H.
  destruct (get_pipe _ w) as [p|] eqn:Hp; simpl in H; [|discriminate].
  injection H as <-. unfold get_pipe in Hp.
  destruct (heap w !! EventLoop.notifier_ (loop w)) as [[q|c]|] eqn:E;
    try discriminate.
  injection Hp as ->.
  eapply (calm_insert _ (HPipe p) (HPipe _));
    [exact E|reflexivity| |exact I|reflexivity|tauto].
  unfold PipeObject.Notify. destruct (_ <? _)%nat; reflexivity.
Qed.

Lemma Execute_keeps in_loop cl (w w' : World) fut :
  EventLoop_Execute in_loop cl w = Some (fut, w') -> keeps_inv w w'.
Proof.
  unfold EventLoop_Execute. intros H. destruct in_loop.
  - destruct (run_task _ _) as [w2|] eqn:Ht; simpl in H; [|discriminate].
    injection H as <- <-.
    eapply keeps_inv_trans; [|eapply run_task_keeps; exact Ht].
    apply calm_keeps. calm_framed.
  - destruct (notify _) as [w2|] eqn:Hn; simpl in H; [|discriminate].
    injection H as <- <-. apply calm_keeps.
    eapply calm_trans; [|eapply notify_calm; exact Hn]. calm_framed.
Qed.

Lemma Cancel_keeps in_loop tid (w w' : World) fut :
  EventLoop_Cancel in_loop tid w = Some (fut, w') -> keeps_inv w w'.
Proof.
  unfold EventLoop_Cancel. intros H. destruct in_loop.
  - destruct (EventLoop.reactor_ (loop w)) as [r|] eqn:Hr.
    + destruct (LibeventReactor.Cancel tid r). injection H as <- <-.
      apply calm_keeps. calm_framed.
    + injection H as <- <-. apply calm_keeps.
      apply calm_frame; [reflexivity|reflexivity|].
      rewrite Hr. intros [x Hx]. discriminate Hx.
  - eapply Execute_keeps; exact H.
Qed.

Lemma ScheduleRepeatedly_keeps in_loop ms cb (w w' : World) tid :
  EventLoop_ScheduleRepeatedly_ms timer_bits in_loop ms cb w = Some (tid, w') ->
  keeps_inv w w'.
Proof.
  unfold EventLoop_ScheduleRepeatedly_ms, next_timer_id. simpl. intros H.
  destruct in_loop.
  - destruct (EventLoop.reactor_ (loop w)) as [r|]; simpl in H; [|discriminate].
    injection H as <- <-. apply calm_keeps. calm_framed.
  - destruct (EventLoop_Execute false _ _) as [[f w2]|] eqn:E; simpl in H; [|discriminate].
    injection H as <- <-.
    eapply keeps_inv_trans; [|eapply Execute_keeps; exact E].
    apply calm_keeps. calm_framed.
Qed.

Lemma ScheduleLater_keeps in_loop ms cb (w w' : World) tid :
  EventLoop_ScheduleLater_ms timer_bits in_loop ms cb w = Some (tid, w') ->
  keeps_inv w w'.
Proof.
  unfold EventLoop_ScheduleLater_ms, next_timer_id. simpl. intros H.
  destruct in_loop.
  - destruct (EventLoop.reactor_ (loop w)) as [r|]; simpl in H; [|discriminate].
    injection H as <- <-. apply calm_keeps. calm_framed.
  - destruct (EventLoop_Execute false _ _) as [[f w2]|] eqn:E; simpl in H; [|discriminate].
    injection H as <- <-.
    eapply keeps_inv_trans; [|eapply Execute_keeps; exact E].
    apply calm_keeps. calm_framed.
Qed.

Lemma ActiveClose_keeps in_loop a' sync (w w' : World) :
  TcpObject_ActiveClose in_loop a' sync w = Some w' -> keeps_inv w w'.
Proof.
  unfold TcpObject_ActiveClose. intros H.
  destruct (get_tcp a' w); simpl in H; [|discriminate].
  destruct in_loop.
  - eapply destroy_keeps; exact H.
  - destruct (EventLoop_Execute false _ w) as [[f w1]|] eqn:E; simpl in H; [|discriminate].
    injection H as <-. eapply Execute_keeps; exact E.
Qed.

Lemma SetIdleTimeout_keeps in_loop a' ms (w w' : World) :
  TcpObject_SetIdleTimeout timer_bits in_loop a' ms w = Some w' -> keeps_inv w w'.
Proof.
  unfold TcpObject_SetIdleTimeout. intros H.
  destruct (get_tcp a' w) as [c|] eqn:Hc; simpl in H; [|discriminate].
  destruct (ms <=? 0); [injection H as <-; apply keeps_inv_refl|].
  set (w1 := put_tcp a' _ w) in H.
  assert (Hstep1 : keeps_inv w w1).
  { apply calm_keeps.
    eapply (calm_put_tcp a' c); [exact Hc|reflexivity|simpl; auto]. }
  destruct (if negb _ then _ else Some w1) as [w2|] eqn:E2; simpl in H; [|discriminate].
  assert (Hstep2 : keeps_inv w1 w2).
  { destruct (negb _); [|injection E2 as <-; apply keeps_inv_refl].
    destruct (EventLoop_Cancel in_loop _ w1) as [[f wc]|] eqn:EC;
      simpl in E2; [|discriminate].
    injection E2 as <-. eapply Cancel_keeps; exact EC. }
  destruct (EventLoop_ScheduleRepeatedly_ms _ _ _ _ w2) as [[tid w3]|] eqn:E3;
    simpl in H; [|discriminate].
  destruct (get_tcp a' w3) as [c3|] eqn:Hc3; simpl in H; [|discriminate].
  injection H as <-.
  eapply keeps_inv_trans; [exact Hstep1|].
  eapply keeps_inv_trans; [exact Hstep2|].
  eapply keeps_inv_trans; [eapply ScheduleRepeatedly_keeps; exact E3|].
  apply calm_keeps.
  eapply (calm_put_tcp a' c3); [exact Hc3|reflexivity|simpl; auto].
Qed.

Lemma TimerCallback_keeps tm (w w' : World) :
  LibeventReactor_TimerCallback tm w = Some w' -> keeps_inv w w'.
Proof.
  unfold LibeventReactor_TimerCallback. intros H.
  destruct (run_timer_cb _ _) as [w1|] eqn:Hcb; simpl in H; [|discriminate].
  assert (Hstep1 : keeps_inv w w1).
  { eapply keeps_inv_trans; [apply calm_keeps, calm_observe|].
    unfold run_timer_cb in Hcb. destruct (LibeventReactor.callback tm) as [f|a'].
    - injection Hcb as <-. apply calm_keeps. calm_framed.
    - destruct (get_tcp a' _); [|injection Hcb as <-; apply keeps_inv_refl].
      destruct (TcpObject.CheckIdleTimeout _ _);
        [|injection Hcb as <-; apply keeps_inv_refl].
      eapply ActiveClose_keeps; exact Hcb. }
  destruct (LibeventReactor.repeat tm); [injection H as <-; exact Hstep1|].
  destruct (EventLoop.reactor_ (loop w1)); simpl in H; [|discriminate].
  injection H as <-.
  eapply keeps_inv_trans; [exact Hstep1|]. apply calm_keeps. calm_framed.
Qed.

Lemma dispatch_keeps e (w w' : World) :
  dispatch e w = Some w' -> keeps_inv w w'.
Proof.
  unfold dispatch. intros H.
  destruct (EventLoop.reactor_ (loop w)) as [r|]; simpl in H; [|discriminate].
  destruct e as [tid|oid].
  - destruct (LibeventReactor.timers_ r !! tid) as [tm|];
      [|injection H as <-; apply keeps_inv_refl].
    eapply TimerCallback_keeps; exact H.
  - destruct (LibeventReactor.objects_ r !! oid) as [obj|];
      [|injection H as <-; apply keeps_inv_refl].
    destruct (LibeventReactor.read_event obj) as [ev|];
      [|injection H as <-; apply keeps_inv_refl].
    destruct (heap w !! LibeventReactor.ev_arg ev) as [[p|c]|] eqn:E;
      [| injection H as <-; apply keeps_inv_refl | discriminate].
    destruct (PipeObject.HandleReadEvent p) as [ok p'] eqn:Hp.
    destruct ok; [|discriminate]. injection H as <-.
    apply calm_keeps.
    eapply (calm_insert _ (HPipe p) (HPipe p'));
      [exact E|reflexivity| |exact I|reflexivity|tauto].
    unfold PipeObject.HandleReadEvent in Hp.
    destruct (PipeObject.pending p);
      [discriminate Hp|injection Hp as <-; reflexivity].
Qed.

Lemma dispatch_all_keeps ready : forall (w w' : World),
  dispatch_all ready w = Some w' -> keeps_inv w w'.
Proof.
  induction ready as [|e ready IH]; intros w w' H; simpl in H.
  - injection H as <-. apply keeps_inv_refl.
  - destruct (dispatch e w) as [w1|] eqn:He; simpl in H; [|discriminate].
    eapply keeps_inv_trans; [eapply dispatch_keeps; exact He|].
    apply IH. exact H.
Qed.

Lemma Run_iteration_keeps try_lock ready ok (w w' : World) :
  EventLoop_Run_iteration try_lock ready ok w = Some w' -> keeps_inv w w'.
Proof.
  unfold EventLoop_Run_iteration, LibeventReactor_Poll. intros H.
  destruct (if try_lock then _ else Some w) as [w1|] eqn:E1; simpl in H; [|discriminate].
  assert (Hstep1 : keeps_inv w w1).
  { destruct try_lock; [|injection E1 as <-; apply keeps_inv_refl].
    eapply keeps_inv_trans; [|eapply run_tasks_keeps; exact E1].
    apply calm_keeps. calm_framed. }
  destruct (EventLoop.reactor_ (loop w1)); simpl in H; [|discriminate].
  destruct (dispatch_all ready _) as [w2|] eqn:E2; simpl in H; [|discriminate].
  injection H as <-.
  eapply keeps_inv_trans; [exact Hstep1|].
  eapply keeps_inv_trans; [apply calm_keeps, calm_observe|].
  eapply keeps_inv_trans; [eapply dispatch_all_keeps; exact E2|].
  destruct ok; [apply keeps_inv_refl|apply calm_keeps, calm_observe].
Qed.

Lemma step_keeps act (w w' : World) :
  step timer_bits act w = Some w' -> keeps_inv w w'.
Proof.
  destruct act; simpl; intros H.
  - destruct (TcpObject_Connect _ _ _ _ _ _) as [[b w1]|] eqn:E; [|discriminate].
    injection H as <-. eapply Connect_keeps; exact E.
  - eapply OnAccept_keeps; exact H.
  - destruct (EventLoop_Register _ _ _ _) as [[b w1]|] eqn:E; [|discriminate].
    injection H as <-. eapply Register_keeps; exact E.
  - eapply OnEvent_keeps; exact H.
  - eapply readcb_keeps; exact H.
  - destruct (TcpObject_SendPacket _ _ _ _) as [[b w1]|] eqn:E; [|discriminate].
    injection H as <-. apply calm_keeps. eapply SendPacket_calm; exact E.
  - destruct (TcpObject_SendPacket_iovec _ _ _ _ _) as [[b w1]|] eqn:E; [|discriminate].
    injection H as <-. apply calm_keeps. eapply SendPacket_iovec_calm; exact E.
  - eapply ActiveClose_keeps; exact H.
  - eapply SetIdleTimeout_keeps; exact H.
  - destruct (EventLoop_Execute _ _ _) as [[b w1]|] eqn:E; [|discriminate].
    injection H as <-. eapply Execute_keeps; exact E.
  - destruct (EventLoop_Cancel _ _ _) as [[b w1]|] eqn:E; [|discriminate].
    injection H as <-. eapply Cancel_keeps; exact E.
  - destruct (EventLoop_ScheduleLater_ms _ _ _ _ _) as [[b w1]|] eqn:E; [|discriminate].
    injection H as <-. eapply ScheduleLater_keeps; exact E.
  - destruct (EventLoop_ScheduleRepeatedly_ms _ _ _ _ _) as [[b w1]|] eqn:E; [|discriminate].
    injection H as <-. eapply ScheduleRepeatedly_keeps; exact E.
  - eapply Run_iteration_keeps; exact H.
  - injection H as <-. apply calm_keeps. calm_framed.
Qed.

Lemma run_keeps acts : forall (w w' : World),
  run timer_bits acts w = Some w' -> keeps_inv w w'.
Proof.
  induction acts as [|act acts IH]; intros w w' H; simpl in H.
  - injection H as <-. apply keeps_inv_refl.
  - destruct (step timer_bits act w) as [w1|] eqn:E; simpl in H; [|discriminate].
    eapply keeps_inv_trans; [eapply step_keeps; exact E|].
    apply IH. exact H.
Qed.

(** Terminal states along the runs that complete, that is, on which no
    assertion of the code fails ([run] gives [Some]). Take a connection
    that has not ended: it is in a state that is not terminal and neither
    [on_disconnect] nor [on_connect_fail] has been delivered for it. Along
    every such run from there, at most one of [on_disconnect] and
    [on_connect_fail] is delivered, at most once, and none before the
    connection is in a terminal state ([kDisconnected] or [kFailed]). At
    every point of the run at which the connection is in a terminal state
    it is out of the registry of its loop, and from that point on it stays
    out of it, its state does not change, and none of [on_new_conn],
    [on_disconnect], [on_connect_fail] is delivered for it again. This
    covers neither [on_message] nor the runs that stop at an assertion:
    the receive path does not test the state, and both happen after a
    close. *)
Theorem terminal_states_absorbing a acts1 acts2 (w w1 w' : World) s :
  registry_wf w ->
  is_Some (EventLoop.reactor_ (loop w)) ->
  state_of a w = Some s -> terminal s = false ->
  ends a (trace w) = [] ->
  run timer_bits acts1 w = Some w1 ->
  run timer_bits acts2 w1 = Some w' ->
  exists s1 s',
    state_of a w1 = Some s1 /\ state_of a w' = Some s' /\
    (length (ends a (trace w')) <= 1)%nat /\
    (terminal s' = false -> ends a (trace w') = []) /\
    (terminal s1 = true ->
     ~ is_registered a w1 /\ ~ is_registered a w' /\
     s' = s1 /\ lifecycle a (trace w') = lifecycle a (trace w1)).
Proof.
  intros Hwf Hreact Hs Hnt Hends Hrun1 Hrun2.
  assert (Hinv : conn_inv a w).
  { split; [exact Hwf|]. split; [exact Hreact|].
    intros (s0 & Hs0 & Ht0). congruence. }
  pose proof (run_keeps _ _ _ Hrun1 a Hinv) as (_ & _ & Hterm1).
  pose proof (run_keeps _ _ _ Hrun2 a (run_keeps _ _ _ Hrun1 a Hinv))
    as (_ & _ & Hterm').
  destruct (run_conn_step a _ _ _ Hrun1 s Hs) as (s1 & Hs1 & Htr1).
  destruct (run_conn_step a _ _ _ Hrun2 s1 Hs1) as (s' & Hs' & Htr2).
  exists s1, s'. split; [exact Hs1|]. split; [exact Hs'|].
  pose proof (conn_trans_inv _ _ _ (ct_trans _ _ _ _ Htr1 Htr2)) as [_ Hall].
  simpl in Hall. rewrite !ends_lifecycle in Hall.
  specialize (Hall Hnt Hends).
  split; [destruct Hall as [[_ ->]|[_ Hle]]; [simpl; lia|exact Hle]|].
  split; [intros Hnt'; destruct Hall as [[_ He]|[Ht _]]; [exact He|congruence]|].
  intros Ht1.
  pose proof (conn_trans_inv _ _ _ Htr2) as [Hstay _].
  specialize (Hstay Ht1). injection Hstay as -> Hl.
  split; [apply Hterm1; exists s1; auto|].
  split; [apply Hterm'; exists s1; auto|].
  split; [reflexivity|exact Hl].
Qed.

(** A registry is checked entry by entry. *)
Lemma registry_wf_check (w : World) :
  forallb (fun p => (0 <=? fst p) && bool_decide (uid_of (snd p) w = Some (fst p)))
    (map_to_list (EventLoop.objects_ (loop w))) = true ->
  registry_wf w.
Proof.
  intros H. apply (proj2 (registry_wf_uid _)). intros k a Hk.
  rewrite forallb_forall in H.
  apply elem_of_map_to_list in Hk. apply list_elem_of_In in Hk.
  specialize (H _ Hk). simpl in H. apply andb_true_iff in H as [H1 H2].
  split; [apply Z.leb_le; exact H1|].
  apply bool_decide_eq_true in H2. exact H2.
Qed.

(** ** The reactor's tables

    What [Register], [Unregister], [Modify], [Schedule] and [Cancel] do to
    the two maps of the reactor. *)

Lemma reactor_eta (r : LibeventReactor.t U) :
  {| LibeventReactor.objects_ := LibeventReactor.objects_ r;
     LibeventReactor.timers_ := LibeventReactor.timers_ r |} = r.
Proof. destruct r. reflexivity. Qed.

(** X1. [Unregister] removes the
    record of the object's id and nothing else: afterwards the id has no
    record, every other record and every timer is as before, and a second
    [Unregister] changes nothing. It undoes [Register]: registering an
    object whose id has no record, with a mask that is not zero, and
    unregistering it again gives back the reactor one started from. *)
Theorem Reactor_Unregister_undoes_Register (eo : EventObject)
  (r : LibeventReactor.t U) :
  let r1 := LibeventReactor.Unregister (Some eo) r in
  (LibeventReactor.objects_ r1 !! eo_unique_id eo = None /\
   (forall k, k <> eo_unique_id eo ->
      LibeventReactor.objects_ r1 !! k = LibeventReactor.objects_ r !! k) /\
   LibeventReactor.timers_ r1 = LibeventReactor.timers_ r /\
   LibeventReactor.Unregister (Some eo) r1 = r1) /\
  (forall events,
     events <> 0 -> 0 <= eo_unique_id eo ->
     LibeventReactor.objects_ r !! eo_unique_id eo = None ->
     exists r',
       LibeventReactor.Register (Some eo) events r = Some (true, r') /\
       is_Some (LibeventReactor.objects_ r' !! eo_unique_id eo) /\
       LibeventReactor.Unregister (Some eo) r' = r).
Proof.
  intros r1. split.
  - unfold r1, LibeventReactor.Unregister.
    destruct (LibeventReactor.objects_ r !! eo_unique_id eo) as [obj|] eqn:E; simpl.
    + rewrite lookup_delete_eq. split; [reflexivity|].
      split; [intros k Hk; rewrite lookup_delete_ne by congruence; reflexivity|].
      split; reflexivity.
    + rewrite E. split; [reflexivity|]. split; [reflexivity|]. split; reflexivity.
  - intros events Hev Hid Hfree. unfold LibeventReactor.Register.
    destruct (events =? 0) eqn:E0; [apply Z.eqb_eq in E0; contradiction|].
    destruct (eo_unique_id eo <? 0) eqn:Eneg; [apply Z.ltb_lt in Eneg; lia|].
    rewrite Hfree. eexists. split; [reflexivity|]. simpl.
    split; [rewrite lookup_insert_eq; eauto|].
    unfold LibeventReactor.Unregister. simpl. rewrite lookup_insert_eq.
    rewrite delete_insert_id by assumption. apply reactor_eta.
Qed.

(** X2. [Modify] on an id without a record
    returns false and changes nothing. On the record of the object it
    returns true and leaves exactly the watches of the mask: a read watch
    iff the read bit is set, a write watch iff the write bit is set; a
    watch that was already there is kept as it is, not created anew; the
    other records and the timers are untouched; and doing it again with
    the same mask changes nothing more. *)
Theorem Reactor_Modify_sets_the_mask (eo : EventObject) (events : Z)
  (r : LibeventReactor.t U) :
  (LibeventReactor.objects_ r !! eo_unique_id eo = None ->
   LibeventReactor.Modify (Some eo) events r = Some (false, r)) /\
  (forall obj,
     LibeventReactor.objects_ r !! eo_unique_id eo = Some obj ->
     LibeventReactor.ev_obj obj = eo_addr eo ->
     exists r' obj',
       LibeventReactor.Modify (Some eo) events r = Some (true, r') /\
       LibeventReactor.objects_ r' !! eo_unique_id eo = Some obj' /\
       (is_Some (LibeventReactor.read_event obj')
        <-> Z.land events kEventRead <> 0) /\
       (is_Some (LibeventReactor.write_event obj')
        <-> Z.land events kEventWrite <> 0) /\
       (forall e, LibeventReactor.read_event obj = Some e ->
          Z.land events kEventRead <> 0 ->
          LibeventReactor.read_event obj' = Some e) /\
       (forall e, LibeventReactor.write_event obj = Some e ->
          Z.land events kEventWrite <> 0 ->
          LibeventReactor.write_event obj' = Some e) /\
       LibeventReactor.ev_obj obj' = LibeventReactor.ev_obj obj /\
       (forall k, k <> eo_unique_id eo ->
          LibeventReactor.objects_ r' !! k = LibeventReactor.objects_ r !! k) /\
       LibeventReactor.timers_ r' = LibeventReactor.timers_ r /\
       LibeventReactor.Modify (Some eo) events r' = Some (true, r')).
Proof.
  split.
  - intros Hnone. unfold LibeventReactor.Modify. rewrite Hnone. reflexivity.
  - intros obj Hobj Haddr. unfold LibeventReactor.Modify at 1. rewrite Hobj.
    rewrite Haddr, N.eqb_refl. simpl.
    eexists _, _. split; [reflexivity|]. simpl.
    split; [apply lookup_insert_eq|]. simpl.
    split.
    { destruct (Z.land events kEventRead =? 0) eqn:E.
      - apply Z.eqb_eq in E. split; [intros [x Hx]; discriminate|contradiction].
      - apply Z.eqb_neq in E.
        destruct (LibeventReactor.read_event obj); split; eauto. }
    split.
    { destruct (Z.land events kEventWrite =? 0) eqn:E.
      - apply Z.eqb_eq in E. split; [intros [x Hx]; discriminate|contradiction].
      - apply Z.eqb_neq in E.
        destruct (LibeventReactor.write_event obj); split; eauto. }
    split.
    { intros e He Hbit. apply Z.eqb_neq in Hbit. rewrite Hbit, He. reflexivity. }
    split.
    { intros e He Hbit. apply Z.eqb_neq in Hbit. rewrite Hbit, He. reflexivity. }
    split; [reflexivity|].
    split; [intros k Hk; rewrite lookup_insert_ne by congruence; reflexivity|].
    split; [reflexivity|].
    unfold LibeventReactor.Modify. simpl. rewrite lookup_insert_eq. simpl.
    rewrite ?Haddr, N.eqb_refl. simpl. rewrite insert_insert_eq.
    destruct (Z.land events kEventRead =? 0), (Z.land events kEventWrite =? 0),
      (LibeventReactor.read_event obj), (LibeventReactor.write_event obj);
      reflexivity.
Qed.

(** X3. [Cancel] returns true exactly
    when a timer with that id is armed; afterwards no timer has the id,
    every other timer and every registration record is as before, and a
    second [Cancel] returns false and changes nothing. It undoes
    [Schedule]: arming a timer under an id that was free and cancelling
    it gives back the reactor one started from. *)
Theorem Reactor_Cancel_removes_one_timer (tid : Z) (r : LibeventReactor.t U) :
  let ok := fst (LibeventReactor.Cancel tid r) in
  let r1 := snd (LibeventReactor.Cancel tid r) in
  (ok = true <-> is_Some (LibeventReactor.timers_ r !! tid)) /\
  LibeventReactor.timers_ r1 !! tid = None /\
  (forall k, k <> tid ->
     LibeventReactor.timers_ r1 !! k = LibeventReactor.timers_ r !! k) /\
  LibeventReactor.objects_ r1 = LibeventReactor.objects_ r /\
  LibeventReactor.Cancel tid r1 = (false, r1) /\
  (forall ms cb rep,
     LibeventReactor.timers_ r !! tid = None ->
     LibeventReactor.Cancel tid (LibeventReactor.Schedule tid ms cb rep r)
     = (true, r)).
Proof.
  intros ok r1. unfold ok, r1, LibeventReactor.Cancel.
  destruct (LibeventReactor.timers_ r !! tid) as [tm|] eqn:E; simpl.
  - split; [split; eauto|]. rewrite lookup_delete_eq.
    split; [reflexivity|].
    split; [intros k Hk; rewrite lookup_delete_ne by congruence; reflexivity|].
    split; [reflexivity|]. split; [reflexivity|].
    intros ms cb rep Hf. discriminate.
  - rewrite E. split; [split; [discriminate|intros [x Hx]; discriminate]|].
    split; [reflexivity|]. split; [reflexivity|]. split; [reflexivity|].
    split; [reflexivity|].
    intros ms cb rep _. unfold LibeventReactor.Schedule. simpl.
    rewrite lookup_insert_eq. rewrite delete_insert_id by assumption.
    rewrite reactor_eta. reflexivity.
Qed.

(** ** The registry of the loop and the table of the reactor *)

Lemma reactor_within_frame (w w' : World) :
  EventLoop.objects_ (loop w') = EventLoop.objects_ (loop w) ->
  (forall r', EventLoop.reactor_ (loop w') = Some r' ->
     exists r, EventLoop.reactor_ (loop w) = Some r /\
               LibeventReactor.objects_ r' = LibeventReactor.objects_ r) ->
  reactor_within w -> reactor_within w'.
Proof.
  intros Ho Hr Hin r' k Hr' Hk. rewrite Ho.
  destruct (Hr r' Hr') as (r & Hr0 & E). rewrite E in Hk. eauto.
Qed.

(** The reactor accepts what the loop hands it: the id is new to the
    registry of the loop, hence new to the reactor. *)
Lemma reactor_Register_accepts a (o : HeapObj U) uid events
  (r : LibeventReactor.t U) :
  0 <= uid -> LibeventReactor.objects_ r !! uid = None ->
  exists r',
    LibeventReactor.Register (Some (event_object a (SetUniqueId uid o))) events r
    = Some (true, r') /\
    LibeventReactor.timers_ r' = LibeventReactor.timers_ r /\
    (events = 0 -> r' = r) /\
    (events <> 0 -> is_Some (LibeventReactor.objects_ r' !! uid)) /\
    (forall k, k <> uid ->
       LibeventReactor.objects_ r' !! k = LibeventReactor.objects_ r !! k) /\
    LibeventReactor.Unregister (Some (event_object a (SetUniqueId uid o))) r' = r.
Proof.
  intros Hge Hfree. unfold LibeventReactor.Register. simpl.
  rewrite GetUniqueId_SetUniqueId.
  assert (Hun : LibeventReactor.Unregister
                  (Some (event_object a (SetUniqueId uid o))) r = r).
  { unfold LibeventReactor.Unregister. simpl.
    rewrite GetUniqueId_SetUniqueId, Hfree. reflexivity. }
  destruct (events =? 0) eqn:E0.
  - apply Z.eqb_eq in E0. exists r.
    split; [reflexivity|]. split; [reflexivity|]. split; [reflexivity|].
    split; [contradiction|]. split; [reflexivity|exact Hun].
  - apply Z.eqb_neq in E0.
    destruct (uid <? 0) eqn:Eneg; [apply Z.ltb_lt in Eneg; lia|].
    rewrite Hfree. eexists. split; [reflexivity|]. simpl.
    split; [reflexivity|]. split; [contradiction|].
    split; [intros _; rewrite lookup_insert_eq; eauto|].
    split; [intros k Hk; rewrite lookup_insert_ne by congruence; reflexivity|].
    unfold LibeventReactor.Unregister. simpl.
    rewrite GetUniqueId_SetUniqueId, lookup_insert_eq.
    rewrite delete_insert_id by assumption. apply reactor_eta.
Qed.

(** What a successful [Register] of the loop leaves, when the reactor
    holds no record outside the registry. *)
Lemma EventLoop_Register_shape_within a events (w w' : World) :
  reactor_within w ->
  EventLoop_Register true (Some a) events w = Some (true, w') ->
  exists o uid gen r r',
    heap w !! a = Some o /\ GetUniqueId o = -1 /\ 0 <= uid /\
    EventLoop.objects_ (loop w) !! uid = None /\
    EventLoop.reactor_ (loop w) = Some r /\
    LibeventReactor.objects_ r !! uid = None /\
    LibeventReactor.Register (Some (event_object a (SetUniqueId uid o))) events r
    = Some (true, r') /\
    w' = with_objects (<[uid := a]> (EventLoop.objects_ (loop w)))
           (with_reactor (Some r')
              (with_heap (<[a := SetUniqueId uid o]> (heap w))
                 (with_obj_gen gen w))).
Proof.
  intros Hin H.
  apply EventLoop_Register_true in H
    as (o & uid & gen & r & r' & Ho & Hm1 & _ & Hge & Hfree & Hr & HR & ->).
  exists o, uid, gen, r, r'. repeat (split; [assumption|]).
  split; [|split; [assumption|reflexivity]].
  destruct (LibeventReactor.objects_ r !! uid) eqn:E; [|reflexivity].
  destruct (Hin r uid Hr) as [x Hx]; [eauto|]. congruence.
Qed.

(** X4. As long as every record of
    the reactor belongs to an id of the registry of the loop, [Register]
    on the loop's thread cannot be refused by the reactor: for an object
    without id, with a reactor and a free id in [1 .. INT_MAX], it returns
    true for every mask, gives the object an id that is not negative and
    was free, enters it in the registry under that id, and the reactor
    holds a record for the id exactly when the mask is not zero. The
    relation between the two tables is kept by [Register], whatever it
    returns, and by [Modify] and [Unregister]. *)
Theorem EventLoop_Register_never_refused (w : World) :
  reactor_within w ->
  (forall a o events,
     heap w !! a = Some o -> GetUniqueId o = -1 ->
     is_Some (EventLoop.reactor_ (loop w)) ->
     0 <= obj_id_generator_ w <= MachInt.INT_MAX ->
     (exists k, 0 < k <= MachInt.INT_MAX /\
                EventLoop.objects_ (loop w) !! k = None) ->
     exists uid w' r',
       EventLoop_Register true (Some a) events w = Some (true, w') /\
       0 <= uid /\ EventLoop.objects_ (loop w) !! uid = None /\
       EventLoop.objects_ (loop w') = <[uid := a]> (EventLoop.objects_ (loop w)) /\
       uid_of a w' = Some uid /\
       EventLoop.reactor_ (loop w') = Some r' /\
       (is_Some (LibeventReactor.objects_ r' !! uid) <-> events <> 0)) /\
  (forall in_loop obj events b w',
     EventLoop_Register in_loop obj events w = Some (b, w') -> reactor_within w') /\
  (forall in_loop obj events b w',
     EventLoop_Modify in_loop obj events w = Some (b, w') -> reactor_within w') /\
  (forall in_loop obj w',
     EventLoop_Unregister in_loop obj w = Some w' -> reactor_within w').
Proof.
  intros Hin. split; [|split; [|split]].
  - intros a o events Ho Hm1 [r Hr] Hgen Hfree.
    destruct (alloc_unique_id_terminates _ _ Hgen Hfree) as (uid & Hu & Hf & Ha).
    assert (Hrf : LibeventReactor.objects_ r !! uid = None).
    { destruct (LibeventReactor.objects_ r !! uid) eqn:E; [|reflexivity].
      destruct (Hin r uid Hr) as [x Hx]; [eauto|]. congruence. }
    destruct (reactor_Register_accepts a o uid events r)
      as (r' & HR & _ & H0 & H1 & _ & _); [lia|assumption|].
    unfold EventLoop_Register. rewrite Ho. simpl. rewrite Hm1. simpl.
    rewrite Hr, Ha. simpl. rewrite HR. simpl.
    rewrite GetUniqueId_SetUniqueId, insert_new_fresh by assumption.
    eexists uid, _, r'. split; [reflexivity|]. split; [lia|].
    split; [assumption|]. split; [reflexivity|].
    split; [unfold uid_of; simpl; rewrite lookup_insert_eq; simpl;
            rewrite GetUniqueId_SetUniqueId; reflexivity|].
    split; [reflexivity|].
    split; [|exact H1].
    intros Hsome. destruct (Z.eq_dec events 0) as [E|E]; [|exact E].
    rewrite (H0 E), Hrf in Hsome. destruct Hsome as [x Hx]. discriminate.
  - intros in_loop obj events b w' H. destruct b.
    + destruct obj as [a|]; [|unfold EventLoop_Register in H; discriminate].
      assert (in_loop = true) as ->.
      { apply EventLoop_Register_true in H as (? & ? & ? & ? & ? & _ & _ & E & _).
        exact E. }
      apply EventLoop_Register_shape_within in H
        as (o & uid & gen & r & r' & Ho & Hm1 & Hge & Hfree & Hr & Hrf & HR & ->);
        [|assumption].
      destruct (reactor_Register_accepts a o uid events r Hge Hrf)
        as (r2 & HR2 & _ & _ & _ & Hother & _).
      rewrite HR in HR2. injection HR2 as <-.
      intros r0 k Hr0 Hk. simpl in Hr0. injection Hr0 as <-. simpl.
      apply lookup_insert_is_Some'.
      destruct (decide (uid = k)) as [->|Hne]; [left; reflexivity|right].
      rewrite Hother in Hk by congruence. eauto.
    + unfold EventLoop_Register in H.
      destruct obj as [a|]; [|injection H as <-; assumption].
      destruct (heap w !! a) as [o|] eqn:Ho; simpl in H; [|discriminate].
      destruct in_loop; simpl in H; [|discriminate].
      destruct (GetUniqueId o =? -1) eqn:Hid; simpl in H; [|discriminate].
      destruct (EventLoop.reactor_ (loop w)) as [r|] eqn:Hr;
        [|injection H as <-; assumption].
      destruct (alloc_unique_id _ _ _) as [[uid gen]|] eqn:Ha;
        simpl in H; [|discriminate].
      apply alloc_unique_id_sound in Ha as [Hge Hfree].
      assert (Hrf : LibeventReactor.objects_ r !! uid = None).
      { destruct (LibeventReactor.objects_ r !! uid) eqn:E; [|reflexivity].
        destruct (Hin r uid Hr) as [x Hx]; [eauto|]. congruence. }
      destruct (reactor_Register_accepts a o uid events r Hge Hrf)
        as (r2 & HR2 & _).
      rewrite HR2 in H. simpl in H. discriminate.
  - intros in_loop obj events b w' H. unfold EventLoop_Modify in H.
    destruct obj as [a|]; [|injection H as <- <-; assumption].
    destruct (heap w !! a) as [o|] eqn:Ho; simpl in H; [|discriminate].
    destruct in_loop; simpl in H; [|discriminate].
    destruct (GetUniqueId o <? 0); simpl in H; [discriminate|].
    case_bool_decide as Hreg; simpl in H; [|discriminate].
    destruct (EventLoop.reactor_ (loop w)) as [r|] eqn:Hr;
      [|injection H as <- <-; assumption].
    destruct (LibeventReactor.Modify _ events r) as [[ok r']|] eqn:HM;
      simpl in H; [|discriminate].
    injection H as <- <-.
    intros r0 k Hr0 Hk. simpl in Hr0. injection Hr0 as <-. simpl.
    unfold LibeventReactor.Modify in HM. simpl in HM.
    destruct (LibeventReactor.objects_ r !! GetUniqueId o) as [obj0|] eqn:E.
    + destruct (negb _); [discriminate|]. injection HM as _ <-. simpl in Hk.
      destruct (decide (GetUniqueId o = k)) as [<-|Hne]; [exact Hreg|].
      rewrite lookup_insert_ne in Hk by assumption. eauto.
    + injection HM as _ <-. eauto.
  - intros in_loop obj w' H. unfold EventLoop_Unregister in H.
    destruct obj as [a|]; [|injection H as <-; assumption].
    destruct (heap w !! a) as [o|] eqn:Ho; simpl in H; [|discriminate].
    destruct in_loop; simpl in H; [|discriminate].
    destruct (GetUniqueId o <? 0); simpl in H; [discriminate|].
    case_bool_decide as Hreg; simpl in H; [|discriminate].
    destruct (EventLoop.reactor_ (loop w)) as [r|] eqn:Hr;
      [|injection H as <-; assumption].
    injection H as <-.
    intros r0 k Hr0 Hk. simpl in Hr0. injection Hr0 as <-. simpl.
    unfold LibeventReactor.Unregister in Hk. simpl in Hk.
    apply lookup_delete_is_Some.
    destruct (LibeventReactor.objects_ r !! GetUniqueId o) as [obj0|] eqn:E;
      simpl in Hk.
    + apply lookup_delete_is_Some in Hk as [Hne Hk]. split; eauto.
    + split; [|eauto]. intros <-. rewrite E in Hk.
      destruct Hk as [x Hx]. discriminate.
Qed.

(** X5. An object registered
    with the loop under the mask zero (as every TCP connection is) has no
    record in the reactor, so [EventLoop::Modify] can never give it a
    watch: for every mask it returns false and changes nothing. *)
Theorem EventLoop_Modify_refused_after_mask_zero a (w w1 : World) :
  reactor_within w ->
  EventLoop_Register true (Some a) 0 w = Some (true, w1) ->
  forall events, EventLoop_Modify true (Some a) events w1 = Some (false, w1).
Proof.
  intros Hin H events.
  apply EventLoop_Register_shape_within in H
    as (o & uid & gen & r & r' & Ho & Hm1 & Hge & Hfree & Hr & Hrf & HR & ->);
    [|assumption].
  destruct (reactor_Register_accepts a o uid 0 r Hge Hrf)
    as (r2 & HR2 & _ & H0 & _).
  rewrite HR in HR2. injection HR2 as <-. rewrite (H0 eq_refl).
  unfold EventLoop_Modify. simpl. rewrite lookup_insert_eq. simpl.
  rewrite GetUniqueId_SetUniqueId.
  destruct (uid <? 0) eqn:Eneg; [apply Z.ltb_lt in Eneg; lia|]. simpl.
  rewrite lookup_insert_eq.
  case_bool_decide as Hreg; [|exfalso; apply Hreg; eauto]. simpl.
  unfold LibeventReactor.Modify. simpl.
  rewrite GetUniqueId_SetUniqueId, Hrf. reflexivity.
Qed.

(** X6. [Unregister] undoes what
    [Register] did to the registry of the loop and to the reactor, but it
    leaves the object its id: the id is never reset to -1. So the object
    cannot be handed to this loop again: a second [Register] fails the
    assertion on the id, and [Modify] and [Unregister] fail the assertion
    that the id is in the registry. *)
Theorem EventLoop_Unregister_is_final a events (w w1 : World) :
  reactor_within w ->
  EventLoop_Register true (Some a) events w = Some (true, w1) ->
  exists w2 uid,
    EventLoop_Unregister true (Some a) w1 = Some w2 /\
    EventLoop.objects_ (loop w2) = EventLoop.objects_ (loop w) /\
    EventLoop.reactor_ (loop w2) = EventLoop.reactor_ (loop w) /\
    heap w2 = heap w1 /\
    uid_of a w = Some (-1) /\ uid_of a w2 = Some uid /\ 0 <= uid /\
    (forall events', EventLoop_Register true (Some a) events' w2 = None) /\
    (forall events', EventLoop_Modify true (Some a) events' w2 = None) /\
    EventLoop_Unregister true (Some a) w2 = None.
Proof.
  intros Hin H.
  apply EventLoop_Register_shape_within in H
    as (o & uid & gen & r & r' & Ho & Hm1 & Hge & Hfree & Hr & Hrf & HR & ->);
    [|assumption].
  destruct (reactor_Register_accepts a o uid events r Hge Hrf)
    as (r2 & HR2 & _ & _ & _ & _ & Hun).
  rewrite HR in HR2. injection HR2 as <-.
  assert (Hneg : (uid <? 0) = false) by (apply Z.ltb_ge; lia).
  unfold EventLoop_Unregister at 1. simpl. rewrite lookup_insert_eq. simpl.
  rewrite GetUniqueId_SetUniqueId, Hneg. simpl. rewrite lookup_insert_eq.
  case_bool_decide as Hreg; [|exfalso; apply Hreg; eauto]. simpl.
  eexists _, uid. split; [reflexivity|]. simpl.
  split; [apply delete_insert_id; assumption|].
  split; [rewrite Hun, Hr; reflexivity|].
  split; [reflexivity|].
  split; [unfold uid_of; rewrite Ho; simpl; rewrite Hm1; reflexivity|].
  split; [unfold uid_of; simpl; rewrite lookup_insert_eq; simpl;
          rewrite GetUniqueId_SetUniqueId; reflexivity|].
  split; [assumption|].
  split; [|split].
  - intros events'. unfold EventLoop_Register. simpl.
    rewrite lookup_insert_eq. simpl. rewrite GetUniqueId_SetUniqueId.
    destruct (uid =? -1) eqn:E; [apply Z.eqb_eq in E; lia|]. reflexivity.
  - intros events'. unfold EventLoop_Modify. simpl.
    rewrite lookup_insert_eq. simpl. rewrite GetUniqueId_SetUniqueId, Hneg.
    simpl. rewrite delete_insert_id by assumption.
    case_bool_decide as Hreg2; [|reflexivity].
    rewrite Hfree in Hreg2. destruct Hreg2 as [x Hx]. discriminate.
  - unfold EventLoop_Unregister. simpl.
    rewrite lookup_insert_eq. simpl. rewrite GetUniqueId_SetUniqueId, Hneg.
    simpl. rewrite delete_insert_id by assumption.
    case_bool_decide as Hreg2; [|reflexivity].
    rewrite Hfree in Hreg2. destruct Hreg2 as [x Hx]. discriminate.
Qed.

Lemma EventLoop_Register_succeeds a (o : HeapObj U) events (w : World) r :
  reactor_within w ->
  heap w !! a = Some o -> GetUniqueId o = -1 ->
  EventLoop.reactor_ (loop w) = Some r ->
  0 <= obj_id_generator_ w <= MachInt.INT_MAX ->
  (exists k, 0 < k <= MachInt.INT_MAX /\
             EventLoop.objects_ (loop w) !! k = None) ->
  exists uid r',
    0 <= uid /\ EventLoop.objects_ (loop w) !! uid = None /\
    LibeventReactor.objects_ r !! uid = None /\
    LibeventReactor.Register (Some (event_object a (SetUniqueId uid o))) events r
    = Some (true, r') /\
    EventLoop_Register true (Some a) events w
    = Some (true,
            with_objects (<[uid := a]> (EventLoop.objects_ (loop w)))
              (with_reactor (Some r')
                 (with_heap (<[a := SetUniqueId uid o]> (heap w))
                    (with_obj_gen uid w)))).
Proof.
  intros Hin Ho Hm1 Hr Hgen Hfree.
  destruct (alloc_unique_id_terminates _ _ Hgen Hfree) as (uid & Hu & Hf & Ha).
  assert (Hrf : LibeventReactor.objects_ r !! uid = None).
  { destruct (LibeventReactor.objects_ r !! uid) eqn:E; [|reflexivity].
    destruct (Hin r uid Hr) as [x Hx]; [eauto|]. congruence. }
  destruct (reactor_Register_accepts a o uid events r) as (r' & HR & _);
    [lia|assumption|].
  exists uid, r'. split; [lia|]. split; [assumption|]. split; [assumption|].
  split; [assumption|].
  unfold EventLoop_Register. rewrite Ho. simpl. rewrite Hm1. simpl.
  rewrite Hr, Ha. simpl. rewrite HR. simpl.
  rewrite GetUniqueId_SetUniqueId, insert_new_fresh by assumption.
  reflexivity.
Qed.

Lemma pipe_read_after_notify (p : PipeObject.t) :
  (PipeObject.pending p < PipeObject.capacity p)%nat ->
  PipeObject.Notify p
  = (true, PipeObject.mkPipe (PipeObject.unique_id_ p) (PipeObject.read_fd_ p)
             (PipeObject.write_fd_ p) (S (PipeObject.pending p))
             (PipeObject.capacity p)) /\
  PipeObject.HandleReadEvent (snd (PipeObject.Notify p)) = (true, p).
Proof.
  intros Hlt. unfold PipeObject.Notify.
  destruct (_ <? _)%nat eqn:E; [|apply Nat.ltb_ge in E; lia].
  split; [reflexivity|]. unfold PipeObject.HandleReadEvent. simpl.
  destruct p; reflexivity.
Qed.

(** X7. The entry of [Run] registers the
    notifier for reading: the notifier gets an id, the registry of the
    loop holds it under that id, and the reactor watches the read end of
    the pipe with a persistent read event whose callback is
    [OnReadable]. A byte that [Execute] writes from another thread is the
    byte the loop reads when it dispatches that event, which leaves the
    pipe as it was and the task in the inbox. [Run] cannot be entered a
    second time: the notifier keeps its id, and the assertion of
    [Register] on the id fails. *)
Theorem Run_enter_arms_the_wakeup (w : World) (p : PipeObject.t)
  (r : LibeventReactor.t U) :
  reactor_within w ->
  get_pipe (EventLoop.notifier_ (loop w)) w = Some p ->
  PipeObject.unique_id_ p = -1 ->
  EventLoop.reactor_ (loop w) = Some r ->
  0 <= obj_id_generator_ w <= MachInt.INT_MAX ->
  (exists k, 0 < k <= MachInt.INT_MAX /\
             EventLoop.objects_ (loop w) !! k = None) ->
  let n := EventLoop.notifier_ (loop w) in
  exists w1 uid r1,
    EventLoop_Run_enter w = Some w1 /\
    0 <= uid /\
    EventLoop.objects_ (loop w1) = <[uid := n]> (EventLoop.objects_ (loop w)) /\
    get_pipe n w1 = Some (PipeObject.set_unique_id uid p) /\
    EventLoop.reactor_ (loop w1) = Some r1 /\
    LibeventReactor.objects_ r1 !! uid
    = Some (LibeventReactor.mkObject
              (Some (LibeventReactor.mkEvent (PipeObject.read_fd_ p)
                       (Z.lor EV_READ EV_PERSIST) LibeventReactor.OnReadable n))
              None n) /\
    LibeventReactor.timers_ r1 = LibeventReactor.timers_ r /\
    EventLoop_Run_enter w1 = None /\
    ((PipeObject.pending p < PipeObject.capacity p)%nat ->
     forall cl, exists fut w2 w3,
       EventLoop_Execute false cl w1 = Some (fut, w2) /\
       dispatch (PeReadable uid) w2 = Some w3 /\
       get_pipe n w3 = get_pipe n w1 /\
       EventLoop.tasks_ (loop w3)
       = EventLoop.tasks_ (loop w1) ++ [mkTask cl fut]).
Proof.
  intros Hin Hp Hm1 Hr Hgen Hfree n.
  assert (Ho : heap w !! n = Some (HPipe p)).
  { unfold get_pipe in Hp. fold n in Hp.
    destruct (heap w !! n) as [[q|c]|]; congruence. }
  destruct (EventLoop_Register_succeeds n (HPipe p) kEventRead w r)
    as (uid & r' & Hge & Hf & Hrf & HR & HE); try assumption.
  unfold LibeventReactor.Register in HR. simpl in HR.
  destruct (uid <? 0) eqn:Eneg; [apply Z.ltb_lt in Eneg; lia|].
  rewrite Hrf in HR. injection HR as <-.
  unfold EventLoop_Run_enter. fold n. rewrite HE. simpl.
  eexists _, uid, _. split; [reflexivity|]. split; [assumption|].
  split; [reflexivity|].
  split; [unfold get_pipe; simpl; rewrite lookup_insert_eq; reflexivity|].
  split; [reflexivity|]. simpl.
  split; [apply lookup_insert_eq|]. split; [reflexivity|].
  split.
  { unfold EventLoop_Register. simpl. rewrite lookup_insert_eq. simpl.
    destruct (uid =? -1) eqn:E; [apply Z.eqb_eq in E; lia|]. reflexivity. }
  intros Hlt cl.
  assert (Hlt' : (PipeObject.pending (PipeObject.set_unique_id uid p)
                  < PipeObject.capacity (PipeObject.set_unique_id uid p))%nat)
    by exact Hlt.
  destruct (pipe_read_after_notify _ Hlt') as [HN HRd].
  unfold EventLoop_Execute, notify, get_pipe. simpl.
  rewrite lookup_insert_eq. simpl.
  eexists _, _, _. split; [reflexivity|].
  unfold dispatch. simpl. rewrite lookup_insert_eq. simpl.
  rewrite lookup_insert_eq. rewrite HRd.
  split; [reflexivity|]. simpl.
  split; [rewrite !lookup_insert_eq; reflexivity|reflexivity].
Qed.

Lemma unregister_all_frame entries : forall (w : World),
  is_Some (EventLoop.reactor_ (loop w)) ->
  (forall k a, (k, a) ∈ entries -> is_Some (heap w !! a)) ->
  exists r', unregister_all entries w = Some (with_reactor (Some r') w).
Proof.
  induction entries as [|[k a] entries IH]; intros w [r Hr] Hheap; simpl.
  - exists r. destruct w as [[r0 ? ? ? ?] ? ? ? ? ? ? ?]. simpl in Hr.
    subst r0. reflexivity.
  - rewrite Hr. simpl.
    destruct (Hheap k a) as [o Ho]; [left|]. rewrite Ho. simpl.
    destruct (IH (with_reactor
                    (Some (LibeventReactor.Unregister (Some (event_object a o)) r))
                    w)) as [r' Hr'].
    + simpl. eauto.
    + intros k' a' Hin. simpl. apply (Hheap k' a'). right. exact Hin.
    + exists r'. rewrite Hr'. reflexivity.
Qed.

(** X8. When [Run] leaves its loop it
    clears the registry and destroys the reactor, in whatever order it
    visits the registry, and it does nothing else: no callback is made
    and no connection changes its state, so a connection that was
    connected stays [kConnected] without being registered. On the loop
    left behind, [Register] returns false and changes nothing, [Cancel]
    answers false, scheduling a timer on the loop's thread dereferences
    the missing reactor, and closing a connection that is still connected
    fails the assertion of [Unregister]. *)
Theorem Run_exit_drops_every_registration entries (w : World) :
  registry_wf w ->
  is_Some (EventLoop.reactor_ (loop w)) ->
  entries ≡ₚ map_to_list (EventLoop.objects_ (loop w)) ->
  let w' := with_reactor None (with_objects ∅ w) in
  EventLoop_Run_exit entries w = Some w' /\
  trace w' = trace w /\
  (forall a, state_of a w' = state_of a w) /\
  (forall a, ~ is_registered a w') /\
  (forall a o events,
     heap w !! a = Some o -> GetUniqueId o = -1 ->
     EventLoop_Register true (Some a) events w' = Some (false, w')) /\
  (forall tid,
     EventLoop_Cancel true tid w'
     = Some (length (futures w),
             with_futures (futures w ++ [Some (VBool false)]) w')) /\
  (forall ms cb,
     EventLoop_ScheduleLater_ms timer_bits true ms cb w' = None /\
     EventLoop_ScheduleRepeatedly_ms timer_bits true ms cb w' = None) /\
  (forall a c sync,
     registered a c w -> TcpObject.state_ c = TcpObject.kConnected ->
     TcpObject_ActiveClose true a sync w' = None).
Proof.
  intros Hwf Hreact Hperm w'.
  split.
  { unfold EventLoop_Run_exit.
    destruct (unregister_all_frame entries w Hreact) as [r' Hr'].
    - intros k a Hin. rewrite Hperm in Hin.
      apply elem_of_map_to_list in Hin.
      destruct (Hwf k a Hin) as (_ & o & Ho & _). eauto.
    - rewrite Hr'. reflexivity. }
  split; [reflexivity|]. split; [reflexivity|].
  split.
  { intros a [k Hk]. simpl in Hk. rewrite lookup_empty in Hk. discriminate. }
  split.
  { intros a o events Ho Hm1. unfold EventLoop_Register. simpl.
    rewrite Ho. simpl. rewrite Hm1. reflexivity. }
  split; [reflexivity|].
  split.
  { intros ms cb. split; reflexivity. }
  intros a c sync (Hc & Hge & _) Hst.
  unfold TcpObject_ActiveClose, ActiveClose_destroy.
  assert (Hc' : get_tcp a w' = Some c) by exact Hc.
  rewrite Hc'. simpl. rewrite Hst. simpl.
  unfold TcpObject_HandleDisconnect. rewrite Hc'. simpl. rewrite Hst. simpl.
  unfold EventLoop_Unregister.
  destruct (TcpObject.on_disconnect_ c); simpl; rewrite lookup_insert_eq; simpl;
    (destruct (TcpObject.unique_id_ c <? 0) eqn:E; [reflexivity|]); simpl;
    (case_bool_decide as Hreg; [|reflexivity]);
    rewrite lookup_empty in Hreg; destruct Hreg as [x Hx]; discriminate.
Qed.

(** ** Timers: arming, firing, cancelling on the loop's thread *)

Lemma dispatch_timer_user tid tm f (w : World) r :
  EventLoop.reactor_ (loop w) = Some r ->
  LibeventReactor.timers_ r !! tid = Some tm ->
  LibeventReactor.id tm = tid ->
  LibeventReactor.callback tm = CbUser f ->
  let fired := with_user (f (user w)) (observe (ObsTimerFired tid) w) in
  dispatch (PeTimer tid) w
  = Some (if LibeventReactor.repeat tm then fired
          else with_reactor (Some (snd (LibeventReactor.Cancel tid r))) fired).
Proof.
  intros Hr Htm Hid Hcb fired. unfold dispatch. rewrite Hr. simpl. rewrite Htm.
  unfold LibeventReactor_TimerCallback, run_timer_cb. rewrite Hcb, Hid. simpl.
  destruct (LibeventReactor.repeat tm); [reflexivity|].
  rewrite Hr. reflexivity.
Qed.

Lemma dispatch_stale tid n : forall (w : World) r,
  EventLoop.reactor_ (loop w) = Some r ->
  LibeventReactor.timers_ r !! tid = None ->
  dispatch_all (replicate n (PeTimer tid)) w = Some w.
Proof.
  induction n as [|n IH]; intros w r Hr Htm; simpl; [reflexivity|].
  unfold dispatch. rewrite Hr. simpl. rewrite Htm. simpl. eapply IH; eassumption.
Qed.

Lemma dispatch_repeating tid tm f n : forall (w : World) r,
  EventLoop.reactor_ (loop w) = Some r ->
  LibeventReactor.timers_ r !! tid = Some tm ->
  LibeventReactor.id tm = tid ->
  LibeventReactor.callback tm = CbUser f ->
  LibeventReactor.repeat tm = true ->
  exists w',
    dispatch_all (replicate n (PeTimer tid)) w = Some w' /\
    loop w' = loop w /\ heap w' = heap w /\ futures w' = futures w /\
    user w' = Nat.iter n f (user w) /\
    trace w' = trace w ++ replicate n (ObsTimerFired tid).
Proof.
  induction n as [|n IH]; intros w r Hr Htm Hid Hcb Hrep; simpl.
  - exists w. rewrite app_nil_r. repeat split.
  - rewrite (dispatch_timer_user tid tm f w r Hr Htm Hid Hcb), Hrep. simpl.
    destruct (IH (with_user (f (user w)) (observe (ObsTimerFired tid) w)) r)
      as (w' & HD & Hl & Hh & Hf & Hu & Ht); try assumption.
    exists w'. split; [exact HD|]. split; [exact Hl|]. split; [exact Hh|].
    split; [exact Hf|].
    split; [rewrite Hu; simpl; rewrite Nat.iter_swap; reflexivity|].
    rewrite Ht. simpl. rewrite <- app_assoc. reflexivity.
Qed.

(** X9. A timer armed on the loop's thread with
    [ScheduleLater] runs its callback at its first expiry and removes
    itself: however many more expiries the event base reports for it,
    the callback has run once. A timer armed with [ScheduleRepeatedly]
    runs its callback at every expiry and stays armed. *)
Theorem Timers_fire_as_armed (w : World) (r : LibeventReactor.t U) :
  EventLoop.reactor_ (loop w) = Some r ->
  (forall ms f n, exists tid w1 w2,
     EventLoop_ScheduleLater_ms timer_bits true ms (CbUser f) w = Some (tid, w1) /\
     dispatch_all (replicate (S n) (PeTimer tid)) w1 = Some w2 /\
     user w2 = f (user w) /\
     trace w2 = trace w ++ [ObsTimerFired tid] /\
     timers_of w2 !! tid = None /\
     (forall k, k <> tid -> timers_of w2 !! k = timers_of w !! k)) /\
  (forall ms f n, exists tid w1 w2 tm,
     EventLoop_ScheduleRepeatedly_ms timer_bits true ms (CbUser f) w
     = Some (tid, w1) /\
     dispatch_all (replicate n (PeTimer tid)) w1 = Some w2 /\
     user w2 = Nat.iter n f (user w) /\
     trace w2 = trace w ++ replicate n (ObsTimerFired tid) /\
     timers_of w2 !! tid = Some tm /\
     LibeventReactor.callback tm = CbUser f /\
     LibeventReactor.repeat tm = true).
Proof.
  intros Hr. split.
  - intros ms f n.
    set (tid := MachInt.wrap timer_bits (timerid_generator_ w + 1)).
    destruct (Schedule_timeout tid ms (CbUser f) false r)
      as (tm & Htm & Hrep & Hcb & Hid & _).
    unfold EventLoop_ScheduleLater_ms, next_timer_id. simpl. rewrite Hr. simpl.
    fold tid. eexists tid, _, _. split; [reflexivity|].
    set (r1 := LibeventReactor.ScheduleLater tid ms (CbUser f) r).
    set (w1 := with_reactor (Some r1) _).
    assert (Hr1 : EventLoop.reactor_ (loop w1) = Some r1) by reflexivity.
    change (replicate (S n) (PeTimer tid))
      with (PeTimer tid :: replicate n (PeTimer tid)).
    cbn [dispatch_all].
    rewrite (dispatch_timer_user tid tm f w1 r1 Hr1 Htm Hid Hcb), Hrep. simpl.
    pose proof (Cancel_timers tid r1) as (Hct & _ & _).
    split.
    + apply (dispatch_stale tid n _ (snd (LibeventReactor.Cancel tid r1)));
        [reflexivity|rewrite Hct; apply lookup_delete_eq].
    + simpl. split; [reflexivity|]. split; [reflexivity|].
      unfold timers_of. simpl. fold r1. rewrite Hct, Hr.
      split; [apply lookup_delete_eq|].
      intros k Hk. rewrite lookup_delete_ne by congruence.
      unfold r1, LibeventReactor.ScheduleLater, LibeventReactor.Schedule. simpl.
      rewrite lookup_insert_ne by congruence. reflexivity.
  - intros ms f n.
    set (tid := MachInt.wrap timer_bits (timerid_generator_ w + 1)).
    destruct (Schedule_timeout tid ms (CbUser f) true r)
      as (tm & Htm & Hrep & Hcb & Hid & _).
    unfold EventLoop_ScheduleRepeatedly_ms, next_timer_id. simpl.
    rewrite Hr. simpl. fold tid.
    set (r1 := LibeventReactor.ScheduleRepeatedly tid ms (CbUser f) r).
    set (w1 := with_reactor (Some r1) _).
    destruct (dispatch_repeating tid tm f n w1 r1)
      as (w2 & HD & Hl & _ & _ & Hu & Ht); try assumption; try reflexivity.
    exists tid, w1, w2, tm. split; [reflexivity|]. split; [exact HD|].
    split; [exact Hu|]. split; [exact Ht|].
    split; [unfold timers_of; rewrite Hl; exact Htm|]. auto.
Qed.

(** X10. On the loop's thread [Cancel] answers
    at once: the future it returns is ready and holds true exactly when a
    timer with that id was armed. Afterwards the id has no timer, the
    other timers are as before, an expiry that the event base still
    reports for the id runs nothing, and a second [Cancel] answers
    false. *)
Theorem EventLoop_Cancel_on_loop tid (w : World) (r : LibeventReactor.t U) :
  EventLoop.reactor_ (loop w) = Some r ->
  exists w1,
    EventLoop_Cancel true tid w = Some (length (futures w), w1) /\
    futures w1
    = futures w ++ [Some (VBool (bool_decide
                                   (is_Some (LibeventReactor.timers_ r !! tid))))] /\
    timers_of w1 = delete tid (timers_of w) /\
    heap w1 = heap w /\ trace w1 = trace w /\ user w1 = user w /\
    EventLoop.tasks_ (loop w1) = EventLoop.tasks_ (loop w) /\
    (forall n, dispatch_all (replicate n (PeTimer tid)) w1 = Some w1) /\
    exists w2,
      EventLoop_Cancel true tid w1 = Some (S (length (futures w)), w2) /\
      futures w2 !! S (length (futures w)) = Some (Some (VBool false)).
Proof.
  intros Hr. pose proof (Cancel_timers tid r) as (Hct & _ & Hok).
  unfold EventLoop_Cancel at 1. rewrite Hr.
  destruct (LibeventReactor.Cancel tid r) as [ok r1] eqn:EC. simpl in *.
  eexists. split; [reflexivity|]. simpl.
  split; [rewrite Hok; reflexivity|].
  split; [unfold timers_of; simpl; rewrite Hr, Hct; reflexivity|].
  split; [reflexivity|]. split; [reflexivity|]. split; [reflexivity|].
  split; [reflexivity|].
  split.
  { intros n. apply (dispatch_stale tid n _ r1); [reflexivity|].
    rewrite Hct. apply lookup_delete_eq. }
  unfold EventLoop_Cancel. simpl.
  pose proof (Cancel_timers tid r1) as (_ & _ & Hok1).
  destruct (LibeventReactor.Cancel tid r1) as [ok1 r2] eqn:EC1. simpl in *.
  rewrite length_app. simpl.
  replace (length (futures w) + 1)%nat with (S (length (futures w))) by lia.
  eexists. split; [reflexivity|]. simpl.
  rewrite Hok1, Hct, lookup_delete_eq.
  rewrite bool_decide_eq_false_2 by (intros [x Hx]; discriminate).
  replace (S (length (futures w)))
    with (length (futures w ++ [Some (VBool ok)]))
    by (rewrite length_app; simpl; lia).
  apply list_lookup_middle. reflexivity.
Qed.

(** ** The receive path, whatever the callback answers *)

Lemma consumed_in_app a t1 t2 :
  consumed_in a (t1 ++ t2) = consumed_in a t1 ++ consumed_in a t2.
Proof. unfold consumed_in. apply omap_app. Qed.

Lemma sum_positive_app r1 r2 :
  sum_positive (r1 ++ r2) = sum_positive r1 + sum_positive r2.
Proof. induction r1 as [|r r1 IH]; simpl; lia. Qed.

(** Without wrap-around [total_consumed] is the exact sum of the positive
    results. *)
Lemma total_consumed_exact rs : forall total,
  0 <= total -> total + sum_positive rs <= MachInt.INT_MAX ->
  total_consumed rs total = total + sum_positive rs.
Proof.
  pose proof INT_MIN_eq as HMIN.
  induction rs as [|r rs IH]; intros total H0 Hmax; simpl in *; [lia|].
  pose proof (sum_positive_nonneg rs) as Hnn.
  destruct (0 <? r) eqn:E.
  - apply Z.ltb_lt in E. rewrite to_int_small by lia.
    rewrite IH by lia. lia.
  - apply Z.ltb_ge in E. rewrite IH by lia. lia.
Qed.

(** The loop of [OnRecvData] without any assumption on the callback: when
    it returns, [total_consumed] is the [int] sum of the positive results
    that the trace records. *)
Lemma consume_steps_accounts fuel a f (view : list Byte.byte) len :
  forall total (w w' : World) t e,
    consume_steps fuel a f view len total w = Some (t, e, w') ->
    heap w' = heap w /\ loop w' = loop w /\
    exists tr, trace w' = trace w ++ tr /\
               t = total_consumed (consumed_in a tr) total.
Proof.
  induction fuel as [|fuel IH]; intros total w w' t e H;
    [rewrite consume_steps_O in H; discriminate|].
  rewrite consume_steps_eq in H.
  destruct (len <=? total).
  { injection H as <- <- <-. split; [reflexivity|]. split; [reflexivity|].
    exists []. rewrite app_nil_r. split; reflexivity. }
  cbv zeta in H.
  destruct (f (user w) _) as [r u'].
  set (consumed := MachInt.to_int r) in *.
  set (n := MachInt.to_int (len - total)) in *.
  assert (Hself : consumed_in a [ObsMessage a total n consumed] = [consumed])
    by (unfold consumed_in; simpl; rewrite N.eqb_refl; reflexivity).
  destruct (0 <? consumed) eqn:Epos.
  - apply IH in H as (Hh & Hl & tr & Htr & Hsum).
    split; [exact Hh|]. split; [exact Hl|].
    eexists (_ :: tr). split.
    + rewrite Htr. simpl. rewrite <- app_assoc. reflexivity.
    + change (?o :: tr) with ([o] ++ tr).
      rewrite consumed_in_app, Hself. simpl. rewrite Epos. exact Hsum.
  - injection H as <- <- <-.
    split; [reflexivity|]. split; [reflexivity|].
    eexists [_]. split; [reflexivity|]. rewrite Hself. simpl.
    rewrite Epos. reflexivity.
Qed.

Lemma consume_loop_accounts a f (view : list Byte.byte) len (w w' : World) t e :
  consume_loop a f view len w = Some (t, e, w') ->
  heap w' = heap w /\ loop w' = loop w /\
  exists tr, trace w' = trace w ++ tr /\
             t = total_consumed (consumed_in a tr) 0.
Proof.
  intros H. apply consume_loop_steps in H as (n & _ & H).
  eapply consume_steps_accounts; exact H.
Qed.

(** X11. A round of [OnRecvData] that returns has removed from the front
    of the input buffer as many bytes as [total_consumed] holds at the end
    of the loop (all of them once that exceeds what is buffered), and none
    when [total_consumed] is not positive; what remains is a suffix of the
    old input, in order. [total_consumed] is the sum of the positive
    results of the calls of [on_message], added as [int]s: it is their
    exact sum as long as that sum is at most [INT_MAX], whatever the
    callback answers, and it can wrap around beyond. *)
Theorem OnRecvData_drains_what_was_consumed a (c : TcpObject.t U)
  (b : TcpObject.bufferevent) (w w' : World) :
  get_tcp a w = Some c ->
  TcpObject.bev_ c = Some b ->
  TcpObject_OnRecvData true a w = Some w' ->
  exists tr,
    trace w' = trace w ++ tr /\
    let rs := consumed_in a tr in
    let t := total_consumed rs 0 in
    input_of a w' = Some (drop (Z.to_nat t) (TcpObject.input b)) /\
    (t <= 0 -> input_of a w' = Some (TcpObject.input b)) /\
    (sum_positive rs <= MachInt.INT_MAX ->
     t = sum_positive rs /\
     input_of a w'
     = Some (drop (Z.to_nat (sum_positive rs)) (TcpObject.input b))).
Proof.
  intros Hc Hb H.
  assert (Hmain : exists tr,
            trace w' = trace w ++ tr /\
            input_of a w'
            = Some (drop (Z.to_nat (total_consumed (consumed_in a tr) 0))
                      (TcpObject.input b))).
  { unfold TcpObject_OnRecvData in H.
    rewrite Hc in H. simpl in H. rewrite Hb in H. simpl in H.
    set (c1 := if negb (TcpObject.idle_timer_ c =? -1)
               then TcpObject.set_last_active (clock w) c else c) in *.
    assert (Hb1 : TcpObject.bev_ c1 = Some b)
      by (unfold c1; destruct (negb _); exact Hb).
    destruct (TcpObject.input b) as [|x rest] eqn:Hin.
    { injection H as <-. exists []. rewrite app_nil_r. simpl.
      split; [reflexivity|].
      unfold input_of. rewrite get_tcp_put_tcp. simpl.
      rewrite Hb1. simpl. rewrite Hin. reflexivity. }
    rewrite <- Hin in *.
    set (len := MachInt.to_int _) in H.
    destruct (if len <=? 0 then _ else _) as [[[t e] w2]|] eqn:Hloop;
      simpl in H; [|discriminate].
    assert (Hw2 : heap w2 = heap (put_tcp a c1 w) /\ loop w2 = loop w /\
                  exists tr, trace w2 = trace w ++ tr /\
                             t = total_consumed (consumed_in a tr) 0).
    { destruct (len <=? 0).
      - injection Hloop as <- <- <-. split; [reflexivity|].
        split; [reflexivity|].
        exists []. rewrite app_nil_r. split; reflexivity.
      - destruct (TcpObject.on_message_ c1) as [f|]; simpl in Hloop; [|discriminate].
        apply consume_loop_accounts in Hloop as (Hh & Hl & tr & Htr & Hsum).
        split; [exact Hh|]. split; [exact Hl|].
        exists tr. split; [exact Htr|exact Hsum]. }
    destruct Hw2 as (Hh2 & Hl2 & tr & Htr & Hsum).
    set (w3 := if 0 <? t then _ else w2) in H.
    set (c3 := if 0 <? t
               then TcpObject.set_bev (Some (TcpObject.drain_input t b)) c1
               else c1).
    assert (Hc3 : get_tcp a w3 = Some c3).
    { unfold w3, c3. destruct (0 <? t).
      - apply get_tcp_put_tcp.
      - unfold get_tcp. rewrite Hh2. simpl. rewrite lookup_insert_eq. reflexivity. }
    assert (Htr3 : trace w3 = trace w ++ tr)
      by (unfold w3; destruct (0 <? t); exact Htr).
    assert (Hin3 : (TcpObject.input <$> TcpObject.bev_ c3)
                   = Some (drop (Z.to_nat t) (TcpObject.input b))).
    { unfold c3. destruct (0 <? t) eqn:E; simpl.
      - reflexivity.
      - apply Z.ltb_ge in E.
        replace (Z.to_nat t) with 0%nat by lia.
        rewrite Hb1. reflexivity. }
    destruct e.
    - apply HandleDisconnect_inv in H as (c4 & (Hc4 & _) & _ & _ & ->).
      rewrite Hc3 in Hc4. injection Hc4 as <-.
      exists (tr ++ match TcpObject.on_disconnect_ c3 with
                    | Some _ => [ObsDisconnect a]
                    | None => []
                    end).
      split; [rewrite after_disconnect_trace, Htr3, <- app_assoc; reflexivity|].
      assert (Hcons : consumed_in a (tr ++ match TcpObject.on_disconnect_ c3 with
                                           | Some _ => [ObsDisconnect a]
                                           | None => []
                                           end) = consumed_in a tr).
      { rewrite consumed_in_app.
        destruct (TcpObject.on_disconnect_ c3); simpl; apply app_nil_r. }
      rewrite Hcons, <- Hsum.
      unfold input_of. rewrite after_disconnect_state. simpl.
      destruct (TcpObject.bev_ c3) as [b3|]; simpl in *; [|discriminate].
      injection Hin3 as ->. reflexivity.
    - injection H as <-. exists tr. split; [exact Htr3|]. rewrite <- Hsum.
      unfold input_of. rewrite Hc3. simpl.
      destruct (TcpObject.bev_ c3) as [b3|]; simpl in *; [|discriminate].
      injection Hin3 as ->. reflexivity. }
  destruct Hmain as (tr & Htr & Hinput).
  exists tr. split; [exact Htr|]. cbv zeta.
  split; [exact Hinput|]. split.
  - intros Hle. rewrite Hinput.
    replace (Z.to_nat (total_consumed (consumed_in a tr) 0)) with 0%nat by lia.
    reflexivity.
  - intros Hmax.
    pose proof (total_consumed_exact (consumed_in a tr) 0 (Z.le_refl 0)) as E.
    rewrite Z.add_0_l in E. specialize (E Hmax).
    split; [exact E|]. rewrite <- E. exact Hinput.
Qed.

(** ** What counts as activity for the idle timeout *)

Lemma notify_get_tcp a (w w' : World) :
  notify w = Some w' -> get_tcp a w' = get_tcp a w.
Proof.
  unfold notify. intros H.
  destruct (get_pipe _ w) as [p|] eqn:Hp; simpl in H; [|discriminate].
  injection H as <-. unfold get_pipe in Hp. unfold get_tcp. simpl.
  destruct (decide (EventLoop.notifier_ (loop w) = a)) as [<-|Hne].
  - rewrite lookup_insert_eq.
    destruct (heap w !! EventLoop.notifier_ (loop w)) as [[q|c]|];
      congruence.
  - rewrite lookup_insert_ne by assumption. reflexivity.
Qed.

Lemma Execute_off_loop_get_tcp a cl (w w' : World) fut :
  EventLoop_Execute false cl w = Some (fut, w') -> get_tcp a w' = get_tcp a w.
Proof.
  unfold EventLoop_Execute. intros H.
  destruct (notify _) as [w2|] eqn:Hn; simpl in H; [|discriminate].
  injection H as <- <-. apply (notify_get_tcp a) in Hn. exact Hn.
Qed.

Lemma Cancel_get_tcp a in_loop tid (w w' : World) fut :
  EventLoop_Cancel in_loop tid w = Some (fut, w') -> get_tcp a w' = get_tcp a w.
Proof.
  unfold EventLoop_Cancel. intros H. destruct in_loop.
  - destruct (EventLoop.reactor_ (loop w)) as [r|].
    + destruct (LibeventReactor.Cancel tid r). injection H as <- <-. reflexivity.
    + injection H as <- <-. reflexivity.
  - eapply Execute_off_loop_get_tcp; exact H.
Qed.

Lemma ScheduleRepeatedly_get_tcp a in_loop ms cb (w w' : World) tid :
  EventLoop_ScheduleRepeatedly_ms timer_bits in_loop ms cb w = Some (tid, w') ->
  get_tcp a w' = get_tcp a w.
Proof.
  unfold EventLoop_ScheduleRepeatedly_ms, next_timer_id. simpl. intros H.
  destruct in_loop.
  - destruct (EventLoop.reactor_ (loop w)) as [r|]; simpl in H; [|discriminate].
    injection H as <- <-. reflexivity.
  - destruct (EventLoop_Execute false _ _) as [[f w2]|] eqn:E; simpl in H; [|discriminate].
    injection H as <- <-. apply (Execute_off_loop_get_tcp a) in E. exact E.
Qed.

(** What [SetIdleTimeout] leaves of the connection: the threshold and the
    id of the new timer, everything else as before. *)
Lemma SetIdleTimeout_object a in_loop ms (c : TcpObject.t U) (w w' : World) :
  get_tcp a w = Some c -> 0 < ms ->
  TcpObject_SetIdleTimeout timer_bits in_loop a ms w = Some w' ->
  exists tid, get_tcp a w' = Some (TcpObject.set_idle tid ms c).
Proof.
  intros Hc Hms H. unfold TcpObject_SetIdleTimeout in H.
  rewrite Hc in H. simpl in H.
  destruct (ms <=? 0) eqn:E; [apply Z.leb_le in E; lia|].
  set (w1 := put_tcp a _ w) in H.
  assert (Hc1 : get_tcp a w1
                = Some (TcpObject.set_idle (TcpObject.idle_timer_ c) ms c))
    by apply get_tcp_put_tcp.
  destruct (if negb _ then _ else Some w1) as [w2|] eqn:E2; simpl in H; [|discriminate].
  assert (Hc2 : get_tcp a w2 = get_tcp a w1).
  { destruct (negb _); [|injection E2 as <-; reflexivity].
    destruct (EventLoop_Cancel in_loop _ w1) as [[f wc]|] eqn:EC;
      simpl in E2; [|discriminate].
    injection E2 as <-. eapply Cancel_get_tcp; exact EC. }
  destruct (EventLoop_ScheduleRepeatedly_ms _ _ _ _ w2) as [[tid w3]|] eqn:E3;
    simpl in H; [|discriminate].
  apply (ScheduleRepeatedly_get_tcp a) in E3.
  rewrite E3, Hc2, Hc1 in H. simpl in H. injection H as <-.
  exists tid. rewrite get_tcp_put_tcp. reflexivity.
Qed.

(** What a round of [OnRecvData] leaves of the connection. *)
Lemma OnRecvData_object a (c : TcpObject.t U) (w w' : World) :
  get_tcp a w = Some c ->
  TcpObject_OnRecvData true a w = Some w' ->
  exists c',
    get_tcp a w' = Some c' /\
    TcpObject.last_active_ c'
    = (if TcpObject.idle_timer_ c =? -1 then TcpObject.last_active_ c
       else clock w) /\
    TcpObject.idle_timer_ c' = TcpObject.idle_timer_ c /\
    TcpObject.idle_timeout_ms_ c' = TcpObject.idle_timeout_ms_ c /\
    TcpObject.unique_id_ c' = TcpObject.unique_id_ c.
Proof.
  intros Hc H. unfold TcpObject_OnRecvData in H.
  rewrite Hc in H. simpl in H.
  destruct (TcpObject.bev_ c) as [b|] eqn:Hb; simpl in H; [|discriminate].
  set (c1 := if negb (TcpObject.idle_timer_ c =? -1)
             then TcpObject.set_last_active (clock w) c else c) in *.
  assert (Hc1 : TcpObject.last_active_ c1
                = (if TcpObject.idle_timer_ c =? -1 then TcpObject.last_active_ c
                   else clock w) /\
                TcpObject.idle_timer_ c1 = TcpObject.idle_timer_ c /\
                TcpObject.idle_timeout_ms_ c1 = TcpObject.idle_timeout_ms_ c /\
                TcpObject.unique_id_ c1 = TcpObject.unique_id_ c)
    by (unfold c1; destruct (TcpObject.idle_timer_ c =? -1); simpl; auto).
  destruct (TcpObject.input b) as [|x rest].
  { injection H as <-. exists c1. split; [apply get_tcp_put_tcp|exact Hc1]. }
  set (len := MachInt.to_int _) in H.
  destruct (if len <=? 0 then _ else _) as [[[t e] w2]|] eqn:Hloop;
    simpl in H; [|discriminate].
  assert (Hh2 : heap w2 = heap (put_tcp a c1 w)).
  { destruct (len <=? 0); [injection Hloop as <- <- <-; reflexivity|].
    destruct (TcpObject.on_message_ c1) as [f|]; simpl in Hloop; [|discriminate].
    apply consume_loop_frame in Hloop as [Hh _]. exact Hh. }
  set (w3 := if 0 <? t then _ else w2) in H.
  set (c3 := if 0 <? t
             then TcpObject.set_bev (Some (TcpObject.drain_input t b)) c1
             else c1).
  assert (Hc3 : get_tcp a w3 = Some c3).
  { unfold w3, c3. destruct (0 <? t).
    - apply get_tcp_put_tcp.
    - unfold get_tcp. rewrite Hh2. simpl. rewrite lookup_insert_eq. reflexivity. }
  assert (Hf3 : TcpObject.last_active_ c3 = TcpObject.last_active_ c1 /\
                TcpObject.idle_timer_ c3 = TcpObject.idle_timer_ c1 /\
                TcpObject.idle_timeout_ms_ c3 = TcpObject.idle_timeout_ms_ c1 /\
                TcpObject.unique_id_ c3 = TcpObject.unique_id_ c1)
    by (unfold c3; destruct (0 <? t); simpl; auto).
  destruct Hc1 as (A1 & A2 & A3 & A4), Hf3 as (B1 & B2 & B3 & B4).
  destruct e.
  - apply HandleDisconnect_inv in H as (c4 & (Hc4 & _) & _ & _ & ->).
    rewrite Hc3 in Hc4. injection Hc4 as <-.
    eexists. split; [apply after_disconnect_state|]. simpl.
    repeat split; congruence.
  - injection H as <-. exists c3. split; [exact Hc3|].
    repeat split; congruence.
Qed.

(** X12. The time from which the idle
    timeout is measured is moved by one thing only: a round of
    [OnRecvData] that runs while an idle timer is armed. Sending never
    moves it, arming or re-arming the timeout does not move it, and a
    round received while no timer is armed does not move it either. So a
    connection whose last recorded activity is older than the threshold
    is closed by the next idle check even when it has just sent data. *)
Theorem Idle_clock_counts_receipts_only a (c : TcpObject.t U) (w : World) :
  get_tcp a w = Some c ->
  (forall in_loop data ok w',
     TcpObject_SendPacket in_loop a data w = Some (ok, w') ->
     last_active_of a w' = Some (TcpObject.last_active_ c)) /\
  (forall in_loop vs n ok w',
     TcpObject_SendPacket_iovec in_loop a vs n w = Some (ok, w') ->
     last_active_of a w' = Some (TcpObject.last_active_ c)) /\
  (forall in_loop ms w',
     TcpObject_SetIdleTimeout timer_bits in_loop a ms w = Some w' ->
     last_active_of a w' = Some (TcpObject.last_active_ c)) /\
  (forall w',
     TcpObject_OnRecvData true a w = Some w' ->
     last_active_of a w'
     = Some (if TcpObject.idle_timer_ c =? -1 then TcpObject.last_active_ c
             else clock w)) /\
  (forall data w1 tm,
     registered a c w -> TcpObject.state_ c = TcpObject.kConnected ->
     TcpObject_SendPacket true a (Some data) w = Some (true, w1) ->
     LibeventReactor.callback tm = CbIdleCheck a ->
     LibeventReactor.repeat tm = true ->
     TcpObject.idle_timeout_ms_ c < TcpObject.elapsed_ms (clock w1) c ->
     exists w2,
       LibeventReactor_TimerCallback tm w1 = Some w2 /\
       state_of a w2 = Some TcpObject.kDisconnected /\
       output_of a w2 = (fun b => TcpObject.output b ++ data) <$> TcpObject.bev_ c).
Proof.
  intros Hc.
  assert (Hsend : forall in_loop data ok w',
            TcpObject_SendPacket in_loop a data w = Some (ok, w') ->
            w' = w \/ w' = observe ObsError w \/
            exists b d, data = Some d /\ TcpObject.bev_ c = Some b /\ ok = true /\
              TcpObject.state_ c = TcpObject.kConnected /\
              w' = put_tcp a (TcpObject.set_bev
                                (Some (TcpObject.add_output d b)) c) w).
  { intros in_loop data ok w' H. unfold TcpObject_SendPacket in H.
    rewrite Hc in H. simpl in H.
    destruct (TcpObject.State_eqb _ _) eqn:Est; simpl in H;
      [|injection H as <- <-; auto].
    apply State_eqb_eq in Est.
    destruct data as [d|]; [|injection H as <- <-; auto].
    destruct (length d =? 0)%nat; [injection H as <- <-; auto|].
    destruct in_loop; simpl in H; [|discriminate].
    destruct (TcpObject.bev_ c) as [b|]; simpl in H; [|discriminate].
    injection H as <- <-. right. right. exists b, d. auto. }
  split; [|split; [|split; [|split]]].
  - intros in_loop data ok w' H. unfold last_active_of.
    destruct (Hsend _ _ _ _ H) as [-> | [-> | (b & d & _ & _ & _ & _ & ->)]].
    + rewrite Hc. reflexivity.
    + change (get_tcp a (observe ObsError w)) with (get_tcp a w).
      rewrite Hc. reflexivity.
    + rewrite get_tcp_put_tcp. reflexivity.
  - intros in_loop vs n ok w' H. unfold last_active_of.
    unfold TcpObject_SendPacket_iovec in H. rewrite Hc in H. simpl in H.
    destruct (negb _);
      [injection H as <- <-;
       change (get_tcp a (observe ObsError w)) with (get_tcp a w);
       rewrite Hc; reflexivity|].
    destruct vs as [v|]; [|injection H as <- <-; rewrite Hc; reflexivity].
    destruct (n <=? 0); [injection H as <- <-; rewrite Hc; reflexivity|].
    destruct in_loop; simpl in H; [|discriminate].
    destruct (TcpObject.bev_ c) as [b|]; simpl in H; [|discriminate].
    injection H as <- <-. rewrite get_tcp_put_tcp. reflexivity.
  - intros in_loop ms w' H. unfold last_active_of.
    destruct (Z_le_gt_dec ms 0) as [Hle|Hgt].
    + unfold TcpObject_SetIdleTimeout in H. rewrite Hc in H. simpl in H.
      destruct (ms <=? 0) eqn:E; [|apply Z.leb_gt in E; lia].
      injection H as <-. rewrite Hc. reflexivity.
    + destruct (SetIdleTimeout_object a in_loop ms c w w' Hc) as [tid Ht];
        [lia|exact H|]. rewrite Ht. reflexivity.
  - intros w' H. unfold last_active_of.
    destruct (OnRecvData_object a c w w' Hc H) as (c' & Hc' & Hla & _).
    rewrite Hc'. simpl. rewrite Hla. reflexivity.
  - intros data w1 tm (_ & Hge & Hin) Hst Hs Hcb Hrep Hlt.
    set (c1 := match TcpObject.bev_ c with
               | Some b => TcpObject.set_bev
                             (Some (TcpObject.add_output data b)) c
               | None => c
               end).
    assert (Hw1 : get_tcp a w1 = Some c1 /\
                  EventLoop.objects_ (loop w1) = EventLoop.objects_ (loop w) /\
                  clock w1 = clock w).
    { destruct (Hsend _ _ _ _ Hs) as [-> | [E | (b & d & Ed & Hb & _ & _ & ->)]].
      - split; [|split; reflexivity]. rewrite Hc. f_equal. unfold c1.
        unfold TcpObject_SendPacket in Hs. rewrite Hc in Hs. simpl in Hs.
        rewrite Hst in Hs. simpl in Hs.
        destruct (length data =? 0)%nat eqn:El.
        + apply Nat.eqb_eq in El. destruct data; [|discriminate].
          destruct (TcpObject.bev_ c) as [b|] eqn:Hb; [|reflexivity].
          rewrite add_output_nil. symmetry. apply set_bev_same. exact Hb.
        + destruct (TcpObject.bev_ c) as [b|] eqn:Hb; simpl in Hs; [|discriminate].
          injection Hs as Hs.
          apply (f_equal (fun x => get_tcp a x)) in Hs.
          rewrite get_tcp_put_tcp, Hc in Hs. injection Hs as <-. reflexivity.
      - exfalso. unfold TcpObject_SendPacket in Hs. rewrite Hc in Hs.
        simpl in Hs. rewrite Hst in Hs. simpl in Hs.
        destruct (length data =? 0)%nat.
        + injection Hs as Hs. rewrite E in Hs.
          apply (f_equal (fun x => length (trace x))) in Hs.
          simpl in Hs. rewrite length_app in Hs. simpl in Hs. lia.
        + destruct (TcpObject.bev_ c); simpl in Hs; [|discriminate].
          injection Hs as Hs. rewrite E in Hs.
          apply (f_equal (fun x => length (trace x))) in Hs.
          simpl in Hs. rewrite length_app in Hs. simpl in Hs. lia.
      - injection Ed as <-. unfold c1. rewrite Hb.
        split; [apply get_tcp_put_tcp|split; reflexivity]. }
    destruct Hw1 as (Hc1 & Hobjs & Hclk).
    assert (Hsame : TcpObject.last_active_ c1 = TcpObject.last_active_ c /\
                    TcpObject.idle_timeout_ms_ c1 = TcpObject.idle_timeout_ms_ c /\
                    TcpObject.state_ c1 = TcpObject.state_ c /\
                    TcpObject.unique_id_ c1 = TcpObject.unique_id_ c)
      by (unfold c1; destruct (TcpObject.bev_ c); simpl; auto).
    destruct Hsame as (S1 & S2 & S3 & S4).
    set (fired := observe (ObsTimerFired (LibeventReactor.id tm)) w1).
    assert (Hcf : get_tcp a fired = Some c1) by exact Hc1.
    assert (Hreg : registered a c1 fired).
    { split; [exact Hcf|]. rewrite S4. split; [exact Hge|].
      change (EventLoop.objects_ (loop fired)) with (EventLoop.objects_ (loop w1)).
      rewrite Hobjs. exact Hin. }
    exists (after_disconnect a c1 fired).
    split.
    + unfold LibeventReactor_TimerCallback, run_timer_cb. rewrite Hcb, Hrep.
      fold fired. rewrite Hcf. unfold TcpObject.CheckIdleTimeout.
      change (clock fired) with (clock w1).
      assert (El : TcpObject.elapsed_ms (clock w1) c1
                   = TcpObject.elapsed_ms (clock w1) c)
        by (unfold TcpObject.elapsed_ms; rewrite S1; reflexivity).
      rewrite El, S2.
      destruct (_ <? _) eqn:E; [|apply Z.ltb_ge in E; lia].
      unfold TcpObject_ActiveClose, ActiveClose_destroy. rewrite Hcf. simpl.
      rewrite S3, Hst. simpl.
      rewrite (HandleDisconnect_spec a c1 fired Hreg) by congruence.
      reflexivity.
    + split; [unfold state_of; rewrite after_disconnect_state; reflexivity|].
      unfold output_of. rewrite after_disconnect_state. simpl.
      unfold c1. destruct (TcpObject.bev_ c) eqn:Eb; simpl; rewrite ?Eb;
        reflexivity.
Qed.

(** ** What can end a connection *)

Lemma conn_trans_stays_connected a v1 v2 :
  conn_trans a v1 v2 ->
  fst v1 = TcpObject.kConnected -> terminal (fst v2) = false -> v2 = v1.
Proof.
  induction 1 as [v|l|s l l' Hs Hl|l l' Hl|l l' Hl|v1 v2 v3 H12 IH12 H23 IH23];
    simpl; intros Hst Hnt; try discriminate; try reflexivity.
  - destruct Hs as [-> | ->]; discriminate.
  - destruct (terminal (fst v2)) eqn:Ht2.
    + destruct (conn_trans_inv _ _ _ H23) as [Hstay _].
      rewrite (Hstay Ht2) in Hnt. congruence.
    + specialize (IH12 Hst eq_refl). subst v2. apply IH23; assumption.
Qed.

Lemma is_terminal_state a (w w' : World) :
  state_of a w' = state_of a w -> is_terminal a w' -> is_terminal a w.
Proof. unfold is_terminal. intros ->. auto. Qed.

Lemma calm_quiet a (w w' : World) :
  calm w w' -> is_terminal a w' -> is_terminal a w.
Proof. intros (_ & _ & H). apply H. Qed.

Lemma state_of_put_tcp_ne a a' (c : TcpObject.t U) (w : World) :
  a <> a' -> state_of a (put_tcp a' c w) = state_of a w.
Proof.
  intros Hne. unfold state_of. rewrite get_tcp_put_tcp_ne by congruence.
  reflexivity.
Qed.

Lemma HandleDisconnect_other a a' in_loop (w w' : World) :
  a <> a' ->
  TcpObject_HandleDisconnect in_loop a' w = Some w' ->
  heap w' !! a = heap w !! a.
Proof.
  intros Hne H. apply HandleDisconnect_inv in H as (c & _ & _ & _ & ->).
  rewrite after_disconnect_heap. apply lookup_insert_ne. congruence.
Qed.

Lemma HandleConnectFailed_other a a' in_loop (w w' : World) :
  a <> a' ->
  TcpObject_HandleConnectFailed in_loop a' w = Some w' ->
  heap w' !! a = heap w !! a.
Proof.
  intros Hne H. unfold TcpObject_HandleConnectFailed in H.
  destruct (get_tcp a' w) as [c|]; simpl in H; [|discriminate].
  destruct in_loop; simpl in H; [|discriminate].
  destruct (TcpObject.State_eqb _ _); simpl in H; [|discriminate].
  apply Unregister_frame in H as [Hh _]. rewrite Hh.
  destruct (TcpObject.on_fail_ c); simpl; apply lookup_insert_ne; congruence.
Qed.

Lemma HandleConnect_other a a' in_loop (w w' : World) :
  a <> a' ->
  TcpObject_HandleConnect in_loop a' w = Some w' ->
  heap w' !! a = heap w !! a.
Proof.
  intros Hne H. unfold TcpObject_HandleConnect in H.
  destruct (get_tcp a' w) as [c|]; simpl in H; [|discriminate].
  destruct in_loop; simpl in H; [|discriminate].
  destruct (negb _); simpl in H; [discriminate|].
  destruct (TcpObject.bev_ c); simpl in H; [|discriminate].
  injection H as <-.
  destruct (TcpObject.on_new_conn_ c); simpl; apply lookup_insert_ne; congruence.
Qed.

Lemma destroy_other a me (w w' : World) :
  a <> me -> ActiveClose_destroy me w = Some w' -> heap w' !! a = heap w !! a.
Proof.
  intros Hne H. unfold ActiveClose_destroy in H.
  destruct (get_tcp me w); [|injection H as <-; reflexivity].
  destruct (TcpObject.State_eqb _ _); [|injection H as <-; reflexivity].
  eapply HandleDisconnect_other; eassumption.
Qed.

Lemma OnEvent_other a a' in_loop events (w w' : World) :
  a <> a' ->
  TcpObject_OnEvent in_loop a' events w = Some w' ->
  heap w' !! a = heap w !! a.
Proof.
  intros Hne H. unfold TcpObject_OnEvent in H.
  destruct (get_tcp a' w) as [c|]; simpl in H; [|discriminate].
  destruct in_loop; simpl in H; [|discriminate].
  destruct (TcpObject.state_ c); try (injection H as <-; reflexivity).
  - destruct (negb _);
      [eapply HandleConnect_other|eapply HandleConnectFailed_other]; eassumption.
  - destruct (negb _); [|injection H as <-; reflexivity].
    eapply HandleDisconnect_other; eassumption.
Qed.

Lemma OnRecvData_other a a' in_loop (w w' : World) :
  a <> a' ->
  TcpObject_OnRecvData in_loop a' w = Some w' ->
  heap w' !! a = heap w !! a.
Proof.
  intros Hne H. unfold TcpObject_OnRecvData in H.
  destruct (get_tcp a' w) as [c|]; simpl in H; [|discriminate].
  destruct in_loop; simpl in H; [|discriminate].
  destruct (TcpObject.bev_ c) as [b|]; simpl in H; [|discriminate].
  set (c1 := if negb (TcpObject.idle_timer_ c =? -1)
             then TcpObject.set_last_active (clock w) c else c) in *.
  destruct (TcpObject.input b) as [|x rest];
    [injection H as <-; simpl; apply lookup_insert_ne; congruence|].
  set (len := MachInt.to_int _) in H.
  destruct (if len <=? 0 then _ else _) as [[[t e] w2]|] eqn:Hloop;
    simpl in H; [|discriminate].
  assert (Hh2 : heap w2 = heap (put_tcp a' c1 w)).
  { destruct (len <=? 0); [injection Hloop as <- <- <-; reflexivity|].
    destruct (TcpObject.on_message_ c1) as [f|]; simpl in Hloop; [|discriminate].
    apply consume_loop_frame in Hloop as [Hh _]. exact Hh. }
  set (w3 := if 0 <? t then _ else w2) in H.
  assert (Hh3 : heap w3 !! a = heap w !! a).
  { unfold w3. destruct (0 <? t); simpl;
      rewrite ?lookup_insert_ne by congruence; rewrite Hh2; simpl;
      apply lookup_insert_ne; congruence. }
  destruct e; [|injection H as <-; exact Hh3].
  rewrite <- Hh3. eapply HandleDisconnect_other; eassumption.
Qed.

Lemma readcb_other a a' in_loop bytes (w w' : World) :
  a <> a' ->
  bufferevent_readcb in_loop a' bytes w = Some w' ->
  heap w' !! a = heap w !! a.
Proof.
  intros Hne H. unfold bufferevent_readcb in H.
  destruct (get_tcp a' w) as [c|]; simpl in H; [|discriminate].
  destruct (TcpObject.bev_ c) as [b|]; simpl in H; [|discriminate].
  destruct (TcpObject.read_enabled b); [|injection H as <-; reflexivity].
  set (w1 := put_tcp a' _ w) in H.
  assert (Hh1 : heap w1 !! a = heap w !! a)
    by (simpl; apply lookup_insert_ne; congruence).
  destruct (TcpObject.readcb_set b); [|injection H as <-; exact Hh1].
  rewrite <- Hh1. eapply OnRecvData_other; eassumption.
Qed.

Lemma is_terminal_lookup a (w w' : World) :
  heap w' !! a = heap w !! a -> is_terminal a w' -> is_terminal a w.
Proof.
  intros Hh. apply is_terminal_state. unfold state_of, get_tcp. rewrite Hh.
  reflexivity.
Qed.

Lemma Execute_off_loop_calm cl (w w' : World) fut :
  EventLoop_Execute false cl w = Some (fut, w') -> calm w w'.
Proof.
  unfold EventLoop_Execute. intros H.
  destruct (notify _) as [w2|] eqn:Hn; simpl in H; [|discriminate].
  injection H as <- <-.
  eapply calm_trans; [|eapply notify_calm; exact Hn]. calm_framed.
Qed.

Lemma Cancel_calm in_loop tid (w w' : World) fut :
  EventLoop_Cancel in_loop tid w = Some (fut, w') -> calm w w'.
Proof.
  unfold EventLoop_Cancel. intros H. destruct in_loop.
  - destruct (EventLoop.reactor_ (loop w)) as [r|] eqn:Hr.
    + destruct (LibeventReactor.Cancel tid r). injection H as <- <-.
      calm_framed.
    + injection H as <- <-. apply calm_frame; [reflexivity|reflexivity|].
      rewrite Hr. intros [x Hx]. discriminate.
  - eapply Execute_off_loop_calm; exact H.
Qed.

Lemma ScheduleRepeatedly_calm in_loop ms cb (w w' : World) tid :
  EventLoop_ScheduleRepeatedly_ms timer_bits in_loop ms cb w = Some (tid, w') ->
  calm w w'.
Proof.
  unfold EventLoop_ScheduleRepeatedly_ms, next_timer_id. simpl. intros H.
  destruct in_loop.
  - destruct (EventLoop.reactor_ (loop w)) as [r|]; simpl in H; [|discriminate].
    injection H as <- <-. calm_framed.
  - destruct (EventLoop_Execute false _ _) as [[f w2]|] eqn:E; simpl in H; [|discriminate].
    injection H as <- <-.
    eapply calm_trans; [|eapply Execute_off_loop_calm; exact E]. calm_framed.
Qed.

Lemma ScheduleLater_calm in_loop ms cb (w w' : World) tid :
  EventLoop_ScheduleLater_ms timer_bits in_loop ms cb w = Some (tid, w') ->
  calm w w'.
Proof.
  unfold EventLoop_ScheduleLater_ms, next_timer_id. simpl. intros H.
  destruct in_loop.
  - destruct (EventLoop.reactor_ (loop w)) as [r|]; simpl in H; [|discriminate].
    injection H as <- <-. calm_framed.
  - destruct (EventLoop_Execute false _ _) as [[f w2]|] eqn:E; simpl in H; [|discriminate].
    injection H as <- <-.
    eapply calm_trans; [|eapply Execute_off_loop_calm; exact E]. calm_framed.
Qed.

Lemma SetIdleTimeout_calm in_loop a' ms (w w' : World) :
  TcpObject_SetIdleTimeout timer_bits in_loop a' ms w = Some w' -> calm w w'.
Proof.
  unfold TcpObject_SetIdleTimeout. intros H.
  destruct (get_tcp a' w) as [c|] eqn:Hc; simpl in H; [|discriminate].
  destruct (ms <=? 0); [injection H as <-; apply calm_refl|].
  set (w1 := put_tcp a' _ w) in H.
  assert (Hstep1 : calm w w1)
    by (eapply (calm_put_tcp a' c); [exact Hc|reflexivity|simpl; auto]).
  destruct (if negb _ then _ else Some w1) as [w2|] eqn:E2; simpl in H; [|discriminate].
  assert (Hstep2 : calm w1 w2).
  { destruct (negb _); [|injection E2 as <-; apply calm_refl].
    destruct (EventLoop_Cancel in_loop _ w1) as [[f wc]|] eqn:EC;
      simpl in E2; [|discriminate].
    injection E2 as <-. eapply Cancel_calm; exact EC. }
  destruct (EventLoop_ScheduleRepeatedly_ms _ _ _ _ w2) as [[tid w3]|] eqn:E3;
    simpl in H; [|discriminate].
  destruct (get_tcp a' w3) as [c3|] eqn:Hc3; simpl in H; [|discriminate].
  injection H as <-.
  eapply calm_trans; [exact Hstep1|].
  eapply calm_trans; [exact Hstep2|].
  eapply calm_trans; [eapply ScheduleRepeatedly_calm; exact E3|].
  eapply (calm_put_tcp a' c3); [exact Hc3|reflexivity|simpl; auto].
Qed.

Lemma Register_quiet a in_loop obj events (w w' : World) b :
  EventLoop_Register in_loop obj events w = Some (b, w') ->
  is_terminal a w' -> is_terminal a w.
Proof.
  intros H. apply Register_shape in H as [_ Hshape].
  destruct Hshape as [[Hh _] | (a' & o & uid & Ho & _ & Hh & _)].
  - apply (proj1 (is_terminal_heap a w w' Hh)).
  - apply is_terminal_state.
    eapply state_of_insert; [exact Ho|exact Hh|]. destruct o; simpl; auto.
Qed.

Lemma Connect_quiet a in_loop a' ip port env (w w' : World) b :
  TcpObject_Connect in_loop a' ip port env w = Some (b, w') ->
  is_terminal a w' -> is_terminal a w.
Proof.
  unfold TcpObject_Connect. intros H.
  destruct (get_tcp a' w) as [c|] eqn:Hc; simpl in H; [|discriminate].
  destruct in_loop; simpl in H; [|discriminate].
  destruct (negb _); [injection H as <- <-; apply calm_quiet, calm_observe|].
  destruct (EventLoop.reactor_ (loop w)) as [r|]; simpl in H; [|discriminate].
  destruct (negb (bev_new_ok env));
    [injection H as <- <-; apply calm_quiet, calm_observe|].
  destruct (negb _); [injection H as <- <-; apply calm_quiet, calm_observe|].
  destruct (EventLoop_Register true (Some a') 0 w) as [[ok w1]|] eqn:HR;
    simpl in H; [|discriminate].
  intros Ht. eapply Register_quiet; [exact HR|].
  destruct ok.
  - destruct (get_tcp a' w1) as [c1|] eqn:Hc1; simpl in H; [|discriminate].
    injection H as <- <-. revert Ht. apply calm_quiet.
    eapply (calm_put_tcp a' c1); [exact Hc1|reflexivity|].
    simpl. intros Hf. discriminate Hf.
  - injection H as <- <-. revert Ht. apply calm_quiet, calm_observe.
Qed.

Lemma OnAccept_calm in_loop a' fd ip port bev_ok (w w' : World) :
  TcpObject_OnAccept in_loop a' fd ip port bev_ok w = Some w' -> calm w w'.
Proof.
  unfold TcpObject_OnAccept. intros H.
  destruct (get_tcp a' w) as [c|] eqn:Hc; simpl in H; [|discriminate].
  destruct in_loop; simpl in H; [|discriminate].
  destruct bev_ok; simpl in H; [|discriminate].
  eapply calm_trans; [|eapply HandleConnect_calm; exact H].
  eapply (calm_put_tcp a' c); [exact Hc|reflexivity|]. simpl. tauto.
Qed.

(** X13. A connected connection
    leaves [kConnected] only through one of its close paths. Every other
    action (connecting, accepting or registering anything, events without
    the end-of-file bit, in particular error events, sending, setting the
    idle timeout, running or posting closures that are not its close,
    arming and cancelling timers, whatever is done to other connections)
    returns with the connection still [kConnected] and without any of
    [on_new_conn], [on_disconnect], [on_connect_fail] delivered for it. *)
Theorem Only_close_paths_end_a_connection a act (w w' : World) :
  harmless a act = true ->
  state_of a w = Some TcpObject.kConnected ->
  step timer_bits act w = Some w' ->
  state_of a w' = Some TcpObject.kConnected /\
  lifecycle a (trace w') = lifecycle a (trace w).
Proof.
  intros Hact Hst Hstep.
  assert (Hquiet : is_terminal a w' -> is_terminal a w).
  { destruct act; simpl in Hact, Hstep.
    - destruct (TcpObject_Connect _ _ _ _ _ _) as [[b w1]|] eqn:E; [|discriminate].
      injection Hstep as <-. eapply Connect_quiet; exact E.
    - apply calm_quiet. eapply OnAccept_calm; exact Hstep.
    - destruct (EventLoop_Register _ _ _ _) as [[b w1]|] eqn:E; [|discriminate].
      injection Hstep as <-. eapply Register_quiet; exact E.
    - destruct (N.eqb_spec a a0) as [<-|Hne].
      + simpl in Hact. unfold TcpObject_OnEvent in Hstep.
        unfold state_of in Hst.
        destruct (get_tcp a w) as [c|]; simpl in *; [|discriminate].
        injection Hst as Hst. rewrite Hst, Hact in Hstep. simpl in Hstep.
        injection Hstep as <-. auto.
      + apply is_terminal_lookup. eapply OnEvent_other; eassumption.
    - destruct (N.eqb_spec a a0) as [<-|Hne]; [discriminate|].
      apply is_terminal_lookup. eapply readcb_other; eassumption.
    - destruct (TcpObject_SendPacket _ _ _ _) as [[b w1]|] eqn:E; [|discriminate].
      injection Hstep as <-. apply calm_quiet. eapply SendPacket_calm; exact E.
    - destruct (TcpObject_SendPacket_iovec _ _ _ _ _) as [[b w1]|] eqn:E;
        [|discriminate].
      injection Hstep as <-. apply calm_quiet.
      eapply SendPacket_iovec_calm; exact E.
    - unfold TcpObject_ActiveClose in Hstep.
      destruct (get_tcp a0 w); simpl in Hstep; [|discriminate].
      destruct in_loop; simpl in Hact.
      + destruct (N.eqb_spec a a0) as [<-|Hne]; [discriminate|].
        apply is_terminal_lookup. eapply destroy_other; eassumption.
      + destruct (EventLoop_Execute false _ w) as [[f w1]|] eqn:E;
          simpl in Hstep; [|discriminate].
        injection Hstep as <-. apply calm_quiet.
        eapply Execute_off_loop_calm; exact E.
    - apply calm_quiet. eapply SetIdleTimeout_calm; exact Hstep.
    - destruct (EventLoop_Execute _ _ _) as [[b w1]|] eqn:E; [|discriminate].
      injection Hstep as <-. destruct in_loop; simpl in Hact.
      + unfold EventLoop_Execute in E.
        destruct (run_task _ _) as [w2|] eqn:Ht; simpl in E; [|discriminate].
        injection E as <- <-.
        apply run_task_inv in Ht as (v & w3 & Hcl & ->). simpl in Hcl.
        intros Hterm.
        assert (Hterm3 : is_terminal a w3) by exact Hterm.
        clear Hterm. revert Hterm3.
        unfold run_closure in Hcl. destruct cl as [f|tid|tid ms cb rep|me].
        * destruct (f _). injection Hcl as <- <-. auto.
        * simpl in Hcl. destruct (EventLoop.reactor_ (loop w)) as [r|].
          -- destruct (LibeventReactor.Cancel tid r). injection Hcl as <- <-. auto.
          -- injection Hcl as <- <-. auto.
        * simpl in Hcl.
          destruct (EventLoop.reactor_ (loop w)) as [r|]; simpl in Hcl;
            [|discriminate].
          injection Hcl as <- <-. auto.
        * destruct (N.eqb_spec a me) as [<-|Hne]; [discriminate|].
          destruct (ActiveClose_destroy me _) as [w4|] eqn:Hd; simpl in Hcl;
            [|discriminate].
          injection Hcl as <- <-.
          apply (destroy_other a) in Hd; [|assumption].
          apply is_terminal_lookup. exact Hd.
      + apply calm_quiet. eapply Execute_off_loop_calm; exact E.
    - destruct (EventLoop_Cancel _ _ _) as [[b w1]|] eqn:E; [|discriminate].
      injection Hstep as <-. apply calm_quiet. eapply Cancel_calm; exact E.
    - destruct (EventLoop_ScheduleLater_ms _ _ _ _ _) as [[b w1]|] eqn:E;
        [|discriminate].
      injection Hstep as <-. apply calm_quiet. eapply ScheduleLater_calm; exact E.
    - destruct (EventLoop_ScheduleRepeatedly_ms _ _ _ _ _) as [[b w1]|] eqn:E;
        [|discriminate].
      injection Hstep as <-. apply calm_quiet.
      eapply ScheduleRepeatedly_calm; exact E.
    - discriminate.
    - injection Hstep as <-. auto. }
  destruct (step_conn_step a act w w' Hstep _ Hst) as (s' & Hs' & Htr).
  assert (Hnt : terminal s' = false).
  { destruct (terminal s') eqn:E; [|reflexivity].
    destruct Hquiet as (s0 & Hs0 & Ht0); [exists s'; auto|].
    rewrite Hst in Hs0. injection Hs0 as <-. discriminate. }
  apply conn_trans_stays_connected in Htr; [|reflexivity|exact Hnt].
  injection Htr as -> ->. split; [exact Hs'|reflexivity].
Qed.

(** ** Accepting a connection *)

Lemma put_tcp_put_tcp a (c c' : TcpObject.t U) (w : World) :
  put_tcp a c' (put_tcp a c w) = put_tcp a c' w.
Proof. unfold put_tcp, with_heap. simpl. rewrite insert_insert_eq. reflexivity. Qed.

(** [OnAccept] on a connection that was just constructed. *)
Lemma OnAccept_fresh a on_create fd ip port (w : World) :
  exists c,
    TcpObject_OnAccept true a fd ip port true
      (put_tcp a (TcpObject.SetNewConnCallback on_create
                    (TcpObject.new (clock w))) w)
    = Some (match on_create with
            | Some f => deliver f (ObsNewConn a) (put_tcp a c w)
            | None => put_tcp a c w
            end) /\
    TcpObject.state_ c = TcpObject.kConnected /\
    TcpObject.unique_id_ c = -1 /\
    TcpObject.idle_timer_ c = -1 /\
    TcpObject.bev_ c = Some (TcpObject.mkBev fd [] [] true true) /\
    TcpObject.peer_ip_ c = ip /\ TcpObject.peer_port_ c = port.
Proof.
  eexists. split.
  - unfold TcpObject_OnAccept. rewrite get_tcp_put_tcp. simpl.
    unfold TcpObject_HandleConnect. rewrite get_tcp_put_tcp. simpl.
    rewrite !put_tcp_put_tcp. reflexivity.
  - simpl. repeat split; reflexivity.
Qed.

(** X14. What
    [TcpListenerObj::OnNewConnection] does with a socket the listener
    accepted. Without a callback on the acceptor, or with a peer address
    that has no text form or no port, no connection is made. Otherwise,
    on a loop with its reactor, a free id, and every record of the
    reactor known to the registry, a connection is constructed, told the
    peer, set [kConnected] with reading enabled, handed to the callback
    once, and then entered in the registry of the loop under a fresh id
    without any watch in the reactor; the message that registration
    failed is never logged, the future of the closure is fulfilled, and no
    other object changes. A bufferevent that cannot be created fails the
    assertion of [OnAccept]. *)
Theorem Accepted_connection_is_connected_and_registered
  a fd ipstr port (w : World) :
  reactor_within w ->
  is_Some (EventLoop.reactor_ (loop w)) ->
  0 <= obj_id_generator_ w <= MachInt.INT_MAX ->
  (exists k, 0 < k <= MachInt.INT_MAX /\
             EventLoop.objects_ (loop w) !! k = None) ->
  heap w !! a = None ->
  (forall bev_ok,
     TcpListenerObj_OnNewConnection None a fd ipstr port bev_ok w = Some w) /\
  (forall f bev_ok, ipstr = [] \/ port = -1 ->
     TcpListenerObj_OnNewConnection (Some f) a fd ipstr port bev_ok w
     = Some (observe ObsError w)) /\
  (forall f, ipstr <> [] -> port <> -1 ->
     TcpListenerObj_OnNewConnection (Some f) a fd ipstr port false w = None /\
     exists w' c uid r,
       TcpListenerObj_OnNewConnection (Some f) a fd ipstr port true w = Some w' /\
       get_tcp a w' = Some c /\
       TcpObject.state_ c = TcpObject.kConnected /\
       TcpObject.unique_id_ c = uid /\ 0 <= uid /\
       TcpObject.bev_ c = Some (TcpObject.mkBev fd [] [] true true) /\
       TcpObject.peer_ip_ c = ipstr /\ TcpObject.peer_port_ c = port /\
       EventLoop.objects_ (loop w) !! uid = None /\
       EventLoop.objects_ (loop w') = <[uid := a]> (EventLoop.objects_ (loop w)) /\
       EventLoop.reactor_ (loop w) = Some r /\
       EventLoop.reactor_ (loop w') = Some r /\
       LibeventReactor.objects_ r !! uid = None /\
       user w' = f (user w) /\
       trace w' = trace w ++ [ObsTaskRun (length (futures w)); ObsNewConn a] /\
       futures w' = futures w ++ [Some VUnit] /\
       (forall a', a' <> a -> heap w' !! a' = heap w !! a') /\
       reactor_within w').
Proof.
  intros Hin [r Hr] Hgen Hfree Hnew. split; [|split].
  - reflexivity.
  - intros f bev_ok Hbad. unfold TcpListenerObj_OnNewConnection.
    destruct Hbad as [-> | ->]; simpl; [reflexivity|].
    rewrite orb_true_r. reflexivity.
  - intros f Hip Hport.
    assert (Hok : (length ipstr =? 0)%nat || (port =? -1) = false).
    { apply orb_false_iff. split.
      - destruct ipstr; [contradiction|reflexivity].
      - apply Z.eqb_neq. exact Hport. }
    unfold TcpListenerObj_OnNewConnection. rewrite Hok. split.
    + unfold create_conn, TcpObject_OnAccept. simpl.
      rewrite get_tcp_put_tcp. reflexivity.
    + set (w0 := observe _ (with_futures _ w)).
      destruct (OnAccept_fresh a (Some f) fd ipstr port w0)
        as (c & HA & Hst & Hid & _ & Hbev & Hpi & Hpp).
      set (w1 := deliver f (ObsNewConn a) (put_tcp a c w0)) in HA.
      destruct (EventLoop_Register_succeeds a (HTcp c) 0 w1 r)
        as (uid & r' & Hge & Hfu & Hrf & HR & HReg);
        [exact Hin | simpl; apply lookup_insert_eq | exact Hid | exact Hr
        | exact Hgen | exact Hfree |].
      destruct (reactor_Register_accepts a (HTcp c) uid 0 r Hge Hrf)
        as (r2 & HR2 & _ & H0 & _).
      rewrite HR in HR2. injection HR2 as <-. rewrite (H0 eq_refl) in HReg.
      unfold create_conn. fold w0. rewrite HA. simpl. rewrite HReg. simpl.
      eexists _, (TcpObject.set_unique_id uid c), uid, r.
      split; [reflexivity|].
      split; [unfold get_tcp; simpl; rewrite lookup_insert_eq; reflexivity|].
      split; [exact Hst|]. split; [reflexivity|]. split; [exact Hge|].
      split; [exact Hbev|]. split; [exact Hpi|]. split; [exact Hpp|].
      split; [exact Hfu|]. split; [reflexivity|]. split; [exact Hr|].
      split; [reflexivity|]. split; [exact Hrf|]. split; [reflexivity|].
      split; [simpl; rewrite <- app_assoc; reflexivity|].
      split; [simpl; rewrite insert_app_r_alt, Nat.sub_diag by lia; reflexivity|].
      split.
      * intros a' Hne. simpl. rewrite !lookup_insert_ne by congruence.
        reflexivity.
      * intros r0 k Hr0 Hk. simpl in Hr0. injection Hr0 as <-. simpl.
        destruct (Hin r k Hr Hk) as [x Hx].
        destruct (decide (k = uid)) as [->|Hne];
          [rewrite lookup_insert_eq|rewrite lookup_insert_ne by congruence];
          eauto.
Qed.

(** X15. In [create_conn] the
    callback runs inside [OnAccept], before [Register]: the world
    [OnAccept] leaves has the connection [kConnected] with the callback
    delivered, but still with id -1 and outside the registry. In that
    world every close of the connection on the loop's thread
    ([ActiveClose], an end-of-file event) fails the assertion of
    [EventLoop::Unregister]; once [Register] has run, [ActiveClose]
    returns and leaves the connection [kDisconnected] and unregistered. *)
Theorem Accept_callback_precedes_registration a f fd ip port (w : World) :
  reactor_within w ->
  is_Some (EventLoop.reactor_ (loop w)) ->
  0 <= obj_id_generator_ w <= MachInt.INT_MAX ->
  (exists k, 0 < k <= MachInt.INT_MAX /\
             EventLoop.objects_ (loop w) !! k = None) ->
  exists wmid w' w'' uid,
    TcpObject_OnAccept true a fd ip port true
      (put_tcp a (TcpObject.SetNewConnCallback (Some f)
                    (TcpObject.new (clock w))) w) = Some wmid /\
    create_conn a (Some f) fd ip port true w = Some w' /\
    EventLoop_Register true (Some a) 0 wmid = Some (true, w') /\
    (* when the callback has run *)
    state_of a wmid = Some TcpObject.kConnected /\
    trace wmid = trace w ++ [ObsNewConn a] /\
    user wmid = f (user w) /\
    uid_of a wmid = Some (-1) /\
    EventLoop.objects_ (loop wmid) = EventLoop.objects_ (loop w) /\
    (forall sync, TcpObject_ActiveClose true a sync wmid = None) /\
    (forall events, Z.land events BEV_EVENT_EOF <> 0 ->
       TcpObject_OnEvent true a events wmid = None) /\
    (* when the closure has returned *)
    uid_of a w' = Some uid /\ 0 <= uid /\
    (forall sync, TcpObject_ActiveClose true a sync w' = Some w'') /\
    state_of a w'' = Some TcpObject.kDisconnected /\
    EventLoop.objects_ (loop w'') = EventLoop.objects_ (loop w).
Proof.
  intros Hin [r Hr] Hgen Hfree.
  destruct (OnAccept_fresh a (Some f) fd ip port w)
    as (c & HA & Hst & Hid & _ & Hbev & _).
  set (wmid := deliver f (ObsNewConn a) (put_tcp a c w)) in HA.
  assert (Hc : get_tcp a wmid = Some c) by apply get_tcp_put_tcp.
  destruct (EventLoop_Register_succeeds a (HTcp c) 0 wmid r)
    as (uid & r' & Hge & Hfu & Hrf & HR & HReg);
    [exact Hin | simpl; apply lookup_insert_eq | exact Hid | exact Hr
    | exact Hgen | exact Hfree |].
  set (w' := with_objects _ _) in HReg.
  set (c' := TcpObject.set_unique_id uid c).
  assert (Hc' : get_tcp a w' = Some c')
    by (unfold get_tcp; simpl; rewrite lookup_insert_eq; reflexivity).
  assert (Hreg : registered a c' w').
  { split; [exact Hc'|]. split; [exact Hge|].
    simpl. rewrite lookup_insert_eq. eauto. }
  assert (Hclose_mid : TcpObject_HandleDisconnect true a wmid = None).
  { unfold TcpObject_HandleDisconnect. rewrite Hc. simpl. rewrite Hst. simpl.
    unfold EventLoop_Unregister.
    destruct (TcpObject.on_disconnect_ c); simpl; rewrite lookup_insert_eq;
      simpl; rewrite Hid; reflexivity. }
  exists wmid, w', (after_disconnect a c' w'), uid.
  split; [exact HA|].
  split; [unfold create_conn; rewrite HA; simpl; rewrite HReg; reflexivity|].
  split; [exact HReg|].
  split; [unfold state_of; rewrite Hc; simpl; rewrite Hst; reflexivity|].
  split; [reflexivity|]. split; [reflexivity|].
  split; [unfold uid_of; simpl; rewrite lookup_insert_eq; simpl; rewrite Hid;
          reflexivity|].
  split; [reflexivity|].
  split.
  { intros sync. unfold TcpObject_ActiveClose, ActiveClose_destroy.
    rewrite Hc. simpl. rewrite Hst. simpl. exact Hclose_mid. }
  split.
  { intros events Hev. unfold TcpObject_OnEvent. rewrite Hc. simpl. rewrite Hst.
    destruct (Z.land events BEV_EVENT_EOF =? 0) eqn:E;
      [apply Z.eqb_eq in E; contradiction|]. simpl. exact Hclose_mid. }
  split; [unfold uid_of; simpl; rewrite lookup_insert_eq; reflexivity|].
  split; [exact Hge|].
  split.
  { intros sync. unfold TcpObject_ActiveClose, ActiveClose_destroy.
    rewrite Hc'. simpl. rewrite Hst. simpl.
    apply HandleDisconnect_spec; [exact Hreg|exact Hst]. }
  split.
  { unfold state_of, get_tcp. rewrite after_disconnect_heap, lookup_insert_eq.
    reflexivity. }
  unfold after_disconnect. simpl.
  destruct (TcpObject.on_disconnect_ c); simpl;
    apply delete_insert_id; exact Hfu.
Qed.

(** ** The idle timer after the close, and the destructor *)

Lemma after_disconnect_reactor a (c : TcpObject.t U) (w : World) r :
  EventLoop.reactor_ (loop w) = Some r ->
  exists r', EventLoop.reactor_ (loop (after_disconnect a c w)) = Some r' /\
             LibeventReactor.timers_ r' = LibeventReactor.timers_ r.
Proof.
  intros Hr. unfold after_disconnect. rewrite Hr.
  eexists. split; [destruct (TcpObject.on_disconnect_ c); reflexivity|].
  apply Unregister_timers.
Qed.

(** An idle check that finds the connection gone or no longer connected
    does nothing. *)
Lemma idle_check_idle a tid tm (w : World) r :
  EventLoop.reactor_ (loop w) = Some r ->
  LibeventReactor.timers_ r !! tid = Some tm ->
  LibeventReactor.id tm = tid ->
  LibeventReactor.callback tm = CbIdleCheck a ->
  LibeventReactor.repeat tm = true ->
  state_of a w <> Some TcpObject.kConnected ->
  dispatch (PeTimer tid) w = Some (observe (ObsTimerFired tid) w).
Proof.
  intros Hr Htm Hid Hcb Hrep Hst. unfold dispatch. rewrite Hr. simpl.
  rewrite Htm. unfold LibeventReactor_TimerCallback, run_timer_cb.
  rewrite Hcb, Hid, Hrep.
  set (fired := observe _ w).
  assert (Hg : get_tcp a fired = get_tcp a w) by reflexivity.
  unfold state_of in Hst. rewrite <- Hg in Hst.
  destruct (get_tcp a fired) as [c|] eqn:Hc; [|reflexivity].
  destruct (TcpObject.CheckIdleTimeout _ c); [|reflexivity].
  unfold TcpObject_ActiveClose, ActiveClose_destroy. rewrite Hc. simpl.
  destruct (TcpObject.State_eqb _ _) eqn:E; [|reflexivity].
  apply State_eqb_eq in E. simpl in Hst. congruence.
Qed.

(** X16. The idle check that closes a
    connection leaves its own timer armed: nothing but the destructor
    cancels it. Every later expiry, at whatever time, finds the
    connection no longer connected and does nothing. Destroying the
    connection on the loop's thread cancels the timer, so that a late
    expiry is stale; destroying it on another thread only posts the
    cancellation, and an expiry that comes before the loop runs it finds
    no connection and does nothing. *)
Theorem Idle_timer_outlives_the_close a tid tm (c : TcpObject.t U)
  (w : World) r p :
  registered a c w ->
  TcpObject.state_ c = TcpObject.kConnected ->
  TcpObject.idle_timer_ c = tid -> tid <> -1 ->
  EventLoop.reactor_ (loop w) = Some r ->
  LibeventReactor.timers_ r !! tid = Some tm ->
  LibeventReactor.id tm = tid ->
  LibeventReactor.callback tm = CbIdleCheck a ->
  LibeventReactor.repeat tm = true ->
  get_pipe (EventLoop.notifier_ (loop w)) w = Some p ->
  TcpObject.idle_timeout_ms_ c < TcpObject.elapsed_ms (clock w) c ->
  exists w1 r1,
    dispatch (PeTimer tid) w = Some w1 /\
    state_of a w1 = Some TcpObject.kDisconnected /\
    EventLoop.reactor_ (loop w1) = Some r1 /\
    LibeventReactor.timers_ r1 = LibeventReactor.timers_ r /\
    (forall ns,
       dispatch (PeTimer tid) (advance_clock ns w1)
       = Some (observe (ObsTimerFired tid) (advance_clock ns w1))) /\
    (exists w2 r2,
       TcpObject_destroy true a w1 = Some w2 /\
       heap w2 !! a = None /\
       EventLoop.reactor_ (loop w2) = Some r2 /\
       LibeventReactor.timers_ r2 = delete tid (LibeventReactor.timers_ r) /\
       dispatch (PeTimer tid) w2 = Some w2) /\
    (exists w3,
       TcpObject_destroy false a w1 = Some w3 /\
       heap w3 !! a = None /\
       EventLoop.reactor_ (loop w3) = Some r1 /\
       EventLoop.tasks_ (loop w3)
       = EventLoop.tasks_ (loop w1) ++ [mkTask (ClCancel tid) (length (futures w1))] /\
       dispatch (PeTimer tid) w3 = Some (observe (ObsTimerFired tid) w3)).
Proof.
  intros Hreg Hst Hidle Hne Hr Htm Hid Hcb Hrep Hp Hold.
  set (fired := observe (ObsTimerFired tid) w).
  set (w1 := after_disconnect a c fired).
  set (c1 := TcpObject.set_state TcpObject.kDisconnected c).
  assert (Hregf : registered a c fired) by exact Hreg.
  destruct Hreg as (Hc & Hge & Hin).
  assert (Hfire : dispatch (PeTimer tid) w = Some w1).
  { unfold dispatch. rewrite Hr. simpl. rewrite Htm.
    unfold LibeventReactor_TimerCallback, run_timer_cb.
    rewrite Hcb, Hid, Hrep. fold fired.
    assert (Hg : get_tcp a fired = Some c) by exact Hc.
    rewrite Hg. unfold TcpObject.CheckIdleTimeout.
    assert (E : (TcpObject.idle_timeout_ms_ c
                 <? TcpObject.elapsed_ms (clock fired) c) = true)
      by (apply Z.ltb_lt; exact Hold).
    rewrite E. unfold TcpObject_ActiveClose, ActiveClose_destroy.
    rewrite Hg. simpl. rewrite Hst. simpl.
    rewrite (HandleDisconnect_spec a c fired Hregf Hst). reflexivity. }
  assert (Hh1 : heap w1 = <[a := HTcp c1]> (heap w))
    by exact (after_disconnect_heap a c fired).
  assert (Hc1 : get_tcp a w1 = Some c1)
    by (unfold get_tcp; rewrite Hh1, lookup_insert_eq; reflexivity).
  destruct (after_disconnect_reactor a c fired r Hr) as (r1 & Hr1 & Ht1).
  fold w1 in Hr1.
  assert (Htm1 : LibeventReactor.timers_ r1 !! tid = Some tm)
    by (rewrite Ht1; exact Htm).
  assert (Hna : EventLoop.notifier_ (loop w) <> a).
  { intros E. rewrite E in Hp. unfold get_pipe in Hp. unfold get_tcp in Hc.
    destruct (heap w !! a) as [[?|?]|]; discriminate. }
  assert (Hn1 : EventLoop.notifier_ (loop w1) = EventLoop.notifier_ (loop w)).
  { unfold w1, after_disconnect. simpl. rewrite Hr.
    destruct (TcpObject.on_disconnect_ c); reflexivity. }
  assert (Hp1 : get_pipe (EventLoop.notifier_ (loop w1)) w1 = Some p).
  { rewrite Hn1. unfold get_pipe. rewrite Hh1, lookup_insert_ne by congruence.
    exact Hp. }
  exists w1, r1. split; [exact Hfire|].
  split; [unfold state_of; rewrite Hc1; reflexivity|].
  split; [exact Hr1|]. split; [exact Ht1|].
  split.
  { intros ns. apply (idle_check_idle a tid tm _ r1); try assumption.
    unfold state_of.
    assert (Hg : get_tcp a (advance_clock ns w1) = Some c1) by exact Hc1.
    rewrite Hg. simpl. discriminate. }
  split.
  { unfold TcpObject_destroy. rewrite Hc1. simpl. rewrite Hidle.
    destruct (tid =? -1) eqn:E; [apply Z.eqb_eq in E; contradiction|]. simpl.
    unfold EventLoop_Cancel. rewrite Hr1.
    destruct (LibeventReactor.Cancel tid r1) as [ok r2] eqn:EC. simpl.
    pose proof (Cancel_timers tid r1) as (Hct & _ & _).
    rewrite EC in Hct. simpl in Hct.
    eexists _, r2. split; [reflexivity|].
    split; [simpl; apply lookup_delete_eq|].
    split; [reflexivity|]. split; [rewrite Hct, Ht1; reflexivity|].
    unfold dispatch. simpl. rewrite Hct, lookup_delete_eq. reflexivity. }
  unfold TcpObject_destroy. rewrite Hc1. simpl. rewrite Hidle.
  destruct (tid =? -1) eqn:E; [apply Z.eqb_eq in E; contradiction|]. simpl.
  unfold EventLoop_Cancel, EventLoop_Execute, notify. simpl.
  unfold get_pipe in Hp1 |- *. simpl.
  destruct (heap w1 !! EventLoop.notifier_ (loop w1)) as [[q|?]|] eqn:Eq;
    try discriminate.
  simpl. eexists. split; [reflexivity|].
  split; [simpl; apply lookup_delete_eq|].
  split; [simpl; exact Hr1|]. split; [reflexivity|].
  refine (idle_check_idle a tid tm _ r1 _ Htm1 Hid Hcb Hrep _).
  - exact Hr1.
  - unfold state_of, get_tcp. simpl. rewrite lookup_delete_eq. discriminate.
Qed.

(** ** The outcome of a connect *)

(** X17. After [Connect] has
    returned true the connection is [kConnecting] and in the registry
    under a fresh id, and whatever event its bufferevent reports first
    settles it: [OnEvent] returns, and with the connected bit the
    connection is [kConnected], reading is enabled and [on_new_conn] is
    delivered; without it the connection is [kFailed], the failure is
    logged, [on_fail] is delivered, and the registry of the loop and the
    reactor are again what they were before [Connect]. In both cases the
    connection keeps the id it was given. *)
Theorem Connect_is_settled_by_its_first_event a ip port env (w wc : World) :
  reactor_within w ->
  TcpObject_Connect true a ip port env w = Some (true, wc) ->
  exists c uid,
    get_tcp a w = Some c /\
    0 <= uid /\ EventLoop.objects_ (loop w) !! uid = None /\
    state_of a wc = Some TcpObject.kConnecting /\
    EventLoop.objects_ (loop wc) = <[uid := a]> (EventLoop.objects_ (loop w)) /\
    EventLoop.reactor_ (loop wc) = EventLoop.reactor_ (loop w) /\
    forall events, exists w',
      TcpObject_OnEvent true a events wc = Some w' /\
      uid_of a w' = Some uid /\
      EventLoop.reactor_ (loop w') = EventLoop.reactor_ (loop w) /\
      (Z.land events BEV_EVENT_CONNECTED <> 0 ->
         state_of a w' = Some TcpObject.kConnected /\
         (TcpObject.bev_ <$> get_tcp a w')
         = Some (Some (TcpObject.mkBev (sock_fd env) [] [] true true)) /\
         EventLoop.objects_ (loop w') = EventLoop.objects_ (loop wc) /\
         user w' = match TcpObject.on_new_conn_ c with
                   | Some f => f (user w) | None => user w end /\
         trace w' = trace w ++ match TcpObject.on_new_conn_ c with
                               | Some _ => [ObsNewConn a] | None => [] end) /\
      (Z.land events BEV_EVENT_CONNECTED = 0 ->
         state_of a w' = Some TcpObject.kFailed /\
         EventLoop.objects_ (loop w') = EventLoop.objects_ (loop w) /\
         user w' = match TcpObject.on_fail_ c with
                   | Some f => f (user w) | None => user w end /\
         trace w' = trace w ++ ObsError ::
                      match TcpObject.on_fail_ c with
                      | Some _ => [ObsConnectFail a] | None => [] end).
Proof.
  intros Hin H. unfold TcpObject_Connect in H.
  destruct (get_tcp a w) as [c|] eqn:Hc; simpl in H; [|discriminate].
  destruct (negb (TcpObject.State_eqb _ _)); [discriminate|].
  destruct (EventLoop.reactor_ (loop w)) as [r0|] eqn:Hr0; simpl in H;
    [|discriminate].
  destruct (negb (bev_new_ok env)); [discriminate|].
  destruct (negb (connect_err env =? 0)); [discriminate|].
  destruct (EventLoop_Register true (Some a) 0 w) as [[ok w1]|] eqn:HR;
    simpl in H; [|discriminate].
  destruct ok; [|discriminate].
  apply EventLoop_Register_shape_within in HR
    as (o & uid & gen & r & r' & Ho & Hm1 & Hge & Hfree & Hr & Hrf & HRr & ->);
    [|exact Hin].
  assert (Eo : o = HTcp c).
  { unfold get_tcp in Hc. rewrite Ho in Hc. destruct o; [discriminate|].
    congruence. }
  subst o.
  destruct (reactor_Register_accepts a (HTcp c) uid 0 r Hge Hrf)
    as (r2 & HR2 & _ & H0 & _).
  rewrite HRr in HR2. injection HR2 as <-. rewrite (H0 eq_refl) in *.
  clear H0 HRr.
  unfold get_tcp at 1 in H. simpl in H. rewrite lookup_insert_eq in H.
  simpl in H. injection H as <-.
  rewrite Hr in Hr0. injection Hr0 as <-.
  exists c, uid. split; [reflexivity|]. split; [exact Hge|].
  split; [exact Hfree|].
  split; [unfold state_of; rewrite get_tcp_put_tcp; reflexivity|].
  split; [reflexivity|]. split; [simpl; rewrite ?Hr; reflexivity|].
  intros events. unfold TcpObject_OnEvent. rewrite get_tcp_put_tcp. simpl.
  destruct (Z.land events BEV_EVENT_CONNECTED =? 0) eqn:Ev; simpl.
  - apply Z.eqb_eq in Ev.
    unfold TcpObject_HandleConnectFailed. rewrite get_tcp_put_tcp. simpl.
    unfold EventLoop_Unregister.
    destruct (TcpObject.on_fail_ c) as [f|]; simpl;
      rewrite lookup_insert_eq; simpl;
      (destruct (uid <? 0) eqn:Eneg; [apply Z.ltb_lt in Eneg; lia|]); simpl;
      rewrite lookup_insert_eq;
      (case_bool_decide as Hreg; [|exfalso; apply Hreg; eauto]); simpl;
      (eexists; split; [reflexivity|]);
      (split; [unfold uid_of; simpl; rewrite lookup_insert_eq; reflexivity|]);
      (split; [simpl; rewrite ?Hr; unfold LibeventReactor.Unregister; simpl;
               rewrite Hrf; reflexivity|]);
      (split; [intros Hx; contradiction|]); intros _;
      (split; [unfold state_of, get_tcp; simpl; rewrite lookup_insert_eq;
               reflexivity|]);
      (split; [simpl; apply delete_insert_id; exact Hfree|]);
      split; simpl; try reflexivity;
      rewrite <- app_assoc; reflexivity.
  - apply Z.eqb_neq in Ev.
    unfold TcpObject_HandleConnect. rewrite get_tcp_put_tcp. simpl.
    eexists. split; [reflexivity|].
    split; [unfold uid_of; destruct (TcpObject.on_new_conn_ c); simpl;
            rewrite lookup_insert_eq; reflexivity|].
    split; [destruct (TcpObject.on_new_conn_ c); simpl; rewrite ?Hr;
            reflexivity|].
    split; [|intros Hx; contradiction]. intros _.
    split; [unfold state_of, get_tcp; destruct (TcpObject.on_new_conn_ c);
            simpl; rewrite lookup_insert_eq; reflexivity|].
    split; [unfold get_tcp; destruct (TcpObject.on_new_conn_ c);
            simpl; rewrite lookup_insert_eq; reflexivity|].
    split; [destruct (TcpObject.on_new_conn_ c); reflexivity|].
    split; destruct (TcpObject.on_new_conn_ c); simpl; try reflexivity.
    rewrite app_nil_r. reflexivity.
Qed.

(** ** The two tables along a run *)

Lemma same_tables_refl (w : World) : same_tables w w.
Proof. repeat split. Qed.

Lemma same_tables_trans (w1 w2 w3 : World) :
  same_tables w1 w2 -> same_tables w2 w3 -> same_tables w1 w3.
Proof.
  intros (Hg1 & Ho1 & Hr1) (Hg2 & Ho2 & Hr2).
  split; [congruence|]. split; congruence.
Qed.

Lemma keeps_tables_refl (w : World) : keeps_tables w w.
Proof. intros H. exact H. Qed.

Lemma keeps_tables_trans (w1 w2 w3 : World) :
  keeps_tables w1 w2 -> keeps_tables w2 w3 -> keeps_tables w1 w3.
Proof. intros H12 H23 H. apply H23, H12, H. Qed.

Lemma same_tables_keeps (w w' : World) : same_tables w w' -> keeps_tables w w'.
Proof.
  intros (Hg & Ho & Hr) (Hin & Hgen). split; [|rewrite Hg; exact Hgen].
  intros r' k Hr' Hk. rewrite Ho. rewrite Hr' in Hr. simpl in Hr.
  destruct (EventLoop.reactor_ (loop w)) as [r|] eqn:E; [|discriminate].
  injection Hr as Hr. apply (Hin r k E). rewrite <- Hr. exact Hk.
Qed.

Lemma same_tables_loop (w w' : World) :
  loop w' = loop w -> obj_id_generator_ w' = obj_id_generator_ w ->
  same_tables w w'.
Proof. intros Hl Hg. unfold same_tables. rewrite Hl, Hg. repeat split. Qed.

Ltac tables_framed :=
  first [apply same_tables_loop; reflexivity | (split; [|split]); reflexivity].

(** The reactor is replaced by one with the same registration records. *)
Lemma same_tables_reactor (r r' : LibeventReactor.t U) (w w' : World) :
  EventLoop.reactor_ (loop w) = Some r ->
  LibeventReactor.objects_ r' = LibeventReactor.objects_ r ->
  EventLoop.reactor_ (loop w') = Some r' ->
  EventLoop.objects_ (loop w') = EventLoop.objects_ (loop w) ->
  obj_id_generator_ w' = obj_id_generator_ w ->
  same_tables w w'.
Proof.
  intros Hr Ho Hr' Hobjs Hg. split; [exact Hg|]. split; [exact Hobjs|].
  rewrite Hr, Hr'. simpl. rewrite Ho. reflexivity.
Qed.

Lemma Cancel_objects tid (r : LibeventReactor.t U) ok r' :
  LibeventReactor.Cancel tid r = (ok, r') ->
  LibeventReactor.objects_ r' = LibeventReactor.objects_ r.
Proof.
  unfold LibeventReactor.Cancel.
  destruct (LibeventReactor.timers_ r !! tid); intros [= <- <-]; reflexivity.
Qed.

Lemma alloc_unique_id_gen fuel gen (objs : gmap Z addr) uid gen' :
  alloc_unique_id fuel gen objs = Some (uid, gen') ->
  gen' = uid /\ 0 <= uid <= MachInt.INT_MAX.
Proof.
  revert gen. induction fuel as [|fuel IH]; intros gen;
    unfold alloc_unique_id; fold alloc_unique_id; simpl; [discriminate|].
  destruct (MachInt.to_int (gen + 1) <? 0) eqn:Hneg; simpl.
  - apply IH.
  - case_bool_decide as Hin.
    + apply IH.
    + intros [= <- <-]. split; [reflexivity|].
      pose proof (to_int_range (gen + 1)). apply Z.ltb_ge in Hneg. lia.
Qed.

Lemma insert_new_is_Some i a (objs : gmap Z addr) k :
  k = i \/ is_Some (objs !! k) -> is_Some (insert_new i a objs !! k).
Proof.
  unfold insert_new. intros [-> | Hk].
  - destruct (objs !! i) eqn:E; [rewrite E; eauto|].
    rewrite lookup_insert_eq. eauto.
  - destruct (objs !! i) eqn:E; [exact Hk|].
    destruct (decide (i = k)) as [->|Hne];
      [rewrite lookup_insert_eq; eauto|].
    rewrite lookup_insert_ne by assumption. exact Hk.
Qed.

Lemma Register_keeps_tables in_loop obj events (w w' : World) b :
  EventLoop_Register in_loop obj events w = Some (b, w') -> keeps_tables w w'.
Proof.
  unfold EventLoop_Register. intros H.
  destruct obj as [a|]; [|injection H as <- <-; apply keeps_tables_refl].
  destruct (heap w !! a) as [o|]; simpl in H; [|discriminate].
  destruct in_loop; simpl in H; [|discriminate].
  destruct (negb _); [discriminate|].
  destruct (EventLoop.reactor_ (loop w)) as [r|] eqn:Hr;
    [|injection H as <- <-; apply keeps_tables_refl].
  destruct (alloc_unique_id _ _ _) as [[uid gen]|] eqn:Ha; simpl in H;
    [|discriminate].
  apply alloc_unique_id_gen in Ha as [-> Huid].
  unfold LibeventReactor.Register in H. simpl in H.
  rewrite GetUniqueId_SetUniqueId in H.
  intros [Hin Hgen].
  destruct (events =? 0); simpl in H.
  { injection H as <- <-. split; [|simpl; lia].
    intros r0 k Hr0 Hk. simpl in Hr0. injection Hr0 as <-. simpl.
    apply insert_new_is_Some. right. apply (Hin r k Hr Hk). }
  destruct (uid <? 0); simpl in H; [discriminate|].
  destruct (LibeventReactor.objects_ r !! uid) eqn:Hu; simpl in H.
  - injection H as <- <-. split; [|simpl; lia].
    intros r0 k Hr0 Hk. simpl in Hr0. injection Hr0 as <-. simpl.
    apply (Hin r k Hr Hk).
  - injection H as <- <-. split; [|simpl; lia].
    intros r0 k Hr0 Hk. simpl in Hr0. injection Hr0 as <-. simpl in Hk |- *.
    apply insert_new_is_Some.
    destruct (decide (k = uid)) as [->|Hne]; [left; reflexivity|right].
    rewrite lookup_insert_ne in Hk by congruence. apply (Hin r k Hr Hk).
Qed.

Lemma Unregister_keeps_tables in_loop obj (w w' : World) :
  EventLoop_Unregister in_loop obj w = Some w' -> keeps_tables w w'.
Proof.
  unfold EventLoop_Unregister. intros H.
  destruct obj as [a|]; [|injection H as <-; apply keeps_tables_refl].
  destruct (heap w !! a) as [o|]; simpl in H; [|discriminate].
  destruct in_loop; simpl in H; [|discriminate].
  destruct (GetUniqueId o <? 0); simpl in H; [discriminate|].
  destruct (bool_decide _); simpl in H; [|discriminate].
  destruct (EventLoop.reactor_ (loop w)) as [r|] eqn:Hr;
    injection H as <-; [|apply keeps_tables_refl].
  intros [Hin Hgen]. split; [|exact Hgen].
  intros r0 k Hr0 Hk. simpl in Hr0. injection Hr0 as <-. simpl.
  unfold LibeventReactor.Unregister in Hk. simpl in Hk.
  assert (Hk' : k <> GetUniqueId o /\ is_Some (LibeventReactor.objects_ r !! k)).
  { destruct (LibeventReactor.objects_ r !! GetUniqueId o) eqn:E.
    - simpl in Hk. apply lookup_delete_is_Some in Hk as [Hne Hk].
      split; [congruence|exact Hk].
    - split; [|exact Hk]. intros ->. rewrite E in Hk.
      destruct Hk as [x Hx]. discriminate. }
  destruct Hk' as [Hne Hk']. apply lookup_delete_is_Some.
  split; [congruence|]. apply (Hin r k Hr Hk').
Qed.

Lemma HandleConnect_tables in_loop a' (w w' : World) :
  TcpObject_HandleConnect in_loop a' w = Some w' -> same_tables w w'.
Proof.
  unfold TcpObject_HandleConnect. intros H.
  destruct (get_tcp a' w) as [c|]; simpl in H; [|discriminate].
  destruct in_loop; simpl in H; [|discriminate].
  destruct (negb _); simpl in H; [discriminate|].
  destruct (TcpObject.bev_ c) as [b|]; simpl in H; [|discriminate].
  injection H as <-. destruct (TcpObject.on_new_conn_ c); tables_framed.
Qed.

Lemma HandleConnectFailed_keeps_tables in_loop a' (w w' : World) :
  TcpObject_HandleConnectFailed in_loop a' w = Some w' -> keeps_tables w w'.
Proof.
  unfold TcpObject_HandleConnectFailed. intros H.
  destruct (get_tcp a' w) as [c|]; simpl in H; [|discriminate].
  destruct in_loop; simpl in H; [|discriminate].
  destruct (TcpObject.State_eqb _ _); simpl in H; [|discriminate].
  eapply keeps_tables_trans; [|eapply Unregister_keeps_tables; exact H].
  apply same_tables_keeps. destruct (TcpObject.on_fail_ c); tables_framed.
Qed.

Lemma HandleDisconnect_keeps_tables in_loop a' (w w' : World) :
  TcpObject_HandleDisconnect in_loop a' w = Some w' -> keeps_tables w w'.
Proof.
  unfold TcpObject_HandleDisconnect. intros H.
  destruct (get_tcp a' w) as [c|]; simpl in H; [|discriminate].
  destruct in_loop; simpl in H; [|discriminate].
  destruct (TcpObject.State_eqb _ _); simpl in H; [|discriminate].
  eapply keeps_tables_trans; [|eapply Unregister_keeps_tables; exact H].
  apply same_tables_keeps. destruct (TcpObject.on_disconnect_ c); tables_framed.
Qed.

Lemma Connect_keeps_tables in_loop a' ip port env (w w' : World) b :
  TcpObject_Connect in_loop a' ip port env w = Some (b, w') -> keeps_tables w w'.
Proof.
  unfold TcpObject_Connect. intros H.
  destruct (get_tcp a' w) as [c|]; simpl in H; [|discriminate].
  destruct in_loop; simpl in H; [|discriminate].
  destruct (negb _);
    [injection H as <- <-; apply same_tables_keeps; tables_framed|].
  destruct (EventLoop.reactor_ (loop w)) as [r|]; simpl in H; [|discriminate].
  destruct (negb (bev_new_ok env));
    [injection H as <- <-; apply same_tables_keeps; tables_framed|].
  destruct (negb _);
    [injection H as <- <-; apply same_tables_keeps; tables_framed|].
  destruct (EventLoop_Register true (Some a') 0 w) as [[ok w1]|] eqn:HR;
    simpl in H; [|discriminate].
  eapply keeps_tables_trans; [eapply Register_keeps_tables; exact HR|].
  destruct ok.
  - destruct (get_tcp a' w1) as [c1|]; simpl in H; [|discriminate].
    injection H as <- <-. apply same_tables_keeps. tables_framed.
  - injection H as <- <-. apply same_tables_keeps. tables_framed.
Qed.

Lemma OnAccept_tables in_loop a' fd ip port bev_ok (w w' : World) :
  TcpObject_OnAccept in_loop a' fd ip port bev_ok w = Some w' -> same_tables w w'.
Proof.
  unfold TcpObject_OnAccept. intros H.
  destruct (get_tcp a' w) as [c|]; simpl in H; [|discriminate].
  destruct in_loop; simpl in H; [|discriminate].
  destruct bev_ok; simpl in H; [|discriminate].
  eapply same_tables_trans; [|eapply HandleConnect_tables; exact H].
  tables_framed.
Qed.

Lemma OnEvent_keeps_tables in_loop a' events (w w' : World) :
  TcpObject_OnEvent in_loop a' events w = Some w' -> keeps_tables w w'.
Proof.
  unfold TcpObject_OnEvent. intros H.
  destruct (get_tcp a' w) as [c|]; simpl in H; [|discriminate].
  destruct in_loop; simpl in H; [|discriminate].
  destruct (TcpObject.state_ c);
    try (injection H as <-; apply same_tables_keeps; tables_framed).
  - destruct (negb _).
    + apply same_tables_keeps. eapply HandleConnect_tables; exact H.
    + eapply HandleConnectFailed_keeps_tables; exact H.
  - destruct (negb _).
    + eapply HandleDisconnect_keeps_tables; exact H.
    + injection H as <-. apply keeps_tables_refl.
Qed.

Lemma consume_steps_tables fuel a' f (view : list Byte.byte) len :
  forall total (w w' : World) t e,
    consume_steps fuel a' f view len total w = Some (t, e, w') -> same_tables w w'.
Proof.
  induction fuel as [|fuel IH]; intros total w w' t e H;
    [rewrite consume_steps_O in H; discriminate|].
  rewrite consume_steps_eq in H.
  destruct (len <=? total); [injection H as <- <- <-; apply same_tables_refl|].
  cbv zeta in H.
  destruct (f (user w) _) as [r u'].
  destruct (0 <? MachInt.to_int r).
  - apply IH in H. eapply same_tables_trans; [|exact H]. tables_framed.
  - injection H as <- <- <-. tables_framed.
Qed.

Lemma consume_loop_tables a' f (view : list Byte.byte) len (w w' : World) t e :
  consume_loop a' f view len w = Some (t, e, w') -> same_tables w w'.
Proof.
  intros H. apply consume_loop_steps in H as (n & _ & H).
  eapply consume_steps_tables; exact H.
Qed.

Lemma OnRecvData_keeps_tables in_loop a' (w w' : World) :
  TcpObject_OnRecvData in_loop a' w = Some w' -> keeps_tables w w'.
Proof.
  unfold TcpObject_OnRecvData. intros H.
  destruct (get_tcp a' w) as [c|]; simpl in H; [|discriminate].
  destruct in_loop; simpl in H; [|discriminate].
  destruct (TcpObject.bev_ c) as [b|]; simpl in H; [|discriminate].
  set (c1 := if negb (TcpObject.idle_timer_ c =? -1)
             then TcpObject.set_last_active (clock w) c else c) in *.
  destruct (TcpObject.input b) as [|x rest];
    [injection H as <-; apply same_tables_keeps; tables_framed|].
  set (len := MachInt.to_int _) in H.
  destruct (if len <=? 0 then _ else _) as [[[t e] w2]|] eqn:Hloop;
    simpl in H; [|discriminate].
  assert (H2 : same_tables w w2).
  { destruct (len <=? 0); [injection Hloop as <- <- <-; tables_framed|].
    destruct (TcpObject.on_message_ c1) as [f|]; simpl in Hloop; [|discriminate].
    eapply same_tables_trans; [|eapply consume_loop_tables; exact Hloop].
    tables_framed. }
  set (w3 := if 0 <? t then _ else w2) in H.
  assert (H3 : same_tables w2 w3)
    by (unfold w3; destruct (0 <? t); tables_framed).
  eapply keeps_tables_trans;
    [apply same_tables_keeps; eapply same_tables_trans; [exact H2|exact H3]|].
  destruct e; [|injection H as <-; apply keeps_tables_refl].
  eapply HandleDisconnect_keeps_tables; exact H.
Qed.

Lemma readcb_keeps_tables in_loop a' bytes (w w' : World) :
  bufferevent_readcb in_loop a' bytes w = Some w' -> keeps_tables w w'.
Proof.
  unfold bufferevent_readcb. intros H.
  destruct (get_tcp a' w) as [c|]; simpl in H; [|discriminate].
  destruct (TcpObject.bev_ c) as [b|]; simpl in H; [|discriminate].
  destruct (TcpObject.read_enabled b);
    [|injection H as <-; apply keeps_tables_refl].
  destruct (TcpObject.readcb_set b);
    [|injection H as <-; apply same_tables_keeps; tables_framed].
  eapply keeps_tables_trans; [|eapply OnRecvData_keeps_tables; exact H].
  apply same_tables_keeps. tables_framed.
Qed.

Lemma SendPacket_tables in_loop a' data (w w' : World) b :
  TcpObject_SendPacket in_loop a' data w = Some (b, w') -> same_tables w w'.
Proof.
  unfold TcpObject_SendPacket. intros H.
  destruct (get_tcp a' w) as [c|]; simpl in H; [|discriminate].
  destruct (negb _); [injection H as <- <-; tables_framed|].
  destruct data as [d|]; [|injection H as <- <-; apply same_tables_refl].
  destruct (length d =? 0)%nat; [injection H as <- <-; apply same_tables_refl|].
  destruct in_loop; simpl in H; [|discriminate].
  destruct (TcpObject.bev_ c) as [bv|]; simpl in H; [|discriminate].
  injection H as <- <-. tables_framed.
Qed.

Lemma SendPacket_iovec_tables in_loop a' vs n (w w' : World) b :
  TcpObject_SendPacket_iovec in_loop a' vs n w = Some (b, w') -> same_tables w w'.
Proof.
  unfold TcpObject_SendPacket_iovec. intros H.
  destruct (get_tcp a' w) as [c|]; simpl in H; [|discriminate].
  destruct (negb _); [injection H as <- <-; tables_framed|].
  destruct vs as [d|]; [|injection H as <- <-; apply same_tables_refl].
  destruct (n <=? 0); [injection H as <- <-; apply same_tables_refl|].
  destruct in_loop; simpl in H; [|discriminate].
  destruct (TcpObject.bev_ c) as [bv|]; simpl in H; [|discriminate].
  injection H as <- <-. tables_framed.
Qed.

Lemma destroy_keeps_tables me (w w' : World) :
  ActiveClose_destroy me w = Some w' -> keeps_tables w w'.
Proof.
  unfold ActiveClose_destroy. intros H.
  destruct (get_tcp me w); [|injection H as <-; apply keeps_tables_refl].
  destruct (TcpObject.State_eqb _ _); [|injection H as <-; apply keeps_tables_refl].
  eapply HandleDisconnect_keeps_tables; exact H.
Qed.

Lemma run_closure_keeps_tables cl (w w' : World) v :
  run_closure cl w = Some (v, w') -> keeps_tables w w'.
Proof.
  unfold run_closure. intros H. destruct cl as [f|tid|tid ms cb rep|me].
  - destruct (f (user w)). injection H as <- <-.
    apply same_tables_keeps. tables_framed.
  - destruct (EventLoop.reactor_ (loop w)) as [r|] eqn:Hr.
    + destruct (LibeventReactor.Cancel tid r) as [ok r'] eqn:EC.
      injection H as <- <-. apply same_tables_keeps.
      apply (same_tables_reactor r r'); try reflexivity; [exact Hr|].
      eapply Cancel_objects; exact EC.
    + injection H as <- <-. apply keeps_tables_refl.
  - destruct (EventLoop.reactor_ (loop w)) as [r|] eqn:Hr; simpl in H;
      [|discriminate].
    injection H as <- <-. apply same_tables_keeps.
    eapply (same_tables_reactor r);
      [exact Hr| |reflexivity|reflexivity|reflexivity].
    destruct rep; reflexivity.
  - destruct (ActiveClose_destroy me w) as [w1|] eqn:Hd; simpl in H; [|discriminate].
    injection H as <- <-. eapply destroy_keeps_tables; exact Hd.
Qed.

Lemma run_task_keeps_tables (t : Task U V) (w w' : World) :
  run_task t w = Some w' -> keeps_tables w w'.
Proof.
  intros H. apply run_task_inv in H as (v & w1 & Hcl & ->).
  eapply (keeps_tables_trans _ (observe (ObsTaskRun (task_future t)) w));
    [apply same_tables_keeps; tables_framed|].
  eapply keeps_tables_trans; [eapply run_closure_keeps_tables; exact Hcl|].
  apply same_tables_keeps. tables_framed.
Qed.

Lemma run_tasks_keeps_tables (ts : list (Task U V)) : forall (w w' : World),
  run_tasks ts w = Some w' -> keeps_tables w w'.
Proof.
  induction ts as [|t ts IH]; intros w w' H; simpl in H.
  - injection H as <-. apply keeps_tables_refl.
  - destruct (run_task t w) as [w1|] eqn:Ht; simpl in H; [|discriminate].
    eapply keeps_tables_trans; [eapply run_task_keeps_tables; exact Ht|].
    apply IH. exact H.
Qed.

Lemma notify_tables (w w' : World) : notify w = Some w' -> same_tables w w'.
Proof.
  unfold notify. intros H.
  destruct (get_pipe _ w) as [p|]; simpl in H; [|discriminate].
  injection H as <-. tables_framed.
Qed.

Lemma Execute_keeps_tables in_loop cl (w w' : World) fut :
  EventLoop_Execute in_loop cl w = Some (fut, w') -> keeps_tables w w'.
Proof.
  unfold EventLoop_Execute. intros H. destruct in_loop.
  - destruct (run_task _ _) as [w2|] eqn:Ht; simpl in H; [|discriminate].
    injection H as <- <-.
    eapply keeps_tables_trans; [|eapply run_task_keeps_tables; exact Ht].
    apply same_tables_keeps. tables_framed.
  - destruct (notify _) as [w2|] eqn:Hn; simpl in H; [|discriminate].
    injection H as <- <-. apply same_tables_keeps.
    eapply same_tables_trans; [|eapply notify_tables; exact Hn]. tables_framed.
Qed.

Lemma Cancel_keeps_tables in_loop tid (w w' : World) fut :
  EventLoop_Cancel in_loop tid w = Some (fut, w') -> keeps_tables w w'.
Proof.
  unfold EventLoop_Cancel. intros H. destruct in_loop.
  - destruct (EventLoop.reactor_ (loop w)) as [r|] eqn:Hr.
    + destruct (LibeventReactor.Cancel tid r) as [ok r'] eqn:EC.
      injection H as <- <-. apply same_tables_keeps.
      apply (same_tables_reactor r r'); try reflexivity; [exact Hr|].
      eapply Cancel_objects; exact EC.
    + injection H as <- <-. apply same_tables_keeps. tables_framed.
  - eapply Execute_keeps_tables; exact H.
Qed.

Lemma ScheduleRepeatedly_keeps_tables in_loop ms cb (w w' : World) tid :
  EventLoop_ScheduleRepeatedly_ms timer_bits in_loop ms cb w = Some (tid, w') ->
  keeps_tables w w'.
Proof.
  unfold EventLoop_ScheduleRepeatedly_ms, next_timer_id. simpl. intros H.
  destruct in_loop.
  - destruct (EventLoop.reactor_ (loop w)) as [r|] eqn:Hr; simpl in H;
      [|discriminate].
    injection H as <- <-. apply same_tables_keeps.
    eapply (same_tables_reactor r);
      [exact Hr| |reflexivity|reflexivity|reflexivity].
    reflexivity.
  - destruct (EventLoop_Execute false _ _) as [[f w2]|] eqn:E; simpl in H; [|discriminate].
    injection H as <- <-.
    eapply keeps_tables_trans; [|eapply Execute_keeps_tables; exact E].
    apply same_tables_keeps. tables_framed.
Qed.

Lemma ScheduleLater_keeps_tables in_loop ms cb (w w' : World) tid :
  EventLoop_ScheduleLater_ms timer_bits in_loop ms cb w = Some (tid, w') ->
  keeps_tables w w'.
Proof.
  unfold EventLoop_ScheduleLater_ms, next_timer_id. simpl. intros H.
  destruct in_loop.
  - destruct (EventLoop.reactor_ (loop w)) as [r|] eqn:Hr; simpl in H;
      [|discriminate].
    injection H as <- <-. apply same_tables_keeps.
    eapply (same_tables_reactor r);
      [exact Hr| |reflexivity|reflexivity|reflexivity].
    reflexivity.
  - destruct (EventLoop_Execute false _ _) as [[f w2]|] eqn:E; simpl in H; [|discriminate].
    injection H as <- <-.
    eapply keeps_tables_trans; [|eapply Execute_keeps_tables; exact E].
    apply same_tables_keeps. tables_framed.
Qed.

Lemma ActiveClose_keeps_tables in_loop a' sync (w w' : World) :
  TcpObject_ActiveClose in_loop a' sync w = Some w' -> keeps_tables w w'.
Proof.
  unfold TcpObject_ActiveClose. intros H.
  destruct (get_tcp a' w); simpl in H; [|discriminate].
  destruct in_loop.
  - eapply destroy_keeps_tables; exact H.
  - destruct (EventLoop_Execute false _ w) as [[f w1]|] eqn:E; simpl in H; [|discriminate].
    injection H as <-. eapply Execute_keeps_tables; exact E.
Qed.

Lemma SetIdleTimeout_keeps_tables in_loop a' ms (w w' : World) :
  TcpObject_SetIdleTimeout timer_bits in_loop a' ms w = Some w' ->
  keeps_tables w w'.
Proof.
  unfold TcpObject_SetIdleTimeout. intros H.
  destruct (get_tcp a' w) as [c|]; simpl in H; [|discriminate].
  destruct (ms <=? 0); [injection H as <-; apply keeps_tables_refl|].
  set (w1 := put_tcp a' _ w) in H.
  assert (Hstep1 : keeps_tables w w1)
    by (apply same_tables_keeps; tables_framed).
  destruct (if negb _ then _ else Some w1) as [w2|] eqn:E2; simpl in H; [|discriminate].
  assert (Hstep2 : keeps_tables w1 w2).
  { destruct (negb _); [|injection E2 as <-; apply keeps_tables_refl].
    destruct (EventLoop_Cancel in_loop _ w1) as [[f wc]|] eqn:EC;
      simpl in E2; [|discriminate].
    injection E2 as <-. eapply Cancel_keeps_tables; exact EC. }
  destruct (EventLoop_ScheduleRepeatedly_ms _ _ _ _ w2) as [[tid w3]|] eqn:E3;
    simpl in H; [|discriminate].
  destruct (get_tcp a' w3) as [c3|]; simpl in H; [|discriminate].
  injection H as <-.
  eapply keeps_tables_trans; [exact Hstep1|].
  eapply keeps_tables_trans; [exact Hstep2|].
  eapply keeps_tables_trans; [eapply ScheduleRepeatedly_keeps_tables; exact E3|].
  apply same_tables_keeps. tables_framed.
Qed.

Lemma TimerCallback_keeps_tables tm (w w' : World) :
  LibeventReactor_TimerCallback tm w = Some w' -> keeps_tables w w'.
Proof.
  unfold LibeventReactor_TimerCallback. intros H.
  destruct (run_timer_cb _ _) as [w1|] eqn:Hcb; simpl in H; [|discriminate].
  assert (Hstep1 : keeps_tables w w1).
  { eapply (keeps_tables_trans _
              (observe (ObsTimerFired (LibeventReactor.id tm)) w));
      [apply same_tables_keeps; tables_framed|].
    unfold run_timer_cb in Hcb. destruct (LibeventReactor.callback tm) as [f|a'].
    - injection Hcb as <-. apply same_tables_keeps. tables_framed.
    - destruct (get_tcp a' _); [|injection Hcb as <-; apply keeps_tables_refl].
      destruct (TcpObject.CheckIdleTimeout _ _);
        [|injection Hcb as <-; apply keeps_tables_refl].
      eapply ActiveClose_keeps_tables; exact Hcb. }
  destruct (LibeventReactor.repeat tm); [injection H as <-; exact Hstep1|].
  destruct (EventLoop.reactor_ (loop w1)) as [r|] eqn:Hr; simpl in H;
    [|discriminate].
  injection H as <-.
  eapply keeps_tables_trans; [exact Hstep1|]. apply same_tables_keeps.
  eapply (same_tables_reactor r);
    [exact Hr| |reflexivity|reflexivity|reflexivity].
  eapply Cancel_objects. apply surjective_pairing.
Qed.

Lemma dispatch_keeps_tables e (w w' : World) :
  dispatch e w = Some w' -> keeps_tables w w'.
Proof.
  unfold dispatch. intros H.
  destruct (EventLoop.reactor_ (loop w)) as [r|]; simpl in H; [|discriminate].
  destruct e as [tid|oid].
  - destruct (LibeventReactor.timers_ r !! tid) as [tm|];
      [|injection H as <-; apply keeps_tables_refl].
    eapply TimerCallback_keeps_tables; exact H.
  - destruct (LibeventReactor.objects_ r !! oid) as [obj|];
      [|injection H as <-; apply keeps_tables_refl].
    destruct (LibeventReactor.read_event obj) as [ev|];
      [|injection H as <-; apply keeps_tables_refl].
    destruct (heap w !! LibeventReactor.ev_arg ev) as [[p|c]|];
      [| injection H as <-; apply keeps_tables_refl | discriminate].
    destruct (PipeObject.HandleReadEvent p) as [ok p'].
    destruct ok; [|discriminate]. injection H as <-.
    apply same_tables_keeps. tables_framed.
Qed.

Lemma dispatch_all_keeps_tables ready : forall (w w' : World),
  dispatch_all ready w = Some w' -> keeps_tables w w'.
Proof.
  induction ready as [|e ready IH]; intros w w' H; simpl in H.
  - injection H as <-. apply keeps_tables_refl.
  - destruct (dispatch e w) as [w1|] eqn:He; simpl in H; [|discriminate].
    eapply keeps_tables_trans; [eapply dispatch_keeps_tables; exact He|].
    apply IH. exact H.
Qed.

Lemma Run_iteration_keeps_tables try_lock ready ok (w w' : World) :
  EventLoop_Run_iteration try_lock ready ok w = Some w' -> keeps_tables w w'.
Proof.
  unfold EventLoop_Run_iteration, LibeventReactor_Poll. intros H.
  destruct (if try_lock then _ else Some w) as [w1|] eqn:E1; simpl in H; [|discriminate].
  assert (Hstep1 : keeps_tables w w1).
  { destruct try_lock; [|injection E1 as <-; apply keeps_tables_refl].
    eapply keeps_tables_trans; [|eapply run_tasks_keeps_tables; exact E1].
    apply same_tables_keeps. tables_framed. }
  destruct (EventLoop.reactor_ (loop w1)); simpl in H; [|discriminate].
  destruct (dispatch_all ready _) as [w2|] eqn:E2; simpl in H; [|discriminate].
  injection H as <-.
  eapply keeps_tables_trans; [exact Hstep1|].
  eapply (keeps_tables_trans _ (observe ObsPoll w1));
    [apply same_tables_keeps; tables_framed|].
  eapply keeps_tables_trans; [eapply dispatch_all_keeps_tables; exact E2|].
  destruct ok; [apply keeps_tables_refl|apply same_tables_keeps; tables_framed].
Qed.

Lemma step_keeps_tables act (w w' : World) :
  step timer_bits act w = Some w' -> keeps_tables w w'.
Proof.
  destruct act; simpl; intros H.
  - destruct (TcpObject_Connect _ _ _ _ _ _) as [[b w1]|] eqn:E; [|discriminate].
    injection H as <-. eapply Connect_keeps_tables; exact E.
  - apply same_tables_keeps. eapply OnAccept_tables; exact H.
  - destruct (EventLoop_Register _ _ _ _) as [[b w1]|] eqn:E; [|discriminate].
    injection H as <-. eapply Register_keeps_tables; exact E.
  - eapply OnEvent_keeps_tables; exact H.
  - eapply readcb_keeps_tables; exact H.
  - destruct (TcpObject_SendPacket _ _ _ _) as [[b w1]|] eqn:E; [|discriminate].
    injection H as <-. apply same_tables_keeps. eapply SendPacket_tables; exact E.
  - destruct (TcpObject_SendPacket_iovec _ _ _ _ _) as [[b w1]|] eqn:E; [|discriminate].
    injection H as <-. apply same_tables_keeps.
    eapply SendPacket_iovec_tables; exact E.
  - eapply ActiveClose_keeps_tables; exact H.
  - eapply SetIdleTimeout_keeps_tables; exact H.
  - destruct (EventLoop_Execute _ _ _) as [[b w1]|] eqn:E; [|discriminate].
    injection H as <-. eapply Execute_keeps_tables; exact E.
  - destruct (EventLoop_Cancel _ _ _) as [[b w1]|] eqn:E; [|discriminate].
    injection H as <-. eapply Cancel_keeps_tables; exact E.
  - destruct (EventLoop_ScheduleLater_ms _ _ _ _ _) as [[b w1]|] eqn:E; [|discriminate].
    injection H as <-. eapply ScheduleLater_keeps_tables; exact E.
  - destruct (EventLoop_ScheduleRepeatedly_ms _ _ _ _ _) as [[b w1]|] eqn:E; [|discriminate].
    injection H as <-. eapply ScheduleRepeatedly_keeps_tables; exact E.
  - eapply Run_iteration_keeps_tables; exact H.
  - injection H as <-. apply same_tables_keeps. tables_framed.
Qed.

Lemma run_keeps_tables acts : forall (w w' : World),
  run timer_bits acts w = Some w' -> keeps_tables w w'.
Proof.
  induction acts as [|act acts IH]; intros w w' H; simpl in H.
  - injection H as <-. apply keeps_tables_refl.
  - destruct (step timer_bits act w) as [w1|] eqn:E; simpl in H; [|discriminate].
    eapply keeps_tables_trans; [eapply step_keeps_tables; exact E|].
    apply IH. exact H.
Qed.

(** X18. Every operation of the
    runtime keeps the two tables in step: along every run, the reactor
    holds a registration record only for ids of the registry of the loop,
    and the generator of object ids stays within [0 .. INT_MAX]. Hence,
    at every point of a run, [EventLoop::Register] on the loop's thread
    of an object without id returns true for every mask as long as the
    loop has its reactor and an id in [1 .. INT_MAX] is free; the reactor
    never refuses an object the loop hands it. *)
Theorem Register_is_never_refused_along_a_run acts (w w' : World) :
  tables_inv w ->
  run timer_bits acts w = Some w' ->
  tables_inv w' /\
  forall a o events,
    heap w' !! a = Some o -> GetUniqueId o = -1 ->
    is_Some (EventLoop.reactor_ (loop w')) ->
    (exists k, 0 < k <= MachInt.INT_MAX /\
               EventLoop.objects_ (loop w') !! k = None) ->
    exists w'' uid,
      EventLoop_Register true (Some a) events w' = Some (true, w'') /\
      uid_of a w'' = Some uid /\ 0 <= uid /\
      EventLoop.objects_ (loop w') !! uid = None /\
      EventLoop.objects_ (loop w'') = <[uid := a]> (EventLoop.objects_ (loop w')) /\
      tables_inv w''.
Proof.
  intros Hinv Hrun.
  pose proof (run_keeps_tables acts w w' Hrun Hinv) as Hinv'.
  split; [exact Hinv'|].
  intros a o events Ho Hm1 [r Hr] Hfree. destruct Hinv' as [Hin Hgen].
  destruct (EventLoop_Register_succeeds a o events w' r Hin Ho Hm1 Hr Hgen Hfree)
    as (uid & r' & Hge & Hfu & _ & _ & HReg).
  eexists _, uid. split; [exact HReg|].
  split; [unfold uid_of; simpl; rewrite lookup_insert_eq; simpl;
          rewrite GetUniqueId_SetUniqueId; reflexivity|].
  split; [exact Hge|]. split; [exact Hfu|]. split; [reflexivity|].
  exact (Register_keeps_tables _ _ _ _ _ _ HReg (conj Hin Hgen)).
Qed.

(** ** Leaving Run *)

Lemma Unregister_running in_loop obj (w w' : World) :
  EventLoop_Unregister in_loop obj w = Some w' -> same_running w w'.
Proof.
  unfold EventLoop_Unregister, same_running. intros H.
  destruct obj as [a|]; [|injection H as <-; reflexivity].
  destruct (heap w !! a) as [o|]; simpl in H; [|discriminate].
  destruct in_loop; simpl in H; [|discriminate].
  destruct (GetUniqueId o <? 0); simpl in H; [discriminate|].
  destruct (bool_decide _); simpl in H; [|discriminate].
  destruct (EventLoop.reactor_ (loop w)); injection H as <-; reflexivity.
Qed.

Lemma destroy_running me (w w' : World) :
  ActiveClose_destroy me w = Some w' -> same_running w w'.
Proof.
  unfold ActiveClose_destroy. intros H.
  destruct (get_tcp me w) as [c|] eqn:Hc; [|injection H as <-; reflexivity].
  destruct (TcpObject.State_eqb _ _); [|injection H as <-; reflexivity].
  unfold TcpObject_HandleDisconnect in H. rewrite Hc in H. simpl in H.
  destruct (negb _); simpl in H; [discriminate|].
  apply Unregister_running in H. unfold same_running in *. rewrite H.
  destruct (TcpObject.on_disconnect_ c); reflexivity.
Qed.

Lemma run_task_running (t : Task U V) (w w' : World) :
  run_task t w = Some w' -> same_running w w'.
Proof.
  intros H. apply run_task_inv in H as (v & w1 & Hcl & ->).
  unfold same_running. simpl.
  unfold run_closure in Hcl. destruct (task_body t) as [f|tid|tid ms cb rep|me].
  - destruct (f _). injection Hcl as <- <-. reflexivity.
  - simpl in Hcl. destruct (EventLoop.reactor_ (loop w)) as [r|].
    + destruct (LibeventReactor.Cancel tid r). injection Hcl as <- <-. reflexivity.
    + injection Hcl as <- <-. reflexivity.
  - simpl in Hcl.
    destruct (EventLoop.reactor_ (loop w)) as [r|]; simpl in Hcl; [|discriminate].
    injection Hcl as <- <-. reflexivity.
  - destruct (ActiveClose_destroy me _) as [w2|] eqn:Hd; simpl in Hcl;
      [|discriminate].
    injection Hcl as <- <-. apply destroy_running in Hd. exact Hd.
Qed.

Lemma run_tasks_running (ts : list (Task U V)) : forall (w w' : World),
  run_tasks ts w = Some w' -> same_running w w'.
Proof.
  induction ts as [|t ts IH]; intros w w' H; simpl in H.
  - injection H as <-. reflexivity.
  - destruct (run_task t w) as [w1|] eqn:Ht; simpl in H; [|discriminate].
    apply run_task_running in Ht. apply IH in H.
    unfold same_running in *. congruence.
Qed.

Lemma dispatch_running e (w w' : World) :
  dispatch e w = Some w' -> same_running w w'.
Proof.
  unfold dispatch, same_running. intros H.
  destruct (EventLoop.reactor_ (loop w)) as [r|]; simpl in H; [|discriminate].
  destruct e as [tid|oid].
  - destruct (LibeventReactor.timers_ r !! tid) as [tm|];
      [|injection H as <-; reflexivity].
    unfold LibeventReactor_TimerCallback in H.
    destruct (run_timer_cb _ _) as [w1|] eqn:Hcb; simpl in H; [|discriminate].
    assert (H1 : EventLoop.running_ (loop w1) = EventLoop.running_ (loop w)).
    { unfold run_timer_cb in Hcb. destruct (LibeventReactor.callback tm) as [f|a'].
      - injection Hcb as <-. reflexivity.
      - destruct (get_tcp a' _); [|injection Hcb as <-; reflexivity].
        destruct (TcpObject.CheckIdleTimeout _ _);
          [|injection Hcb as <-; reflexivity].
        unfold TcpObject_ActiveClose in Hcb.
        destruct (get_tcp a' _); simpl in Hcb; [|discriminate].
        apply destroy_running in Hcb. exact Hcb. }
    destruct (LibeventReactor.repeat tm); [injection H as <-; exact H1|].
    destruct (EventLoop.reactor_ (loop w1)); simpl in H; [|discriminate].
    injection H as <-. exact H1.
  - destruct (LibeventReactor.objects_ r !! oid) as [obj|];
      [|injection H as <-; reflexivity].
    destruct (LibeventReactor.read_event obj) as [ev|];
      [|injection H as <-; reflexivity].
    destruct (heap w !! LibeventReactor.ev_arg ev) as [[p|c]|];
      [| injection H as <-; reflexivity | discriminate].
    destruct (PipeObject.HandleReadEvent p) as [ok p'].
    destruct ok; [|discriminate]. injection H as <-. reflexivity.
Qed.

Lemma dispatch_all_running ready : forall (w w' : World),
  dispatch_all ready w = Some w' -> same_running w w'.
Proof.
  induction ready as [|e ready IH]; intros w w' H; simpl in H.
  - injection H as <-. reflexivity.
  - destruct (dispatch e w) as [w1|] eqn:He; simpl in H; [|discriminate].
    apply dispatch_running in He. apply IH in H.
    unfold same_running in *. congruence.
Qed.

Lemma Run_iteration_running try_lock ready ok (w w' : World) :
  EventLoop_Run_iteration try_lock ready ok w = Some w' -> same_running w w'.
Proof.
  unfold EventLoop_Run_iteration, LibeventReactor_Poll. intros H.
  destruct (if try_lock then _ else Some w) as [w1|] eqn:E1; simpl in H; [|discriminate].
  assert (H1 : same_running w w1).
  { destruct try_lock; [|injection E1 as <-; reflexivity].
    apply run_tasks_running in E1. exact E1. }
  destruct (EventLoop.reactor_ (loop w1)); simpl in H; [|discriminate].
  destruct (dispatch_all ready _) as [w2|] eqn:E2; simpl in H; [|discriminate].
  injection H as <-. apply dispatch_all_running in E2.
  unfold same_running in *. destruct ok; simpl; rewrite E2; exact H1.
Qed.

Lemma Run_loop_running rounds : forall (w : World),
  EventLoop.running_ (loop w) = true -> EventLoop_Run_loop rounds w = None.
Proof.
  induction rounds as [|[[tl ready] ok] rounds IH]; intros w Hrun; simpl;
    rewrite Hrun; [reflexivity|].
  destruct (EventLoop_Run_iteration tl ready ok w) as [w1|] eqn:E; [|reflexivity].
  simpl. apply IH. apply Run_iteration_running in E.
  unfold same_running in E. congruence.
Qed.

Lemma Run_running rounds entries (w : World) :
  EventLoop.running_ (loop w) = true -> EventLoop_Run rounds entries w = None.
Proof.
  intros Hrun. unfold EventLoop_Run, EventLoop_Run_enter.
  destruct (EventLoop_Register _ _ _ _) as [[ok w1]|] eqn:HR; [|reflexivity].
  simpl. rewrite Run_loop_running; [reflexivity|].
  rewrite <- Hrun. unfold EventLoop_Register in HR.
  destruct (heap w !! _) as [o|]; simpl in HR; [|discriminate].
  destruct (negb _); [discriminate|].
  destruct (EventLoop.reactor_ (loop w)) as [r|];
    [|injection HR as <- <-; reflexivity].
  destruct (alloc_unique_id _ _ _) as [[uid gen]|]; simpl in HR; [|discriminate].
  destruct (LibeventReactor.Register _ _ _) as [[b r']|]; simpl in HR;
    [|discriminate].
  destruct b; injection HR as <- <-; reflexivity.
Qed.

Lemma unregister_all_rest entries : forall (w w' : World),
  unregister_all entries w = Some w' ->
  EventLoop.tasks_ (loop w') = EventLoop.tasks_ (loop w) /\
  futures w' = futures w /\ trace w' = trace w /\ user w' = user w /\
  heap w' = heap w.
Proof.
  induction entries as [|[k a] entries IH]; intros w w' H; simpl in H.
  - injection H as <-. repeat split.
  - destruct (EventLoop.reactor_ (loop w)) as [r|]; simpl in H; [|discriminate].
    destruct (heap w !! a) as [o|]; simpl in H; [|discriminate].
    apply IH in H. exact H.
Qed.

(** X19. Nothing the loop itself does in a turn
    (running the inbox, firing timers, reading the notifier, closing
    connections) clears [running_]: a loop that has not been stopped is
    still in its [while] after any number of turns, so [Run] does not
    return. After [Stop] the loop
    takes no further turn, and [Run] goes on to clear the registry and
    the reactor without draining the inbox: a closure posted from another
    thread before the [Stop] is never run, its future is never fulfilled,
    and it is still in the inbox when [Run] has returned. *)
Theorem Run_ends_only_by_Stop rounds entries cl fut (w w1 w2 : World) :
  EventLoop.running_ (loop w) = true ->
  EventLoop_Execute false cl w = Some (fut, w1) ->
  EventLoop_Stop w1 = Some w2 ->
  EventLoop_Run rounds entries w = None /\
  EventLoop_Run_loop rounds w = None /\
  EventLoop_Run_loop rounds w1 = None /\
  EventLoop_Run_loop rounds w2 = Some w2 /\
  forall w3,
    EventLoop_Run_exit entries w2 = Some w3 ->
    EventLoop.tasks_ (loop w3) = EventLoop.tasks_ (loop w) ++ [mkTask cl fut] /\
    futures w3 = futures w ++ [None] /\
    futures w3 !! fut = Some None /\
    trace w3 = trace w /\ user w3 = user w /\
    EventLoop.objects_ (loop w3) = ∅ /\ EventLoop.reactor_ (loop w3) = None.
Proof.
  intros Hrun HE HS.
  unfold EventLoop_Execute in HE.
  destruct (notify _) as [wn|] eqn:Hn; simpl in HE; [|discriminate].
  assert (Ef : fut = length (futures w)) by congruence.
  assert (Ew : w1 = wn) by congruence.
  subst fut w1. clear HE.
  unfold notify in Hn.
  destruct (get_pipe _ _) as [p|] eqn:Hp; simpl in Hn; [|discriminate].
  injection Hn as <-.
  unfold EventLoop_Stop, notify in HS.
  match type of HS with
  | context [get_pipe ?n ?x] => destruct (get_pipe n x) as [q|] eqn:Hq
  end; simpl in HS; [|discriminate].
  injection HS as <-.
  split; [apply Run_running; exact Hrun|].
  split; [apply Run_loop_running; exact Hrun|].
  split; [apply Run_loop_running; exact Hrun|].
  split; [destruct rounds; reflexivity|].
  intros w3 Hexit. unfold EventLoop_Run_exit in Hexit.
  destruct (unregister_all entries _) as [w4|] eqn:Hu; simpl in Hexit;
    [|discriminate].
  injection Hexit as <-.
  apply unregister_all_rest in Hu as (Ht & Hf & Htr & Hus & _).
  simpl in *. rewrite Ht, Hf, Htr, Hus.
  split; [reflexivity|]. split; [reflexivity|].
  split; [apply list_lookup_middle; reflexivity|].
  repeat split.
Qed.

(** ** Several closures posted before a turn *)

Lemma Notify_pending (p : PipeObject.t) :
  (PipeObject.pending p <= PipeObject.capacity p)%nat ->
  PipeObject.pending (snd (PipeObject.Notify p))
  = Nat.min (PipeObject.capacity p) (S (PipeObject.pending p)) /\
  PipeObject.capacity (snd (PipeObject.Notify p)) = PipeObject.capacity p.
Proof.
  intros Hle. unfold PipeObject.Notify.
  destruct (_ <? _)%nat eqn:E; simpl.
  - apply Nat.ltb_lt in E. split; [lia|reflexivity].
  - apply Nat.ltb_ge in E. split; [lia|reflexivity].
Qed.

Lemma post_all_spec fs : forall (w : World) p,
  get_pipe (EventLoop.notifier_ (loop w)) w = Some p ->
  (PipeObject.pending p <= PipeObject.capacity p)%nat ->
  exists w1 q,
    post_all fs w = Some w1 /\
    EventLoop.tasks_ (loop w1)
    = EventLoop.tasks_ (loop w) ++ user_tasks (length (futures w)) fs /\
    futures w1 = futures w ++ replicate (length fs) None /\
    EventLoop.notifier_ (loop w1) = EventLoop.notifier_ (loop w) /\
    heap w1 = <[EventLoop.notifier_ (loop w) := HPipe q]> (heap w) /\
    PipeObject.pending q
    = Nat.min (PipeObject.capacity p) (PipeObject.pending p + length fs) /\
    EventLoop.reactor_ (loop w1) = EventLoop.reactor_ (loop w) /\
    EventLoop.objects_ (loop w1) = EventLoop.objects_ (loop w) /\
    user w1 = user w /\ trace w1 = trace w.
Proof.
  induction fs as [|f fs IH]; intros w p Hp Hle; simpl.
  - exists w, p. split; [reflexivity|]. rewrite !app_nil_r.
    split; [reflexivity|]. split; [reflexivity|]. split; [reflexivity|].
    split.
    { unfold get_pipe in Hp.
      destruct (heap w !! EventLoop.notifier_ (loop w)) as [[q|c]|] eqn:E;
        try discriminate.
      injection Hp as ->. rewrite insert_id by exact E. reflexivity. }
    split; [lia|]. repeat split.
  - unfold EventLoop_Execute.
    set (wq := with_tasks _ _).
    assert (Hpq : get_pipe (EventLoop.notifier_ (loop wq)) wq = Some p)
      by exact Hp.
    unfold notify. rewrite Hpq. simpl.
    set (w1 := with_heap _ _).
    destruct (Notify_pending p Hle) as [Hpend Hcap].
    destruct (IH w1 (snd (PipeObject.Notify p))) as
      (w2 & q & Hpost & Ht & Hf & Hn & Hh & Hq & Hr & Ho & Hu & Htr).
    { unfold get_pipe, w1. simpl. rewrite lookup_insert_eq. reflexivity. }
    { rewrite Hpend, Hcap. lia. }
    exists w2, q. split; [exact Hpost|].
    split.
    { rewrite Ht. unfold w1. simpl. rewrite length_app. simpl.
      rewrite <- app_assoc. simpl. rewrite Nat.add_1_r. reflexivity. }
    split.
    { rewrite Hf. unfold w1. simpl. rewrite <- app_assoc. reflexivity. }
    split; [rewrite Hn; reflexivity|].
    split.
    { rewrite Hh. unfold w1. simpl. rewrite insert_insert_eq. reflexivity. }
    split; [rewrite Hq, Hpend, Hcap; lia|].
    split; [rewrite Hr; reflexivity|]. split; [rewrite Ho; reflexivity|].
    split; [rewrite Hu; reflexivity|rewrite Htr; reflexivity].
Qed.

Lemma run_user_tasks fs : forall base (w : World) A B,
  futures w = A ++ replicate (length fs) None ++ B ->
  length A = base ->
  exists w',
    run_tasks (user_tasks base fs) w = Some w' /\
    futures w'
    = A ++ map (fun v => Some (VUser v)) (fst (run_users fs (user w))) ++ B /\
    user w' = snd (run_users fs (user w)) /\
    trace w' = trace w ++ map ObsTaskRun (seq base (length fs)) /\
    loop w' = loop w /\ heap w' = heap w.
Proof.
  induction fs as [|f fs IH]; intros base w A B Hf Hlen; simpl.
  - exists w. rewrite app_nil_r. repeat split. exact Hf.
  - unfold run_task, run_closure. simpl.
    change (user (observe (ObsTaskRun base) w)) with (user w).
    destruct (f (user w)) as [v u1] eqn:Ef. simpl.
    set (w1 := fulfil base _ _).
    destruct (IH (S base) w1 (A ++ [Some (VUser v)]) B) as
      (w' & Hrun & Hf' & Hu & Htr & Hl & Hh).
    { unfold w1. simpl. rewrite Hf. simpl.
      rewrite insert_app_r_alt by lia. rewrite Hlen, Nat.sub_diag. simpl.
      rewrite <- app_assoc. reflexivity. }
    { rewrite length_app. simpl. lia. }
    exists w'. split; [exact Hrun|].
    assert (Eu : user w1 = u1) by reflexivity. rewrite Eu in *.
    destruct (run_users fs u1) as [vs u2]. simpl in *.
    split; [rewrite Hf', <- app_assoc; reflexivity|].
    split; [exact Hu|].
    split; [rewrite Htr; unfold w1; simpl; rewrite <- app_assoc; reflexivity|].
    split; [rewrite Hl; reflexivity|rewrite Hh; reflexivity].
Qed.

(** X20. Closures posted from other
    threads before a turn of the loop are all run by that turn, in the
    order in which they were posted, each on the state the one before it
    left, and every future is fulfilled with the value of its closure.
    Each post writes one byte to the notifier unless the pipe is full, in
    which case the closure is queued all the same; the turn reads one
    byte only, so the pipe still holds the others afterwards. *)
Theorem One_turn_runs_all_posted_closures fs (w : World) p r k obj ev :
  let n := EventLoop.notifier_ (loop w) in
  get_pipe n w = Some p ->
  (PipeObject.pending p <= PipeObject.capacity p)%nat ->
  (0 < PipeObject.capacity p)%nat ->
  fs <> [] ->
  EventLoop.tasks_ (loop w) = [] ->
  EventLoop.reactor_ (loop w) = Some r ->
  LibeventReactor.objects_ r !! k = Some obj ->
  LibeventReactor.read_event obj = Some ev ->
  LibeventReactor.ev_arg ev = n ->
  let posted := Nat.min (PipeObject.capacity p)
                  (PipeObject.pending p + length fs) in
  exists w1 w2,
    post_all fs w = Some w1 /\
    EventLoop.tasks_ (loop w1) = user_tasks (length (futures w)) fs /\
    futures w1 = futures w ++ replicate (length fs) None /\
    (PipeObject.pending <$> get_pipe n w1) = Some posted /\
    EventLoop_Run_iteration true [PeReadable k] true w1 = Some w2 /\
    EventLoop.tasks_ (loop w2) = [] /\
    user w2 = snd (run_users fs (user w)) /\
    futures w2
    = futures w ++ map (fun v => Some (VUser v)) (fst (run_users fs (user w))) /\
    (PipeObject.pending <$> get_pipe n w2) = Some (posted - 1)%nat /\
    trace w2
    = trace w ++ map ObsTaskRun (seq (length (futures w)) (length fs))
      ++ [ObsPoll].
Proof.
  intros n Hp Hle Hcap Hfs Hempty Hr Hobj Hev Harg posted.
  destruct (post_all_spec fs w p Hp Hle) as
    (w1 & q & Hpost & Ht & Hf & Hn & Hh & Hq & Hr1 & _ & Hu & Htr).
  fold n in Hh, Hn. rewrite Hempty in Ht. simpl in Ht.
  assert (Hq1 : get_pipe n w1 = Some q)
    by (unfold get_pipe; rewrite Hh, lookup_insert_eq; reflexivity).
  destruct (run_user_tasks fs (length (futures w)) (with_tasks [] w1)
              (futures w) []) as (wt & Hrun & Hft & Hut & Htt & Hlt & Hht);
    [simpl; rewrite Hf, app_nil_r; reflexivity | reflexivity |].
  assert (Hu' : user (with_tasks [] w1) = user w) by exact Hu.
  assert (Htr' : trace (with_tasks [] w1) = trace w) by exact Htr.
  rewrite Hu' in Hut, Hft. rewrite Htr' in Htt. clear Hu' Htr'.
  simpl in Hlt, Hht. rewrite app_nil_r in Hft.
  assert (Hpos : exists m, PipeObject.pending q = S m).
  { destruct (PipeObject.pending q) eqn:E; [|eauto].
    destruct fs; [contradiction|]. simpl in Hq. lia. }
  destruct Hpos as [m Hm].
  exists w1. eexists. split; [exact Hpost|]. split; [exact Ht|].
  split; [exact Hf|].
  split; [rewrite Hq1; simpl; rewrite Hq; reflexivity|].
  split.
  { unfold EventLoop_Run_iteration, LibeventReactor_Poll. rewrite Ht, Hrun.
    simpl. rewrite Hlt. simpl. rewrite Hr1, Hr. simpl.
    unfold dispatch. simpl. rewrite Hlt. simpl. rewrite Hr1, Hr. simpl.
    rewrite Hobj, Hev, Harg, Hht. simpl. rewrite Hh, lookup_insert_eq.
    unfold PipeObject.HandleReadEvent. rewrite Hm. simpl. reflexivity. }
  simpl. rewrite Hlt. simpl.
  split; [reflexivity|]. split; [exact Hut|]. split; [exact Hft|].
  split.
  { unfold get_pipe. simpl. rewrite lookup_insert_eq. simpl.
    unfold posted. rewrite <- Hq, Hm. f_equal. lia. }
  rewrite Htt, <- app_assoc. reflexivity.
Qed.

(** ** The order of the states *)

Lemma new_conns_app a t1 t2 :
  new_conns a (t1 ++ t2) = new_conns a t1 ++ new_conns a t2.
Proof. apply List.filter_app. Qed.

Lemma new_conns_lifecycle a tr : new_conns a (lifecycle a tr) = new_conns a tr.
Proof.
  induction tr as [|o tr IH]; [reflexivity|].
  unfold lifecycle, new_conns in *. simpl.
  destruct (is_lifecycle a o) eqn:E; simpl.
  - rewrite IH. reflexivity.
  - rewrite IH. destruct o; simpl in *; try reflexivity. rewrite E. reflexivity.
Qed.

Lemma conn_trans_rank a v1 v2 :
  conn_trans a v1 v2 -> (state_rank (fst v1) <= state_rank (fst v2))%nat.
Proof.
  induction 1 as [v|l|s l l' Hs Hl|l l' Hl|l l' Hl|v1 v2 v3 H12 IH12 H23 IH23];
    simpl; try lia.
  destruct Hs as [-> | ->]; simpl; lia.
Qed.

(** [kFailed] is entered from [kConnecting] only. *)
Lemma conn_trans_to_failed a v1 v2 :
  conn_trans a v1 v2 -> fst v2 = TcpObject.kFailed ->
  fst v1 = TcpObject.kFailed \/ (state_rank (fst v1) < 2)%nat.
Proof.
  induction 1 as [v|l|s l l' Hs Hl|l l' Hl|l l' Hl|v1 v2 v3 H12 IH12 H23 IH23];
    simpl; intros Hf; try discriminate.
  - left. exact Hf.
  - right. lia.
  - destruct (IH23 Hf) as [H2 | H2]; [exact (IH12 H2)|].
    right. apply conn_trans_rank in H12. lia.
Qed.

Lemma conn_trans_advance a v1 v2 :
  conn_trans a v1 v2 ->
  exists extra,
    new_conns a (snd v2) = new_conns a (snd v1) ++ extra /\
    (length extra <= 1)%nat /\
    ((2 <= state_rank (fst v1))%nat \/ (state_rank (fst v2) < 2)%nat \/
     fst v2 = TcpObject.kFailed -> extra = []).
Proof.
  assert (Hself : N.eqb a a = true) by apply N.eqb_refl.
  induction 1 as [v|l|s l l' Hs Hl|l l' Hl|l l' Hl|v1 v2 v3 H12 IH12 H23 IH23];
    simpl.
  - exists []. rewrite app_nil_r. repeat split; auto.
  - exists []. rewrite app_nil_r. repeat split; auto.
  - destruct Hl as [-> | ->].
    + exists []. rewrite app_nil_r. repeat split; auto.
    + exists [ObsNewConn a]. rewrite new_conns_app.
      split; [unfold new_conns at 2; simpl; rewrite Hself; reflexivity|].
      split; [simpl; lia|].
      intros [Hx | [Hx | Hx]];
        [destruct Hs as [-> | ->]; simpl in Hx; lia | lia | discriminate].
  - exists [].
    destruct Hl as [-> | ->]; [|rewrite new_conns_app]; simpl;
      rewrite ?app_nil_r; repeat split; auto.
  - exists [].
    destruct Hl as [-> | ->]; [|rewrite new_conns_app]; simpl;
      rewrite ?app_nil_r; repeat split; auto.
  - destruct IH12 as (e12 & He12 & Hl12 & Hn12).
    destruct IH23 as (e23 & He23 & Hl23 & Hn23).
    pose proof (conn_trans_rank _ _ _ H12) as Hr12.
    pose proof (conn_trans_rank _ _ _ H23) as Hr23.
    exists (e12 ++ e23).
    split; [rewrite He23, He12, app_assoc; reflexivity|].
    destruct (le_lt_dec 2 (state_rank (fst v1))) as [Hge1|Hlt1].
    { rewrite Hn12, Hn23 by (left; lia). split; [simpl; lia|auto]. }
    destruct (le_lt_dec 2 (state_rank (fst v2))) as [Hge2|Hlt2].
    { rewrite (Hn23 (or_introl Hge2)), app_nil_r.
      split; [exact Hl12|]. intros [Hx | [Hx | Hx]]; [lia|lia|].
      destruct (conn_trans_to_failed _ _ _ H23 Hx) as [H2 | H2]; [|lia].
      apply Hn12. right. right. exact H2. }
    rewrite Hn12 by (right; left; lia). simpl. split; [exact Hl23|].
    intros [Hx | Hx]; [lia|]. apply Hn23. right. exact Hx.
Qed.

(** X21. Along every run of the runtime
    a connection only moves forward through [kNone], [kConnecting],
    [kConnected] and the two final states: it never returns to an earlier
    state, so it is connected at most once. [on_new_conn] is delivered
    for it at most once, and only in a stretch of the run in which it
    becomes [kConnected]; for a connection that is [kFailed] at the end
    it was not delivered in the run at all. [Connect] is one shot: once
    the connection has left [kNone], every later [Connect] on it returns
    false and changes nothing but the log. *)
Theorem Connection_states_only_advance a acts (w w' : World) s :
  state_of a w = Some s ->
  run timer_bits acts w = Some w' ->
  exists s' extra,
    state_of a w' = Some s' /\
    (state_rank s <= state_rank s')%nat /\
    new_conns a (trace w') = new_conns a (trace w) ++ extra /\
    (length extra <= 1)%nat /\
    ((2 <= state_rank s)%nat \/ (state_rank s' < 2)%nat \/
     s' = TcpObject.kFailed -> extra = []) /\
    (s <> TcpObject.kNone ->
     forall ip port env,
       TcpObject_Connect true a ip port env w'
       = Some (false, observe ObsError w')).
Proof.
  intros Hs Hrun.
  destruct (run_conn_step a acts w w' Hrun s Hs) as (s' & Hs' & Htr).
  pose proof (conn_trans_rank _ _ _ Htr) as Hrank.
  apply conn_trans_advance in Htr as (extra & He & Hl & Hn).
  simpl in *. rewrite !new_conns_lifecycle in He.
  exists s', extra. split; [exact Hs'|]. split; [exact Hrank|].
  split; [exact He|]. split; [exact Hl|]. split; [exact Hn|].
  intros Hne ip port env. unfold TcpObject_Connect.
  unfold state_of in Hs'. destruct (get_tcp a w') as [c|]; [|discriminate].
  simpl in Hs'. injection Hs' as Hs'. simpl. rewrite Hs'.
  destruct s'; try reflexivity.
  destruct s; simpl in Hrank; try lia. contradiction.
Qed.

(** ** The idle check and the width of [int] *)

Lemma to_int_second_half x :
  MachInt.INT_MAX < x < 2 ^ 32 -> MachInt.to_int x = x - 2 ^ 32.
Proof.
  rewrite INT_MAX_eq. intros Hx.
  unfold MachInt.to_int, MachInt.wrap, MachInt.int_bits.
  change (2 ^ (32 - 1)) with 2147483648.
  change (2 ^ 32) with 4294967296 in *.
  assert (E : (x + 2147483648) mod 4294967296 = x + 2147483648 - 4294967296).
  { symmetry. apply (Z.mod_unique _ _ 1); lia. }
  rewrite E. lia.
Qed.

(** X22. [CheckIdleTimeout] narrows the
    elapsed milliseconds to [int]. While the elapsed time fits, the check
    reports a timeout exactly when the elapsed time is greater than the
    threshold. From [INT_MAX + 1] milliseconds (a little under 25 days)
    up to [2^32] the narrowed value is negative: the check reports no
    timeout, whatever the threshold (which is positive), and a fire of
    the idle timer leaves the connection as it is. *)
Theorem Idle_check_wraps_with_int a (c : TcpObject.t U) (w : World) :
  get_tcp a w = Some c ->
  0 <= TcpObject.idle_timeout_ms_ c ->
  let d := Z.quot (clock w - TcpObject.last_active_ c) 1000000 in
  (MachInt.INT_MIN <= d <= MachInt.INT_MAX ->
   TcpObject.CheckIdleTimeout (clock w) c = (TcpObject.idle_timeout_ms_ c <? d)) /\
  (MachInt.INT_MAX < d < 2 ^ 32 ->
   TcpObject.CheckIdleTimeout (clock w) c = false /\
   forall tm,
     LibeventReactor.callback tm = CbIdleCheck a ->
     LibeventReactor.repeat tm = true ->
     LibeventReactor_TimerCallback tm w
     = Some (observe (ObsTimerFired (LibeventReactor.id tm)) w)).
Proof.
  intros Hc Hth d. unfold TcpObject.CheckIdleTimeout, TcpObject.elapsed_ms.
  fold d. split.
  - intros Hd. rewrite (to_int_small d Hd). reflexivity.
  - intros Hd.
    assert (E : (TcpObject.idle_timeout_ms_ c <? MachInt.to_int d) = false).
    { rewrite (to_int_second_half d Hd). apply Z.ltb_ge. lia. }
    split; [exact E|].
    intros tm Hcb Hrep. unfold LibeventReactor_TimerCallback, run_timer_cb.
    rewrite Hcb, Hrep.
    assert (Hg : get_tcp a (observe (ObsTimerFired (LibeventReactor.id tm)) w)
                 = Some c) by exact Hc.
    rewrite Hg. unfold TcpObject.CheckIdleTimeout, TcpObject.elapsed_ms.
    change (clock (observe (ObsTimerFired (LibeventReactor.id tm)) w))
      with (clock w).
    fold d. rewrite E. reflexivity.
Qed.

End Properties.

(** * Concrete runs *)

(** Closed goals are settled by evaluation, conjunct by conjunct. *)
Ltac by_computation :=
  repeat match goal with |- _ /\ _ => split end; vm_compute; reflexivity.

(** Registering [obj3] for read in a fresh reactor gives [reactor3]. *)
Example reactor3_built :
  LibeventReactor.Register (Some obj3) kEventRead LibeventReactor.new
  = Some (true, reactor3).
Proof. reflexivity. Qed.

(** C6, the claim as stated fails: with mask zero [Register] returns true
    for an object whose id is already registered in the reactor, and after
    a mask-zero registration in a fresh reactor the reactor holds no record
    of the object. *)
Lemma C6_counterexample :
  is_Some (LibeventReactor.objects_ reactor3 !! eo_unique_id obj3) /\
  LibeventReactor.Register (Some obj3) 0 reactor3 = Some (true, reactor3) /\
  (exists r',
     LibeventReactor.Register (U := nat) (Some obj3) 0 LibeventReactor.new
       = Some (true, r') /\
     LibeventReactor.objects_ r' !! eo_unique_id obj3 = None).
Proof.
  split; [|split].
  - eexists. reflexivity.
  - reflexivity.
  - eexists. split; reflexivity.
Qed.

Lemma C6_witness :
  (exists w' o',
     EventLoop_Register true (Some 0%N) 0 world0 = Some (true, w') /\
     heap w' !! 0%N = Some o' /\ 0 <= GetUniqueId o' /\
     EventLoop.objects_ (loop w') !! GetUniqueId o' = Some 0%N /\
     EventLoop.reactor_ (loop w') = EventLoop.reactor_ (loop world0)) /\
  LibeventReactor.Register (Some obj3) kEventRead reactor3 = Some (false, reactor3).
Proof.
  destruct (@C6_register_zero_mask_and_repeat nat nat) as (_ & Hloop & Hrep).
  split.
  - eexists.
    assert (E : EventLoop_Register true (Some 0%N) 0 world0 = Some (true, _))
      by (vm_compute; reflexivity).
    destruct (Hloop _ _ _ E) as (o' & H1 & H2 & H3 & H4).
    exists o'. repeat split; assumption.
  - apply Hrep.
    + discriminate.
    + simpl. lia.
    + eexists. reflexivity.
Defined.

Example world_connecting_state :
  TcpObject.state_ <$> get_tcp conn1 world_connecting = Some TcpObject.kConnecting /\
  EventLoop.objects_ (loop world_connecting) !! 1 = Some conn1.
Proof. by_computation. Qed.

Example world_connected_state :
  TcpObject.state_ <$> get_tcp conn1 world_connected = Some TcpObject.kConnected /\
  trace world_connected = [ObsNewConn conn1] /\ user world_connected = 1%nat.
Proof. by_computation. Qed.

Lemma C5_witness :
  (exists w',
     TcpObject_SendPacket true conn1 (Some [Byte.x70; Byte.x69; Byte.x6e; Byte.x67])
       world_ready = Some (true, w') /\
     output_of conn1 w' = Some [Byte.x70; Byte.x69; Byte.x6e; Byte.x67] /\
     TcpObject_SendPacket_iovec true conn1 (Some [[Byte.x70; Byte.x69]; [Byte.x6e]]) 2
       w' = Some (true, put_tcp conn1
                          (or_else (TcpObject.new 0)
                             (TcpObject.set_bev
                                (Some (TcpObject.mkBev 20 []
                                         [Byte.x70; Byte.x69; Byte.x6e; Byte.x67;
                                          Byte.x70; Byte.x69; Byte.x6e] true true))
                                <$> get_tcp conn1 w')) w')) /\
  TcpObject_SendPacket true conn1 (Some [Byte.x70]) world_connecting
  = Some (false, observe ObsError world_connecting).
Proof.
  assert (Hc : get_tcp conn1 world_ready = Some _) by (vm_compute; reflexivity).
  destruct (C5_SendPacket_contract true conn1 _ world_ready Hc) as [Hconn _].
  destruct (Hconn eq_refl _ eq_refl) as [Hsend _].
  assert (Hc' : get_tcp conn1 world_connecting = Some _) by (vm_compute; reflexivity).
  destruct (C5_SendPacket_contract true conn1 _ world_connecting Hc') as [_ Hother].
  split.
  - eexists. split; [apply Hsend; left; reflexivity|].
    split; [reflexivity|].
    match goal with |- TcpObject_SendPacket_iovec _ _ _ _ ?w' = _ =>
      assert (Hc2 : get_tcp conn1 w' = Some _) by (vm_compute; reflexivity);
      destruct (C5_SendPacket_contract true conn1 _ w' Hc2) as [Hconn2 _];
      destruct (Hconn2 eq_refl _ eq_refl) as [_ Hvec]
    end.
    change 2 with (Z.of_nat (length [[Byte.x70; Byte.x69]; [Byte.x6e]])).
    etransitivity; [apply Hvec; left; reflexivity|].
    reflexivity.
  - apply Hother. discriminate.
Defined.

(** C7, the claim as stated fails: [ScheduleLater] and [ScheduleRepeatedly]
    called with [int] milliseconds equal to 0 arm a timer that fires after
    0 microseconds. *)
Lemma C7_counterexample :
  (exists w' r' tm,
     EventLoop_ScheduleLater_ms 64 true 0 (CbUser S) world0 = Some (1, w') /\
     EventLoop.reactor_ (loop w') = Some r' /\
     LibeventReactor.timers_ r' !! 1 = Some tm /\
     LibeventReactor.timeout_us tm = 0) /\
  (exists w' r' tm,
     EventLoop_ScheduleRepeatedly_ms 64 true 0 (CbUser S) world0 = Some (1, w') /\
     EventLoop.reactor_ (loop w') = Some r' /\
     LibeventReactor.timers_ r' !! 1 = Some tm /\
     LibeventReactor.timeout_us tm = 0).
Proof.
  split; eexists _, _, _; (split; [vm_compute; reflexivity|]);
    (split; [vm_compute; reflexivity|]); split; vm_compute; reflexivity.
Qed.

(** The narrowing [static_cast<int>] after the clamp: a duration of 2^32
    milliseconds arms a timer of 0 milliseconds. *)
Example duration_narrowing :
  timer_armed false (CbUser S) 1 0
    (EventLoop_ScheduleLater 64 true (mkDuration 4294967296 1 1000) (CbUser S) world0).
Proof.
  eexists _, _, _. split; [vm_compute; reflexivity|].
  split; [vm_compute; reflexivity|]. split; [vm_compute; reflexivity|].
  split; [|split]; vm_compute; reflexivity.
Qed.

(** The 64-bit product of the cast: -9223372036854776 seconds are
    -9223372036854776000 milliseconds, 192 below the least 64-bit count;
    the product wraps around to 2^63 - 192, the clamp keeps it and the
    narrowing to [int] arms a timer of -192 milliseconds. *)
Example duration_cast_wraps :
  to_milliseconds (mkDuration (-9223372036854776) 1 1) = 9223372036854775616 /\
  timer_armed false (CbUser S) 1 (-192)
    (EventLoop_ScheduleLater 64 true (mkDuration (-9223372036854776) 1 1)
       (CbUser S) world0).
Proof.
  split; [vm_compute; reflexivity|].
  eexists _, _, _. split; [vm_compute; reflexivity|].
  split; [vm_compute; reflexivity|]. split; [vm_compute; reflexivity|].
  split; [|split]; vm_compute; reflexivity.
Qed.

(** 500 microseconds are armed as 1 millisecond; 0 [int] milliseconds as 0. *)
Lemma C7_witness :
  timer_armed false (CbUser S) 1 1
    (EventLoop_ScheduleLater 64 true (mkDuration 500 1 1000000) (CbUser S) world0) /\
  arming_posted true (CbUser S) 1 1 world0
    (EventLoop_ScheduleRepeatedly 64 false (mkDuration 500 1 1000000) (CbUser S) world0) /\
  timer_armed true (CbUser S) 1 0
    (EventLoop_ScheduleRepeatedly_ms 64 true 0 (CbUser S) world0).
Proof.
  destruct (C7_timer_delay (V := nat) 64 (CbUser S) world0 LibeventReactor.new
              notifier0 eq_refl eq_refl) as [HD Hms].
  destruct (HD (mkDuration 500 1 1000000)) as (_ & H1 & _ & _ & H4).
  { reflexivity. }
  { reflexivity. }
  { split; vm_compute; discriminate. }
  { vm_compute. discriminate. }
  destruct (Hms 0) as (_ & H2 & _).
  split; [exact H1|]. split; [exact H4|]. exact H2.
Defined.

(** The peer refuses at once (errno 111): the handle is null and the
    registry is untouched. *)
Lemma C10_witness :
  exists w',
    EventLoop_Connect true conn1 [] 6379 (Some S) (Some S)
      (mkConnectEnv true 111 20) world0 = Some (None, w') /\
    EventLoop.objects_ (loop w') = EventLoop.objects_ (loop world0) /\
    heap w' !! conn1 = None.
Proof.
  eexists.
  assert (E : EventLoop_Connect true conn1 [] 6379 (Some S) (Some S)
                (mkConnectEnv true 111 20) world0 = Some (None, _))
    by (vm_compute; reflexivity).
  destruct (C10_Connect_null_on_failure _ _ _ _ _ _ _ _ _ _ E) as (_ & H & _).
  split; [exact E|]. apply H. reflexivity.
Defined.

Example world_idle_timer :
  (LibeventReactor.timers_ <$> EventLoop.reactor_ (loop world_idle))
  = Some {[ 1 := idle_timer1 ]} /\
  (TcpObject.idle_timer_ <$> get_tcp conn1 world_idle) = Some 1 /\
  (TcpObject.idle_timeout_ms_ <$> get_tcp conn1 world_idle) = Some 200.
Proof. by_computation. Qed.

(** C9, the claim as stated fails: 200 ms after the last activity, with a
    threshold of 200 ms, the elapsed time equals the threshold, yet the
    fire of the idle timer leaves the connection connected; an
    [ActiveClose(false)] at that moment would have disconnected it. *)
Lemma C9_counterexample :
  let w := advance_clock 200000000 world_idle in
  (TcpObject.elapsed_ms (clock w) <$> get_tcp conn1 w) = Some 200 /\
  (TcpObject.idle_timeout_ms_ <$> get_tcp conn1 w) = Some 200 /\
  LibeventReactor_TimerCallback idle_timer1 w = Some (observe (ObsTimerFired 1) w) /\
  state_of conn1 (observe (ObsTimerFired 1) w) = Some TcpObject.kConnected /\
  (state_of conn1 <$> TcpObject_ActiveClose true conn1 false w)
  = Some (Some TcpObject.kDisconnected).
Proof. intros w. by_computation. Qed.

(** One millisecond later the fire closes the connection; setting the
    timeout again replaces timer 1 by timer 2. *)
Lemma C9_witness :
  let w := advance_clock 201000000 world_idle in
  (exists w',
     LibeventReactor_TimerCallback idle_timer1 w = Some w' /\
     state_of conn1 w' = Some TcpObject.kDisconnected /\
     trace w' = [ObsNewConn conn1; ObsTimerFired 1; ObsDisconnect conn1]) /\
  (exists w' r' tm,
     TcpObject_SetIdleTimeout 64 true conn1 300 world_idle = Some w' /\
     EventLoop.reactor_ (loop w') = Some r' /\
     LibeventReactor.timers_ r' !! 1 = None /\
     LibeventReactor.timers_ r' !! 2 = Some tm /\
     LibeventReactor.callback tm = CbIdleCheck conn1 /\
     LibeventReactor.repeat tm = true).
Proof.
  intros w.
  assert (Hc : get_tcp conn1 w = Some _) by (vm_compute; reflexivity).
  assert (Hr : EventLoop.reactor_ (loop w) = Some _) by (vm_compute; reflexivity).
  destruct (C9_idle_timeout 64 conn1 _ w _ Hc Hr) as [_ Hfire].
  destruct (Hfire idle_timer1 eq_refl eq_refl) as [_ Hclose].
  { split; vm_compute; discriminate. }
  destruct Hclose as [_ Hdisc]; [vm_compute; reflexivity|].
  destruct Hdisc as [Hrun Hstate].
  { split; [vm_compute; reflexivity|].
    split; [vm_compute; discriminate | eexists; vm_compute; reflexivity]. }
  { vm_compute; reflexivity. }
  assert (Hc2 : get_tcp conn1 world_idle = Some _) by (vm_compute; reflexivity).
  assert (Hr2 : EventLoop.reactor_ (loop world_idle) = Some _)
    by (vm_compute; reflexivity).
  destruct (C9_idle_timeout 64 conn1 _ world_idle _ Hc2 Hr2) as [Harm _].
  destruct (Harm 300 eq_refl) as (w' & r' & tm & H1 & H2 & H3 & H4 & H5 & H6 & H7).
  split.
  - eexists. split; [exact Hrun|]. split; [exact Hstate|].
    vm_compute; reflexivity.
  - exists w', r', tm.
    split; [exact H1|]. split; [exact H3|].
    split; [rewrite H7; vm_compute; reflexivity|].
    split; [rewrite H7; vm_compute; reflexivity|].
    split; assumption.
Defined.

(** [answer] executed on the loop's thread, and posted from another
    thread and drained by the next iteration. *)
Lemma C3_witness :
  (exists w',
     EventLoop_Execute true answer world0 = Some (0%nat, w') /\
     futures w' !! 0%nat = Some (Some (VUser 42%nat)) /\ user w' = 1%nat) /\
  (exists w3,
     EventLoop_Execute false answer world0 = Some (0%nat, world_posted) /\
     futures world_posted !! 0%nat = Some None /\
     (PipeObject.pending <$> get_pipe (EventLoop.notifier_ (loop world0)) world0)
     = Some 0%nat /\
     (PipeObject.pending
        <$> get_pipe (EventLoop.notifier_ (loop world_posted)) world_posted)
     = Some 1%nat /\
     EventLoop_Run_iteration true [] true world_posted = Some w3 /\
     futures w3 !! 0%nat = Some (Some (VUser 42%nat)) /\
     trace w3 = [ObsTaskRun 0; ObsPoll]).
Proof.
  destruct (C3_Execute answer world0) as (_ & Hon & Hoff).
  split.
  - destruct (Hon _ eq_refl) as (w' & H1 & H2 & H3).
    exists w'. split; [exact H1|]. split; [exact H2|exact H3].
  - destruct (Hoff notifier0 eq_refl)
      as (w1 & E & _ & Hpending & _ & (p1 & Hp1 & Hbyte & _) & _ & _ & Hdrain).
    assert (E2 : EventLoop_Execute false answer world0 = Some (0%nat, world_posted))
      by (vm_compute; reflexivity).
    assert (Hw1 : w1 = world_posted) by congruence. subst w1.
    assert (Hit : EventLoop_Run_iteration true [] true world_posted = Some _)
      by (vm_compute; reflexivity).
    destruct (Hdrain _ _ _ Hit) as (wpre & v & w2 & tr & tr' & Hpre & _ & Hv & Hfut & _).
    eexists. split; [exact E2|].
    split; [exact Hpending|].
    split; [reflexivity|].
    split; [rewrite Hp1; simpl; rewrite Hbyte; reflexivity|].
    split; [exact Hit|].
    split; [|vm_compute; reflexivity].
    rewrite (Hv _ eq_refl) in Hfut.
    vm_compute in Hpre. injection Hpre as <-. exact Hfut.
Defined.

Lemma world0_timers_wf : timers_wf world0.
Proof.
  intros k tm H. unfold timers_of in H. simpl in H.
  rewrite lookup_empty in H. discriminate.
Qed.

(** A timer of 50 ms is scheduled and cancelled from another thread; the
    next iteration drains both tasks, and even a poll that reports timer 1
    as expired does not run the closure: the user's counter stays 0. *)
Lemma C4_witness :
  exists w1 w2 w3,
    EventLoop_ScheduleLater_ms 64 false 50 (CbUser S) world0 = Some (1, w1) /\
    EventLoop_Cancel false 1 w1 = Some (1%nat, w2) /\
    EventLoop_Run_iteration true [PeTimer 1] true w2 = Some w3 /\
    futures w3 !! 1%nat = Some (Some (VBool true)) /\
    timers_of w3 !! 1 = None /\
    user w3 = 0%nat.
Proof.
  assert (E1 : EventLoop_ScheduleLater_ms 64 false 50 (CbUser S) world0
               = Some (1, _)) by (vm_compute; reflexivity).
  match type of E1 with
  | _ = Some (_, ?w1) =>
    assert (E2 : EventLoop_Cancel false 1 w1 = Some (1%nat, _))
      by (vm_compute; reflexivity)
  end.
  match type of E2 with
  | _ = Some (_, ?w2) =>
    assert (E3 : EventLoop_Run_iteration true [PeTimer 1] true w2 = Some _)
      by (vm_compute; reflexivity)
  end.
  destruct (C4_cancel_before_drain 64 50 (CbUser S) world0 _ _ 1 1%nat
              world0_timers_wf E1 E2 _ _ _ E3) as (H1 & H2 & _).
  eexists _, _, _. split; [exact E1|]. split; [exact E2|]. split; [exact E3|].
  split; [exact H1|]. split; [exact H2|]. vm_compute; reflexivity.
Defined.

Lemma frame3_contract : message_contract frame3.
Proof.
  intros u data. rewrite INT_MIN_eq, INT_MAX_eq. unfold frame3.
  destruct data as [|x data]; [simpl; lia|].
  destruct (Byte.eqb x Byte.x21); [simpl; lia|].
  destruct (3 <=? length (x :: data))%nat eqn:E; [|simpl; lia].
  apply Nat.leb_le in E. simpl fst. lia.
Qed.

(** The fatal framing scenario: [frame3] consumes three bytes, then
    reports an error; three bytes are drained and the connection is
    disconnected. *)
Lemma C1_witness :
  exists rs err w2 w',
    consume_spec conn1 frame3 payload 0 world_inbound rs err w2 /\
    TcpObject_OnRecvData true conn1 world_inbound = Some w' /\
    input_of conn1 w' = Some (drop (Z.to_nat (sum_positive rs)) payload) /\
    input_of conn1 w' = Some (drop 3 payload) /\
    state_of conn1 w' = Some TcpObject.kDisconnected /\
    trace w' = [ObsNewConn conn1; ObsMessage conn1 0 10 3;
                ObsMessage conn1 3 7 (-1); ObsDisconnect conn1].
Proof.
  assert (Hc : get_tcp conn1 world_inbound = Some _) by (vm_compute; reflexivity).
  match type of Hc with
  | _ = Some ?c =>
    assert (Hreg : registered conn1 c world_inbound)
      by (split; [exact Hc|]; split;
          [vm_compute; discriminate | eexists; vm_compute; reflexivity]);
    destruct (C1_consume_accounting (V := nat) conn1 c
                (TcpObject.mkBev 20 payload [] true true) frame3 world_inbound
                Hreg eq_refl eq_refl eq_refl frame3_contract)
      as (rs & err & w2 & w' & Hspec & Hrun & _ & Hin & _)
  end.
  { vm_compute. discriminate. }
  assert (E : TcpObject_OnRecvData true conn1 world_inbound = Some _)
    by (vm_compute; reflexivity).
  rewrite Hrun in E. injection E as E.
  exists rs, err, w2, w'.
  split; [rewrite <- (put_tcp_same conn1 _ world_inbound Hc) at 1; exact Hspec|].
  split; [exact Hrun|]. split; [exact Hin|].
  rewrite E. split; [|split]; vm_compute; reflexivity.
Defined.

(** C8, the claim as stated fails for timer ids: at the largest value the
    generator wraps to the smallest one, so the id is negative and the
    generator is not reset to zero; and an id that is in use is not
    skipped: with timer 1 alive, the next allocation returns 1 and the new
    timer replaces the old one. *)
Lemma C8_counterexample :
  (fst (next_timer_id 64 world_timer_max) = -9223372036854775808 /\
   timerid_generator_ (snd (next_timer_id 64 world_timer_max))
   = -9223372036854775808) /\
  (LibeventReactor.callback <$> timers_of world_timer1 !! 1 = Some (CbUser S) /\
   exists w',
     EventLoop_ScheduleLater_ms 64 true 10 (CbUser (Nat.add 7)) world_timer1
     = Some (1, w') /\
     LibeventReactor.callback <$> timers_of w' !! 1 = Some (CbUser (Nat.add 7))).
Proof.
  split; [split; vm_compute; reflexivity|].
  split; [vm_compute; reflexivity|].
  eexists. split; vm_compute; reflexivity.
Qed.

Lemma world0_registry_wf : registry_wf world0.
Proof. intros k a H. simpl in H. rewrite lookup_empty in H. discriminate. Qed.

(** With id 1 in use and the generator at [INT_MAX], the allocation wraps,
    resets and skips 1; three timers scheduled in a row get 1, 2 and 3;
    registering the notifier keeps the registry well formed. *)
Lemma C8_witness :
  (exists uid,
     0 <= uid /\ ({[ 1 := conn1 ]} : gmap Z addr) !! uid = None /\
     alloc_unique_id (alloc_fuel {[ 1 := conn1 ]}) MachInt.INT_MAX {[ 1 := conn1 ]}
     = Some (uid, uid)) /\
  alloc_unique_id (alloc_fuel {[ 1 := conn1 ]}) MachInt.INT_MAX {[ 1 := conn1 ]}
  = Some (2, 2) /\
  (timer_ids 64 3 world0 = [1; 2; 3] /\ NoDup (timer_ids 64 3 world0)) /\
  (exists w', EventLoop_Run_enter world0 = Some w' /\ registry_wf w').
Proof.
  destruct (C8_identifiers (U := nat) (V := nat) 64)
    as (Halloc & _ & Hreg & _ & _ & Htimers).
  split.
  { apply Halloc; [vm_compute; split; discriminate|].
    exists 2. split; [vm_compute; split; [reflexivity|discriminate]|].
    vm_compute. reflexivity. }
  split; [vm_compute; reflexivity|].
  split.
  { destruct (Htimers world0 3%nat) as (H1 & H2 & _);
      [reflexivity|vm_compute; discriminate|vm_compute; discriminate|].
    split; [rewrite H1; vm_compute; reflexivity|exact H2]. }
  assert (E : EventLoop_Register true (Some 0%N) kEventRead world0 = Some (true, _))
    by (vm_compute; reflexivity).
  eexists. split.
  - vm_compute. reflexivity.
  - eapply Hreg; [exact world0_registry_wf|exact E].
Defined.


Lemma world_ready_registry_wf : registry_wf world_ready.
Proof. apply registry_wf_check. vm_compute. reflexivity. Qed.

(** C2: the code departs from the claim on the receive path.
    [OnRecvData] does not test the state of the connection, as [OnEvent],
    [SendPacket], [ActiveClose] and [Connect] do. The connection of
    [world_ready], whose handle the caller of [Connect] holds, is closed
    with [ActiveClose]: it is [kDisconnected], [on_disconnect] was
    delivered, it is out of the registry, and its bufferevent is still
    enabled for reading with [OnRecvData] installed. When three more bytes
    arrive, [OnRecvData] hands them to [on_message], which counts one more
    message: a user callback for a connection in a terminal state. When
    instead a byte arrives for which [on_message] returns a negative
    result, [OnRecvData] calls [HandleDisconnect] for the disconnected
    connection, and its assertion [state_ == kConnected] fails. *)
Lemma C2_receive_after_close :
  TcpObject_ActiveClose true conn1 false world_ready = Some world_closed /\
  state_of conn1 world_closed = Some TcpObject.kDisconnected /\
  trace world_closed = [ObsNewConn conn1; ObsDisconnect conn1] /\
  ~ is_registered conn1 world_closed /\
  (c ← get_tcp conn1 world_closed; b ← TcpObject.bev_ c;
   Some (TcpObject.read_enabled b, TcpObject.readcb_set b)) = Some (true, true) /\
  (exists w',
     bufferevent_readcb true conn1 [Byte.x61; Byte.x62; Byte.x63] world_closed
     = Some w' /\
     state_of conn1 w' = Some TcpObject.kDisconnected /\
     trace w' = trace world_closed ++ [ObsMessage conn1 0 3 3] /\
     user w' = S (user world_closed)) /\
  frame3 (user world_closed) [Byte.x21] = (-1, user world_closed) /\
  TcpObject_HandleDisconnect true conn1 world_closed = None /\
  bufferevent_readcb true conn1 [Byte.x21] world_closed = None.
Proof.
  split; [vm_compute; reflexivity|].
  split; [vm_compute; reflexivity|].
  split; [vm_compute; reflexivity|].
  split.
  { unfold is_registered. vm_compute. intros [x Hx]. discriminate. }
  split; [vm_compute; reflexivity|].
  split.
  { eexists. split; [vm_compute; reflexivity|].
    split; [vm_compute; reflexivity|].
    split; vm_compute; reflexivity. }
  split; [vm_compute; reflexivity|].
  split; vm_compute; reflexivity.
Qed.

(** The connection of [world_ready] is closed and the late events follow:
    it is out of the registry after the close and after the late events,
    its state is still [kDisconnected], the callbacks about its life are
    the same two, and [on_disconnect] was made once. *)
Lemma terminal_states_absorbing_witness :
  state_of conn1 world_closed = Some TcpObject.kDisconnected /\
  state_of conn1 world_after = Some TcpObject.kDisconnected /\
  ~ is_registered conn1 world_closed /\
  ~ is_registered conn1 world_after /\
  lifecycle conn1 (trace world_after) = lifecycle conn1 (trace world_closed) /\
  (length (ends conn1 (trace world_after)) <= 1)%nat.
Proof.
  assert (Hreact : is_Some (EventLoop.reactor_ (loop world_ready)))
    by (vm_compute; eexists; reflexivity).
  assert (Hs : state_of conn1 world_ready = Some TcpObject.kConnected)
    by (vm_compute; reflexivity).
  assert (Hends : ends conn1 (trace world_ready) = [])
    by (vm_compute; reflexivity).
  assert (E1 : run 64 [ActActiveClose true conn1 false] world_ready
               = Some world_closed) by (vm_compute; reflexivity).
  assert (E2 : run 64 late_events world_closed = Some world_after)
    by (vm_compute; reflexivity).
  destruct (terminal_states_absorbing 64 conn1 _ _ world_ready world_closed world_after
              TcpObject.kConnected world_ready_registry_wf Hreact Hs eq_refl
              Hends E1 E2)
    as (s1 & s' & Hs1 & Hs' & Hle & _ & Hterm).
  assert (Es1 : s1 = TcpObject.kDisconnected)
    by (vm_compute in Hs1; congruence).
  subst s1. destruct (Hterm eq_refl) as (Hn1 & Hn' & -> & Hl).
  split; [exact Hs1|]. split; [exact Hs'|].
  split; [exact Hn1|]. split; [exact Hn'|].
  split; [exact Hl|exact Hle].
Defined.

(** ** The reactor's tables, on [reactor3] *)

(** Registering [obj3] in a fresh reactor and unregistering it again. *)
Lemma Reactor_Unregister_undoes_Register_witness :
  LibeventReactor.Register (Some obj3) kEventRead LibeventReactor.new
  = Some (true, reactor3) /\
  LibeventReactor.Unregister (Some obj3) reactor3
  = (LibeventReactor.new : LibeventReactor.t nat).
Proof.
  destruct (Reactor_Unregister_undoes_Register (U := nat) obj3 LibeventReactor.new)
    as [_ H].
  destruct (H kEventRead) as (r' & HR & _ & HU);
    [discriminate | simpl; lia | reflexivity |].
  assert (E : r' = reactor3) by (rewrite reactor3_built in HR; congruence).
  subst r'. split; [exact HR|exact HU].
Defined.

(** [obj3] watches its fd for read; [Modify] with the write bit alone
    leaves a write watch and no read watch. *)
Lemma Reactor_Modify_sets_the_mask_witness :
  exists r' obj',
    LibeventReactor.Modify (Some obj3) kEventWrite reactor3 = Some (true, r') /\
    LibeventReactor.objects_ r' !! 3 = Some obj' /\
    LibeventReactor.read_event obj' = None /\
    is_Some (LibeventReactor.write_event obj') /\
    LibeventReactor.Modify (Some obj3) kEventWrite r' = Some (true, r').
Proof.
  destruct (Reactor_Modify_sets_the_mask (U := nat) obj3 kEventWrite reactor3)
    as [_ H].
  destruct (H (LibeventReactor.mkObject
                 (Some (LibeventReactor.mkEvent 11 18 LibeventReactor.OnReadable 7%N))
                 None 7%N))
    as (r' & obj' & HM & Hobj & Hrd & Hwr & _ & _ & _ & _ & _ & Hagain);
    [vm_compute; reflexivity | reflexivity |].
  exists r', obj'. split; [exact HM|]. split; [exact Hobj|].
  split.
  - destruct (LibeventReactor.read_event obj') as [e|] eqn:E; [|reflexivity].
    exfalso. apply (proj1 Hrd); [eauto|reflexivity].
  - split; [apply Hwr; discriminate|exact Hagain].
Defined.

(** A timer armed under the free id 1 and cancelled again. *)
Lemma Reactor_Cancel_removes_one_timer_witness :
  LibeventReactor.Cancel 1
    (LibeventReactor.Schedule 1 50 (CbUser S) false LibeventReactor.new)
  = (true, (LibeventReactor.new : LibeventReactor.t nat)).
Proof.
  destruct (Reactor_Cancel_removes_one_timer (U := nat) 1 LibeventReactor.new)
    as (_ & _ & _ & _ & _ & H).
  apply H. reflexivity.
Defined.

(** ** The registry of the loop, on [world0] *)

Lemma world0_reactor_within : reactor_within world0.
Proof.
  intros r k Hr Hk. unfold world0 in Hr. simpl in Hr. injection Hr as <-.
  simpl in Hk. rewrite lookup_empty in Hk. destruct Hk as [x Hx]. discriminate.
Qed.

Lemma world_fresh_conn_reactor_within : reactor_within world_fresh_conn.
Proof.
  intros r k Hr Hk. unfold world_fresh_conn, world0 in Hr. simpl in Hr.
  injection Hr as <-.
  simpl in Hk. rewrite lookup_empty in Hk. destruct Hk as [x Hx]. discriminate.
Qed.

Lemma world0_free_id :
  exists k, 0 < k <= MachInt.INT_MAX /\
            EventLoop.objects_ (loop world0) !! k = None.
Proof. exists 1. split; [vm_compute; split; [reflexivity|discriminate]|reflexivity]. Qed.

(** The notifier of a fresh loop is registered for reading under id 1. *)
Lemma EventLoop_Register_never_refused_witness :
  exists w' r',
    EventLoop_Register true (Some 0%N) kEventRead world0 = Some (true, w') /\
    EventLoop.objects_ (loop w') = {[ 1 := 0%N ]} /\
    EventLoop.reactor_ (loop w') = Some r' /\
    is_Some (LibeventReactor.objects_ r' !! 1).
Proof.
  destruct (EventLoop_Register_never_refused (V := nat) world0
              world0_reactor_within) as [H _].
  destruct (H 0%N (HPipe notifier0) kEventRead)
    as (uid & w' & r' & HE & _ & _ & Hobjs & _ & Hr' & Hrec);
    [reflexivity | reflexivity | eexists; reflexivity
    | vm_compute; split; discriminate | exact world0_free_id |].
  assert (E : EventLoop_Register true (Some 0%N) kEventRead world0
              = Some (true, world_running)) by (vm_compute; reflexivity).
  assert (Ew : w' = world_running)
    by (pose proof (eq_trans (eq_sym HE) E) as Hx; injection Hx; auto).
  subst w'.
  assert (Euid : uid = 1).
  { assert (Hl : EventLoop.objects_ (loop world_running) !! uid = Some 0%N)
      by (rewrite Hobjs; apply lookup_insert_eq).
    assert (Hs : EventLoop.objects_ (loop world_running) = {[ 1 := 0%N ]})
      by (vm_compute; reflexivity).
    rewrite Hs in Hl. apply lookup_singleton_Some in Hl as [Hl _]. auto. }
  subst uid. exists world_running, r'.
  split; [exact E|]. split; [vm_compute; reflexivity|].
  split; [exact Hr'|]. apply Hrec. discriminate.
Defined.

Lemma world_registered_built :
  EventLoop_Register true (Some conn1) 0 world_fresh_conn
  = Some (true, world_registered).
Proof. vm_compute. reflexivity. Qed.

(** A connection registered with the mask zero is refused a read watch. *)
Lemma EventLoop_Modify_refused_after_mask_zero_witness :
  EventLoop_Modify true (Some conn1) kEventRead world_registered
  = Some (false, world_registered).
Proof.
  exact (EventLoop_Modify_refused_after_mask_zero conn1 world_fresh_conn
           world_registered world_fresh_conn_reactor_within
           world_registered_built kEventRead).
Defined.

(** The notifier, registered by the entry of [Run] and unregistered
    again, cannot be registered a second time. *)
Lemma EventLoop_Unregister_is_final_witness :
  exists w2,
    EventLoop_Unregister true (Some 0%N) world_running = Some w2 /\
    EventLoop.objects_ (loop w2) = ∅ /\
    EventLoop.reactor_ (loop w2) = Some LibeventReactor.new /\
    uid_of 0%N w2 = Some 1 /\
    EventLoop_Register true (Some 0%N) kEventRead w2 = None.
Proof.
  assert (E : EventLoop_Register true (Some 0%N) kEventRead world0
              = Some (true, world_running)) by (vm_compute; reflexivity).
  destruct (EventLoop_Unregister_is_final 0%N kEventRead world0 world_running
              world0_reactor_within E)
    as (w2 & uid & HU & Hobjs & Hr & _ & _ & Huid & _ & Hreg & _ & _).
  exists w2. split; [exact HU|]. split; [exact Hobjs|]. split; [exact Hr|].
  split; [|apply Hreg].
  assert (EU : exists w2', EventLoop_Unregister true (Some 0%N) world_running
                           = Some w2' /\ uid_of 0%N w2' = Some 1)
    by (eexists; split; vm_compute; reflexivity).
  destruct EU as (w2' & HU' & Huid').
  assert (Ew : w2 = w2')
    by (pose proof (eq_trans (eq_sym HU) HU') as Hx; injection Hx; auto).
  subst w2'. exact Huid'.
Defined.

(** The entry of [Run] on a fresh loop. *)
Lemma Run_enter_arms_the_wakeup_witness :
  exists w1 uid r1,
    EventLoop_Run_enter world0 = Some w1 /\
    EventLoop.objects_ (loop w1) = <[uid := 0%N]> ∅ /\
    EventLoop.reactor_ (loop w1) = Some r1 /\
    is_Some (LibeventReactor.objects_ r1 !! uid) /\
    EventLoop_Run_enter w1 = None /\
    exists fut w2 w3,
      EventLoop_Execute false answer w1 = Some (fut, w2) /\
      dispatch (PeReadable uid) w2 = Some w3 /\
      get_pipe 0%N w3 = get_pipe 0%N w1.
Proof.
  destruct (Run_enter_arms_the_wakeup (V := nat) world0 notifier0
              LibeventReactor.new world0_reactor_within)
    as (w1 & uid & r1 & HE & _ & Hobjs & _ & Hr1 & Hrec & _ & Hagain & Hwake);
    [reflexivity | reflexivity | reflexivity
    | vm_compute; split; discriminate | exact world0_free_id |].
  exists w1, uid, r1. split; [exact HE|]. split; [exact Hobjs|].
  split; [exact Hr1|]. split; [rewrite Hrec; eauto|]. split; [exact Hagain|].
  destruct (Hwake ltac:(vm_compute; lia) answer) as (fut & w2 & w3 & H1 & H2 & H3 & _).
  exists fut, w2, w3. auto.
Defined.

(** The loop of [world_ready] leaves [Run]: the connection stays
    connected, and closing it afterwards fails the assertion. *)
Lemma Run_exit_drops_every_registration_witness :
  let w' := with_reactor None (with_objects ∅ world_ready) in
  EventLoop_Run_exit [(1, conn1)] world_ready = Some w' /\
  state_of conn1 w' = Some TcpObject.kConnected /\
  ~ is_registered conn1 w' /\
  TcpObject_ActiveClose true conn1 false w' = None.
Proof.
  intros w'.
  assert (Hreact : is_Some (EventLoop.reactor_ (loop world_ready)))
    by (vm_compute; eexists; reflexivity).
  assert (Hperm : [(1, conn1)]
                  ≡ₚ map_to_list (EventLoop.objects_ (loop world_ready)))
    by (vm_compute; reflexivity).
  destruct (Run_exit_drops_every_registration 64 [(1, conn1)] world_ready
              world_ready_registry_wf Hreact Hperm)
    as (HE & _ & Hst & Hnr & _ & _ & _ & Hclose).
  split; [exact HE|]. split; [rewrite Hst; vm_compute; reflexivity|].
  split; [apply Hnr|].
  assert (Hc : exists c, registered conn1 c world_ready /\
                         TcpObject.state_ c = TcpObject.kConnected).
  { eexists. split; [split; [vm_compute; reflexivity|]|].
    - split; [vm_compute; discriminate|vm_compute; eexists; reflexivity].
    - reflexivity. }
  destruct Hc as (c & Hreg & Hsc). exact (Hclose conn1 c false Hreg Hsc).
Defined.

(** ** Timers, on [world0] *)

(** Three expiries are reported for a one-shot timer and for a repeating
    one; the user's counter ends at 1 and at 3. *)
Lemma Timers_fire_as_armed_witness :
  (exists tid w1 w2,
     EventLoop_ScheduleLater_ms 64 true 50 (CbUser S) world0 = Some (tid, w1) /\
     dispatch_all (replicate 3 (PeTimer tid)) w1 = Some w2 /\
     user w2 = 1%nat /\ timers_of w2 !! tid = None) /\
  (exists tid w1 w2,
     EventLoop_ScheduleRepeatedly_ms 64 true 50 (CbUser S) world0 = Some (tid, w1) /\
     dispatch_all (replicate 3 (PeTimer tid)) w1 = Some w2 /\
     user w2 = 3%nat /\ is_Some (timers_of w2 !! tid)).
Proof.
  destruct (Timers_fire_as_armed (V := nat) 64 world0 LibeventReactor.new eq_refl)
    as [Hlater Hrep].
  split.
  - destruct (Hlater 50 S 2%nat) as (tid & w1 & w2 & H1 & H2 & H3 & _ & H4 & _).
    exists tid, w1, w2. auto.
  - destruct (Hrep 50 S 3%nat) as (tid & w1 & w2 & tm & H1 & H2 & H3 & _ & H4 & _).
    exists tid, w1, w2. split; [exact H1|]. split; [exact H2|].
    split; [exact H3|]. rewrite H4. eauto.
Defined.

(** Timer 1 of [world_timer1] is cancelled on the loop's thread. *)
Lemma EventLoop_Cancel_on_loop_witness :
  exists w1,
    EventLoop_Cancel true 1 world_timer1 = Some (0%nat, w1) /\
    futures w1 = [Some (VBool true)] /\
    timers_of w1 !! 1 = None /\
    dispatch_all [PeTimer 1] w1 = Some w1.
Proof.
  destruct (EventLoop_Cancel_on_loop (V := nat) 1 world_timer1
              (LibeventReactor.ScheduleLater 1 50 (CbUser S) LibeventReactor.new)
              eq_refl)
    as (w1 & HC & Hf & Ht & _ & _ & _ & _ & Hstale & _).
  exists w1. split; [exact HC|].
  split; [rewrite Hf; vm_compute; reflexivity|].
  split; [rewrite Ht; apply lookup_delete_eq|exact (Hstale 1%nat)].
Defined.

(** ** The receive path, on a callback that reports too much *)

(** [greedy] is offered the ten bytes of [payload] and reports 1000: the
    ten bytes are drained and the connection stays connected. [overrun]
    reports 3, then [INT_MAX], which wraps [total_consumed] around to
    [INT_MIN + 2], then 0: the loop is left with a negative
    [total_consumed], nothing is drained, and the connection stays
    connected. *)
Lemma OnRecvData_drains_what_was_consumed_witness :
  (exists w',
     TcpObject_OnRecvData true conn1 world_greedy = Some w' /\
     trace w' = trace world_greedy ++ [ObsMessage conn1 0 10 1000] /\
     input_of conn1 w' = Some [] /\
     state_of conn1 w' = Some TcpObject.kConnected) /\
  (exists w',
     TcpObject_OnRecvData true conn1 world_overrun = Some w' /\
     trace w' = trace world_overrun
                ++ [ObsMessage conn1 0 10 3;
                    ObsMessage conn1 3 7 2147483647;
                    ObsMessage conn1 (-2147483646) (-2147483640) 0] /\
     input_of conn1 w' = Some payload /\
     state_of conn1 w' = Some TcpObject.kConnected).
Proof.
  split.
  - assert (E : exists w', TcpObject_OnRecvData true conn1 world_greedy = Some w' /\
                           trace w' = trace world_greedy ++ [ObsMessage conn1 0 10 1000] /\
                           state_of conn1 w' = Some TcpObject.kConnected)
      by (eexists; split; [|split]; vm_compute; reflexivity).
    destruct E as (w' & HE & Htr & Hst).
    assert (Hc : exists c b, get_tcp conn1 world_greedy = Some c /\
                             TcpObject.bev_ c = Some b /\
                             TcpObject.input b = payload)
      by (eexists _, _; split; [|split]; vm_compute; reflexivity).
    destruct Hc as (c & b & Hc & Hb & Hin).
    destruct (OnRecvData_drains_what_was_consumed conn1 c b world_greedy w' Hc Hb HE)
      as (tr & Htr' & _ & _ & Hexact).
    exists w'. split; [exact HE|]. split; [exact Htr|]. split; [|exact Hst].
    rewrite Htr in Htr'. apply app_inv_head in Htr'. subst tr.
    destruct Hexact as [_ Hinput]; [vm_compute; discriminate|].
    rewrite Hinput, Hin. vm_compute. reflexivity.
  - assert (E : exists w',
                TcpObject_OnRecvData true conn1 world_overrun = Some w' /\
                trace w' = trace world_overrun
                           ++ [ObsMessage conn1 0 10 3;
                               ObsMessage conn1 3 7 2147483647;
                               ObsMessage conn1 (-2147483646) (-2147483640) 0] /\
                state_of conn1 w' = Some TcpObject.kConnected)
      by (eexists; split; [|split]; vm_compute; reflexivity).
    destruct E as (w' & HE & Htr & Hst).
    assert (Hc : exists c b, get_tcp conn1 world_overrun = Some c /\
                             TcpObject.bev_ c = Some b /\
                             TcpObject.input b = payload)
      by (eexists _, _; split; [|split]; vm_compute; reflexivity).
    destruct Hc as (c & b & Hc & Hb & Hin).
    destruct (OnRecvData_drains_what_was_consumed conn1 c b world_overrun w' Hc Hb HE)
      as (tr & Htr' & _ & Hnone & _).
    exists w'. split; [exact HE|]. split; [exact Htr|]. split; [|exact Hst].
    rewrite Htr in Htr'. apply app_inv_head in Htr'. subst tr.
    rewrite <- Hin. apply Hnone. vm_compute. discriminate.
Defined.

(** ** The idle clock, on [world_idle] *)

(** 300 ms after its construction the connection of [world_idle], whose
    threshold is 200 ms, sends a byte; the idle check that follows closes
    it all the same. *)
Lemma Idle_clock_counts_receipts_only_witness :
  let w := advance_clock 300000000 world_idle in
  exists w1 w2,
    TcpObject_SendPacket true conn1 (Some [Byte.x61]) w = Some (true, w1) /\
    last_active_of conn1 w1 = Some 0 /\
    LibeventReactor_TimerCallback idle_timer1 w1 = Some w2 /\
    state_of conn1 w2 = Some TcpObject.kDisconnected.
Proof.
  intros w.
  assert (Hc : exists c, get_tcp conn1 w = Some c /\
                         TcpObject.last_active_ c = 0 /\
                         TcpObject.state_ c = TcpObject.kConnected /\
                         0 <= TcpObject.unique_id_ c /\
                         is_Some (EventLoop.objects_ (loop w) !! TcpObject.unique_id_ c)).
  { eexists. split; [vm_compute; reflexivity|]. split; [reflexivity|].
    split; [reflexivity|]. split; [vm_compute; discriminate|].
    vm_compute. eexists. reflexivity. }
  destruct Hc as (c & Hc & Hla & Hst & Hge & Hin).
  assert (Hs : exists w1, TcpObject_SendPacket true conn1 (Some [Byte.x61]) w
                          = Some (true, w1) /\ clock w1 = 300000000)
    by (eexists; split; vm_compute; reflexivity).
  destruct Hs as (w1 & Hs & Hclk).
  destruct (Idle_clock_counts_receipts_only (V := nat) 64 conn1 c w Hc)
    as (Hsend & _ & _ & _ & Hclose).
  destruct (Hclose [Byte.x61] w1 idle_timer1) as (w2 & Hfire & Hst2 & _);
    [split; [exact Hc|split; assumption] | exact Hst | exact Hs
    | reflexivity | reflexivity | |].
  - rewrite Hclk. unfold TcpObject.elapsed_ms. rewrite Hla.
    assert (Ht : TcpObject.idle_timeout_ms_ c = 200).
    { assert (E : (TcpObject.idle_timeout_ms_ <$> get_tcp conn1 w) = Some 200)
        by (vm_compute; reflexivity).
      rewrite Hc in E. injection E as E. exact E. }
    rewrite Ht. vm_compute. reflexivity.
  - exists w1, w2. split; [exact Hs|].
    split; [rewrite (Hsend _ _ _ _ Hs), Hla; reflexivity|].
    split; [exact Hfire|exact Hst2].
Defined.


(** ** What ends a connection, on [world_ready] *)

(** An error event without the end-of-file bit leaves the connected
    connection of [world_ready] connected, and nothing is delivered. *)
Lemma Only_close_paths_end_a_connection_witness :
  exists w',
    step 64 (ActOnEvent conn1 32) world_ready = Some w' /\
    state_of conn1 w' = Some TcpObject.kConnected /\
    lifecycle conn1 (trace w') = lifecycle conn1 (trace world_ready).
Proof.
  assert (E : exists w', step 64 (ActOnEvent conn1 32) world_ready = Some w')
    by (eexists; vm_compute; reflexivity).
  destruct E as (w' & HE).
  destruct (Only_close_paths_end_a_connection (V := nat) 64 conn1
              (ActOnEvent conn1 32) world_ready w') as (Hst & Htr);
    [vm_compute; reflexivity | vm_compute; reflexivity | exact HE |].
  exists w'. split; [exact HE|]. split; [exact Hst|exact Htr].
Defined.


(** ** Accepting a connection, on [world0] *)

(** The fresh loop accepts a socket from a peer with address "1" and port
    80: the callback [S] runs once on a connected connection, which is
    then in the registry. *)
Lemma Accepted_connection_is_connected_and_registered_witness :
  exists w' uid,
    TcpListenerObj_OnNewConnection (Some S) conn1 9 [Byte.x31] 80 true world0
    = Some w' /\
    state_of conn1 w' = Some TcpObject.kConnected /\
    uid_of conn1 w' = Some uid /\
    EventLoop.objects_ (loop w') !! uid = Some conn1 /\
    user w' = 1%nat /\
    trace w' = [ObsTaskRun 0; ObsNewConn conn1].
Proof.
  destruct (Accepted_connection_is_connected_and_registered (V := nat)
              conn1 9 [Byte.x31] 80 world0 world0_reactor_within)
    as (_ & _ & H);
    [eexists; reflexivity | vm_compute; split; discriminate
    | exact world0_free_id | reflexivity |].
  destruct (H S) as (_ & w' & c & uid & r & HE & Hc & Hst & Hid & _ & _ & _ & _
                     & _ & Hobjs & _ & _ & _ & Hu & Htr & _);
    [discriminate | discriminate |].
  exists w', uid. split; [exact HE|].
  split; [unfold state_of; rewrite Hc; simpl; rewrite Hst; reflexivity|].
  split.
  - unfold uid_of. unfold get_tcp in Hc.
    destruct (heap w' !! conn1) as [[p|c0]|]; try discriminate.
    injection Hc as ->. simpl. rewrite Hid. reflexivity.
  - split; [rewrite Hobjs; apply lookup_insert_eq|].
    split; [exact Hu|exact Htr].
Defined.


(** On the fresh loop, the accepted connection can be closed after
    [create_conn] has returned, not before. *)
Lemma Accept_callback_precedes_registration_witness :
  exists wmid w' w'',
    create_conn conn1 (Some S) 9 [Byte.x31] 80 true world0 = Some w' /\
    EventLoop_Register true (Some conn1) 0 wmid = Some (true, w') /\
    user wmid = 1%nat /\
    TcpObject_ActiveClose true conn1 false wmid = None /\
    TcpObject_ActiveClose true conn1 false w' = Some w'' /\
    state_of conn1 w'' = Some TcpObject.kDisconnected.
Proof.
  destruct (Accept_callback_precedes_registration (V := nat) conn1 S 9
              [Byte.x31] 80 world0 world0_reactor_within)
    as (wmid & w' & w'' & uid & _ & HC & HR & _ & _ & Hu & _ & _ & Hmid & _
        & _ & _ & Hafter & Hst & _);
    [eexists; reflexivity | vm_compute; split; discriminate
    | exact world0_free_id |].
  exists wmid, w', w''. split; [exact HC|]. split; [exact HR|].
  split; [exact Hu|]. split; [apply Hmid|]. split; [apply Hafter|exact Hst].
Defined.


(** ** The idle timer after the close, on [world_idle] *)

(** 300 ms after its construction the connection of [world_idle] is
    closed by its idle check; the timer stays armed until the connection
    is destroyed. *)
Lemma Idle_timer_outlives_the_close_witness :
  let w := advance_clock 300000000 world_idle in
  exists w1 w2 r1,
    dispatch (PeTimer 1) w = Some w1 /\
    state_of conn1 w1 = Some TcpObject.kDisconnected /\
    EventLoop.reactor_ (loop w1) = Some r1 /\
    LibeventReactor.timers_ r1 !! 1 = Some idle_timer1 /\
    dispatch (PeTimer 1) w1 = Some (observe (ObsTimerFired 1) w1) /\
    TcpObject_destroy true conn1 w1 = Some w2 /\
    dispatch (PeTimer 1) w2 = Some w2.
Proof.
  intros w.
  assert (Hc : exists c r,
             get_tcp conn1 w = Some c /\
             0 <= TcpObject.unique_id_ c /\
             is_Some (EventLoop.objects_ (loop w) !! TcpObject.unique_id_ c) /\
             TcpObject.state_ c = TcpObject.kConnected /\
             TcpObject.idle_timer_ c = 1 /\
             EventLoop.reactor_ (loop w) = Some r /\
             LibeventReactor.timers_ r !! 1 = Some idle_timer1 /\
             TcpObject.idle_timeout_ms_ c < TcpObject.elapsed_ms (clock w) c).
  { eexists _, _. split; [vm_compute; reflexivity|].
    split; [vm_compute; discriminate|].
    split; [vm_compute; eexists; reflexivity|].
    split; [reflexivity|]. split; [reflexivity|].
    split; [vm_compute; reflexivity|].
    split; [vm_compute; reflexivity|vm_compute; reflexivity]. }
  destruct Hc as (c & r & Hc & Hge & Hin & Hst & Hidle & Hr & Htm & Hold).
  destruct (Idle_timer_outlives_the_close (V := nat) conn1 1 idle_timer1 c w r
              notifier0)
    as (w1 & r1 & Hfire & Hst1 & Hr1 & Ht1 & Hlate & (w2 & r2 & Hd & _ & _ & _ & Hstale) & _);
    [split; [exact Hc|split; assumption] | exact Hst | exact Hidle
    | discriminate | exact Hr | exact Htm | reflexivity | reflexivity
    | reflexivity | vm_compute; reflexivity | exact Hold |].
  exists w1, w2, r1. split; [exact Hfire|]. split; [exact Hst1|].
  split; [exact Hr1|]. split; [rewrite Ht1; exact Htm|].
  split; [|split; [exact Hd|exact Hstale]].
  pose proof (Hlate 0) as H0.
  assert (E : advance_clock 0 w1 = w1).
  { unfold advance_clock. rewrite Z.add_0_r. destruct w1; reflexivity. }
  rewrite E in H0. exact H0.
Defined.


(** ** The outcome of a connect, on [world_fresh_conn] *)

(** The connect of [world_fresh_conn] is answered by an error event: the
    connection has failed and the registry is empty again. *)
Lemma Connect_is_settled_by_its_first_event_witness :
  exists wc w',
    TcpObject_Connect true conn1 [] 6379 env_ok world_fresh_conn = Some (true, wc) /\
    TcpObject_OnEvent true conn1 32 wc = Some w' /\
    state_of conn1 w' = Some TcpObject.kFailed /\
    EventLoop.objects_ (loop w') = ∅ /\
    trace w' = [ObsError].
Proof.
  assert (E : exists wc, TcpObject_Connect true conn1 [] 6379 env_ok world_fresh_conn
                         = Some (true, wc))
    by (eexists; vm_compute; reflexivity).
  destruct E as (wc & HC).
  destruct (Connect_is_settled_by_its_first_event (V := nat) conn1 [] 6379
              env_ok world_fresh_conn wc world_fresh_conn_reactor_within HC)
    as (c & uid & Hc & _ & _ & _ & _ & _ & Hev).
  destruct (Hev 32) as (w' & HE & _ & _ & _ & Hfail).
  destruct Hfail as (Hst & Hobjs & _ & Htr); [reflexivity|].
  assert (Ec : TcpObject.on_fail_ c = None).
  { assert (E : (TcpObject.on_fail_ <$> get_tcp conn1 world_fresh_conn)
                = Some None) by reflexivity.
    rewrite Hc in E. injection E as E. exact E. }
  rewrite Ec in Htr.
  exists wc, w'. split; [exact HC|]. split; [exact HE|]. split; [exact Hst|].
  split; [rewrite Hobjs; reflexivity|exact Htr].
Defined.


(** ** The two tables along a run, on [world_fresh_conn] *)

Lemma world_fresh_conn_tables_inv : tables_inv world_fresh_conn.
Proof.
  split; [exact world_fresh_conn_reactor_within|].
  vm_compute. split; discriminate.
Qed.

(** A connect is started and fails; the notifier is then registered for
    reading without being refused. *)
Lemma Register_is_never_refused_along_a_run_witness :
  exists w' w'',
    run 64 [ActConnect conn1 [] 6379 env_ok; ActOnEvent conn1 32] world_fresh_conn
    = Some w' /\
    EventLoop_Register true (Some 0%N) kEventRead w' = Some (true, w'') /\
    tables_inv w''.
Proof.
  assert (E : exists w',
             run 64 [ActConnect conn1 [] 6379 env_ok; ActOnEvent conn1 32]
               world_fresh_conn = Some w' /\
             heap w' !! 0%N = Some (HPipe notifier0) /\
             is_Some (EventLoop.reactor_ (loop w')) /\
             EventLoop.objects_ (loop w') !! 1 = None).
  { eexists. split; [vm_compute; reflexivity|].
    split; [vm_compute; reflexivity|].
    split; [vm_compute; eexists; reflexivity|vm_compute; reflexivity]. }
  destruct E as (w' & Hrun & Hn & Hr & Hfree).
  destruct (Register_is_never_refused_along_a_run (V := nat) 64 _ _ _
              world_fresh_conn_tables_inv Hrun) as [_ H].
  destruct (H 0%N (HPipe notifier0) kEventRead Hn eq_refl Hr)
    as (w'' & uid & HReg & _ & _ & _ & _ & Hinv).
  - exists 1. split; [vm_compute; split; [reflexivity|discriminate]|exact Hfree].
  - exists w', w''. split; [exact Hrun|]. split; [exact HReg|exact Hinv].
Defined.


(** ** Leaving Run, on [world_running] *)

(** [answer] is posted to the running loop and the loop is stopped: the
    loop takes no turn, and [answer] is still in the inbox, not run, when
    [Run] has cleared the registry. *)
Lemma Run_ends_only_by_Stop_witness :
  exists w1 w2 w3,
    EventLoop_Execute false answer world_running = Some (0%nat, w1) /\
    EventLoop_Stop w1 = Some w2 /\
    EventLoop_Run_loop [(true, [PeReadable 1], true)] world_running = None /\
    EventLoop_Run_loop [(true, [PeReadable 1], true)] w2 = Some w2 /\
    EventLoop_Run_exit [(1, 0%N)] w2 = Some w3 /\
    EventLoop.tasks_ (loop w3) = [mkTask answer 0] /\
    futures w3 = [None] /\ trace w3 = [] /\ user w3 = 0%nat.
Proof.
  assert (E : exists w1 w2 w3,
             EventLoop_Execute false answer world_running = Some (0%nat, w1) /\
             EventLoop_Stop w1 = Some w2 /\
             EventLoop_Run_exit [(1, 0%N)] w2 = Some w3)
    by (eexists _, _, _; split; [|split]; vm_compute; reflexivity).
  destruct E as (w1 & w2 & w3 & HE & HS & HX).
  destruct (Run_ends_only_by_Stop (V := nat) [(true, [PeReadable 1], true)]
              [(1, 0%N)] answer 0%nat world_running w1 w2 eq_refl HE HS)
    as (_ & Hloop & _ & Hstop & Hexit).
  destruct (Hexit w3 HX) as (Ht & Hf & _ & Htr & Hu & _).
  exists w1, w2, w3. split; [exact HE|]. split; [exact HS|].
  split; [exact Hloop|]. split; [exact Hstop|]. split; [exact HX|].
  split; [exact Ht|]. split; [exact Hf|]. split; [exact Htr|exact Hu].
Defined.


(** ** Several closures posted before a turn, on [world_running] *)

(** Two closures are posted to the running loop; one turn runs both, the
    second on the state the first one left, and one of the two bytes
    written to the notifier is still in the pipe. *)
Lemma One_turn_runs_all_posted_closures_witness :
  exists w1 w2,
    post_all [fun u => (42, S u); fun u => (u, u + 10)]%nat world_running
    = Some w1 /\
    EventLoop_Run_iteration true [PeReadable 1] true w1 = Some w2 /\
    user w2 = 11%nat /\
    futures w2 = [Some (VUser 42%nat); Some (VUser 1%nat)] /\
    (PipeObject.pending <$> get_pipe 0%N w2) = Some 1%nat /\
    trace w2 = [ObsTaskRun 0; ObsTaskRun 1; ObsPoll].
Proof.
  assert (H : exists p r obj ev,
             get_pipe (EventLoop.notifier_ (loop world_running)) world_running
             = Some p /\
             PipeObject.pending p = 0%nat /\
             (0 < PipeObject.capacity p)%nat /\
             (2 <= PipeObject.capacity p)%nat /\
             EventLoop.reactor_ (loop world_running) = Some r /\
             LibeventReactor.objects_ r !! 1 = Some obj /\
             LibeventReactor.read_event obj = Some ev /\
             LibeventReactor.ev_arg ev = 0%N).
  { eexists _, _, _, _. split; [vm_compute; reflexivity|].
    split; [reflexivity|].
    split; [apply Nat.ltb_lt; vm_compute; reflexivity|].
    split; [apply Nat.leb_le; vm_compute; reflexivity|].
    split; [vm_compute; reflexivity|]. split; [vm_compute; reflexivity|].
    split; reflexivity. }
  destruct H as (p & r & obj & ev & Hp & Hpend & Hcap & Hcap2 & Hr & Hobj & Hev & Harg).
  destruct (One_turn_runs_all_posted_closures (V := nat)
              [fun u => (42, S u); fun u => (u, u + 10)]%nat
              world_running p r 1 obj ev Hp)
    as (w1 & w2 & Hpost & _ & _ & _ & Hturn & _ & Hu & Hf & Hpipe & Htr);
    [rewrite Hpend; lia | exact Hcap | discriminate | reflexivity | exact Hr
    | exact Hobj | exact Hev | exact Harg |].
  exists w1, w2. split; [exact Hpost|]. split; [exact Hturn|].
  split; [exact Hu|]. split; [exact Hf|]. split; [|exact Htr].
  refine (eq_trans Hpipe _). rewrite Hpend. simpl. f_equal.
  rewrite Nat.min_r by exact Hcap2. reflexivity.
Defined.


(** ** The order of the states, on [world_connecting] *)

(** The connecting connection becomes connected, [on_new_conn] is
    delivered once, and a second [Connect] is refused. *)
Lemma Connection_states_only_advance_witness :
  exists w',
    run 64 [ActOnEvent conn1 BEV_EVENT_CONNECTED; ActTick 5] world_connecting
    = Some w' /\
    state_of conn1 w' = Some TcpObject.kConnected /\
    new_conns conn1 (trace w') = [ObsNewConn conn1] /\
    TcpObject_Connect true conn1 [] 6379 env_ok w'
    = Some (false, observe ObsError w').
Proof.
  assert (E : exists w',
             run 64 [ActOnEvent conn1 BEV_EVENT_CONNECTED; ActTick 5]
               world_connecting = Some w' /\
             state_of conn1 w' = Some TcpObject.kConnected /\
             new_conns conn1 (trace w') = [ObsNewConn conn1])
    by (eexists; split; [|split]; vm_compute; reflexivity).
  destruct E as (w' & Hrun & Hst & Hnew).
  destruct (Connection_states_only_advance (V := nat) 64 conn1 _
              world_connecting w' TcpObject.kConnecting eq_refl Hrun)
    as (s' & extra & _ & _ & _ & _ & _ & Hconn).
  exists w'. split; [exact Hrun|]. split; [exact Hst|]. split; [exact Hnew|].
  apply Hconn. discriminate.
Defined.


(** ** The idle check and the width of [int], on [world_idle] *)

(** 25 days after its last activity the connection of [world_idle], whose
    threshold is 200 ms, is not closed by its idle check. *)
Lemma Idle_check_wraps_with_int_witness :
  let w := advance_clock (25 * 86400 * 1000000000) world_idle in
  LibeventReactor_TimerCallback idle_timer1 w = Some (observe (ObsTimerFired 1) w) /\
  state_of conn1 (observe (ObsTimerFired 1) w) = Some TcpObject.kConnected.
Proof.
  intros w.
  assert (Hc : exists c, get_tcp conn1 w = Some c /\
                         TcpObject.idle_timeout_ms_ c = 200 /\
                         TcpObject.last_active_ c = 0)
    by (eexists; split; [vm_compute; reflexivity|split; reflexivity]).
  destruct Hc as (c & Hc & Hth & Hla).
  destruct (Idle_check_wraps_with_int (V := nat) conn1 c w Hc) as [_ H];
    [rewrite Hth; lia|].
  destruct H as [_ H].
  - rewrite Hla. vm_compute. split; reflexivity.
  - split; [apply (H idle_timer1); reflexivity|].
    vm_compute. reflexivity.
Defined.
